(* ===== verification/_CoqProject ===== *)
-Q . S2P
Prelude.v
Rxjs.v
Actions.v
Dialog.v
Effects.v
Samples.v
Slots.v
Reactions.v
Machine.v
Order.v
Store.v
Typing.v
Latest.v
Outcomes.v
Coordinator.v
Refinement.v
Progress.v
Backend.v
Service.v
System.v
Queues.v
Updates.v
Transport.v
Async.v
Schedules.v
Timing.v
Settling.v
Closing.v
