(* ===== verification/Prelude.v ===== *)
(** * Verification of the Todo effects (ngrx-todo)

    ** The program

    The repository's source is one class, [TodoEffects]
    (src/src/app/todo/store/effects/todo.effect.ts).  It holds eleven NgRx
    effects.  Each effect subscribes to the stream of dispatched actions
    ([actions$]), keeps the actions of one type ([ofType]) and reacts:

    - five request effects ([loadAll$], [load$], [create$], [update$],
      [remove$]) call a method of the injected [TodoService], subscribe to the
      observable it returns and turn what it delivers into one action:
      [map] wraps a value into the [...Success] action, [catchError] turns an
      error into the [...Failure] action.  [loadAll$] flattens its inner
      observables with [switchMap] (a new request cancels the one in flight),
      the four others with [concatMap] (a new request waits in a buffer until
      the one in flight completes);
    - three show effects open a Material dialog and store its reference in a
      field of the class ([createDialogRef], [editDialogRef],
      [removeDialogRef]);
    - three hide effects close the dialog the field refers to when
      [createSuccess], [updateSuccess] or [removeSuccess] goes by.

    The actions the request effects emit are dispatched to the store, so they
    come back through [actions$]: that is how a success reaches a hide effect.

    ** The model, file by file

    - [Prelude] (this file): handlers [S -> S * list O] (explicit state
      passing with a log of outputs), their sequencing, runs over a list of
      events, the judgements [preserves], [produces] and [spec] with their
      composition lemmas, lenses, the development's tactics and hint
      databases.
    - [Rxjs], module [Rx]: the RxJS operators the class calls, as far as it
      uses them: notifications ([Next], [Error], [Complete]), [of], [map],
      [catchError], and the two flattening operators as state machines,
      [ConcatMap] (RxJS's mergeInternals with a concurrency of one:
      [buffer], the active inner subscription, [index]) and [SwitchMap]
      ([innerSubscriber], [index]).  An inner subscription is named by the
      operator's [index] at the time it was made; a notification addressed
      to a subscription that is no longer the active one is dropped, as a
      closed subscriber does.  The class [Flatten] states what the effects
      rely on from either operator; both are instances.
    - [Actions]: the data.  [Todo] and [Failure] follow the specification's
      data model; [TodoActions.Action] has one constructor per action
      creator the class uses, with the payload the class reads or writes;
      [TodoService.Call] has one constructor per service method the class
      calls; [Slot] names the five request effects.
    - [Dialog]: the dialog service ([MatDialog.open], [MatDialogRef.close])
      with the list of open dialogs.
    - [Effects], module [TodoEffects]: the class.  [State] has the three
      fields of the class, the dialog service and the operator state of
      each request effect.  Every effect is one definition named after it
      (the source's [$] is written ['], so [loadAll$] is [loadAll']); a
      request effect has two more, its service call ([loadAll'_call]) and
      the [pipe] around the observable the call returns ([loadAll'_pipe]).
      [dispatch] passes an action to the eleven effects in the order the
      class declares them; [notify] delivers a notification of a service
      observable to the request effect that subscribed to it; an action an
      effect emits is dispatched at once ([deliver], [feedback]); [step] is
      the transition function over events [Dispatch a | Reply s i n] and
      [run] folds it over a list of events.  Since an event list is
      arbitrary, a theorem about [run] holds for every interleaving of
      user commands and service replies, late and stale replies included.
    - [Samples]: concrete todos and states for the witnesses.
    - [Slots]: one view of the five request effects ([SlotView]), so that a
      lemma about a slot is proved once and not five times.
    - [Reactions]: what one dispatched action or one notification does.
    - [Machine]: the induction principle of the machine ([step_spec]: a
      compositional relation that holds of the primitive reactions holds of
      every step and every run) and the invariant [wf].
    - [Order], [Latest], [Outcomes], [Progress]: the theorems on runs.
    - [Store], module [Store]: the loop between the store and the effects
      (an emitted action is dispatched, a dispatched action reaches the
      effects), with a queue of actions and fuel ([Store.pump]).
    - [Typing]: the types the class declares (the component of each
      dialog field, [ref_typed]; the data each show effect passes to its
      dialog, [data_typed]) and what it means for a state and for an
      output to respect them.
    - [Coordinator]: the request coordinator of the specification (slots
      that are idle or pending with a queue, sequential and latest-wins
      dispatch), written from the specification alone.
    - [Refinement]: the class implements the coordinator.
    - [Backend]: the service the constructor of the class is given, as an
      interface (class [Backend]): a state, one reaction per call that ends
      in one result, and an invariant the reactions keep.
    - [Service], modules [TodoRepository] and [Service]: the repository
      and the service of the specification, written from the specification
      (the sources hold neither): a list of todos in creation order with a
      counter for identifiers, and [exec], the reaction of the service to
      each of the five calls.  The service is a [Backend]
      ([memory_backend]).  For each todo the repository is a register:
      [written] is what a call writes to a todo, and after any calls the
      todo is what they wrote, one after the other ([exec_all_written]).
    - [System], module [System]: the class against a backend.  The user
      dispatches actions; the backend answers the call in flight of a slot
      by executing it and delivering its one result as an HTTP observable
      does ([Progress.replies]).  The theorems on the protocol are proved
      for every backend, the theorems on todos for the service on its
      repository.
    - [Queues], module [Queues]: the system as the specification sees it,
      written from the specification: the calls outstanding in each slot
      and the backend; a request joins the queue of its slot or, for
      [loadAll], replaces it; an answer executes the oldest outstanding
      call of a slot and reports its one outcome.  [queues_of] reads a
      state of the system as a state of the queues.
    - [Updates]: the order in which writes to a todo are applied in
      [System], followed through a run on the queues of the slots.
    - [Transport], module [Transport]: a transport in front of any
      backend, itself a backend ([transport_backend]): a call the
      transport rejects fails with the kind its HTTP-like status is mapped
      to ([kind_of_status]: 404, 400, 5xx, and the rest as the catch-all)
      and does not reach the service.
    - [Async], module [Async]: the class against a backend that answers
      in its own time.  A call the class makes ([sent]: one request for
      each subscription to the observable of a service call) goes on the
      [wire]; the backend executes the requests on the wire in any order
      ([Execute]); the result of an executed request waits in the [inbox]
      and reaches the class at any later time, in any order ([Deliver]),
      as the notifications of [Progress.replies].  A request [loadAll$]
      has cancelled stays in the network: it may still be executed, and
      its result may still arrive.  [coherent] is the invariant that ties
      the network to the class.
    - [Schedules]: the theorems on the runs of [Async]; its last section
      reads a run of [System] as a run of [Async] ([schedule],
      [atomic_run]), which relates the two harnesses and says nothing of
      the class.
    - [Timing]: what the repository holds of a todo after a run of [Async]
      on the service over its repository.
    - [Settling]: the measure [work] that every execution and every
      arrival decreases, the schedules of the network ([scheduled]) and
      the schedule [settle] on which the network comes to rest.
    - [Closing]: what the arrival of a success does to the dialogs in the
      runs of [Async] ([hides]: the close call of a hide effect on the
      field as it is at the arrival).

    ** What the theorems show

    - Order of service calls ([Order.service_calls_in_order]): for every
      request effect and every run, the calls made followed by the calls
      that wait are the requests dispatched, in order.
    - Latest wins ([Latest.latest_loadAll_wins],
      [Latest.loadAll_supersedes]): only the reply to the last [loadAll]
      makes [loadAll$] react; a second [loadAll] cancels the call in
      flight and calls the service at once.
    - Refinement ([Refinement.class_refines_coordinator]): every run of the
      class is a run of the specification's coordinator, with the same
      calls started and cancelled and the same outcomes, in the same order.
      So is every run of the class against the service behind a network
      ([async_refines_coordinator]), whatever the timing.
    - Refinement of the system ([Queues.system_refines_queues]): for every
      backend, every run of the system is the run of the queues on the same
      events, with the same outcomes in the same order.
      [Updates.remove_overtakes_update] is proved with it: a remove
      dispatched after an update of the same todo can be applied before
      it, since the class orders the requests of one slot only.
    - Errors ([Order.streams_never_error], [Reactions.failure_frees_slot]):
      no effect's stream errors; a failed call is reported and frees its
      slot.
    - Invariant ([Machine.reachable_wf]): every reachable state is well
      formed.
    - Outcomes ([Outcomes.http_success_one_outcome],
      [Outcomes.no_effect_loop], [Order.only_loadAll_cancels], [Latest.slots_independent],
      [Reactions.busy_request_waits]): one outcome per answered request,
      no loop through the store, no cancellation but by [loadAll$], no
      interference between slots.
    - Dialogs ([Reactions.success_closes_dialog],
      [Outcomes.show_opens_dialog], [Outcomes.no_throw_once_shown]) and the
      two defects found: a hide effect throws when its dialog was never
      shown ([Outcomes.hide_throws_before_show]), and a show action
      dispatched twice leaves a dialog open for ever
      ([Outcomes.double_show_leaks]).
    - The order of the effects is irrelevant
      ([Effects.effects_order_irrelevant]); subscriptions are numbered in
      the order of the calls ([Order.subscriptions_numbered]).
    - Types ([Typing.type_preservation]): every run keeps the fields and
      the open dialogs of their declared types and outputs only what the
      types of the effects allow.
    - Termination ([Store.store_loop_terminates]): the loop of actions
      between the store and the effects ends, since no effect answers a
      dispatched action with an action; a dialog effect without
      [dispatch: false] would loop for ever ([undispatched_tap_loops]).
    - Progress ([Progress.pending_until_answered],
      [Progress.queue_drains]): a call in flight blocks its slot until it
      is answered, and a slot whose calls are answered makes every call it
      was asked for.
    - The system ([System.service_executes_in_order] and the theorems
      after it): the testable properties of the specification, for every
      timing of the answers: calls are executed in the order of their
      dispatch, none is lost ([System.answered_slot_executes_all]), a
      created todo is new and open and is what a later load returns
      ([System.created_todo_loads]), a blank title is refused, an unknown
      or removed todo is not found, a page is bounded and in creation
      order; and the specification's scenarios, run.
    - Rejected calls ([Transport.outage_then_retry], [status_classes]): a
      call the transport rejects is reported as a failure of the kind of
      its status, [ServiceUnavailable] exactly from 500 to 599, and does
      not reach the service; dispatched again, it gives what the service
      gives.  The theorems of [System] and [Async] on the protocol hold
      with rejected calls, being proved for every backend
      ([rejected_update_does_not_block] runs one).
    - Timing ([Async.network_holds_call_in_flight],
      [Schedules.async_executes_in_order],
      [Schedules.every_result_reported_once],
      [Schedules.async_latest_loadAll_wins]): for every backend and every
      order of executions and deliveries, the network holds of a
      [concatMap] effect the call in flight and nothing else; the calls of
      such an effect are executed in the order of their dispatch; each
      executed call is reported once, by its outcome, and nothing else is
      reported for the slot; of [loadAll] only the result of the last
      request dispatched is reported, a superseded result being dropped
      when it arrives.  Every run of [Async] is a run of the class
      ([run_trace]), so the theorems on the runs of the class hold of it.
    - Writes ([Timing.last_update_wins]): on the service over its
      repository, from every coherent state and for every order of
      executions and deliveries, once the updates that were dispatched
      have been executed a todo that was not removed is as the last update
      of it says: updates take effect in the order of their submission,
      regardless of when any of them completes.
    - Termination of the network ([Settling.network_terminates]): from
      every coherent state, every schedule of executions and arrivals
      that take place has as many events as it does work; the system is
      at rest exactly when all the work is done, and until then the
      network can move.
    - Arrivals and dialogs ([Closing.arrival_closes_last_shown],
      [Closing.success_closes_dialog_opened_later]): whatever the timing,
      the success that arrives closes the dialog shown last for its
      field, or throws when none was shown; so a dialog opened while a
      request is under way is closed by the success of that request, the
      edit dialog of one todo by the update of another.  This is the
      third defect found in the dialog effects.
    - No operation is dropped ([Settling.every_request_served]): after any
      run of [Async], when the service goes on executing the first request
      on the wire and the first result goes on arriving, the system comes
      to rest; every request dispatched to a [concatMap] effect has then
      been executed, in order, and reported, once.

    ** Bounds and assumptions

    - The machine uses no fuel: [step] and [run] are structurally recursive
      on the list of events, notifications or effects, so every run is
      defined.  [Store.pump] alone has fuel, because its queue can grow;
      [Store.store_loop_terminates] shows that fuel of the length of the
      queue is enough, and [pump_mono] that more fuel changes nothing.
    - A thrown [TypeError] is an output of the step ([Thrown]); [tap] does
      not pass the action on, and the effect stays subscribed, as the
      effects error handler of NgRx resubscribes it.  NgRx from version 9
      on stops resubscribing an effect after ten errors; the model has no
      such bound, so what the theorems say of a hide effect after a throw
      ([Outcomes.no_throw_once_shown], [Reactions.success_closes_dialog])
      holds of the class up to the tenth throw of that effect.
    - The service is the environment: it is any sequence of [Reply] events.
      Theorems that need a reply of the shape an HTTP call gives (one value
      then completion, or one error) say so in their statement.
    - The class [Backend] is an assumption on that environment, not code
      of the class: a service that gives each call one result and changes
      its state with it.  It is written from the specification (one
      terminal result per call), as are its instances [memory_backend] and
      [transport_backend]; the theorems on [System] and [Async] hold for
      every instance.
    - An inner subscription is named by the number of the subscription of
      its operator ([Reply s i n] is a notification to subscription [i]
      of slot [s]).  RxJS has no such numbers: a subscriber is an object.
      The number stands for the identity of that object, and is fresh for
      each subscription ([Order.subscriptions_numbered]).
    - [offset] and [limit] of [loadAll] are natural numbers where the
      source has JavaScript numbers; the class passes them to
      [findAll] and does not compute with them.  The value
      [todoService.remove] delivers has type [unit]: [remove$] drops it
      (l. 83), so no theorem depends on what it is.
    - An action an effect emits is passed to the effects once, within the
      step that emits it ([feedback]): this is enough because no effect
      answers an outcome action with an action
      ([Outcomes.no_effect_loop], [Store.store_loop_terminates]).  The
      store, its reducers and the scheduler of the dispatch are not
      modelled; an action the user dispatches while an emitted action is
      being delivered is an event after the step.
    - The observations [in_flight], [waiting], [subscriptions], [calls],
      [emits], [field], [shows] and [closes] read the state and the
      outputs of the effects; they translate no line of their own and are
      mapped to the lines of the effects they observe.
    - In [Coordinator] a delivered value reports the success and leaves the
      request pending until its observable completes, as the class does;
      the specification speaks of one terminal event.  For the replies of
      an HTTP call the two agree ([Outcomes.http_success_one_outcome]).
      In [Service] an update names the title and the completion, as
      [update$] passes a whole todo; the specification's partial fields
      are the [Fields] of [TodoRepository.update].
    - The RxJS operators and the dialog service are models of libraries the
      class calls; they are written from the libraries' documented
      behaviour, which the specification summarises as sequential and
      latest-wins dispatch.
    - In [System] the backend executes a call at the moment it answers it,
      and a call that [loadAll$] cancelled is never answered.  [Async]
      lifts both restrictions: executions and deliveries are events of
      their own, addressed by their place on the wire and in the inbox, so
      a run fixes an arbitrary order of both, and a cancelled request may
      be executed and answered like any other.  A request that is never
      executed is a request that was lost or aborted; a result that is
      never delivered is a call that never returns.
    - [settle n] is [n] rounds of one execution and one arrival.  [work]
      rounds are enough: an execution turns a request on the wire (two
      units) into a result on its way back (one unit), an arrival takes a
      result away and lets at most one waiting request (two units) onto
      the wire (two units), and while there is work one of the two can
      take place, a request that waits having a call in flight before it
      ([execute_work], [deliver_work], [round_work]).  The schedule is one
      fair schedule among many; that the requests are executed in order
      and reported once holds on every schedule ([Schedules]), and every
      schedule whose events all take place ends within [work] events
      ([Settling.network_terminates]).
    - The rejections of [Transport] follow a schedule fixed in advance,
      for each call the status it is rejected with or none; after the
      schedule the transport is up.  The theorems hold for every schedule.
      Statuses are natural numbers, not only those HTTP defines: a status
      that is none of 404, 400 and 500 to 599 is an [UnknownError].

    ** Not modelled

    Rendering of the dialogs, the reducers and selectors of the store, the
    wire format of the HTTP transport (method, path, JSON) and the
    components: none of them is in the source file, and the class only
    calls them.  Of the HTTP client the timing ([Async]) and the reading
    of a status as a kind of failure ([Transport]) are modelled, not the
    rest of the protocol.  Of the store only
    the loop of actions is modelled.  The error handler of NgRx, which
    resubscribes an effect whose stream has failed, is not modelled: the
    version of NgRx is not part of the sources, and its versions differ in
    how often they resubscribe; the model keeps every effect subscribed.
    A dialog closed by the user and not by the class is not an event of
    the model. *)

From stdpp Require Export base tactics option list strings.

(** ** Handlers: state passing with a log of outputs *)

Definition Handler (S O : Type) : Type := S → S * list O.

Declare Scope handler_scope.
Delimit Scope handler_scope with H.
Bind Scope handler_scope with Handler.

Section handler.
Context {S O : Type}.
Implicit Types (h f g : Handler S O) (st : S) (o : O).

Definition skip : Handler S O := λ st, (st, []).

Definition emit (o : O) : Handler S O := λ st, (st, [o]).

Definition modify (f : S → S) : Handler S O := λ st, (f st, []).

Definition seq (f g : Handler S O) : Handler S O :=
  λ st, let '(st1, o1) := f st in
        let '(st2, o2) := g st1 in
        (st2, o1 ++ o2).

Definition seqs (hs : list (Handler S O)) : Handler S O :=
  foldr seq skip hs.

Definition for_each {A : Type} (h : A → Handler S O) (l : list A)
  : Handler S O :=
  seqs (h <$> l).

(** [preserves I h]: the handler keeps the invariant [I]. *)
Definition preserves (I : S → Prop) (h : Handler S O) : Prop :=
  ∀ st, I st → I (h st).1.

(** [produces P h]: every output of the handler satisfies [P]. *)
Definition produces (P : O → Prop) (h : Handler S O) : Prop :=
  ∀ st, Forall P (h st).2.

(** [silent h]: the handler changes nothing and logs nothing. *)
Definition silent (h : Handler S O) : Prop := ∀ st, h st = (st, []).
End handler.

(** A relation between the state before a handler, its outputs and the
    state after it is compositional when it holds of doing nothing and is
    kept by running one handler after another. *)
Class Compositional {S O : Type} (R : S → list O → S → Prop) : Prop := {
  comp_nil st : R st [] st;
  comp_app st o1 st1 o2 st2 :
    R st o1 st1 → R st1 o2 st2 → R st (o1 ++ o2) st2 }.

(** [spec I R h]: from a state that satisfies [I], the handler [h] reaches a
    state that satisfies [I], and [R] relates the two and the outputs. *)
Definition spec {S O : Type} (I : S → Prop) (R : S → list O → S → Prop)
    (h : Handler S O) : Prop :=
  ∀ st, I st → I (h st).1 ∧ R st (h st).2 (h st).1.

(** A part of a state: how to read it and how to write it. *)
Record Lens (S T : Type) : Type := mkLens {
  get : S → T;
  set : T → S → S }.

Arguments mkLens {S T} get set.
Arguments get {S T} l st.
Arguments set {S T} l t st.

Class LensLaws {S T : Type} (l : Lens S T) : Prop := {
  get_set t st : get l (set l t st) = t;
  set_get st : set l (get l st) st = st;
  set_set t t' st : set l t' (set l t st) = set l t' st }.

(** A handler of a part of the state, run on the whole state; its outputs
    are translated by [tr]. *)
Definition lift {S T O O' : Type} (l : Lens S T) (tr : O → O')
    (h : Handler T O) : Handler S O' :=
  λ st, let '(t, outs) := h (get l st) in (set l t st, tr <$> outs).

Notation "f ;; g" := (seq f g)
  (at level 100, g at level 200, right associativity) : handler_scope.

Arguments skip {S O} st /.
Arguments emit {S O} o st /.
Arguments modify {S O} f st /.

(** ** Tactics and hint databases *)

Create HintDb handler discriminated.
Create Rewrite HintDb handler_rw.

(** Splits every pair and every [let '(a, b) := ...] of the goal. *)
Ltac destruct_lets :=
  repeat match goal with
    | |- context [let '(_, _) := ?e in _] =>
        let E := fresh "E" in destruct e eqn:E; simpl in *
    end.

(** Closes [Forall silent [h1; ...; hn]] when every [hi] computes to the
    silent handler. *)
Ltac solve_silent := repeat constructor; intros ?; reflexivity.

(** Case analysis on the discriminee of the first [match] of the goal. *)
Ltac case_goal :=
  match goal with
  | |- context [match ?x with _ => _ end] => destruct x eqn:?; simpl in *
  end.

Section handler_lemmas.
Context {S O : Type}.
Implicit Types (h f g : Handler S O) (hs : list (Handler S O)) (st : S).
Implicit Types (I : S → Prop) (P : O → Prop) (o : O).

Lemma seq_eq f g st :
  (f ;; g)%H st = ((g (f st).1).1, (f st).2 ++ (g (f st).1).2).
Proof. unfold seq. destruct (f st) as [st1 o1]. simpl. by destruct (g st1). Qed.

Lemma seq_skip_l g st : (skip ;; g)%H st = g st.
Proof. rewrite seq_eq. simpl. by destruct (g st). Qed.

Lemma seq_skip_r f st : (f ;; skip)%H st = f st.
Proof. rewrite seq_eq. simpl. rewrite app_nil_r. by destruct (f st). Qed.

Lemma seq_assoc f g h st : ((f ;; g) ;; h)%H st = (f ;; g ;; h)%H st.
Proof. rewrite !seq_eq. simpl. by rewrite app_assoc. Qed.

Lemma seq_silent_l f g st : silent f → (f ;; g)%H st = g st.
Proof. intros Hf. rewrite seq_eq, Hf. simpl. by destruct (g st). Qed.

Lemma seq_silent_r f g st : silent g → (f ;; g)%H st = f st.
Proof.
  intros Hg. rewrite seq_eq, Hg. simpl. rewrite app_nil_r. by destruct (f st).
Qed.

Lemma seqs_nil st : seqs (S:=S) (O:=O) [] st = (st, []).
Proof. done. Qed.

Lemma seqs_cons h hs st : seqs (h :: hs) st = (h ;; seqs hs)%H st.
Proof. done. Qed.

Lemma seqs_app hs1 hs2 st :
  seqs (hs1 ++ hs2) st = (seqs hs1 ;; seqs hs2)%H st.
Proof.
  revert st. induction hs1 as [|h hs1 IH]; intros st.
  - by rewrite seq_skip_l.
  - rewrite <- app_comm_cons, seqs_cons, (seq_eq h), IH.
    rewrite (seq_eq (seqs (h :: hs1))), seqs_cons, !seq_eq. simpl.
    by rewrite app_assoc.
Qed.

Lemma silent_skip : silent (skip (S:=S) (O:=O)).
Proof. done. Qed.

Lemma silent_seq f g : silent f → silent g → silent (f ;; g)%H.
Proof. intros Hf Hg st. by rewrite seq_silent_l. Qed.

Lemma silent_seqs hs : Forall silent hs → silent (seqs hs).
Proof. induction 1; [done|]. by apply silent_seq. Qed.

(** A sequence in which one handler only is not silent is that handler. *)
Lemma seqs_one hs1 h hs2 st :
  Forall silent hs1 → Forall silent hs2 → seqs (hs1 ++ h :: hs2) st = h st.
Proof.
  intros H1 H2. rewrite seqs_app, seq_silent_l by by apply silent_seqs.
  rewrite seqs_cons, seq_silent_r by by apply silent_seqs. done.
Qed.

(** The same up to the order of the handlers. *)
Lemma seqs_silent_perm hs hs' st :
  hs ≡ₚ hs' → Forall silent hs' → seqs hs st = (st, []).
Proof. intros Hp Hs. apply silent_seqs. by rewrite Hp. Qed.

Lemma seqs_one_perm hs1 h hs2 hs st :
  hs ≡ₚ hs1 ++ h :: hs2 → Forall silent hs1 → Forall silent hs2 →
  seqs hs st = h st.
Proof.
  intros Hp H1 H2.
  assert (h ∈ hs) as (l1 & l2 & ->)%list_elem_of_split.
  { rewrite Hp. apply elem_of_app. right. constructor. }
  apply Permutation_app_inv in Hp.
  assert (Forall silent (l1 ++ l2)) as [??]%Forall_app.
  { rewrite Hp. by apply Forall_app. }
  by apply seqs_one.
Qed.

Lemma for_each_nil {A} (h : A → Handler S O) st : for_each h [] st = (st, []).
Proof. done. Qed.

Lemma for_each_cons {A} (h : A → Handler S O) a l st :
  for_each h (a :: l) st = (h a ;; for_each h l)%H st.
Proof. done. Qed.

Lemma for_each_singleton {A} (h : A → Handler S O) a st :
  for_each h [a] st = h a st.
Proof. exact (seq_skip_r (h a) st). Qed.

Lemma for_each_app {A} (h : A → Handler S O) l1 l2 st :
  for_each h (l1 ++ l2) st = (for_each h l1 ;; for_each h l2)%H st.
Proof. unfold for_each. by rewrite fmap_app, seqs_app. Qed.

Lemma for_each_snoc {A} (h : A → Handler S O) l a st :
  for_each h (l ++ [a]) st = (for_each h l ;; h a)%H st.
Proof.
  by rewrite for_each_app, !seq_eq, for_each_singleton.
Qed.

(** *** Composition of the judgements *)

Lemma silent_preserves I h : silent h → preserves I h.
Proof. intros Hh st HI. by rewrite Hh. Qed.

Lemma silent_produces P h : silent h → produces P h.
Proof. intros Hh st. rewrite Hh. constructor. Qed.

Lemma preserves_skip I : preserves I (skip (O:=O)).
Proof. by intros st. Qed.

Lemma preserves_emit I o : preserves I (emit o).
Proof. by intros st. Qed.

Lemma preserves_seq I f g :
  preserves I f → preserves I g → preserves I (f ;; g)%H.
Proof. intros Hf Hg st HI. rewrite seq_eq. simpl. auto. Qed.

Lemma preserves_seqs I hs :
  Forall (preserves (O:=O) I) hs → preserves I (seqs hs).
Proof.
  induction 1; [apply preserves_skip|]. by apply preserves_seq.
Qed.

Lemma preserves_for_each {A} I (h : A → Handler S O) l :
  (∀ a, preserves I (h a)) → preserves I (for_each h l).
Proof.
  intros Hh. apply preserves_seqs, Forall_fmap, Forall_forall. intros; apply Hh.
Qed.

Lemma produces_skip P : produces P (skip (S:=S)).
Proof. intros st. constructor. Qed.

Lemma produces_emit P o : P o → produces P (emit (S:=S) o).
Proof. intros Ho st. by constructor. Qed.

Lemma produces_seq P f g :
  produces P f → produces P g → produces P (f ;; g)%H.
Proof. intros Hf Hg st. rewrite seq_eq. simpl. apply Forall_app; auto. Qed.

Lemma produces_seqs P hs : Forall (produces (S:=S) P) hs → produces P (seqs hs).
Proof.
  induction 1; [apply produces_skip|]. by apply produces_seq.
Qed.

Lemma produces_for_each {A} P (h : A → Handler S O) l :
  (∀ a, produces P (h a)) → produces P (for_each h l).
Proof.
  intros Hh. apply produces_seqs, Forall_fmap, Forall_forall. intros; apply Hh.
Qed.

Lemma produces_weaken (P Q : O → Prop) h :
  (∀ o, P o → Q o) → produces P h → produces Q h.
Proof. intros HPQ Hh st. eapply Forall_impl; eauto. Qed.

Lemma preserves_run {A} I (h : A → Handler S O) l st :
  (∀ a, preserves I (h a)) → I st → I (for_each h l st).1.
Proof. intros Hh. by apply preserves_for_each. Qed.
End handler_lemmas.

Section spec_lemmas.
Context {S O : Type} (I : S → Prop) (R : S → list O → S → Prop).
Context `{!Compositional R}.
Implicit Types (h f g : Handler S O) (hs : list (Handler S O)) (st : S).

Lemma spec_skip : spec I R skip.
Proof. intros st HI. split; [done|apply comp_nil]. Qed.

Lemma spec_silent h : silent h → spec I R h.
Proof. intros Hh st HI. rewrite Hh. split; [done|apply comp_nil]. Qed.

Lemma spec_seq f g : spec I R f → spec I R g → spec I R (f ;; g)%H.
Proof.
  intros Hf Hg st HI. rewrite seq_eq. simpl.
  destruct (Hf st HI) as [HI1 HR1]. destruct (Hg _ HI1) as [HI2 HR2].
  split; [done|]. by eapply comp_app.
Qed.

Lemma spec_seqs hs : Forall (spec I R) hs → spec I R (seqs hs).
Proof. induction 1; [apply spec_skip|]. by apply spec_seq. Qed.

Lemma spec_for_each {A} (h : A → Handler S O) (P : A → Prop) l :
  (∀ a, P a → spec I R (h a)) → Forall P l → spec I R (for_each h l).
Proof.
  intros Hh Hl. apply spec_seqs, Forall_fmap.
  eapply Forall_impl; [done|]. apply Hh.
Qed.

Lemma spec_run {A} (h : A → Handler S O) l :
  (∀ a, spec I R (h a)) → spec I R (for_each h l).
Proof.
  intros Hh. apply (spec_for_each h (λ _, True)); [auto|].
  by apply Forall_forall.
Qed.
End spec_lemmas.

Section compositional.
Context {S O : Type}.

#[export] Instance comp_trivial : Compositional (λ (_ : S) (_ : list O) _, True).
Proof. by split. Qed.

Lemma spec_intro (I : S → Prop) (R : S → list O → S → Prop) h :
  preserves I h → (∀ st, I st → R st (h st).2 (h st).1) → spec I R h.
Proof. intros HI HR st Hst. split; auto. Qed.

Lemma spec_of_preserves (I : S → Prop) (h : Handler S O) :
  preserves I h → spec I (λ _ _ _, True) h.
Proof. intros Hh st HI. split; [by apply Hh|done]. Qed.

(** Every output satisfies [P]. *)
#[export] Instance comp_outputs (P : O → Prop) :
  Compositional (λ (_ : S) outs _, Forall P outs).
Proof. split; [constructor|]. intros. by apply Forall_app. Qed.

(** An observation of the state does not change. *)
#[export] Instance comp_unchanged {T} (obs : S → T) :
  Compositional (λ st (_ : list O) st', obs st' = obs st).
Proof. split; [done|]. intros. congruence. Qed.

(** A preorder on an observation of the state. *)
#[export] Instance comp_preorder {T} (obs : S → T) (le : relation T)
    `{!PreOrder le} :
  Compositional (λ st (_ : list O) st', le (obs st) (obs st')).
Proof. split; [done|]. intros. by etrans. Qed.

#[export] Instance comp_and (R1 R2 : S → list O → S → Prop)
    `{!Compositional R1, !Compositional R2} :
  Compositional (λ st outs st', R1 st outs st' ∧ R2 st outs st').
Proof.
  split; [split; apply comp_nil|].
  intros ????? [] []. split; by eapply comp_app.
Qed.

Lemma spec_weaken (I : S → Prop) (R R' : S → list O → S → Prop) h :
  (∀ st outs st', I st → R st outs st' → R' st outs st') →
  spec I R h → spec I R' h.
Proof. intros HR Hh st HI. destruct (Hh st HI). split; eauto. Qed.

Lemma spec_and (I : S → Prop) (R1 R2 : S → list O → S → Prop) h :
  spec I R1 h → spec I R2 h →
  spec I (λ st outs st', R1 st outs st' ∧ R2 st outs st') h.
Proof. intros H1 H2 st HI. destruct (H1 st HI), (H2 st HI). done. Qed.

Lemma spec_preserves (I : S → Prop) (R : S → list O → S → Prop) h :
  spec I R h → preserves I h.
Proof. intros Hh st HI. by destruct (Hh st HI). Qed.
End compositional.

Section lift_lemmas.
Context {S T O O' : Type} (l : Lens S T) (tr : O → O').
Implicit Types (h : Handler T O) (st : S).

Lemma lift_eq h st :
  lift l tr h st = (set l (h (get l st)).1 st, tr <$> (h (get l st)).2).
Proof. unfold lift. by destruct (h (get l st)). Qed.

Lemma lift_silent `{!LensLaws l} h st :
  h (get l st) = (get l st, []) → lift l tr h st = (st, []).
Proof. intros Hh. rewrite lift_eq, Hh. simpl. by rewrite set_get. Qed.

Lemma lift_get `{!LensLaws l} h st :
  get l (lift l tr h st).1 = (h (get l st)).1.
Proof. rewrite lift_eq. simpl. by rewrite get_set. Qed.

Lemma lift_outputs h st : (lift l tr h st).2 = tr <$> (h (get l st)).2.
Proof. by rewrite lift_eq. Qed.

(** A property of the part that the handler keeps is kept on the whole
    state. *)
Lemma lift_preserves `{!LensLaws l} (I : T → Prop) h :
  preserves I h → preserves (λ st, I (get l st)) (lift l tr h).
Proof. intros Hh st HI. rewrite lift_get. by apply Hh. Qed.

(** A property of the state that no write to the part can break is kept. *)
Lemma lift_frame (J : S → Prop) h :
  (∀ t st, J st → J (set l t st)) → preserves J (lift l tr h).
Proof. intros HJ st Hst. rewrite lift_eq. simpl. by apply HJ. Qed.

Lemma lift_produces (P : O → Prop) (Q : O' → Prop) h :
  (∀ o, P o → Q (tr o)) → produces P h → produces Q (lift l tr h).
Proof.
  intros HPQ Hh st. rewrite lift_outputs. apply Forall_fmap.
  eapply Forall_impl; [apply Hh|]. done.
Qed.
End lift_lemmas.

#[export] Hint Resolve silent_skip silent_seq preserves_skip preserves_emit
  preserves_seq produces_skip produces_seq silent_preserves silent_produces
  : handler.
#[export] Hint Rewrite @seq_skip_l @seq_skip_r @seqs_nil @for_each_nil
  @for_each_cons : handler_rw.

(** ** Generic facts on lists and options shared by the components *)

Section list_facts.
Context {A B : Type}.
Implicit Types (l : list A) (f : A → option B).

Lemma omap_Forall_None f l : Forall (λ a, f a = None) l → omap f l = [].
Proof. induction 1 as [|a l Ha _ IH]; [done|]. csimpl. by rewrite Ha. Qed.

(** [omap] over a list extended at its end. *)
Lemma omap_snoc f l a :
  omap f (l ++ [a]) = omap f l ++ match f a with Some b => [b] | None => [] end.
Proof. rewrite omap_app. simpl. by destruct (f a). Qed.

Lemma Forall_filter (P Q : A → Prop) `{!∀ x, Decision (Q x)} l :
  Forall P l → Forall P (filter Q l).
Proof.
  rewrite !Forall_forall. intros Hl x [_ Hx]%list_elem_of_filter. by apply Hl.
Qed.

(** Filtering keeps the keys of a list distinct. *)
Lemma NoDup_fmap_filter (k : A → B) (Q : A → Prop) `{!∀ x, Decision (Q x)} l :
  NoDup (k <$> l) → NoDup (k <$> filter Q l).
Proof.
  induction l as [|x l IH]; [done|]. rewrite fmap_cons, NoDup_cons.
  intros [Hx Hl]. rewrite filter_cons. case_decide; [|by auto].
  rewrite fmap_cons. apply NoDup_cons. split; [|by auto].
  rewrite list_elem_of_fmap in Hx |- *.
  intros (y & Hxy & [_ Hy]%list_elem_of_filter). apply Hx. eauto.
Qed.
End list_facts.
