(* ===== verification/Rxjs.v ===== *)
(** * The RxJS operators the effects are built from

    Notifications, the stateless operators [of_], [map] and [catchError], and
    the two flattening operators [concatMap] and [switchMap] as state
    machines over explicit operator state.  The class [Flatten] is what the
    effects rely on from a flattening operator; [ConcatMap] and [SwitchMap]
    are its two instances. *)

From S2P Require Import Prelude.

Module Rx.

(** What an observable delivers to its subscriber. *)
Inductive Notification (E T : Type) : Type :=
| Next (value : T)
| Error (error : E)
| Complete.

Arguments Next {E T} value.
Arguments Error {E T} error.
Arguments Complete {E T}.

(** [of(value)]: one value, then completion ([of] is a keyword here). *)
Definition of_ {E T : Type} (value : T) : list (Notification E T) :=
  [Next value; Complete].

(** [map(project)]: values are transformed, the rest passes through. *)
Definition map {E A B : Type} (project : A → B) (n : Notification E A)
  : Notification E B :=
  match n with
  | Next value => Next (project value)
  | Error error => Error error
  | Complete => Complete
  end.

(** [catchError(selector)]: an error of the source is replaced by what the
    observable returned by [selector] delivers. *)
Definition catchError {E E' T : Type} (selector : E → list (Notification E' T))
    (n : Notification E T) : list (Notification E' T) :=
  match n with
  | Next value => [Next value]
  | Error error => selector error
  | Complete => [Complete]
  end.

(** What a flattening operator does in one reaction: it subscribes to the
    inner observable made from an outer value (the [i]-th one), cancels an
    inner subscription, passes a value on to its subscriber, or fails. *)
Inductive Out (A B E : Type) : Type :=
| Subscribed (i : nat) (a : A)
| Unsubscribed (i : nat)
| Emitted (b : B)
| Errored (e : E).

Arguments Subscribed {A B E} i a.
Arguments Unsubscribed {A B E} i.
Arguments Emitted {A B E} b.
Arguments Errored {A B E} e.

(** The outer value of the inner subscription [i], when [i] is the
    subscription [o] holds. *)
Definition closure_of {A : Type} (i : nat) (o : option (nat * A)) : option A :=
  match o with
  | Some (j, a) => if decide (i = j) then Some a else None
  | None => None
  end.

(** The outer values subscribed to, the values emitted and the errors, in
    the order of a list of outputs. *)
Definition subscribed {A B E : Type} (outs : list (Out A B E)) : list A :=
  omap (λ o, match o with Subscribed _ a => Some a | _ => None end) outs.

Definition emitted {A B E : Type} (outs : list (Out A B E)) : list B :=
  omap (λ o, match o with Emitted b => Some b | _ => None end) outs.

Definition errored {A B E : Type} (outs : list (Out A B E)) : list E :=
  omap (λ o, match o with Errored e => Some e | _ => None end) outs.

(** The indices of the subscriptions made, in order. *)
Definition sub_indices {A B E : Type} (outs : list (Out A B E)) : list nat :=
  omap (λ o, match o with Subscribed i _ => Some i | _ => None end) outs.

(** An output that moves no value: a subscription or a cancellation. *)
Definition is_control {A B E : Type} (o : Out A B E) : Prop :=
  match o with
  | Subscribed _ _ | Unsubscribed _ => True
  | Emitted _ | Errored _ => False
  end.

(** ** [concatMap]: mergeInternals with a concurrency of one *)
Module ConcatMap.

Record state (A : Type) : Type := State {
  buffer : list A;
  active : option (nat * A);
  index : nat }.

Arguments State {A} buffer active index.
Arguments buffer {A} s.
Arguments active {A} s.
Arguments index {A} s.

Section defs.
Context {A B E : Type}.

Definition init : state A := State [] None 0.

(** [doInnerSub(value)]: [project(value, index++)] is subscribed to. *)
Definition doInnerSub (a : A) : Handler (state A) (Out A B E) := λ st,
  (State (buffer st) (Some (index st, a)) (S (index st)),
   [Subscribed (index st) a]).

(** [outerNext(value)]: subscribe when idle, buffer otherwise. *)
Definition outerNext (a : A) : Handler (state A) (Out A B E) := λ st,
  match active st with
  | None => doInnerSub a st
  | Some _ => (State (buffer st ++ [a]) (active st) (index st), [])
  end.

Definition innerNext (i : nat) (b : B) : Handler (state A) (Out A B E) := λ st,
  match closure_of i (active st) with
  | Some _ => (st, [Emitted b])
  | None => (st, [])
  end.

(** The inner observable completed: the next buffered value, if any, is
    subscribed to. *)
Definition innerComplete (i : nat) : Handler (state A) (Out A B E) := λ st,
  match closure_of i (active st) with
  | Some _ =>
      match buffer st with
      | [] => (State [] None (index st), [])
      | a :: rest => doInnerSub a (State rest None (index st))
      end
  | None => (st, [])
  end.

(** The inner observable failed: the operator fails and is torn down. *)
Definition innerError (i : nat) (e : E) : Handler (state A) (Out A B E) := λ st,
  match closure_of i (active st) with
  | Some _ => (State [] None (index st), [Errored e])
  | None => (st, [])
  end.

Definition inner (i : nat) (n : Notification E B)
  : Handler (state A) (Out A B E) :=
  match n with
  | Next b => innerNext i b
  | Error e => innerError i e
  | Complete => innerComplete i
  end.

(** Buffered values wait for an active subscription, and the active
    subscription was made before the current [index]. *)
Definition wf (st : state A) : Prop :=
  (active st = None → buffer st = []) ∧
  (∀ i a, active st = Some (i, a) → i < index st).

End defs.
End ConcatMap.

(** ** [switchMap] *)
Module SwitchMap.

Record state (A : Type) : Type := State {
  innerSubscriber : option (nat * A);
  index : nat }.

Arguments State {A} innerSubscriber index.
Arguments innerSubscriber {A} s.
Arguments index {A} s.

Section defs.
Context {A B E : Type}.

Definition init : state A := State None 0.

(** The subscription in flight, if any, is cancelled; [project(value,
    index++)] is subscribed to. *)
Definition outerNext (a : A) : Handler (state A) (Out A B E) := λ st,
  (State (Some (index st, a)) (S (index st)),
   match innerSubscriber st with
   | Some (i, _) => [Unsubscribed i]
   | None => []
   end ++ [Subscribed (index st) a]).

Definition innerNext (i : nat) (b : B) : Handler (state A) (Out A B E) := λ st,
  match closure_of i (innerSubscriber st) with
  | Some _ => (st, [Emitted b])
  | None => (st, [])
  end.

Definition innerComplete (i : nat) : Handler (state A) (Out A B E) := λ st,
  match closure_of i (innerSubscriber st) with
  | Some _ => (State None (index st), [])
  | None => (st, [])
  end.

Definition innerError (i : nat) (e : E) : Handler (state A) (Out A B E) := λ st,
  match closure_of i (innerSubscriber st) with
  | Some _ => (State None (index st), [Errored e])
  | None => (st, [])
  end.

Definition inner (i : nat) (n : Notification E B)
  : Handler (state A) (Out A B E) :=
  match n with
  | Next b => innerNext i b
  | Error e => innerError i e
  | Complete => innerComplete i
  end.

Definition wf (st : state A) : Prop :=
  ∀ i a, innerSubscriber st = Some (i, a) → i < index st.

End defs.
End SwitchMap.

(** ** What the effects rely on from a flattening operator *)

Class Flatten (F : Type → Type) : Type := {
  flat_init {A} : F A;
  flat_active {A} : F A → option (nat * A);
  flat_index {A} : F A → nat;
  flat_waiting {A} : F A → list A;
  flat_outer {A B E} : A → Handler (F A) (Out A B E);
  flat_inner {A B E} : nat → Notification E B → Handler (F A) (Out A B E);
  flat_wf {A} : F A → Prop;
  (** the laws *)
  flat_wf_init {A} : flat_wf (flat_init (A:=A));
  flat_wf_outer {A B E} (a : A) :
    preserves flat_wf (flat_outer (B:=B) (E:=E) a);
  flat_wf_inner {A B E} i (n : Notification E B) :
    preserves flat_wf (flat_inner (A:=A) i n);
  flat_fresh {A} (st : F A) i a :
    flat_wf st → flat_active st = Some (i, a) → i < flat_index st;
  flat_idle {A} (st : F A) :
    flat_wf st → flat_active st = None → flat_waiting st = [];
  flat_inner_stale {A B E} (st : F A) i (n : Notification E B) :
    closure_of i (flat_active st) = None → flat_inner i n st = (st, []);
  flat_inner_Next {A B E} (st : F A) i a (b : B) :
    closure_of i (flat_active st) = Some a →
    flat_inner (E:=E) i (Next b) st = (st, [Emitted b]);
  flat_inner_Error {A B E} (st : F A) i a (e : E) :
    closure_of i (flat_active st) = Some a →
    (flat_inner (B:=B) i (Error e) st).2 = [Errored e];
  flat_inner_Complete {A B E} (st : F A) i :
    Forall is_control (flat_inner (B:=B) (E:=E) i Complete st).2;
  flat_outer_control {A B E} (st : F A) a :
    Forall is_control (flat_outer (B:=B) (E:=E) a st).2;
  flat_outer_busy {A B E} (st : F A) a :
    is_Some (flat_active (flat_outer (B:=B) (E:=E) a st).1);
  (** nothing is lost or repeated: what is subscribed to and what waits
      afterwards is what waited before, then the new outer value *)
  flat_account_outer {A B E} (st : F A) a :
    flat_wf st →
    subscribed (flat_outer (B:=B) (E:=E) a st).2
      ++ flat_waiting (flat_outer (B:=B) (E:=E) a st).1
    = flat_waiting st ++ [a];
  flat_account_inner {A B E} (st : F A) i (n : Notification E B) :
    errored (flat_inner i n st).2 = [] →
    subscribed (flat_inner i n st).2 ++ flat_waiting (flat_inner i n st).1
    = flat_waiting st;
  (** the index counts the subscriptions, and names the next one *)
  flat_index_outer {A B E} (st : F A) a :
    flat_index (flat_outer (B:=B) (E:=E) a st).1
    = flat_index st + length (subscribed (flat_outer (B:=B) (E:=E) a st).2);
  flat_index_inner {A B E} (st : F A) i (n : Notification E B) :
    flat_index (flat_inner i n st).1
    = flat_index st + length (subscribed (flat_inner i n st).2);
  (** the subscriptions are numbered from the index on *)
  flat_indices_outer {A B E} (st : F A) a :
    sub_indices (flat_outer (B:=B) (E:=E) a st).2
    = List.seq (flat_index st) (length (subscribed (flat_outer (B:=B) (E:=E) a st).2));
  flat_indices_inner {A B E} (st : F A) i (n : Notification E B) :
    sub_indices (flat_inner i n st).2
    = List.seq (flat_index st) (length (subscribed (flat_inner i n st).2));
  (** a subscription that becomes active is a new one: indices are never
      used again *)
  flat_active_outer {A B E} (st : F A) a j a' :
    flat_active (flat_outer (B:=B) (E:=E) a st).1 = Some (j, a') →
    flat_active st = Some (j, a') ∨ flat_index st ≤ j;
  flat_active_inner {A B E} (st : F A) i (n : Notification E B) j a' :
    flat_active (flat_inner i n st).1 = Some (j, a') →
    flat_active st = Some (j, a') ∨ flat_index st ≤ j;
  (** the active subscription completes: the first waiting value, if any,
      is subscribed to *)
  flat_complete {A B E} (st : F A) i a :
    flat_active st = Some (i, a) →
    flat_inner (B:=B) (E:=E) i Complete st =
      match flat_waiting st with
      | [] => ((flat_inner (B:=B) (E:=E) i Complete st).1, [])
      | a' :: _ =>
          ((flat_inner (B:=B) (E:=E) i Complete st).1,
           [Subscribed (flat_index st) a'])
      end ∧
    flat_active (flat_inner (B:=B) (E:=E) i Complete st).1 =
      match flat_waiting st with
      | [] => None
      | a' :: _ => Some (flat_index st, a')
      end;
}.

(** A notification other than an error. *)
Definition not_error {E T : Type} (n : Notification E T) : Prop :=
  match n with Error _ => False | _ => True end.

(** ** Lemmas *)

Section notification_lemmas.
Context {E E' A B : Type}.

Lemma map_Next (f : A → B) v : map (E:=E) f (Next v) = Next (f v).
Proof. done. Qed.

Lemma catchError_of_no_error (g : E → B) (n : Notification E B) :
  Forall (λ n', ∀ e : E', n' ≠ Error e) (catchError (λ e, of_ (g e)) n).
Proof. destruct n; repeat constructor; done. Qed.

Lemma closure_of_Some (i : nat) (o : option (nat * A)) a :
  closure_of i o = Some a ↔ o = Some (i, a).
Proof.
  unfold closure_of. destruct o as [[j a']|]; [|done].
  case_decide; naive_solver.
Qed.

Lemma closure_of_None (i : nat) (o : option (nat * A)) :
  closure_of i o = None ↔ ∀ a, o ≠ Some (i, a).
Proof.
  unfold closure_of. destruct o as [[j a']|]; [|done].
  case_decide; naive_solver.
Qed.

Lemma closure_of_eq (i : nat) (a : A) : closure_of i (Some (i, a)) = Some a.
Proof. by apply closure_of_Some. Qed.

Lemma closure_of_ne (i j : nat) (a : A) :
  i ≠ j → closure_of i (Some (j, a)) = None.
Proof. intros. apply closure_of_None. naive_solver. Qed.
End notification_lemmas.

Section out_lemmas.
Context {A B E : Type}.
Implicit Types (outs : list (Out A B E)).

Lemma subscribed_app outs1 outs2 :
  subscribed (outs1 ++ outs2) = subscribed outs1 ++ subscribed outs2.
Proof. apply omap_app. Qed.

Lemma emitted_app outs1 outs2 :
  emitted (outs1 ++ outs2) = emitted outs1 ++ emitted outs2.
Proof. apply omap_app. Qed.

Lemma errored_app outs1 outs2 :
  errored (outs1 ++ outs2) = errored outs1 ++ errored outs2.
Proof. apply omap_app. Qed.

Lemma control_emitted outs : Forall is_control outs → emitted outs = [].
Proof. induction 1 as [|[] ? ? ?]; simpl in *; done. Qed.

Lemma control_errored outs : Forall is_control outs → errored outs = [].
Proof. induction 1 as [|[] ? ? ?]; simpl in *; done. Qed.
End out_lemmas.

#[export] Hint Rewrite @subscribed_app @emitted_app @errored_app : handler_rw.

(** Unfolds the operators' reactions and splits their case analyses. *)
Ltac rx_unfold :=
  unfold ConcatMap.inner, ConcatMap.innerNext, ConcatMap.innerComplete,
    ConcatMap.innerError, ConcatMap.outerNext, ConcatMap.doInnerSub,
    ConcatMap.wf, ConcatMap.init,
    SwitchMap.inner, SwitchMap.innerNext, SwitchMap.innerComplete,
    SwitchMap.innerError, SwitchMap.outerNext, SwitchMap.wf, SwitchMap.init,
    preserves in *.

Ltac rx_cases :=
  rx_unfold; simpl in *;
  repeat (case_match; simplify_eq/=);
  repeat match goal with
    | H : closure_of _ _ = Some _ |- _ => apply closure_of_Some in H
    end;
  simplify_eq/=.

Section concat_lemmas.
Context {A B E : Type}.
Implicit Types (st : ConcatMap.state A) (a : A) (b : B) (e : E) (i : nat).
Implicit Types (n : Notification E B).
#[local] Abbreviation outerNext := (ConcatMap.outerNext (A:=A) (B:=B) (E:=E)).
#[local] Abbreviation inner := (ConcatMap.inner (A:=A) (B:=B) (E:=E)).

Lemma concat_wf_init : ConcatMap.wf (ConcatMap.init (A:=A)).
Proof. split; done. Qed.

Lemma concat_wf_outerNext a : preserves ConcatMap.wf (outerNext a).
Proof.
  intros st [Hbuf Hidx]. rx_cases; split; simpl; intros; simplify_eq;
    eauto with lia.
Qed.

Lemma concat_wf_inner i n : preserves ConcatMap.wf (inner i n).
Proof.
  intros st [Hbuf Hidx]. destruct n; rx_cases; split; simpl; intros;
    simplify_eq; eauto with lia.
Qed.

Lemma concat_inner_stale st i n :
  closure_of i (ConcatMap.active st) = None → inner i n st = (st, []).
Proof. intros Hi. destruct n; rx_unfold; by rewrite Hi. Qed.

Lemma concat_inner_Next st i a b :
  closure_of i (ConcatMap.active st) = Some a →
  inner i (Next b) st = (st, [Emitted b]).
Proof. intros Hi. rx_unfold. by rewrite Hi. Qed.

Lemma concat_inner_Error st i a e :
  closure_of i (ConcatMap.active st) = Some a →
  (inner i (Error e) st).2 = [Errored e].
Proof. intros Hi. rx_unfold. by rewrite Hi. Qed.

Lemma concat_inner_Complete_control st i :
  Forall is_control (inner i Complete st).2.
Proof. rx_cases; repeat constructor. Qed.

Lemma concat_outer_control st a : Forall is_control (outerNext a st).2.
Proof. rx_cases; repeat constructor. Qed.

Lemma concat_outer_busy st a : is_Some (ConcatMap.active (outerNext a st).1).
Proof. rx_cases; eauto. Qed.

(** First in, first out: what is subscribed to now and what still waits is
    what waited before, followed by the new value. *)
Lemma concat_outer_account st a :
  ConcatMap.wf st →
  subscribed (outerNext a st).2 ++ ConcatMap.buffer (outerNext a st).1
  = ConcatMap.buffer st ++ [a].
Proof. intros [Hbuf _]. rx_cases; [done|]. by rewrite Hbuf. Qed.

Lemma concat_inner_account st i n :
  errored (inner i n st).2 = [] →
  subscribed (inner i n st).2 ++ ConcatMap.buffer (inner i n st).1
  = ConcatMap.buffer st.
Proof. destruct n; rx_cases; done. Qed.

(** A new subscription is made only when none is active. *)
Lemma concat_outer_subscribes st a :
  subscribed (outerNext a st).2
  = match ConcatMap.active st with Some _ => [] | None => [a] end.
Proof. rx_cases; done. Qed.

(** The index counts the subscriptions made. *)
Lemma concat_outer_index st a :
  ConcatMap.index (outerNext a st).1
  = ConcatMap.index st + length (subscribed (outerNext a st).2).
Proof. rx_cases; simpl; lia. Qed.

Lemma concat_inner_index st i n :
  ConcatMap.index (inner i n st).1
  = ConcatMap.index st + length (subscribed (inner i n st).2).
Proof. destruct n; rx_cases; simpl; lia. Qed.

Lemma concat_outer_indices st a :
  sub_indices (outerNext a st).2
  = List.seq (ConcatMap.index st) (length (subscribed (outerNext a st).2)).
Proof. rx_cases; done. Qed.

Lemma concat_inner_indices st i n :
  sub_indices (inner i n st).2
  = List.seq (ConcatMap.index st) (length (subscribed (inner i n st).2)).
Proof. destruct n; rx_cases; done. Qed.

(** An index is used once. *)
Lemma concat_outer_active st a j a' :
  ConcatMap.active (outerNext a st).1 = Some (j, a') →
  ConcatMap.active st = Some (j, a') ∨ ConcatMap.index st ≤ j.
Proof. rx_cases; intros; simplify_eq; auto. Qed.

Lemma concat_inner_active st i n j a' :
  ConcatMap.active (inner i n st).1 = Some (j, a') →
  ConcatMap.active st = Some (j, a') ∨ ConcatMap.index st ≤ j.
Proof. destruct n; rx_cases; intros; simplify_eq; auto. Qed.

(** Completion of the active subscription takes the head of the buffer. *)
Lemma concat_inner_Complete_next st i a a' rest :
  ConcatMap.active st = Some (i, a) → ConcatMap.buffer st = a' :: rest →
  inner i Complete st
  = (ConcatMap.State rest (Some (ConcatMap.index st, a'))
       (S (ConcatMap.index st)),
     [Subscribed (ConcatMap.index st) a']).
Proof.
  intros Ha Hb. rx_unfold. by rewrite Ha, closure_of_eq, Hb.
Qed.

Lemma concat_complete st i a :
  ConcatMap.active st = Some (i, a) →
  inner i Complete st =
    match ConcatMap.buffer st with
    | [] => ((inner i Complete st).1, [])
    | a' :: _ => ((inner i Complete st).1, [Subscribed (ConcatMap.index st) a'])
    end ∧
  ConcatMap.active (inner i Complete st).1 =
    match ConcatMap.buffer st with
    | [] => None
    | a' :: _ => Some (ConcatMap.index st, a')
    end.
Proof.
  intros Ha. rx_unfold. rewrite Ha, closure_of_eq.
  by destruct (ConcatMap.buffer st).
Qed.

Lemma concat_inner_Complete_idle st i a :
  ConcatMap.active st = Some (i, a) → ConcatMap.buffer st = [] →
  inner i Complete st = (ConcatMap.State [] None (ConcatMap.index st), []).
Proof.
  intros Ha Hb. rx_unfold. by rewrite Ha, closure_of_eq, Hb.
Qed.
End concat_lemmas.

Section switch_lemmas.
Context {A B E : Type}.
Implicit Types (st : SwitchMap.state A) (a : A) (b : B) (e : E) (i : nat).
Implicit Types (n : Notification E B).
#[local] Abbreviation outerNext := (SwitchMap.outerNext (A:=A) (B:=B) (E:=E)).
#[local] Abbreviation inner := (SwitchMap.inner (A:=A) (B:=B) (E:=E)).

Lemma switch_wf_init : SwitchMap.wf (SwitchMap.init (A:=A)).
Proof. done. Qed.

Lemma switch_wf_outerNext a : preserves SwitchMap.wf (outerNext a).
Proof. intros st Hst. rx_cases; intros ???; simplify_eq; lia. Qed.

Lemma switch_wf_inner i n : preserves SwitchMap.wf (inner i n).
Proof. intros st Hst. destruct n; rx_cases; intros ???; simplify_eq; eauto. Qed.

Lemma switch_inner_stale st i n :
  closure_of i (SwitchMap.innerSubscriber st) = None → inner i n st = (st, []).
Proof. intros Hi. destruct n; rx_unfold; by rewrite Hi. Qed.

Lemma switch_inner_Next st i a b :
  closure_of i (SwitchMap.innerSubscriber st) = Some a →
  inner i (Next b) st = (st, [Emitted b]).
Proof. intros Hi. rx_unfold. by rewrite Hi. Qed.

Lemma switch_inner_Error st i a e :
  closure_of i (SwitchMap.innerSubscriber st) = Some a →
  (inner i (Error e) st).2 = [Errored e].
Proof. intros Hi. rx_unfold. by rewrite Hi. Qed.

Lemma switch_inner_Complete_control st i :
  Forall is_control (inner i Complete st).2.
Proof. rx_cases; repeat constructor. Qed.

Lemma switch_outer_control st a : Forall is_control (outerNext a st).2.
Proof. rx_cases; repeat constructor. Qed.

Lemma switch_outer_busy st a :
  is_Some (SwitchMap.innerSubscriber (outerNext a st).1).
Proof. rx_cases; eauto. Qed.

(** Latest wins: the subscription held after an outer value is the one
    made for it, and exactly that one is subscribed to. *)
Lemma switch_outer_latest st a :
  SwitchMap.innerSubscriber (outerNext a st).1 = Some (SwitchMap.index st, a).
Proof. done. Qed.

Lemma switch_outer_subscribes st a : subscribed (outerNext a st).2 = [a].
Proof. rx_cases; done. Qed.

(** Every earlier subscription is stale after an outer value. *)
Lemma switch_outer_supersedes st a i :
  i < SwitchMap.index st →
  closure_of i (SwitchMap.innerSubscriber (outerNext a st).1) = None.
Proof. intros Hi. simpl. apply closure_of_ne. lia. Qed.

Lemma switch_outer_cancels st a i a' :
  SwitchMap.innerSubscriber st = Some (i, a') →
  (outerNext a st).2 = [Unsubscribed i; Subscribed (SwitchMap.index st) a].
Proof. intros Hi. rx_unfold. by rewrite Hi. Qed.

Lemma switch_complete st i a :
  SwitchMap.innerSubscriber st = Some (i, a) →
  inner i Complete st = ((inner i Complete st).1, []) ∧
  SwitchMap.innerSubscriber (inner i Complete st).1 = None.
Proof. intros Ha. rx_unfold. by rewrite Ha, closure_of_eq. Qed.

Lemma switch_outer_index st a :
  SwitchMap.index (outerNext a st).1
  = SwitchMap.index st + length (subscribed (outerNext a st).2).
Proof. rx_cases; simpl; lia. Qed.

Lemma switch_inner_index st i n :
  SwitchMap.index (inner i n st).1
  = SwitchMap.index st + length (subscribed (inner i n st).2).
Proof. destruct n; rx_cases; simpl; lia. Qed.

Lemma switch_outer_indices st a :
  sub_indices (outerNext a st).2
  = List.seq (SwitchMap.index st) (length (subscribed (outerNext a st).2)).
Proof. rx_cases; done. Qed.

Lemma switch_inner_indices st i n :
  sub_indices (inner i n st).2
  = List.seq (SwitchMap.index st) (length (subscribed (inner i n st).2)).
Proof. destruct n; rx_cases; done. Qed.

Lemma switch_outer_active st a j a' :
  SwitchMap.innerSubscriber (outerNext a st).1 = Some (j, a') →
  SwitchMap.innerSubscriber st = Some (j, a') ∨ SwitchMap.index st ≤ j.
Proof. rx_cases; intros; simplify_eq; auto. Qed.

Lemma switch_inner_active st i n j a' :
  SwitchMap.innerSubscriber (inner i n st).1 = Some (j, a') →
  SwitchMap.innerSubscriber st = Some (j, a') ∨ SwitchMap.index st ≤ j.
Proof. destruct n; rx_cases; intros; simplify_eq; auto. Qed.
End switch_lemmas.

(** ** Consequences of the laws of [Flatten] *)

Section flatten_lemmas.
Context {F : Type → Type} `{!Flatten F} {A B E : Type}.
Implicit Types (st : F A) (i : nat) (n : Notification E B).

(** The operator fails only when its inner observable does. *)
Lemma flat_inner_no_error st i n :
  not_error n → errored (flat_inner i n st).2 = [].
Proof.
  destruct n as [b|e|]; [|done|]; intros _.
  - destruct (closure_of i (flat_active st)) as [a|] eqn:Hi.
    + by erewrite flat_inner_Next.
    + by rewrite flat_inner_stale.
  - apply control_errored, flat_inner_Complete.
Qed.

Lemma flat_outer_no_error st a :
  errored (flat_outer (B:=B) (E:=E) a st).2 = [].
Proof. apply control_errored, flat_outer_control. Qed.

Lemma flat_outer_no_emit st a :
  emitted (flat_outer (B:=B) (E:=E) a st).2 = [].
Proof. apply control_emitted, flat_outer_control. Qed.
End flatten_lemmas.

(** ** The two operators implement [Flatten] *)

#[export, refine] Instance concat_flatten : Flatten ConcatMap.state := {
  flat_init A := ConcatMap.init;
  flat_active A := ConcatMap.active;
  flat_index A := ConcatMap.index;
  flat_waiting A := ConcatMap.buffer;
  flat_outer A B E := ConcatMap.outerNext;
  flat_inner A B E := ConcatMap.inner;
  flat_wf A := ConcatMap.wf }.
Proof.
  - intros. apply concat_wf_init.
  - intros. apply concat_wf_outerNext.
  - intros. apply concat_wf_inner.
  - intros A st i a [_ H]. apply H.
  - intros A st [H _]. apply H.
  - intros. by apply concat_inner_stale.
  - intros. by eapply concat_inner_Next.
  - intros. by eapply concat_inner_Error.
  - intros. apply concat_inner_Complete_control.
  - intros. apply concat_outer_control.
  - intros. apply concat_outer_busy.
  - intros. by apply concat_outer_account.
  - intros. by apply concat_inner_account.
  - intros. apply concat_outer_index.
  - intros. apply concat_inner_index.
  - intros. apply concat_outer_indices.
  - intros. apply concat_inner_indices.
  - intros. by eapply concat_outer_active.
  - intros. by eapply concat_inner_active.
  - intros. by eapply concat_complete.
Defined.

#[export, refine] Instance switch_flatten : Flatten SwitchMap.state := {
  flat_init A := SwitchMap.init;
  flat_active A := SwitchMap.innerSubscriber;
  flat_index A := SwitchMap.index;
  flat_waiting A := λ _, [];
  flat_outer A B E := SwitchMap.outerNext;
  flat_inner A B E := SwitchMap.inner;
  flat_wf A := SwitchMap.wf }.
Proof.
  - intros. apply switch_wf_init.
  - intros. apply switch_wf_outerNext.
  - intros. apply switch_wf_inner.
  - intros A st i a H. apply H.
  - done.
  - intros. by apply switch_inner_stale.
  - intros. by eapply switch_inner_Next.
  - intros. by eapply switch_inner_Error.
  - intros. apply switch_inner_Complete_control.
  - intros. apply switch_outer_control.
  - intros. apply switch_outer_busy.
  - intros. by rewrite switch_outer_subscribes.
  - intros A B E st i []; rx_cases; done.
  - intros. apply switch_outer_index.
  - intros. apply switch_inner_index.
  - intros. apply switch_outer_indices.
  - intros. apply switch_inner_indices.
  - intros. by eapply switch_outer_active.
  - intros. by eapply switch_inner_active.
  - intros. by eapply switch_complete.
Defined.

End Rx.
