(* ===== verification/Actions.v ===== *)
(** * The data the effects handle

    [Todo] and [Failure] follow the data model of the specification; the
    actions are the creators of [TodoActions] as the effects use them, with
    the properties the effects read or write; [TodoService.Call] is a call
    of one of the five service methods; [Slot] names the five request
    effects and [Result] the type of what the service delivers to each. *)

From S2P Require Import Prelude.

Definition TodoId : Type := string.

Record Todo : Type := mkTodo {
  todoId : TodoId;
  title : string;
  completed : bool;
  createdAt : nat }.

Inductive ErrorKind : Type :=
| ValidationError
| NotFound
| ServiceUnavailable
| UnknownError.

(** What a failed service call delivers ([error] in the source). *)
Record Failure : Type := mkFailure {
  kind : ErrorKind;
  message : string }.

#[export] Instance Todo_eq_dec : EqDecision Todo.
Proof. solve_decision. Defined.

#[export] Instance ErrorKind_eq_dec : EqDecision ErrorKind.
Proof. solve_decision. Defined.

#[export] Instance Failure_eq_dec : EqDecision Failure.
Proof. solve_decision. Defined.

Module TodoActions.

Inductive Action : Type :=
| loadAll (offset limit : nat)
| loadAllSuccess (todos : list Todo)
| loadAllFailure (error : Failure)
| load (id : TodoId)
| loadSuccess (todo : Todo)
| loadFailure (error : Failure)
| create (todo : Todo)
| createSuccess (todo : Todo)
| createFailure (error : Failure)
| update (todo : Todo)
| updateSuccess (todo : Todo)
| updateFailure (error : Failure)
| remove (id : TodoId)
| removeSuccess (id : TodoId)
| removeFailure (error : Failure)
| showCreateDialog
| showEditDialog (todo : Todo)
| showRemoveDialog (id : TodoId).

#[export] Instance Action_eq_dec : EqDecision Action.
Proof. solve_decision. Defined.

End TodoActions.

Module TodoService.

(** A call of a method of the injected service. *)
Inductive Call : Type :=
| findAll (offset limit : nat)
| find (id : TodoId)
| create (todo : Todo)
| update (todo : Todo)
| remove (id : TodoId).

#[export] Instance Call_eq_dec : EqDecision Call.
Proof. solve_decision. Defined.

End TodoService.

(** The five request effects. *)
Inductive Slot : Type := LoadAll | Load | Create | Update | Remove.

#[export] Instance Slot_eq_dec : EqDecision Slot.
Proof. solve_decision. Defined.

(** What the observable of a slot's service call delivers. *)
Definition Result (s : Slot) : Type :=
  match s with
  | LoadAll => list Todo
  | Load | Create | Update => Todo
  | Remove => unit
  end.

(** The slot a service call belongs to. *)
Definition slot_of_call (c : TodoService.Call) : Slot :=
  match c with
  | TodoService.findAll _ _ => LoadAll
  | TodoService.find _ => Load
  | TodoService.create _ => Create
  | TodoService.update _ => Update
  | TodoService.remove _ => Remove
  end.

(** The service call a request action asks for; [None] for the other
    actions. *)
Definition call_of_action (a : TodoActions.Action) : option TodoService.Call :=
  match a with
  | TodoActions.loadAll offset limit => Some (TodoService.findAll offset limit)
  | TodoActions.load id => Some (TodoService.find id)
  | TodoActions.create todo => Some (TodoService.create todo)
  | TodoActions.update todo => Some (TodoService.update todo)
  | TodoActions.remove id => Some (TodoService.remove id)
  | _ => None
  end.

(** The request actions of one slot, as service calls, in order. *)
Definition requests (s : Slot) (l : list TodoActions.Action)
  : list TodoService.Call :=
  filter (λ c, slot_of_call c = s) (omap call_of_action l).

(** The action that reports that the call [c] delivered [v], and the
    action that reports that a call of slot [s] failed with [e]. *)
Definition success (c : TodoService.Call)
  : Result (slot_of_call c) → TodoActions.Action :=
  match c with
  | TodoService.findAll _ _ => λ todos, TodoActions.loadAllSuccess todos
  | TodoService.find _ => λ todo, TodoActions.loadSuccess todo
  | TodoService.create _ => λ todo, TodoActions.createSuccess todo
  | TodoService.update _ => λ todo, TodoActions.updateSuccess todo
  | TodoService.remove id => λ _, TodoActions.removeSuccess id
  end.

Definition failure (s : Slot) (e : Failure) : TodoActions.Action :=
  match s with
  | LoadAll => TodoActions.loadAllFailure e
  | Load => TodoActions.loadFailure e
  | Create => TodoActions.createFailure e
  | Update => TodoActions.updateFailure e
  | Remove => TodoActions.removeFailure e
  end.

(** An action that reports the outcome of a request. *)
Definition is_outcome (a : TodoActions.Action) : bool :=
  match a with
  | TodoActions.loadAllSuccess _ | TodoActions.loadAllFailure _
  | TodoActions.loadSuccess _ | TodoActions.loadFailure _
  | TodoActions.createSuccess _ | TodoActions.createFailure _
  | TodoActions.updateSuccess _ | TodoActions.updateFailure _
  | TodoActions.removeSuccess _ | TodoActions.removeFailure _ => true
  | _ => false
  end.

Lemma outcome_no_call a : is_outcome a = true → call_of_action a = None.
Proof. by destruct a. Qed.

Lemma success_is_outcome c v : is_outcome (success c v) = true.
Proof. by destruct c. Qed.

Lemma failure_is_outcome s e : is_outcome (failure s e) = true.
Proof. by destruct s. Qed.

Lemma call_of_action_slot a c s :
  call_of_action a = Some c → slot_of_call c = s →
  requests s [a] = [c].
Proof.
  intros Ha Hs. unfold requests. simpl. rewrite Ha. simpl.
  by rewrite filter_cons, decide_True.
Qed.

Lemma requests_other a c s :
  call_of_action a = Some c → slot_of_call c ≠ s → requests s [a] = [].
Proof.
  intros Ha Hs. unfold requests. simpl. rewrite Ha. simpl.
  by rewrite filter_cons, decide_False.
Qed.

Lemma requests_no_call a s : call_of_action a = None → requests s [a] = [].
Proof. intros Ha. unfold requests. simpl. by rewrite Ha. Qed.

Lemma requests_app s l1 l2 : requests s (l1 ++ l2) = requests s l1 ++ requests s l2.
Proof. unfold requests. by rewrite omap_app, filter_app. Qed.

Lemma requests_nil s : requests s [] = [].
Proof. done. Qed.

#[export] Hint Rewrite requests_app requests_nil : handler_rw.
