(* ===== verification/Dialog.v ===== *)
(** * The dialog service

    [MatDialog.open] makes a dialog, adds it to the list of open dialogs and
    returns its reference; [MatDialog.close] models [MatDialogRef.close()]:
    the dialog leaves the list, and closing a dialog that is not open
    changes nothing. *)

From S2P Require Import Prelude Actions.

(** The three dialog components the effects open. *)
Inductive Component : Type :=
| TodoCreateDialogComponent
| TodoEditDialogComponent
| TodoDeleteDialogComponent.

(** The [data] of a dialog configuration, as the effects fill it. *)
Inductive DialogData : Type :=
| NoData
| TodoData (todo : Todo)
| IdData (id : TodoId).

Record MatDialogConfig : Type := mkConfig {
  width : option string;
  data : DialogData }.

Record MatDialogRef : Type := mkRef {
  dialogId : nat;
  componentInstance : Component;
  config : MatDialogConfig }.

#[export] Instance Component_eq_dec : EqDecision Component.
Proof. solve_decision. Defined.

#[export] Instance DialogData_eq_dec : EqDecision DialogData.
Proof. solve_decision. Defined.

#[export] Instance MatDialogConfig_eq_dec : EqDecision MatDialogConfig.
Proof. solve_decision. Defined.

#[export] Instance MatDialogRef_eq_dec : EqDecision MatDialogRef.
Proof. solve_decision. Defined.

Module MatDialog.

Record state : Type := State {
  openDialogs : list MatDialogRef;
  nextId : nat }.

Definition init : state := State [] 0.

Definition open (c : Component) (cfg : MatDialogConfig) (d : state)
  : state * MatDialogRef :=
  let ref := mkRef (nextId d) c cfg in
  (State (openDialogs d ++ [ref]) (S (nextId d)), ref).

Definition close (ref : MatDialogRef) (d : state) : state :=
  State (filter (λ r, dialogId r ≠ dialogId ref) (openDialogs d)) (nextId d).

Definition is_open (ref : MatDialogRef) (d : state) : Prop :=
  ref ∈ openDialogs d.

(** The references of the open dialogs are distinct and were all handed
    out before [nextId]. *)
Definition wf (d : state) : Prop :=
  NoDup (dialogId <$> openDialogs d) ∧ Forall (λ r, dialogId r < nextId d) (openDialogs d).

(** A reference the service has handed out. *)
Definition known (ref : MatDialogRef) (d : state) : Prop := dialogId ref < nextId d.

End MatDialog.

#[export] Instance is_open_dec ref d : Decision (MatDialog.is_open ref d).
Proof. unfold MatDialog.is_open. apply _. Defined.

Section dialog_lemmas.
Implicit Types (d : MatDialog.state) (ref r : MatDialogRef).

Lemma dialog_wf_init : MatDialog.wf MatDialog.init.
Proof. split; constructor. Qed.

Lemma dialog_open_ref c cfg d :
  (MatDialog.open c cfg d).2 = mkRef (MatDialog.nextId d) c cfg.
Proof. done. Qed.

Lemma dialog_open_is_open c cfg d :
  MatDialog.is_open (MatDialog.open c cfg d).2 (MatDialog.open c cfg d).1.
Proof.
  unfold MatDialog.is_open. simpl. apply elem_of_app. right. by left.
Qed.

Lemma dialog_open_keeps c cfg d r :
  MatDialog.is_open r d → MatDialog.is_open r (MatDialog.open c cfg d).1.
Proof. unfold MatDialog.is_open. simpl. intros. apply elem_of_app. by left. Qed.

Lemma dialog_open_known c cfg d :
  MatDialog.known (MatDialog.open c cfg d).2 (MatDialog.open c cfg d).1.
Proof. unfold MatDialog.known. simpl. lia. Qed.

Lemma dialog_open_known_mono c cfg d r :
  MatDialog.known r d → MatDialog.known r (MatDialog.open c cfg d).1.
Proof. unfold MatDialog.known. simpl. lia. Qed.

Lemma dialog_close_known ref d r :
  MatDialog.known r d ↔ MatDialog.known r (MatDialog.close ref d).
Proof. done. Qed.

Lemma dialog_wf_open c cfg d :
  MatDialog.wf d → MatDialog.wf (MatDialog.open c cfg d).1.
Proof.
  intros [Hnd Hlt]. split; simpl.
  - rewrite fmap_app. apply NoDup_app. split_and!; [done| |apply NoDup_singleton].
    intros i [r [-> Hr]]%list_elem_of_fmap Hi. simpl in Hi.
    apply list_elem_of_singleton in Hi.
    rewrite Forall_forall in Hlt. apply Hlt in Hr. lia.
  - apply Forall_app. split.
    + eapply Forall_impl; [done|]. simpl. lia.
    + constructor; [simpl; lia|constructor].
Qed.

Lemma dialog_wf_close ref d : MatDialog.wf d → MatDialog.wf (MatDialog.close ref d).
Proof.
  intros [Hnd Hlt]. split; simpl.
  - by apply NoDup_fmap_filter.
  - by apply Forall_filter.
Qed.

(** After [close], the dialog is not open; every other dialog is as open
    as before. *)
Lemma dialog_close_closed ref d : ¬ MatDialog.is_open ref (MatDialog.close ref d).
Proof.
  unfold MatDialog.is_open. simpl. rewrite list_elem_of_filter. by intros [? _].
Qed.

Lemma dialog_close_other ref d r :
  dialogId r ≠ dialogId ref →
  MatDialog.is_open r (MatDialog.close ref d) ↔ MatDialog.is_open r d.
Proof.
  unfold MatDialog.is_open. simpl. rewrite list_elem_of_filter. tauto.
Qed.

(** Closing a dialog that is not open changes nothing. *)
Lemma dialog_close_not_open ref d :
  (∀ r, MatDialog.is_open r d → dialogId r ≠ dialogId ref) →
  MatDialog.close ref d = d.
Proof.
  unfold MatDialog.is_open, MatDialog.close. destruct d as [l n]. simpl.
  intros Hl. f_equal. induction l as [|r l IH]; [done|].
  rewrite filter_cons. rewrite decide_True by (apply Hl; left).
  f_equal. apply IH. intros r' Hr'. apply Hl. by right.
Qed.

Lemma dialog_close_idemp ref d :
  MatDialog.close ref (MatDialog.close ref d) = MatDialog.close ref d.
Proof.
  apply dialog_close_not_open. intros r.
  unfold MatDialog.is_open. simpl. rewrite list_elem_of_filter. by intros [? _].
Qed.

(** Opening a dialog and closing it at once gives back the open dialogs,
    in a well-formed service. *)
Lemma dialog_open_close c cfg d :
  MatDialog.wf d →
  MatDialog.openDialogs
    (MatDialog.close (MatDialog.open c cfg d).2 (MatDialog.open c cfg d).1)
  = MatDialog.openDialogs d.
Proof.
  intros [_ Hlt]. simpl. rewrite filter_app, filter_cons, filter_nil. simpl.
  rewrite decide_False by (by intros []). rewrite app_nil_r.
  induction Hlt as [|r l Hr Hl IH]; [done|].
  rewrite filter_cons, decide_True by lia. by f_equal.
Qed.
End dialog_lemmas.
