(* ===== verification/Effects.v ===== *)
(** * The class [TodoEffects]

    The state of the class, one definition per effect, the dispatch of an
    action to the eleven effects, the delivery of a service notification to
    a request effect, and the transition function over events.  The
    theorems on single reactions and on runs follow the definitions. *)

From S2P Require Import Prelude Rxjs Actions Dialog.

Module TodoEffects.

Import (hints) Rx TodoActions TodoService.
Import TodoActions (Action).

(** The three fields of the class that hold a dialog reference. *)
Inductive Field : Type := CreateDialogRef | EditDialogRef | RemoveDialogRef.

(** What a reaction of the class does to the outside. *)
Inductive Output : Type :=
| Subscribe (s : Slot) (i : nat) (c : TodoService.Call)
| Unsubscribe (s : Slot) (i : nat)
| Emit (a : Action)
| StreamError (s : Slot) (e : Failure)
| Opened (ref : MatDialogRef)
| Closed (ref : MatDialogRef)
| Thrown (f : Field).

#[export] Instance Field_eq_dec : EqDecision Field.
Proof. solve_decision. Defined.

#[export] Instance Output_eq_dec : EqDecision Output.
Proof. solve_decision. Defined.

Record State : Type := mkState {
  createDialogRef : option MatDialogRef;
  editDialogRef : option MatDialogRef;
  removeDialogRef : option MatDialogRef;
  dialog : MatDialog.state;
  loadAll'_state : Rx.SwitchMap.state (nat * nat);
  load'_state : Rx.ConcatMap.state TodoId;
  create'_state : Rx.ConcatMap.state Todo;
  update'_state : Rx.ConcatMap.state Todo;
  remove'_state : Rx.ConcatMap.state TodoId }.

(** The class after its constructor: no dialog reference, no dialog, every
    effect subscribed to [actions$] and idle. *)
Definition init : State :=
  mkState None None None MatDialog.init
    Rx.SwitchMap.init Rx.ConcatMap.init Rx.ConcatMap.init Rx.ConcatMap.init
    Rx.ConcatMap.init.

Definition set_createDialogRef (r : option MatDialogRef) (st : State) : State :=
  mkState r (editDialogRef st) (removeDialogRef st) (dialog st)
    (loadAll'_state st) (load'_state st) (create'_state st) (update'_state st)
    (remove'_state st).

Definition set_editDialogRef (r : option MatDialogRef) (st : State) : State :=
  mkState (createDialogRef st) r (removeDialogRef st) (dialog st)
    (loadAll'_state st) (load'_state st) (create'_state st) (update'_state st)
    (remove'_state st).

Definition set_removeDialogRef (r : option MatDialogRef) (st : State) : State :=
  mkState (createDialogRef st) (editDialogRef st) r (dialog st)
    (loadAll'_state st) (load'_state st) (create'_state st) (update'_state st)
    (remove'_state st).

Definition set_dialog (d : MatDialog.state) (st : State) : State :=
  mkState (createDialogRef st) (editDialogRef st) (removeDialogRef st) d
    (loadAll'_state st) (load'_state st) (create'_state st) (update'_state st)
    (remove'_state st).

Definition loadAll'_lens : Lens State (Rx.SwitchMap.state (nat * nat)) :=
  mkLens loadAll'_state (λ t st,
    mkState (createDialogRef st) (editDialogRef st) (removeDialogRef st)
      (dialog st) t (load'_state st) (create'_state st) (update'_state st)
      (remove'_state st)).

Definition load'_lens : Lens State (Rx.ConcatMap.state TodoId) :=
  mkLens load'_state (λ t st,
    mkState (createDialogRef st) (editDialogRef st) (removeDialogRef st)
      (dialog st) (loadAll'_state st) t (create'_state st) (update'_state st)
      (remove'_state st)).

Definition create'_lens : Lens State (Rx.ConcatMap.state Todo) :=
  mkLens create'_state (λ t st,
    mkState (createDialogRef st) (editDialogRef st) (removeDialogRef st)
      (dialog st) (loadAll'_state st) (load'_state st) t (update'_state st)
      (remove'_state st)).

Definition update'_lens : Lens State (Rx.ConcatMap.state Todo) :=
  mkLens update'_state (λ t st,
    mkState (createDialogRef st) (editDialogRef st) (removeDialogRef st)
      (dialog st) (loadAll'_state st) (load'_state st) (create'_state st) t
      (remove'_state st)).

Definition remove'_lens : Lens State (Rx.ConcatMap.state TodoId) :=
  mkLens remove'_state (λ t st,
    mkState (createDialogRef st) (editDialogRef st) (removeDialogRef st)
      (dialog st) (loadAll'_state st) (load'_state st) (create'_state st)
      (update'_state st) t).

(** ** The operators of NgRx and RxJS around an effect *)

Definition is_emit (o : Output) : bool :=
  match o with Emit _ => true | _ => false end.

(** [createEffect(source, { dispatch })]: what the effect's stream emits is
    dispatched to the store unless [dispatch] is false. *)
Definition createEffect (dispatch : bool) (h : Handler State Output)
  : Handler State Output := λ st,
  let '(st', outs) := h st in
  (st', if dispatch then outs else List.filter (λ o, negb (is_emit o)) outs).

(** The callback threw. *)
Definition throws (outs : list Output) : bool :=
  existsb (λ o, match o with Thrown _ => true | _ => false end) outs.

(** [tap(f)]: [f] runs, then the action passes on, unless [f] threw. *)
Definition tap (f : Handler State Output) (a : Action) : Handler State Output :=
  λ st, let '(st', outs) := f st in
        (st', if throws outs then outs else outs ++ [Emit a]).

(** An output of a flattening operator, as an output of the effect of slot
    [s] whose inner observables come from [call]. *)
Definition out_of {A : Type} (s : Slot) (call : A → TodoService.Call)
    (o : Rx.Out A Action Failure) : Output :=
  match o with
  | Rx.Subscribed i a => Subscribe s i (call a)
  | Rx.Unsubscribed i => Unsubscribe s i
  | Rx.Emitted b => Emit b
  | Rx.Errored e => StreamError s e
  end.

(** ** The request effects: reaction to a dispatched action *)

(** [loadAll$]: the call and the pipe of its inner observable. *)
Definition loadAll'_call (p : nat * nat) : TodoService.Call :=
  TodoService.findAll p.1 p.2.

Definition loadAll'_pipe (p : nat * nat)
    (n : Rx.Notification Failure (list Todo))
  : list (Rx.Notification Failure Action) :=
  Rx.catchError (λ error, Rx.of_ (TodoActions.loadAllFailure error))
    (Rx.map (λ result, TodoActions.loadAllSuccess result) n).

Definition loadAll' (a : Action) : Handler State Output :=
  createEffect true
    match a with
    | TodoActions.loadAll offset limit =>
        lift loadAll'_lens (out_of LoadAll loadAll'_call)
          (Rx.SwitchMap.outerNext (offset, limit))
    | _ => skip
    end.

(** [load$] *)
Definition load'_call (id : TodoId) : TodoService.Call := TodoService.find id.

Definition load'_pipe (id : TodoId) (n : Rx.Notification Failure Todo)
  : list (Rx.Notification Failure Action) :=
  Rx.catchError (λ error, Rx.of_ (TodoActions.loadFailure error))
    (Rx.map (λ result, TodoActions.loadSuccess result) n).

Definition load' (a : Action) : Handler State Output :=
  createEffect true
    match a with
    | TodoActions.load id =>
        lift load'_lens (out_of Load load'_call) (Rx.ConcatMap.outerNext id)
    | _ => skip
    end.

(** [create$] *)
Definition create'_call (todo : Todo) : TodoService.Call :=
  TodoService.create todo.

Definition create'_pipe (todo : Todo) (n : Rx.Notification Failure Todo)
  : list (Rx.Notification Failure Action) :=
  Rx.catchError (λ error, Rx.of_ (TodoActions.createFailure error))
    (Rx.map (λ result, TodoActions.createSuccess result) n).

Definition create' (a : Action) : Handler State Output :=
  createEffect true
    match a with
    | TodoActions.create todo =>
        lift create'_lens (out_of Create create'_call)
          (Rx.ConcatMap.outerNext todo)
    | _ => skip
    end.

(** [update$] *)
Definition update'_call (todo : Todo) : TodoService.Call :=
  TodoService.update todo.

Definition update'_pipe (todo : Todo) (n : Rx.Notification Failure Todo)
  : list (Rx.Notification Failure Action) :=
  Rx.catchError (λ error, Rx.of_ (TodoActions.updateFailure error))
    (Rx.map (λ result, TodoActions.updateSuccess result) n).

Definition update' (a : Action) : Handler State Output :=
  createEffect true
    match a with
    | TodoActions.update todo =>
        lift update'_lens (out_of Update update'_call)
          (Rx.ConcatMap.outerNext todo)
    | _ => skip
    end.

(** [remove$]: the success action carries the [id] of the request, not
    what the service delivers. *)
Definition remove'_call (id : TodoId) : TodoService.Call :=
  TodoService.remove id.

Definition remove'_pipe (id : TodoId) (n : Rx.Notification Failure unit)
  : list (Rx.Notification Failure Action) :=
  Rx.catchError (λ error, Rx.of_ (TodoActions.removeFailure error))
    (Rx.map (λ _, TodoActions.removeSuccess id) n).

Definition remove' (a : Action) : Handler State Output :=
  createEffect true
    match a with
    | TodoActions.remove id =>
        lift remove'_lens (out_of Remove remove'_call)
          (Rx.ConcatMap.outerNext id)
    | _ => skip
    end.

(** ** The dialog effects *)

Definition showCreateDialog' (a : Action) : Handler State Output :=
  createEffect false
    match a with
    | TodoActions.showCreateDialog =>
        tap (λ st,
          let '(d, ref) :=
            MatDialog.open TodoCreateDialogComponent
              (mkConfig (Some "400px") NoData) (dialog st) in
          (set_createDialogRef (Some ref) (set_dialog d st), [Opened ref])) a
    | _ => skip
    end.

Definition hideCreateDialog' (a : Action) : Handler State Output :=
  createEffect false
    match a with
    | TodoActions.createSuccess _ =>
        tap (λ st,
          match createDialogRef st with
          | Some ref =>
              (set_dialog (MatDialog.close ref (dialog st)) st, [Closed ref])
          | None => (st, [Thrown CreateDialogRef])
          end) a
    | _ => skip
    end.

Definition showEditDialog' (a : Action) : Handler State Output :=
  createEffect false
    match a with
    | TodoActions.showEditDialog todo =>
        tap (λ st,
          let '(d, ref) :=
            MatDialog.open TodoEditDialogComponent
              (mkConfig (Some "400px") (TodoData todo)) (dialog st) in
          (set_editDialogRef (Some ref) (set_dialog d st), [Opened ref])) a
    | _ => skip
    end.

Definition hideEditDialog' (a : Action) : Handler State Output :=
  createEffect false
    match a with
    | TodoActions.updateSuccess _ =>
        tap (λ st,
          match editDialogRef st with
          | Some ref =>
              (set_dialog (MatDialog.close ref (dialog st)) st, [Closed ref])
          | None => (st, [Thrown EditDialogRef])
          end) a
    | _ => skip
    end.

Definition showRemoveDialog' (a : Action) : Handler State Output :=
  createEffect false
    match a with
    | TodoActions.showRemoveDialog id =>
        tap (λ st,
          let '(d, ref) :=
            MatDialog.open TodoDeleteDialogComponent
              (mkConfig None (IdData id)) (dialog st) in
          (set_removeDialogRef (Some ref) (set_dialog d st), [Opened ref])) a
    | _ => skip
    end.

Definition hideRemoveDialog' (a : Action) : Handler State Output :=
  createEffect false
    match a with
    | TodoActions.removeSuccess _ =>
        tap (λ st,
          match removeDialogRef st with
          | Some ref =>
              (set_dialog (MatDialog.close ref (dialog st)) st, [Closed ref])
          | None => (st, [Thrown RemoveDialogRef])
          end) a
    | _ => skip
    end.

(** ** The class as a whole *)

(** The effect whose [ofType] lets an action through. *)
Definition responsible (a : Action) : Action → Handler State Output :=
  match a with
  | TodoActions.loadAll _ _ => loadAll'
  | TodoActions.load _ => load'
  | TodoActions.create _ => create'
  | TodoActions.update _ => update'
  | TodoActions.remove _ => remove'
  | TodoActions.showCreateDialog => showCreateDialog'
  | TodoActions.createSuccess _ => hideCreateDialog'
  | TodoActions.showEditDialog _ => showEditDialog'
  | TodoActions.updateSuccess _ => hideEditDialog'
  | TodoActions.showRemoveDialog _ => showRemoveDialog'
  | TodoActions.removeSuccess _ => hideRemoveDialog'
  | _ => λ _, skip
  end.

(** The effects, in the order the class declares them. *)
Definition effects : list (Action → Handler State Output) :=
  [loadAll'; load'; create'; update'; remove';
   showCreateDialog'; hideCreateDialog'; showEditDialog'; hideEditDialog';
   showRemoveDialog'; hideRemoveDialog'].

(** An action goes through [actions$]: every effect sees it. *)
Definition dispatch (a : Action) : Handler State Output :=
  seqs ((λ effect, effect a) <$> effects).

(** An emitted action is dispatched to the store at once, so the effects
    see it before the emitting reaction goes on. *)
Definition deliver (o : Output) : Handler State Output :=
  match o with
  | Emit a => (emit o ;; dispatch a)%H
  | _ => emit o
  end.

Definition feedback (h : Handler State Output) : Handler State Output := λ st,
  let '(st1, outs) := h st in for_each deliver outs st1.

(** A notification [n] of the service's observable reaches the inner
    subscription [i] of a request effect: it goes through the effect's
    [pipe], and the flattening operator reacts to what comes out. *)
Definition on_reply {F : Type → Type} `{!Rx.Flatten F} {A R : Type}
    (s : Slot) (l : Lens State (F A)) (call : A → TodoService.Call)
    (pipe : A → Rx.Notification Failure R → list (Rx.Notification Failure Action))
    (i : nat) (n : Rx.Notification Failure R) : Handler State Output := λ st,
  match Rx.closure_of i (Rx.flat_active (get l st)) with
  | Some a =>
      for_each
        (λ n', feedback (lift l (out_of s call) (Rx.flat_inner i n')))
        (pipe a n) st
  | None => (st, [])
  end.

Definition notify (s : Slot) (i : nat)
  : Rx.Notification Failure (Result s) → Handler State Output :=
  match s with
  | LoadAll => on_reply LoadAll loadAll'_lens loadAll'_call loadAll'_pipe i
  | Load => on_reply Load load'_lens load'_call load'_pipe i
  | Create => on_reply Create create'_lens create'_call create'_pipe i
  | Update => on_reply Update update'_lens update'_call update'_pipe i
  | Remove => on_reply Remove remove'_lens remove'_call remove'_pipe i
  end.

(** What happens to the class: an action is dispatched, or the observable
    of a service call delivers a notification. *)
Inductive Event : Type :=
| Dispatch (a : Action)
| Reply (s : Slot) (i : nat) (n : Rx.Notification Failure (Result s)).

Definition step (ev : Event) : Handler State Output :=
  match ev with
  | Dispatch a => dispatch a
  | Reply s i n => notify s i n
  end.

Definition run (evs : list Event) : Handler State Output := for_each step evs.

(** ** Observations on states, outputs and events *)

(** The inner subscription of a slot, as index and service call. *)
Definition in_flight (s : Slot) (st : State) : option (nat * TodoService.Call) :=
  match s with
  | LoadAll => prod_map id loadAll'_call <$> Rx.SwitchMap.innerSubscriber (loadAll'_state st)
  | Load => prod_map id load'_call <$> Rx.ConcatMap.active (load'_state st)
  | Create => prod_map id create'_call <$> Rx.ConcatMap.active (create'_state st)
  | Update => prod_map id update'_call <$> Rx.ConcatMap.active (update'_state st)
  | Remove => prod_map id remove'_call <$> Rx.ConcatMap.active (remove'_state st)
  end.

(** The service calls of a slot that wait for the one in flight. *)
Definition waiting (s : Slot) (st : State) : list TodoService.Call :=
  match s with
  | LoadAll => []
  | Load => load'_call <$> Rx.ConcatMap.buffer (load'_state st)
  | Create => create'_call <$> Rx.ConcatMap.buffer (create'_state st)
  | Update => update'_call <$> Rx.ConcatMap.buffer (update'_state st)
  | Remove => remove'_call <$> Rx.ConcatMap.buffer (remove'_state st)
  end.

(** The number of inner subscriptions a slot has made. *)
Definition subscriptions (s : Slot) (st : State) : nat :=
  match s with
  | LoadAll => Rx.SwitchMap.index (loadAll'_state st)
  | Load => Rx.ConcatMap.index (load'_state st)
  | Create => Rx.ConcatMap.index (create'_state st)
  | Update => Rx.ConcatMap.index (update'_state st)
  | Remove => Rx.ConcatMap.index (remove'_state st)
  end.

(** The service calls of slot [s] made in a list of outputs, in order. *)
Definition calls (s : Slot) (outs : list Output) : list TodoService.Call :=
  omap (λ o, match o with
             | Subscribe s' _ c => if decide (s' = s) then Some c else None
             | _ => None
             end) outs.

(** The actions emitted in a list of outputs, in order. *)
Definition emits (outs : list Output) : list Action :=
  omap (λ o, match o with Emit a => Some a | _ => None end) outs.

(** The actions a list of events dispatches, in order. *)
Definition dispatched (evs : list Event) : list Action :=
  omap (λ ev, match ev with Dispatch a => Some a | Reply _ _ _ => None end) evs.

Definition is_stream_error (o : Output) : Prop :=
  match o with StreamError _ _ => True | _ => False end.

Definition is_thrown (o : Output) : Prop :=
  match o with Thrown _ => True | _ => False end.

(** The dialog reference a field holds. *)
Definition field (f : Field) (st : State) : option MatDialogRef :=
  match f with
  | CreateDialogRef => createDialogRef st
  | EditDialogRef => editDialogRef st
  | RemoveDialogRef => removeDialogRef st
  end.

(** The component a field's dialog shows. *)
Definition component_of (f : Field) : Component :=
  match f with
  | CreateDialogRef => TodoCreateDialogComponent
  | EditDialogRef => TodoEditDialogComponent
  | RemoveDialogRef => TodoDeleteDialogComponent
  end.

Definition set_field (f : Field) (r : option MatDialogRef) (st : State)
  : State :=
  match f with
  | CreateDialogRef => set_createDialogRef r st
  | EditDialogRef => set_editDialogRef r st
  | RemoveDialogRef => set_removeDialogRef r st
  end.

(** The field a show action sets, with the configuration of the dialog it
    opens; the field whose dialog a success action closes. *)
Definition shows (a : Action) : option (Field * MatDialogConfig) :=
  match a with
  | TodoActions.showCreateDialog =>
      Some (CreateDialogRef, mkConfig (Some "400px") NoData)
  | TodoActions.showEditDialog todo =>
      Some (EditDialogRef, mkConfig (Some "400px") (TodoData todo))
  | TodoActions.showRemoveDialog id =>
      Some (RemoveDialogRef, mkConfig None (IdData id))
  | _ => None
  end.

Definition closes (a : Action) : option Field :=
  match a with
  | TodoActions.createSuccess _ => Some CreateDialogRef
  | TodoActions.updateSuccess _ => Some EditDialogRef
  | TodoActions.removeSuccess _ => Some RemoveDialogRef
  | _ => None
  end.

(** The operator states of the five request effects. *)
Definition operators (st : State) :=
  (loadAll'_state st, load'_state st, create'_state st, update'_state st,
   remove'_state st).

(** ** Well-formed states *)

Definition wf (st : State) : Prop :=
  MatDialog.wf (dialog st) ∧
  (∀ f ref, field f st = Some ref →
     MatDialog.known ref (dialog st) ∧ componentInstance ref = component_of f) ∧
  Rx.SwitchMap.wf (loadAll'_state st) ∧
  Rx.ConcatMap.wf (load'_state st) ∧
  Rx.ConcatMap.wf (create'_state st) ∧
  Rx.ConcatMap.wf (update'_state st) ∧
  Rx.ConcatMap.wf (remove'_state st).

(** The states the class can be in. *)
Inductive reachable : State → Prop :=
| reachable_init : reachable init
| reachable_step st ev : reachable st → reachable (step ev st).1.

End TodoEffects.

Import (hints) Rx TodoActions TodoService TodoEffects.

(** ** The lenses are lawful *)

Ltac solve_lens := split; intros; by repeat match goal with
  | st : TodoEffects.State |- _ => destruct st
  end.

#[export] Instance loadAll'_lens_laws : LensLaws TodoEffects.loadAll'_lens.
Proof. solve_lens. Qed.

#[export] Instance load'_lens_laws : LensLaws TodoEffects.load'_lens.
Proof. solve_lens. Qed.

#[export] Instance create'_lens_laws : LensLaws TodoEffects.create'_lens.
Proof. solve_lens. Qed.

#[export] Instance update'_lens_laws : LensLaws TodoEffects.update'_lens.
Proof. solve_lens. Qed.

#[export] Instance remove'_lens_laws : LensLaws TodoEffects.remove'_lens.
Proof. solve_lens. Qed.

Lemma createEffect_true h st :
  TodoEffects.createEffect true h st = h st.
Proof. unfold TodoEffects.createEffect. by destruct (h st). Qed.

(** ** Reading a field or the dialogs after a write *)

Section setters.
Import TodoEffects.
Implicit Types (st : State) (f : Field) (r : option MatDialogRef).

Lemma field_set_field f f' r st :
  field f' (set_field f r st) = if decide (f = f') then r else field f' st.
Proof. by destruct f, f'. Qed.

Lemma field_set_dialog f d st : field f (set_dialog d st) = field f st.
Proof. by destruct f. Qed.

Lemma dialog_set_field f r st : dialog (set_field f r st) = dialog st.
Proof. by destruct f. Qed.

Lemma dialog_set_dialog d st : dialog (set_dialog d st) = d.
Proof. done. Qed.
End setters.

#[export] Hint Rewrite field_set_field field_set_dialog dialog_set_field
  dialog_set_dialog : handler_rw.

(** ** One effect per action *)

(** Finds the effect of [dispatch] that is not silent on the action. *)
Ltac pick_effect :=
  first [ apply (seqs_one []) | apply (seqs_one [_]) | apply (seqs_one [_;_])
        | apply (seqs_one [_;_;_]) | apply (seqs_one [_;_;_;_])
        | apply (seqs_one [_;_;_;_;_]) | apply (seqs_one [_;_;_;_;_;_])
        | apply (seqs_one [_;_;_;_;_;_;_])
        | apply (seqs_one [_;_;_;_;_;_;_;_])
        | apply (seqs_one [_;_;_;_;_;_;_;_;_])
        | apply (seqs_one [_;_;_;_;_;_;_;_;_;_]) ];
  solve_silent.

(** An action dispatched to the class is handled by one effect at
    most, the one whose [ofType] names its type: passing it to the eleven
    effects in turn does what that effect does, and an action no effect
    filters (a failure, [loadSuccess], [loadAllSuccess]) does nothing. *)
Lemma dispatch_responsible (a : TodoActions.Action) (st : TodoEffects.State) :
  TodoEffects.dispatch a st = TodoEffects.responsible a a st.
Proof.
  unfold TodoEffects.dispatch, TodoEffects.effects. cbv [fmap list_fmap].
  destruct a; simpl TodoEffects.responsible;
    first [ by rewrite (silent_seqs _) by solve_silent | pick_effect ].
Qed.

(** The same with the hypothesis [Hp] that the handlers are those of the
    effects in some order. *)
Ltac pick_effect_perm Hp :=
  first [ apply (seqs_one_perm [] _ _ _ _ Hp)
        | apply (seqs_one_perm [_] _ _ _ _ Hp)
        | apply (seqs_one_perm [_;_] _ _ _ _ Hp)
        | apply (seqs_one_perm [_;_;_] _ _ _ _ Hp)
        | apply (seqs_one_perm [_;_;_;_] _ _ _ _ Hp)
        | apply (seqs_one_perm [_;_;_;_;_] _ _ _ _ Hp)
        | apply (seqs_one_perm [_;_;_;_;_;_] _ _ _ _ Hp)
        | apply (seqs_one_perm [_;_;_;_;_;_;_] _ _ _ _ Hp)
        | apply (seqs_one_perm [_;_;_;_;_;_;_;_] _ _ _ _ Hp)
        | apply (seqs_one_perm [_;_;_;_;_;_;_;_;_] _ _ _ _ Hp)
        | apply (seqs_one_perm [_;_;_;_;_;_;_;_;_;_] _ _ _ _ Hp) ];
  solve_silent.

(** C25. The order in which the effects are subscribed to [actions$] does
    not matter: passing an action to the eleven effects in any order does
    what passing it in the order of declaration does, since the [ofType]
    filters of the effects are disjoint. *)
Theorem effects_order_irrelevant (es : list (TodoActions.Action → Handler _ _))
    (a : TodoActions.Action) (st : TodoEffects.State) :
  es ≡ₚ TodoEffects.effects →
  seqs ((λ effect, effect a) <$> es) st = TodoEffects.dispatch a st.
Proof.
  intros Hp%(fmap_Permutation (λ effect, effect a)).
  unfold TodoEffects.effects in Hp. cbv [fmap list_fmap] in Hp.
  rewrite dispatch_responsible.
  destruct a; simpl TodoEffects.responsible;
    first [ by apply (seqs_silent_perm _ _ _ Hp); solve_silent
          | pick_effect_perm Hp ].
Qed.

Lemma effects_order_irrelevant_witness :
  seqs ((λ effect, effect (TodoActions.create (mkTodo "" "Buy milk" false 0)))
          <$> reverse TodoEffects.effects) TodoEffects.init
  = TodoEffects.dispatch (TodoActions.create (mkTodo "" "Buy milk" false 0))
      TodoEffects.init.
Proof.
  apply (effects_order_irrelevant (reverse TodoEffects.effects)).
  apply reverse_Permutation.
Defined.
