(* ===== verification/Samples.v ===== *)
(** * Sample data

    Concrete todos, failures and states of the class, on which the theorems
    are applied and the scenarios of the specification are run. *)

From S2P Require Import Prelude Rxjs Actions Dialog Effects.

Import TodoEffects.

Definition milk_draft : Todo := mkTodo "" "Buy milk" false 0.
Definition milk : Todo := mkTodo "t1" "Buy milk" false 1.
Definition milk_done : Todo := mkTodo "t1" "Buy milk" true 1.
Definition eggs_draft : Todo := mkTodo "" "Buy eggs" false 0.
Definition titled (t : string) : Todo := mkTodo "t1" t false 1.

Definition not_found : Failure := mkFailure NotFound "no such todo".
Definition unavailable : Failure := mkFailure ServiceUnavailable "try again".

(** The create dialog is open and [create] is in flight: the user opened
    the dialog and submitted the form. *)
Definition creating : State :=
  (run [Dispatch TodoActions.showCreateDialog;
        Dispatch (TodoActions.create milk_draft)] init).1.

(** The same with a second [create] that waits behind the first. *)
Definition creating_twice : State :=
  (run [Dispatch (TodoActions.create eggs_draft)] creating).1.

(** A [loadAll] is in flight. *)
Definition loading : State :=
  (run [Dispatch (TodoActions.loadAll 0 10)] init).1.

(** The reference of the first dialog the service hands out, for the
    create dialog. *)
Definition first_create_ref : MatDialogRef :=
  mkRef 0 TodoCreateDialogComponent (mkConfig (Some "400px") NoData).
