(* ===== verification/Slots.v ===== *)
(** * The five request effects, seen uniformly

    A [SlotView] gathers what a request effect is made of: its flattening
    operator, the part of the state it owns, the service call it makes and
    the pipe around the call.  [view] gives the view of each slot, and the
    lemmas relate the views to the definitions of the class, so that a fact
    about all request effects is proved once. *)

From S2P Require Import Prelude Rxjs Actions Dialog Effects.

Import (hints) Rx TodoActions TodoService TodoEffects.
Import TodoEffects.

Record SlotView (s : Slot) : Type := mkView {
  sv_F : Type → Type;
  sv_flatten : Rx.Flatten sv_F;
  sv_A : Type;
  sv_lens : Lens State (sv_F sv_A);
  sv_call : sv_A → TodoService.Call;
  sv_pipe : sv_A → Rx.Notification Failure (Result s) →
            list (Rx.Notification Failure TodoActions.Action);
  sv_succ : sv_A → Result s → TodoActions.Action }.

Arguments mkView s sv_F {sv_flatten} sv_A sv_lens sv_call sv_pipe sv_succ.
Arguments sv_F {s} _.
Arguments sv_flatten {s} _.
Arguments sv_A {s} _.
Arguments sv_lens {s} _.
Arguments sv_call {s} _ _.
Arguments sv_pipe {s} _ _ _.
Arguments sv_succ {s} _ _ _.

#[export] Existing Instance sv_flatten.

Definition view (s : Slot) : SlotView s :=
  match s with
  | LoadAll =>
      mkView LoadAll Rx.SwitchMap.state (nat * nat) loadAll'_lens
        loadAll'_call loadAll'_pipe (λ _ r, TodoActions.loadAllSuccess r)
  | Load =>
      mkView Load Rx.ConcatMap.state TodoId load'_lens
        load'_call load'_pipe (λ _ r, TodoActions.loadSuccess r)
  | Create =>
      mkView Create Rx.ConcatMap.state Todo create'_lens
        create'_call create'_pipe (λ _ r, TodoActions.createSuccess r)
  | Update =>
      mkView Update Rx.ConcatMap.state Todo update'_lens
        update'_call update'_pipe (λ _ r, TodoActions.updateSuccess r)
  | Remove =>
      mkView Remove Rx.ConcatMap.state TodoId remove'_lens
        remove'_call remove'_pipe (λ id _, TodoActions.removeSuccess id)
  end.

(** The operator state of a slot, its reaction to an outer value and to a
    notification of its inner observable after the pipe. *)
Definition slot_state (s : Slot) (st : State) : sv_F (view s) (sv_A (view s)) :=
  get (sv_lens (view s)) st.

Definition slot_outer (s : Slot) (a : sv_A (view s)) : Handler State Output :=
  lift (sv_lens (view s)) (out_of s (sv_call (view s))) (Rx.flat_outer a).

Definition slot_inner (s : Slot) (i : nat)
    (n : Rx.Notification Failure TodoActions.Action) : Handler State Output :=
  lift (sv_lens (view s)) (out_of s (sv_call (view s))) (Rx.flat_inner i n).

Section view_laws.
Implicit Types (s : Slot) (st : State) (i : nat).

#[export] Instance view_lens_laws s : LensLaws (sv_lens (view s)).
Proof. destruct s; apply _. Qed.

#[export] Instance view_call_inj s : Inj (=) (=) (sv_call (view s)).
Proof. destruct s; intros x y Hxy; try destruct x, y; by simplify_eq/=. Qed.

Lemma view_call_slot s a : slot_of_call (sv_call (view s) a) = s.
Proof. by destruct s. Qed.

Lemma view_pipe s a n :
  sv_pipe (view s) a n
  = Rx.catchError (λ e, Rx.of_ (failure s e)) (Rx.map (sv_succ (view s) a) n).
Proof. by destruct s. Qed.

Lemma view_notify s i n :
  notify s i n
  = on_reply s (sv_lens (view s)) (sv_call (view s)) (sv_pipe (view s)) i n.
Proof. by destruct s. Qed.

Lemma view_in_flight s st :
  in_flight s st
  = prod_map id (sv_call (view s)) <$> Rx.flat_active (slot_state s st).
Proof. by destruct s. Qed.

Lemma view_waiting s st :
  waiting s st = sv_call (view s) <$> Rx.flat_waiting (slot_state s st).
Proof. by destruct s. Qed.

Lemma view_subscriptions s st :
  subscriptions s st = Rx.flat_index (slot_state s st).
Proof. by destruct s. Qed.

(** The success action of a slot is the one of its call. *)
Lemma view_success c v :
  ∃ a, c = sv_call (view (slot_of_call c)) a ∧
       success c v = sv_succ (view (slot_of_call c)) a v.
Proof. destruct c; simpl; by eexists (_, _) || eexists. Qed.

(** A request action is the outer value of the effect of its slot, and of
    no other effect. *)
Lemma view_dispatch a c st :
  call_of_action a = Some c →
  ∃ x, c = sv_call (view (slot_of_call c)) x ∧
       dispatch a st = slot_outer (slot_of_call c) x st.
Proof.
  intros Ha. rewrite dispatch_responsible.
  destruct a; simplify_eq/=;
    (eexists (_, _) || eexists); (split; [reflexivity|]);
    apply createEffect_true.
Qed.

(** Writing the operator state of a slot leaves the other slots, the
    fields and the dialogs as they are. *)
Lemma view_frame s s' t st :
  s ≠ s' → slot_state s (set (sv_lens (view s')) t st) = slot_state s st.
Proof. by destruct s, s'. Qed.

Lemma view_frame_dialog s t st :
  dialog (set (sv_lens (view s)) t st) = dialog st.
Proof. by destruct s. Qed.

Lemma view_frame_field s f t st :
  field f (set (sv_lens (view s)) t st) = field f st.
Proof. by destruct s, f. Qed.

Lemma view_frame_set_dialog s d st :
  slot_state s (set_dialog d st) = slot_state s st.
Proof. by destruct s. Qed.

Lemma view_frame_set_field s f r st :
  slot_state s (set_field f r st) = slot_state s st.
Proof. by destruct s, f. Qed.
End view_laws.

(** The subscription in flight, in terms of the closure of the operator. *)
Lemma in_flight_Some s st i a :
  in_flight s st = Some (i, sv_call (view s) a)
  ↔ Rx.closure_of i (Rx.flat_active (slot_state s st)) = Some a.
Proof.
  rewrite view_in_flight, Rx.closure_of_Some.
  destruct (Rx.flat_active _) as [[j a']|]; simpl; [|done].
  split; intros; by simplify_eq.
Qed.

Lemma in_flight_None s st i :
  (∀ c, in_flight s st ≠ Some (i, c))
  ↔ Rx.closure_of i (Rx.flat_active (slot_state s st)) = None.
Proof.
  rewrite view_in_flight, Rx.closure_of_None.
  destruct (Rx.flat_active _) as [[j a']|]; simpl; [|done].
  split; intros H ??; simplify_eq; by eapply H.
Qed.

Lemma in_flight_inv s st i c :
  in_flight s st = Some (i, c) →
  ∃ a, c = sv_call (view s) a ∧ Rx.flat_active (slot_state s st) = Some (i, a).
Proof.
  rewrite view_in_flight.
  destruct (Rx.flat_active _) as [[j a']|]; simpl; intros; simplify_eq; eauto.
Qed.

(** The call in flight of a slot is a call of that slot. *)
Lemma in_flight_slot s st i c :
  in_flight s st = Some (i, c) → slot_of_call c = s.
Proof. intros (a & -> & _)%in_flight_inv. apply view_call_slot. Qed.
