(* ===== verification/Reactions.v ===== *)
(** * Single reactions of the class

    What one dispatched action and one service notification do, on every
    branch: the equations of [createEffect], [feedback] and [on_reply], then
    the behaviour of the request effects and of the dialog effects. *)

From S2P Require Import Prelude Rxjs Actions Dialog Effects Samples Slots.

Import (hints) Rx TodoActions TodoService TodoEffects.
Import TodoEffects.

(** ** Equations of the operators around an effect *)

Section wrappers.
Implicit Types (h : Handler State Output) (st : State) (outs : list Output).

Lemma emits_app outs1 outs2 : emits (outs1 ++ outs2) = emits outs1 ++ emits outs2.
Proof. apply omap_app. Qed.

Lemma calls_app s outs1 outs2 :
  calls s (outs1 ++ outs2) = calls s outs1 ++ calls s outs2.
Proof. apply omap_app. Qed.

(** Outputs that carry no action are delivered as they are. *)
Lemma deliver_quiet outs st :
  emits outs = [] → for_each deliver outs st = (st, outs).
Proof.
  induction outs as [|o outs IH]; [done|]. intros Ho.
  rewrite for_each_cons, seq_eq.
  destruct o; simpl in *; try discriminate; by rewrite IH.
Qed.

Lemma feedback_eq h st : feedback h st = for_each deliver (h st).2 (h st).1.
Proof. unfold feedback. by destruct (h st). Qed.

Lemma feedback_quiet h st : emits (h st).2 = [] → feedback h st = h st.
Proof. intros Hh. rewrite feedback_eq, deliver_quiet by done. by destruct (h st). Qed.

(** What a flattening operator emits is what its effect emits. *)
Lemma emits_out_of {A} s (call : A → TodoService.Call)
    (outs : list (Rx.Out A TodoActions.Action Failure)) :
  emits (out_of s call <$> outs) = Rx.emitted outs.
Proof.
  unfold emits, Rx.emitted.
  induction outs as [|[] outs IH]; csimpl; by rewrite ?IH.
Qed.

Lemma calls_out_of {A} s (call : A → TodoService.Call)
    (outs : list (Rx.Out A TodoActions.Action Failure)) :
  calls s (out_of s call <$> outs) = call <$> Rx.subscribed outs.
Proof.
  unfold calls, Rx.subscribed.
  induction outs as [|[] outs IH]; csimpl; rewrite ?decide_True by done;
    by rewrite ?IH.
Qed.

Lemma calls_out_of_ne {A} s s' (call : A → TodoService.Call)
    (outs : list (Rx.Out A TodoActions.Action Failure)) :
  s' ≠ s → calls s (out_of s' call <$> outs) = [].
Proof.
  intros Hs. unfold calls.
  induction outs as [|[] outs IH]; csimpl; rewrite ?decide_False by done;
    by rewrite ?IH.
Qed.
End wrappers.

#[export] Hint Rewrite emits_app calls_app : handler_rw.

(** ** A notification reaches a request effect *)

Section on_reply.
Context {F : Type → Type} `{!Rx.Flatten F} {A R : Type}.
Context (s : Slot) (l : Lens State (F A)) `{!LensLaws l}.
Context (call : A → TodoService.Call).
Context (pipe : A → Rx.Notification Failure R →
                list (Rx.Notification Failure TodoActions.Action)).
Context (succ : A → R → TodoActions.Action) (fail : Failure → TodoActions.Action).
Hypothesis pipe_eq : ∀ a n,
  pipe a n = Rx.catchError (λ e, Rx.of_ (fail e)) (Rx.map (succ a) n).
Hypothesis fail_silent : ∀ e, silent (dispatch (fail e)).
Implicit Types (st : State) (i : nat) (a : A).

#[local] Abbreviation inner i n := (lift l (out_of s call) (Rx.flat_inner i n)).
#[local] Abbreviation closure i st := (Rx.closure_of i (Rx.flat_active (get l st))).

Lemma on_reply_stale st i n :
  closure i st = None → on_reply s l call pipe i n st = (st, []).
Proof. intros Hi. unfold on_reply. by rewrite Hi. Qed.

Lemma inner_Next st i a b :
  closure i st = Some a →
  feedback (inner i (Rx.Next b)) st = (emit (Emit b) ;; dispatch b)%H st.
Proof.
  intros Hi. rewrite feedback_eq, lift_eq, (Rx.flat_inner_Next _ _ a) by done.
  simpl. by rewrite set_get, for_each_singleton.
Qed.

Lemma inner_Complete st i :
  feedback (inner i Rx.Complete) st = inner i Rx.Complete st.
Proof.
  apply feedback_quiet. rewrite lift_outputs, emits_out_of.
  apply Rx.control_emitted, Rx.flat_inner_Complete.
Qed.

(** A value: the success action is emitted and dispatched. *)
Lemma on_reply_Next st i a v :
  closure i st = Some a →
  on_reply s l call pipe i (Rx.Next v) st
  = (emit (Emit (succ a v)) ;; dispatch (succ a v))%H st.
Proof.
  intros Hi. unfold on_reply. rewrite Hi, pipe_eq. simpl.
  rewrite for_each_singleton. by eapply inner_Next.
Qed.

(** An error: the failure action is emitted, and the inner observable
    built by [catchError] completes. *)
Lemma on_reply_Error st i a e :
  closure i st = Some a →
  on_reply s l call pipe i (Rx.Error e) st
  = (emit (Emit (fail e)) ;; inner i Rx.Complete)%H st.
Proof.
  intros Hi. unfold on_reply. rewrite Hi, pipe_eq. simpl.
  unfold Rx.of_. rewrite for_each_cons, !seq_eq, for_each_singleton.
  rewrite (inner_Next _ _ a), seq_silent_r by (done || apply fail_silent).
  simpl. by rewrite inner_Complete.
Qed.

Lemma on_reply_Complete st i a :
  closure i st = Some a →
  on_reply s l call pipe i Rx.Complete st = inner i Rx.Complete st.
Proof.
  intros Hi. unfold on_reply. rewrite Hi, pipe_eq. simpl.
  by rewrite for_each_singleton, inner_Complete.
Qed.
End on_reply.

(** ** The request effects, slot by slot *)

Section replies.
Implicit Types (s : Slot) (st : State) (i : nat) (c : TodoService.Call).

Lemma failure_silent s e : silent (dispatch (failure s e)).
Proof. intros st. rewrite dispatch_responsible. by destruct s. Qed.

(** A notification addressed to an inner subscription that is not the
    one in flight (it completed, failed, or was cancelled by a later
    [loadAll]) changes nothing and produces nothing. *)
Lemma reply_stale s i n st :
  (∀ c, in_flight s st ≠ Some (i, c)) → step (Reply s i n) st = (st, []).
Proof.
  intros Hi. simpl. rewrite view_notify.
  by apply on_reply_stale, in_flight_None.
Qed.

Lemma reply_active s i c st :
  in_flight s st = Some (i, c) →
  ∃ a, c = sv_call (view s) a ∧
       Rx.closure_of i (Rx.flat_active (slot_state s st)) = Some a.
Proof.
  intros (a & -> & Ha)%in_flight_inv. exists a. split; [done|].
  by apply Rx.closure_of_Some.
Qed.

(** A value delivered to the subscription in flight: the success action of
    the call is emitted and goes through the effects. *)
Lemma reply_value c i v st :
  in_flight (slot_of_call c) st = Some (i, c) →
  step (Reply (slot_of_call c) i (Rx.Next v)) st
  = (emit (Emit (success c v)) ;; dispatch (success c v))%H st.
Proof.
  intros (a & Hc & Ha)%reply_active.
  destruct (view_success c v) as (a' & Hc' & ->).
  assert (a' = a) as -> by (apply (inj (sv_call (view (slot_of_call c)))); congruence).
  simpl. rewrite view_notify.
  eapply (on_reply_Next _ _ _ _ _ (failure (slot_of_call c)));
    eauto using view_pipe, failure_silent.
Qed.

(** An error delivered to the subscription in flight: the failure action
    is emitted, no effect reacts to it, and the inner observable
    completes. *)
Lemma reply_error s i c e st :
  in_flight s st = Some (i, c) →
  step (Reply s i (Rx.Error e)) st
  = (emit (Emit (failure s e)) ;; slot_inner s i Rx.Complete)%H st.
Proof.
  intros (a & Hc & Ha)%reply_active. simpl. rewrite view_notify.
  eapply (on_reply_Error _ _ _ _ (sv_succ (view s)));
    eauto using view_pipe, failure_silent.
Qed.

Lemma reply_complete s i c st :
  in_flight s st = Some (i, c) →
  step (Reply s i Rx.Complete) st = slot_inner s i Rx.Complete st.
Proof.
  intros (a & Hc & Ha)%reply_active. simpl. rewrite view_notify.
  eapply (on_reply_Complete _ _ _ _ (sv_succ (view s)) (failure s));
    eauto using view_pipe, failure_silent.
Qed.
End replies.

(** ** Reactions of a slot, in terms of what can be observed *)

Section slot_frame.
Context {O : Type} (s : Slot).
Context (h : Handler (sv_F (view s) (sv_A (view s))) O) (tr : O → Output).
Implicit Types (st : State).

#[local] Abbreviation lifted := (lift (sv_lens (view s)) tr h).

Lemma slot_lift_state st : slot_state s (lifted st).1 = (h (slot_state s st)).1.
Proof. apply lift_get, _. Qed.

Lemma slot_lift_other s' st : s' ≠ s → slot_state s' (lifted st).1 = slot_state s' st.
Proof. intros. rewrite lift_eq. by apply view_frame. Qed.

Lemma slot_lift_dialog st : dialog (lifted st).1 = dialog st.
Proof. rewrite lift_eq. apply view_frame_dialog. Qed.

Lemma slot_lift_field f st : field f (lifted st).1 = field f st.
Proof. rewrite lift_eq. apply view_frame_field. Qed.
End slot_frame.

Section slot_reactions.
Implicit Types (s : Slot) (st : State) (i : nat) (c : TodoService.Call).

Lemma slot_inner_stale s i n st :
  Rx.closure_of i (Rx.flat_active (slot_state s st)) = None →
  slot_inner s i n st = (st, []).
Proof. intros Hi. apply lift_silent; [apply _|]. by apply Rx.flat_inner_stale. Qed.

(** The inner observable in flight completes: the first waiting call, if
    any, is made. *)
Lemma slot_complete s i c st :
  in_flight s st = Some (i, c) →
  (slot_inner s i Rx.Complete st).2 =
    match waiting s st with
    | [] => []
    | c' :: _ => [Subscribe s (subscriptions s st) c']
    end ∧
  in_flight s (slot_inner s i Rx.Complete st).1 =
    match waiting s st with
    | [] => None
    | c' :: _ => Some (subscriptions s st, c')
    end ∧
  waiting s (slot_inner s i Rx.Complete st).1 = tail (waiting s st).
Proof.
  intros (a & -> & Ha)%in_flight_inv.
  destruct (Rx.flat_complete (B:=TodoActions.Action) (E:=Failure) _ _ _ Ha)
    as [Hout%(f_equal snd) Hact].
  pose proof (Rx.flat_account_inner (B:=TodoActions.Action) (E:=Failure)
    (slot_state s st) i Rx.Complete) as Hacc.
  unfold slot_inner. rewrite view_in_flight, !view_waiting, view_subscriptions.
  rewrite slot_lift_state, lift_outputs. fold (slot_state s st). rewrite Hact.
  destruct (Rx.flat_waiting (slot_state s st)) as [|a' w]; simpl in *;
    rewrite Hout in Hacc |- *; simpl in *.
  - by rewrite Hacc.
  - specialize (Hacc eq_refl). by simplify_eq.
Qed.

(** A request action reaches the operator of its slot: nothing is lost,
    and a subscription is in flight afterwards. *)
Lemma dispatch_request_account a c st :
  call_of_action a = Some c → wf st →
  calls (slot_of_call c) (dispatch a st).2
    ++ waiting (slot_of_call c) (dispatch a st).1
  = waiting (slot_of_call c) st ++ [c].
Proof.
  intros (x & Hc & ->)%(view_dispatch _ _ st) Hwf. set (s := slot_of_call c).
  unfold slot_outer. rewrite !view_waiting, slot_lift_state, lift_outputs.
  rewrite calls_out_of, <-fmap_app, Rx.flat_account_outer.
  - by rewrite fmap_app, Hc.
  - destruct Hwf as (_ & _ & ? & ? & ? & ? & ?). by destruct s.
Qed.

Lemma dispatch_request_busy a c st :
  call_of_action a = Some c →
  is_Some (in_flight (slot_of_call c) (dispatch a st).1).
Proof.
  intros (x & Hc & ->)%(view_dispatch _ _ st).
  unfold slot_outer. rewrite view_in_flight, slot_lift_state.
  apply fmap_is_Some, Rx.flat_outer_busy.
Qed.
End slot_reactions.

(** ** [concatMap] against [switchMap] on a dispatched request *)

Section request_dispatch.
Implicit Types (st : State) (c : TodoService.Call) (a : TodoActions.Action).

(** A dispatched request, whatever its effect and whatever is in flight:
    an idle effect calls the service at once; a busy [concatMap] effect
    puts the call at the end of those that wait; [loadAll$] cancels the
    call in flight and makes the new one. *)
Lemma dispatch_request a c st :
  call_of_action a = Some c →
  (dispatch a st).2 =
    match in_flight (slot_of_call c) st with
    | None => [Subscribe (slot_of_call c) (subscriptions (slot_of_call c) st) c]
    | Some (i, _) =>
        if decide (slot_of_call c = LoadAll)
        then [Unsubscribe LoadAll i;
              Subscribe LoadAll (subscriptions LoadAll st) c]
        else []
    end ∧
  in_flight (slot_of_call c) (dispatch a st).1 =
    match in_flight (slot_of_call c) st with
    | Some x =>
        if decide (slot_of_call c = LoadAll)
        then Some (subscriptions LoadAll st, c) else Some x
    | None => Some (subscriptions (slot_of_call c) st, c)
    end ∧
  waiting (slot_of_call c) (dispatch a st).1 =
    match in_flight (slot_of_call c) st with
    | Some _ => waiting (slot_of_call c) st
                ++ (if decide (slot_of_call c = LoadAll) then [] else [c])
    | None => waiting (slot_of_call c) st
    end.
Proof.
  intros (y & Hc & ->)%(view_dispatch _ _ st).
  destruct c; cbv in Hc; simplify_eq;
    unfold slot_outer; rewrite lift_eq; simpl in *;
    unfold Rx.ConcatMap.outerNext, Rx.SwitchMap.outerNext;
    try destruct (Rx.ConcatMap.active _) as [[]|];
    try destruct (Rx.SwitchMap.innerSubscriber _) as [[]|];
    simplify_eq/=; by rewrite ?fmap_app.
Qed.

(** C21. While a request of a [concatMap] effect is in flight, a new
    request of that effect makes no service call: it is put at the end of
    the calls that wait, and the request in flight is left alone. *)
Theorem busy_request_waits a c x st :
  call_of_action a = Some c → slot_of_call c ≠ LoadAll →
  in_flight (slot_of_call c) st = Some x →
  (dispatch a st).2 = [] ∧
  in_flight (slot_of_call c) (dispatch a st).1 = Some x ∧
  waiting (slot_of_call c) (dispatch a st).1
  = waiting (slot_of_call c) st ++ [c].
Proof.
  intros Ha Hs Hx. destruct (dispatch_request a c st Ha) as (-> & -> & ->).
  rewrite Hx. destruct x. by rewrite !decide_False.
Qed.

Lemma busy_request_waits_witness :
  (dispatch (TodoActions.create eggs_draft) creating).2 = [] ∧
  in_flight Create (dispatch (TodoActions.create eggs_draft) creating).1
  = Some (0, TodoService.create milk_draft) ∧
  waiting Create (dispatch (TodoActions.create eggs_draft) creating).1
  = waiting Create creating ++ [TodoService.create eggs_draft].
Proof.
  apply (busy_request_waits (TodoActions.create eggs_draft)
           (TodoService.create eggs_draft) (0, TodoService.create milk_draft)
           creating); [reflexivity|discriminate|reflexivity].
Defined.

(** A request of an idle [concatMap] effect is passed to the service at
    once, as the subscription numbered by the effect's index. *)
Lemma idle_request_starts a c st :
  call_of_action a = Some c → slot_of_call c ≠ LoadAll →
  in_flight (slot_of_call c) st = None →
  (dispatch a st).2
  = [Subscribe (slot_of_call c) (subscriptions (slot_of_call c) st) c] ∧
  in_flight (slot_of_call c) (dispatch a st).1
  = Some (subscriptions (slot_of_call c) st, c) ∧
  waiting (slot_of_call c) (dispatch a st).1 = waiting (slot_of_call c) st.
Proof.
  intros Ha Hs Hx. destruct (dispatch_request a c st Ha) as (-> & -> & ->).
  by rewrite Hx.
Qed.

(** [loadAll] switches: the request in flight, if any, is cancelled,
    the new one is passed to the service at once and is the one in flight
    afterwards. *)
Lemma loadAll_switch offset limit st :
  (dispatch (TodoActions.loadAll offset limit) st).2 =
    match in_flight LoadAll st with
    | Some (i, _) => [Unsubscribe LoadAll i]
    | None => []
    end ++ [Subscribe LoadAll (subscriptions LoadAll st)
              (TodoService.findAll offset limit)] ∧
  in_flight LoadAll (dispatch (TodoActions.loadAll offset limit) st).1
  = Some (subscriptions LoadAll st, TodoService.findAll offset limit).
Proof.
  destruct (dispatch_request (TodoActions.loadAll offset limit)
              (TodoService.findAll offset limit) st eq_refl) as (H1 & H2 & _).
  simpl slot_of_call in *. rewrite H1, H2.
  by destruct (in_flight LoadAll st) as [[]|].
Qed.
End request_dispatch.

(** ** The dialog effects *)

Section dialogs.
Implicit Types (st : State) (a : TodoActions.Action) (f : Field).

(** A show action opens one dialog of the component of its field,
    with the configuration the effect gives ([width: '400px'] for the create
    and edit dialogs, the todo or the id as [data]), stores its reference
    in the field, and dispatches nothing. *)
Lemma show_opens a f cfg st :
  shows a = Some (f, cfg) →
  dispatch a st =
    (set_field f (Some (MatDialog.open (component_of f) cfg (dialog st)).2)
       (set_dialog (MatDialog.open (component_of f) cfg (dialog st)).1 st),
     [Opened (MatDialog.open (component_of f) cfg (dialog st)).2]).
Proof.
  intros Ha. rewrite dispatch_responsible.
  destruct a; simplify_eq/=; reflexivity.
Qed.

Ltac unfold_hide :=
  cbv [hideCreateDialog' hideEditDialog' hideRemoveDialog' createEffect tap].

(** A success action closes the dialog its field refers to. *)
Lemma hide_closes a f ref st :
  closes a = Some f → field f st = Some ref →
  dispatch a st
  = (set_dialog (MatDialog.close ref (dialog st)) st, [Closed ref]).
Proof.
  intros Ha Hf. rewrite dispatch_responsible.
  destruct a; simplify_eq/=; unfold_hide; simpl in *; by rewrite Hf.
Qed.

(** A success action that goes by while the field of its hide effect
    is still undefined (no show action came first) makes the effect throw:
    [this.createDialogRef.close()] on [undefined]. *)
Lemma hide_throws a f st :
  closes a = Some f → field f st = None → dispatch a st = (st, [Thrown f]).
Proof.
  intros Ha Hf. rewrite dispatch_responsible.
  destruct a; simplify_eq/=; unfold_hide; simpl in *; by rewrite Hf.
Qed.

(** An action that is neither a request, nor a show action, nor a success
    with a hide effect does nothing. *)
Lemma dispatch_silent a st :
  call_of_action a = None → shows a = None → closes a = None →
  dispatch a st = (st, []).
Proof. intros. rewrite dispatch_responsible. by destruct a. Qed.
End dialogs.

(** ** A reply, with the dialogs *)

Section reply_dialogs.
Implicit Types (st : State) (c : TodoService.Call) (i : nat) (f : Field).

(** C7. The service delivers a value to the request in flight; the success
    action has a hide effect and the field of that effect holds a
    reference: the success action is emitted and that dialog is closed,
    and nothing else happens. *)
Theorem success_closes_dialog c i v f ref st :
  in_flight (slot_of_call c) st = Some (i, c) →
  closes (success c v) = Some f → field f st = Some ref →
  step (Reply (slot_of_call c) i (Rx.Next v)) st
  = (set_dialog (MatDialog.close ref (dialog st)) st,
     [Emit (success c v); Closed ref]).
Proof.
  intros Hi Hc Hf. rewrite reply_value, seq_eq by done. simpl.
  by rewrite (hide_closes _ f ref).
Qed.

Lemma success_closes_dialog_witness :
  step (Reply Create 0 (Rx.Next milk)) creating
  = (set_dialog (MatDialog.close first_create_ref (dialog creating)) creating,
     [Emit (TodoActions.createSuccess milk); Closed first_create_ref]).
Proof.
  apply (success_closes_dialog (TodoService.create milk_draft) 0 milk
           CreateDialogRef first_create_ref creating); reflexivity.
Defined.

(** The same with an undefined field: the hide effect throws, after the
    success action was emitted. *)
Lemma success_without_dialog c i v f st :
  in_flight (slot_of_call c) st = Some (i, c) →
  closes (success c v) = Some f → field f st = None →
  step (Reply (slot_of_call c) i (Rx.Next v)) st
  = (st, [Emit (success c v); Thrown f]).
Proof.
  intros Hi Hc Hf. rewrite reply_value, seq_eq by done. simpl.
  by rewrite (hide_throws _ f).
Qed.

(** [loadSuccess] and [loadAllSuccess] have no hide effect. *)
Lemma success_no_dialog c i v st :
  in_flight (slot_of_call c) st = Some (i, c) →
  closes (success c v) = None →
  step (Reply (slot_of_call c) i (Rx.Next v)) st = (st, [Emit (success c v)]).
Proof.
  intros Hi Hc. rewrite reply_value, seq_eq by done. simpl.
  rewrite dispatch_silent; [done| |by destruct c|done].
  apply outcome_no_call, success_is_outcome.
Qed.

(** C8. The service delivers an error to the request in flight: the
    failure action of the slot is emitted, no dialog is closed and no field
    changes, and the slot goes on with the first call that waits. *)
Theorem failure_frees_slot s i c e st :
  in_flight s st = Some (i, c) →
  (step (Reply s i (Rx.Error e)) st).2 =
    Emit (failure s e) ::
    match waiting s st with
    | [] => []
    | c' :: _ => [Subscribe s (subscriptions s st) c']
    end ∧
  in_flight s (step (Reply s i (Rx.Error e)) st).1 =
    match waiting s st with
    | [] => None
    | c' :: _ => Some (subscriptions s st, c')
    end ∧
  waiting s (step (Reply s i (Rx.Error e)) st).1 = tail (waiting s st) ∧
  dialog (step (Reply s i (Rx.Error e)) st).1 = dialog st ∧
  ∀ f, field f (step (Reply s i (Rx.Error e)) st).1 = field f st.
Proof.
  intros Hi. rewrite (reply_error s i c) by done. rewrite seq_eq. simpl.
  destruct (slot_complete s i c st Hi) as (-> & -> & ->).
  split_and!; try done; unfold slot_inner.
  - apply slot_lift_dialog.
  - intros f. apply slot_lift_field.
Qed.

Lemma failure_frees_slot_witness :
  (step (Reply Create 0 (Rx.Error unavailable)) creating_twice).2 =
    Emit (failure Create unavailable) ::
    match waiting Create creating_twice with
    | [] => []
    | c' :: _ => [Subscribe Create (subscriptions Create creating_twice) c']
    end ∧
  in_flight Create (step (Reply Create 0 (Rx.Error unavailable)) creating_twice).1 =
    match waiting Create creating_twice with
    | [] => None
    | c' :: _ => Some (subscriptions Create creating_twice, c')
    end ∧
  waiting Create (step (Reply Create 0 (Rx.Error unavailable)) creating_twice).1
  = tail (waiting Create creating_twice) ∧
  dialog (step (Reply Create 0 (Rx.Error unavailable)) creating_twice).1
  = dialog creating_twice ∧
  ∀ f, field f (step (Reply Create 0 (Rx.Error unavailable)) creating_twice).1
       = field f creating_twice.
Proof.
  apply (failure_frees_slot Create 0 (TodoService.create milk_draft) unavailable
           creating_twice).
  reflexivity.
Defined.
End reply_dialogs.
