(* ===== verification/Machine.v ===== *)
(** * The machine of the class and its induction principle

    The four kinds of actions, the notifications a pipe lets through, the
    induction principle of the machine ([step_spec]: a compositional
    relation that holds of the primitive reactions holds of every step, so
    of every run), and the well-formedness invariant. *)

From S2P Require Import Prelude Rxjs Actions Dialog Effects Samples Slots.
From S2P Require Import Reactions.

Import (hints) Rx TodoActions TodoService TodoEffects.
Import TodoEffects.

(** A notification that comes out of the pipe of a request effect: an
    outcome action, or completion. *)
Definition benign (n : Rx.Notification Failure TodoActions.Action) : Prop :=
  match n with
  | Rx.Next b => is_outcome b = true
  | Rx.Error _ => False
  | Rx.Complete => True
  end.

(** What an effect does to the dialogs. *)
Definition is_dialog_output (o : Output) : Prop :=
  match o with
  | Opened _ | Closed _ | Thrown _ => True
  | Subscribe _ _ _ | Unsubscribe _ _ | Emit _ | StreamError _ _ => False
  end.

(** The four kinds of actions. *)
Inductive action_kind (a : TodoActions.Action) : Prop :=
| kind_request c : call_of_action a = Some c → action_kind a
| kind_show f cfg : shows a = Some (f, cfg) → action_kind a
| kind_hide f : closes a = Some f → is_outcome a = true → action_kind a
| kind_none :
    call_of_action a = None → shows a = None → closes a = None → action_kind a.

Section kinds.
Implicit Types (a : TodoActions.Action) (s : Slot).

Lemma action_kind_total a : action_kind a.
Proof.
  destruct a; first [ by eapply kind_request | by eapply kind_show
                    | by eapply kind_hide | by eapply kind_none ].
Qed.

Lemma view_pipe_benign s x n : Forall benign (sv_pipe (view s) x n).
Proof.
  rewrite view_pipe. destruct n as [v|e|]; repeat constructor; simpl.
  - by destruct s.
  - apply failure_is_outcome.
Qed.

(** An action that is no request reaches a dialog effect or none: the
    request effects are left alone, and what comes out concerns the
    dialogs. *)
Lemma dispatch_dialog a st :
  call_of_action a = None →
  (∀ s, slot_state s (dispatch a st).1 = slot_state s st) ∧
  Forall is_dialog_output (dispatch a st).2.
Proof.
  intros Ha.
  destruct (action_kind_total a) as [c Hc|f cfg Hs|f Hc _|_ Hs Hc];
    [congruence|..].
  - rewrite (show_opens a f cfg) by done. split; [|by repeat constructor].
    intros s. simpl. by rewrite view_frame_set_field, view_frame_set_dialog.
  - destruct (field f st) as [ref|] eqn:Hf.
    + rewrite (hide_closes a f ref) by done. split; [|by repeat constructor].
      intros s. apply view_frame_set_dialog.
    + rewrite (hide_throws a f) by done. split; [done|by repeat constructor].
  - by rewrite dispatch_silent.
Qed.

Lemma dialog_no_calls s outs : Forall is_dialog_output outs → calls s outs = [].
Proof.
  intros H. apply omap_Forall_None. eapply Forall_impl; [done|]. by intros [].
Qed.

Lemma dialog_no_emits outs : Forall is_dialog_output outs → emits outs = [].
Proof.
  intros H. apply omap_Forall_None. eapply Forall_impl; [done|]. by intros [].
Qed.
End kinds.

(** ** The induction principle of the machine *)

Section step_spec.
Context (I : State → Prop) (R : State → list Output → State → Prop).
Context `{!Compositional R}.

Section notify.
Hypothesis R_emit : ∀ b, is_outcome b = true → spec I R (emit (Emit b)).
Hypothesis R_outcome : ∀ b, is_outcome b = true → spec I R (dispatch b).

(** A notification out of the pipe reaches the operator, and what the
    operator emits is fed back. *)
Lemma inner_spec s i n :
  spec I R (slot_inner s i Rx.Complete) →
  benign n → spec I R (feedback (slot_inner s i n)).
Proof.
  intros R_complete.
  destruct n as [b|e|]; [|done|]; intros Hn st; unfold slot_inner.
  - destruct (Rx.closure_of i (Rx.flat_active (slot_state s st))) as [a|] eqn:Hi.
    + rewrite (inner_Next _ _ _ _ _ a) by done. apply spec_seq; auto.
    + fold (slot_inner s i (Rx.Next b)).
      rewrite feedback_quiet; rewrite slot_inner_stale by done; [|done].
      by apply spec_skip.
  - rewrite inner_Complete. apply R_complete.
Qed.

Lemma notify_spec s i n :
  spec I R (slot_inner s i Rx.Complete) → spec I R (notify s i n).
Proof.
  intros R_complete. rewrite view_notify. intros st. unfold on_reply.
  destruct (Rx.closure_of _ _) as [a|]; [|by apply spec_skip].
  revert st.
  apply (spec_for_each I R (λ n', feedback (slot_inner s i n')) benign);
    [intros n'; by apply inner_spec|apply view_pipe_benign].
Qed.
End notify.

Hypothesis R_show : ∀ a f cfg, shows a = Some (f, cfg) → spec I R (dispatch a).
Hypothesis R_hide : ∀ a f, closes a = Some f → spec I R (dispatch a).

Lemma dispatch_quiet_spec a : call_of_action a = None → spec I R (dispatch a).
Proof.
  intros Ha. destruct (action_kind_total a); [congruence|eauto..|].
  apply spec_silent; [done|]. intros st. by apply dispatch_silent.
Qed.

Hypothesis R_outer : ∀ s x, spec I R (slot_outer s x).

Lemma dispatch_spec a : spec I R (dispatch a).
Proof.
  destruct (call_of_action a) as [c|] eqn:Ha; [|by apply dispatch_quiet_spec].
  intros st. destruct (view_dispatch a c st Ha) as (x & _ & ->).
  apply R_outer.
Qed.

Hypothesis R_emit : ∀ b, is_outcome b = true → spec I R (emit (Emit b)).
Hypothesis R_complete : ∀ s i, spec I R (slot_inner s i Rx.Complete).

Lemma step_spec ev : spec I R (step ev).
Proof.
  destruct ev; [apply dispatch_spec|].
  apply notify_spec; auto using dispatch_quiet_spec, outcome_no_call.
Qed.

Lemma run_spec evs : spec I R (run evs).
Proof. exact (spec_run I R step evs step_spec). Qed.
End step_spec.

(** The same for a relation that does not look at the dialogs: it is
    enough that it holds when the request effects are left alone and the
    outputs concern the dialogs. *)
Section slots_spec.
Context (I : State → Prop) (R : State → list Output → State → Prop).
Context `{!Compositional R}.
Hypothesis R_dialog : ∀ st outs st',
  I st → (∀ s, slot_state s st' = slot_state s st) →
  Forall is_dialog_output outs → I st' ∧ R st outs st'.
Hypothesis R_outer : ∀ s x, spec I R (slot_outer s x).
Hypothesis R_emit : ∀ b, is_outcome b = true → spec I R (emit (Emit b)).
Hypothesis R_complete : ∀ s i, spec I R (slot_inner s i Rx.Complete).

Lemma dispatch_dialog_spec a : call_of_action a = None → spec I R (dispatch a).
Proof.
  intros Ha st HI. destruct (dispatch_dialog a st Ha). by apply R_dialog.
Qed.

Lemma slots_step_spec ev : spec I R (step ev).
Proof.
  apply step_spec; auto; intros a **; apply dispatch_dialog_spec; by destruct a.
Qed.

Lemma slots_run_spec evs : spec I R (run evs).
Proof. exact (spec_run I R step evs slots_step_spec). Qed.
End slots_spec.

(** ** Well-formed states *)

Section wf.
Implicit Types (s : Slot) (st : State) (f : Field).

Lemma wf_view st :
  wf st ↔
  MatDialog.wf (dialog st) ∧
  (∀ f ref, field f st = Some ref →
     MatDialog.known ref (dialog st) ∧ componentInstance ref = component_of f) ∧
  ∀ s, Rx.flat_wf (slot_state s st).
Proof.
  unfold wf. split.
  - intros (? & ? & ? & ? & ? & ? & ?). split_and!; [done..|]. by intros [].
  - intros (? & ? & H). split_and!; [done..| | | | |].
    + apply (H LoadAll).
    + apply (H Load).
    + apply (H Create).
    + apply (H Update).
    + apply (H Remove).
Qed.

Lemma wf_init : wf init.
Proof.
  apply wf_view. split_and!.
  - apply dialog_wf_init.
  - by intros [].
  - intros []; first [exact Rx.switch_wf_init | exact Rx.concat_wf_init].
Qed.

(** A reaction of the operator of a slot keeps the state well formed. *)
Lemma wf_slot_lift {O} s (tr : O → Output) h :
  preserves Rx.flat_wf h → preserves wf (lift (sv_lens (view s)) tr h).
Proof.
  intros Hh st (Hd & Hf & Hs)%wf_view. apply wf_view. split_and!.
  - by rewrite slot_lift_dialog.
  - intros f ref. rewrite slot_lift_field, slot_lift_dialog. apply Hf.
  - intros s'. destruct (decide (s' = s)) as [->|].
    + rewrite slot_lift_state. apply Hh, Hs.
    + by rewrite slot_lift_other.
Qed.

Lemma wf_show a f cfg : shows a = Some (f, cfg) → preserves wf (dispatch a).
Proof.
  intros Ha st (Hd & Hf & Hs)%wf_view.
  rewrite (show_opens a f cfg) by done. simpl.
  apply wf_view. autorewrite with handler_rw. split_and!.
  - by apply dialog_wf_open.
  - intros f' ref. autorewrite with handler_rw. case_decide as Hff.
    + intros [= <-]. subst f'. split; [|done]. apply dialog_open_known.
    + intros [??]%Hf. split; [|done]. by apply dialog_open_known_mono.
  - intros s. by rewrite view_frame_set_field, view_frame_set_dialog.
Qed.

Lemma wf_hide a f : closes a = Some f → preserves wf (dispatch a).
Proof.
  intros Ha st Hwf. destruct (field f st) as [ref|] eqn:Hfield.
  - rewrite (hide_closes a f ref) by done. simpl.
    apply wf_view in Hwf as (Hd & Hf & Hs). apply wf_view. split_and!.
    + by apply dialog_wf_close.
    + intros f' ref'. rewrite field_set_dialog. apply Hf.
    + intros s. by rewrite view_frame_set_dialog.
  - by rewrite (hide_throws a f).
Qed.

(** The primitive reactions keep [wf]; with a relation that holds of them
    under [wf], [run_spec] gives the relation on every run. *)
Lemma wf_outer s x : preserves wf (slot_outer s x).
Proof. apply wf_slot_lift, Rx.flat_wf_outer. Qed.

Lemma wf_inner s i n : preserves wf (slot_inner s i n).
Proof. apply wf_slot_lift, Rx.flat_wf_inner. Qed.

Lemma step_preserves_wf ev st : wf st → wf (step ev st).1.
Proof.
  intros Hwf.
  apply (step_spec wf (λ _ _ _, True)); [| | | | |done];
    intros; apply spec_of_preserves;
    eauto using wf_outer, wf_inner, wf_show, wf_hide, preserves_emit.
Qed.

Lemma run_wf evs st : wf st → wf (run evs st).1.
Proof. apply preserves_run. intros ev st'. apply step_preserves_wf. Qed.

(** C6. Every state the class can reach is well formed: the dialog
    references the fields hold were handed out by the dialog service for
    the component of the field, the open dialogs have distinct references,
    the inner subscription of every request effect was made before the
    effect's current index, and a [concatMap] effect buffers only while a
    request is in flight. *)
Theorem reachable_wf st : reachable st → wf st.
Proof. induction 1; [apply wf_init|by apply step_preserves_wf]. Qed.

(** The states reached by rule induction are the states runs reach. *)
Lemma reachable_run st : reachable st ↔ ∃ evs, st = (run evs init).1.
Proof.
  split.
  - induction 1 as [|st ev _ [evs ->]]; [by exists []|].
    exists (evs ++ [ev]). unfold run. by rewrite for_each_snoc, seq_eq.
  - intros [evs ->]. induction evs as [|ev evs IH] using rev_ind.
    + constructor.
    + unfold run. rewrite for_each_snoc, seq_eq. by constructor.
Qed.

(** An idle slot has nothing waiting. *)
Lemma idle_no_waiting s st : wf st → in_flight s st = None → waiting s st = [].
Proof.
  intros (_ & _ & Hwf)%wf_view. rewrite view_in_flight, view_waiting.
  intros Hi%fmap_None. by rewrite (Rx.flat_idle _ (Hwf s) Hi).
Qed.

Lemma reachable_wf_witness : reachable creating ∧ wf creating.
Proof.
  assert (reachable creating) as H by (apply reachable_run; by eexists).
  split; [exact H|exact (reachable_wf creating H)].
Defined.
End wf.
