(* ===== verification/Order.v ===== *)
(** * Order: what a run outputs, and in which order the service is called

    Two families of facts about whole runs of [TodoEffects], each proved
    with the induction principle of [Machine]:

    - what a run can output: subscriptions, cancellations by [loadAll$]
      only, outcome actions, dialog outputs, and never the error of an
      effect's stream;
    - the accounting of the requests of a slot: what was called, followed
      by what waits, is what was dispatched, in that order. *)

From S2P Require Import Prelude Rxjs Actions Dialog Effects Samples Slots.
From S2P Require Import Reactions Machine.

Import (hints) Rx TodoActions TodoService TodoEffects.
Import TodoEffects.

(** ** What a run can output *)

(** An output by which a request effect manages its subscriptions: a
    subscription of its own slot, or, for [loadAll$] only, a cancellation. *)
Definition is_subscription (s : Slot) (o : Output) : Prop :=
  match o with
  | Subscribe s' _ _ => s' = s
  | Unsubscribe s' _ => s' = s ∧ s = LoadAll
  | _ => False
  end.

Section outputs.
Implicit Types (s : Slot) (st : State) (P : Output → Prop).

Lemma slot_outer_subscription s x st :
  Forall (is_subscription s) (slot_outer s x st).2.
Proof.
  unfold slot_outer. rewrite lift_outputs.
  destruct s; simpl; Rx.rx_cases; repeat constructor.
Qed.

Lemma slot_complete_subscription s i st :
  Forall (is_subscription s) (slot_inner s i Rx.Complete st).2.
Proof.
  unfold slot_inner. rewrite lift_outputs.
  destruct s; simpl; Rx.rx_cases; repeat constructor.
Qed.

(** A property of outputs that holds of subscriptions, of cancellations by
    [loadAll$], of emitted outcome actions and of what the dialog effects
    output holds of every output of every step. *)
Lemma step_outputs P ev st :
  (∀ s i c, P (Subscribe s i c)) → (∀ i, P (Unsubscribe LoadAll i)) →
  (∀ b, is_outcome b = true → P (Emit b)) →
  (∀ ref, P (Opened ref)) → (∀ ref, P (Closed ref)) → (∀ f, P (Thrown f)) →
  Forall P (step ev st).2.
Proof.
  intros Psub Punsub Pemit Popen Pclose Pthrown.
  assert (∀ s o, is_subscription s o → P o) as Hsub.
  { intros s []; simpl; intros; destruct_and?; subst; auto; done. }
  apply (slots_step_spec (λ _, True) (λ _ outs _, Forall P outs));
    [| | | |done].
  - intros st' outs st'' _ _ Houts. split; [done|].
    eapply Forall_impl; [done|]. by intros [].
  - intros s x st' _. split; [done|].
    eapply Forall_impl; [apply slot_outer_subscription|eauto].
  - intros b Hb st' _. split; [done|]. repeat constructor. auto.
  - intros s i st' _. split; [done|].
    eapply Forall_impl; [apply slot_complete_subscription|eauto].
Qed.

(** C4. No request effect ever fails: in every run, whatever the service
    delivers, the stream of an effect never errors.  An error of a service
    call always comes out as the failure action of the slot. *)
Theorem streams_never_error evs st :
  Forall (λ o, ¬ is_stream_error o) (run evs st).2.
Proof.
  apply produces_for_each. intros ev st'.
  apply step_outputs; unfold not; intros; by simpl in *.
Qed.

(** C26. A [concatMap] effect never cancels a request: in every run, the
    only cancellations are those of [loadAll$]. *)
Theorem only_loadAll_cancels evs st s i :
  Unsubscribe s i ∈ (run evs st).2 → s = LoadAll.
Proof.
  assert (produces (λ o, ∀ s i, o = Unsubscribe s i → s = LoadAll) (run evs))
    as Hrun.
  { apply produces_for_each. intros ev st'.
    apply step_outputs; intros; by simplify_eq. }
  intros Hin. specialize (Hrun st). rewrite Forall_forall in Hrun. eauto.
Qed.

Lemma only_loadAll_cancels_witness :
  Unsubscribe LoadAll 0 ∈ (run [Dispatch (TodoActions.loadAll 10 10)] loading).2
  ∧ LoadAll = LoadAll.
Proof.
  assert (Unsubscribe LoadAll 0
          ∈ (run [Dispatch (TodoActions.loadAll 10 10)] loading).2) as H
    by (vm_compute; apply list_elem_of_here).
  split; [exact H|].
  exact (only_loadAll_cancels [Dispatch (TodoActions.loadAll 10 10)] loading
           LoadAll 0 H).
Defined.

(** The effects emit outcome actions only. *)
Lemma emits_outcomes evs st :
  Forall (λ o, ∀ b, o = Emit b → is_outcome b = true) (run evs st).2.
Proof.
  apply produces_for_each. intros ev st'.
  apply step_outputs; intros; by simplify_eq.
Qed.

(** A dispatched action makes no effect emit: the request effects
    emit only when the service replies, and the dialog effects have
    [dispatch: false].  So the action an effect emits goes once through the
    effects and the feedback through the store ends there. *)
Lemma dispatch_no_emit a st : emits (dispatch a st).2 = [].
Proof.
  destruct (call_of_action a) as [c|] eqn:Ha;
    [|by apply dialog_no_emits, dispatch_dialog].
  destruct (view_dispatch a c st Ha) as (x & _ & ->). unfold slot_outer.
  rewrite lift_outputs, emits_out_of. apply Rx.flat_outer_no_emit.
Qed.
End outputs.

(** ** The service sees the requests in the order they were dispatched *)

Section fifo.
Implicit Types (s : Slot) (st : State) (evs : list Event).

(** Nothing is called and nothing more waits. *)
Definition settles (s : Slot) : State → list Output → State → Prop :=
  λ st outs st', calls s outs ++ waiting s st' = waiting s st.

#[local] Instance settles_compositional s : Compositional (settles s).
Proof.
  split; [done|]. unfold settles. intros st o1 st1 o2 st2 H1 H2.
  by rewrite calls_app, <-app_assoc, H2.
Qed.

Lemma run_nil st : run [] st = (st, []).
Proof. done. Qed.

Lemma run_cons ev evs st :
  run (ev :: evs) st
  = ((run evs (step ev st).1).1, (step ev st).2 ++ (run evs (step ev st).1).2).
Proof. unfold run. by rewrite for_each_cons, seq_eq. Qed.

Lemma run_snoc evs ev st :
  run (evs ++ [ev]) st
  = ((step ev (run evs st).1).1, (run evs st).2 ++ (step ev (run evs st).1).2).
Proof. unfold run. by rewrite for_each_snoc, seq_eq. Qed.

Lemma dispatched_app (evs1 evs2 : list Event) :
  dispatched (evs1 ++ evs2) = dispatched evs1 ++ dispatched evs2.
Proof. apply omap_app. Qed.

Lemma settles_dialog s st outs st' :
  (∀ s', slot_state s' st' = slot_state s' st) →
  Forall is_dialog_output outs → settles s st outs st'.
Proof.
  intros Hst Houts. unfold settles.
  by rewrite dialog_no_calls, !view_waiting, Hst.
Qed.

Lemma settles_other {A} s s'
    (h : Handler _ (Rx.Out A TodoActions.Action Failure)) call st :
  s' ≠ s →
  settles s st (lift (sv_lens (view s')) (out_of s' call) h st).2
    (lift (sv_lens (view s')) (out_of s' call) h st).1.
Proof.
  intros Hs. unfold settles.
  by rewrite lift_outputs, calls_out_of_ne, !view_waiting, slot_lift_other.
Qed.

Lemma settles_complete s s' i st :
  settles s st (slot_inner s' i Rx.Complete st).2 (slot_inner s' i Rx.Complete st).1.
Proof.
  destruct (decide (s' = s)) as [->|]; [|by apply settles_other].
  unfold settles, slot_inner.
  rewrite lift_outputs, calls_out_of, !view_waiting, slot_lift_state.
  rewrite <-fmap_app, Rx.flat_account_inner; [done|].
  by apply Rx.flat_inner_no_error.
Qed.

(** A reply, or an action that is no request, settles every slot. *)
Lemma settles_quiet s ev st :
  (∀ a, ev = Dispatch a → call_of_action a = None) →
  settles s st (step ev st).2 (step ev st).1.
Proof.
  intros Hev.
  assert (∀ a, call_of_action a = None →
    spec (λ _, True) (settles s) (dispatch a)) as Hquiet.
  { intros a Ha. apply dispatch_dialog_spec; [|done].
    intros st1 outs st2 _ ??. split; [done|by apply settles_dialog]. }
  cut (spec (λ _, True) (settles s) (step ev)); [intros H; by apply H|].
  destruct ev as [a|s' i n]; [by apply Hquiet, Hev|].
  apply notify_spec; [apply _| | |].
  - by intros b Hb st' _.
  - intros b Hb. by apply Hquiet, outcome_no_call.
  - intros st' _. split; [done|apply settles_complete].
Qed.

(** One step: what is called and what waits afterwards is what waited
    before, then the request the step dispatches, if any. *)
Lemma step_account s ev st :
  wf st →
  calls s (step ev st).2 ++ waiting s (step ev st).1
  = waiting s st ++ requests s (dispatched [ev]).
Proof.
  intros Hwf.
  destruct ev as [a|s' i n]; simpl dispatched;
    [destruct (call_of_action a) as [c|] eqn:Ha|].
  - destruct (decide (slot_of_call c = s)) as [<-|Hs].
    + rewrite (call_of_action_slot a c) by done.
      by apply dispatch_request_account.
    + rewrite (requests_other a c), app_nil_r by done. simpl.
      destruct (view_dispatch a c st Ha) as (x & _ & ->).
      by apply settles_other.
  - rewrite requests_no_call, app_nil_r by done.
    apply (settles_quiet s (Dispatch a)). by intros ? [= <-].
  - rewrite requests_nil, app_nil_r.
    by apply (settles_quiet s (Reply s' i n)).
Qed.

Lemma run_account s evs st :
  wf st →
  calls s (run evs st).2 ++ waiting s (run evs st).1
  = waiting s st ++ requests s (dispatched evs).
Proof.
  revert st. induction evs as [|ev evs IH]; intros st Hwf.
  - by rewrite app_nil_r.
  - rewrite run_cons. cbn [fst snd].
    rewrite calls_app, <-app_assoc, IH by by apply step_preserves_wf.
    rewrite app_assoc, step_account by done.
    change (dispatched (ev :: evs)) with (dispatched ([ev] ++ evs)).
    by rewrite dispatched_app, requests_app, app_assoc.
Qed.

(** C1. In every run of the class, for every request effect: the calls
    made to the service so far, followed by the calls that still wait, are
    the requests dispatched so far, in the order of their dispatch.  No
    request is lost, none is made twice, and none overtakes another. *)
Theorem service_calls_in_order s evs :
  calls s (run evs init).2 ++ waiting s (run evs init).1
  = requests s (dispatched evs).
Proof. rewrite run_account by apply wf_init. by destruct s. Qed.
End fifo.

(** ** The subscriptions of a slot are numbered in the order of its calls *)

(** The indices of the subscriptions slot [s] makes in a list of outputs. *)
Definition call_indices (s : Slot) (outs : list Output) : list nat :=
  omap (λ o, match o with
             | Subscribe s' i _ => if decide (s' = s) then Some i else None
             | _ => None
             end) outs.

(** The calls of the slot are numbered from its index on, and the index
    moves past them. *)
Definition numbered (s : Slot) : State → list Output → State → Prop :=
  λ st outs st',
    call_indices s outs = List.seq (subscriptions s st) (length (calls s outs)) ∧
    subscriptions s st' = subscriptions s st + length (calls s outs).

Section numbering.
Implicit Types (s : Slot) (st : State) (evs : list Event).

Lemma call_indices_app s outs1 outs2 :
  call_indices s (outs1 ++ outs2) = call_indices s outs1 ++ call_indices s outs2.
Proof. apply omap_app. Qed.

Lemma call_indices_out_of {A} s (call : A → TodoService.Call)
    (outs : list (Rx.Out A TodoActions.Action Failure)) :
  call_indices s (out_of s call <$> outs) = Rx.sub_indices outs.
Proof.
  unfold call_indices, Rx.sub_indices.
  induction outs as [|[] outs IH]; csimpl; rewrite ?decide_True by done;
    by rewrite ?IH.
Qed.

Lemma call_indices_out_of_ne {A} s s' (call : A → TodoService.Call)
    (outs : list (Rx.Out A TodoActions.Action Failure)) :
  s' ≠ s → call_indices s (out_of s' call <$> outs) = [].
Proof.
  intros Hs. unfold call_indices.
  induction outs as [|[] outs IH]; csimpl; rewrite ?decide_False by done;
    by rewrite ?IH.
Qed.

#[local] Instance numbered_compositional s : Compositional (numbered s).
Proof.
  split; [split; simpl; [done|lia]|].
  intros st o1 st1 o2 st2 [H1 H1'] [H2 H2']. split.
  - rewrite call_indices_app, calls_app, length_app, seq_app.
    by rewrite H1, H2, H1'.
  - rewrite calls_app, length_app. lia.
Qed.

(** A state change that leaves the operators alone and calls nothing. *)
Lemma numbered_frame s st outs st' :
  slot_state s st' = slot_state s st →
  Forall (λ o, is_dialog_output o ∨ ∃ b, o = Emit b) outs →
  numbered s st outs st'.
Proof.
  intros Hst Houts. unfold numbered.
  rewrite !view_subscriptions, Hst.
  assert (call_indices s outs = [] ∧ calls s outs = []) as [-> ->];
    [|split; simpl; [done|lia]].
  split; apply omap_Forall_None; (eapply Forall_impl; [done|]);
    by intros [] [?|[??]].
Qed.

(** A reaction of the operator of a slot that numbers its subscriptions
    from its index on. *)
Lemma numbered_lift {A} s s'
    (h : Handler (sv_F (view s') (sv_A (view s'))) (Rx.Out A TodoActions.Action Failure))
    call st :
  (∀ x, Rx.sub_indices (h x).2
        = List.seq (Rx.flat_index x) (length (Rx.subscribed (h x).2)) ∧
        Rx.flat_index (h x).1
        = Rx.flat_index x + length (Rx.subscribed (h x).2)) →
  numbered s st (lift (sv_lens (view s')) (out_of s' call) h st).2
    (lift (sv_lens (view s')) (out_of s' call) h st).1.
Proof.
  intros Hh. unfold numbered. rewrite lift_outputs, !view_subscriptions.
  destruct (decide (s' = s)) as [->|Hs].
  - rewrite call_indices_out_of, calls_out_of, length_fmap, slot_lift_state.
    apply Hh.
  - rewrite call_indices_out_of_ne, calls_out_of_ne, slot_lift_other by done.
    split; simpl; [done|lia].
Qed.

Lemma step_numbered s ev st : numbered s st (step ev st).2 (step ev st).1.
Proof.
  apply (slots_step_spec (λ _, True) (numbered s)); [| | | |done].
  - intros st1 outs st2 _ Hst Houts. split; [done|].
    apply numbered_frame; [done|]. eapply Forall_impl; [done|]. auto.
  - intros s' x st' _. split; [done|]. apply numbered_lift. intros y.
    split; [apply Rx.flat_indices_outer|apply Rx.flat_index_outer].
  - intros b Hb st' _. split; [done|].
    apply numbered_frame; [done|]. constructor; [eauto|constructor].
  - intros s' i st' _. split; [done|]. apply numbered_lift. intros y.
    split; [apply Rx.flat_indices_inner|apply Rx.flat_index_inner].
Qed.

(** The subscriptions of a request effect are numbered in the order
    of its service calls: in every run from the initial state, the [k]-th
    call of a slot is its subscription number [k], and the index of the
    slot is the number of calls it has made.  So a notification addressed
    to subscription [k] of a slot is the answer to its [k]-th call. *)
Theorem subscriptions_numbered s evs :
  call_indices s (run evs init).2
  = List.seq 0 (length (calls s (run evs init).2)) ∧
  subscriptions s (run evs init).1 = length (calls s (run evs init).2).
Proof.
  assert (∀ ev, spec (λ _, True) (numbered s) (step ev)) as Hstep
    by (intros ev st _; split; [done|apply step_numbered]).
  destruct (spec_run _ _ step evs Hstep init I) as [_ [H1 H2]].
  by destruct s.
Qed.
End numbering.
