(* ===== verification/Store.v ===== *)
(** * The loop of actions through the store

    An action an effect emits is dispatched to the store, and the store
    passes every dispatched action to the effects: the effects are in a
    loop with the store.  The loop is written here with a queue of actions
    and fuel, so that whether it ends is a theorem and not a property of the
    definition: the queue grows by what the effects emit in reaction to the
    action at its head.

    The class would loop for ever if an effect answered an action it
    filters with that action; [tap] passes its action on, so it is
    [dispatch: false] on the six dialog effects that keeps the loop
    finite. *)

From S2P Require Import Prelude Rxjs Actions Dialog Effects Samples Slots.
From S2P Require Import Reactions Machine Order.

Import (hints) Rx TodoActions TodoService TodoEffects.

Module Store.

Section loop.
Context {St A O : Type}.
Context (react : A → Handler St O) (emitted : list O → list A).

(** The action at the head of the queue goes through the effects; what
    they emit joins the queue at its end.  [None] when the fuel is used up
    before the queue is empty. *)
Fixpoint pump (fuel : nat) (queue : list A) (st : St) : option (St * list O) :=
  match queue, fuel with
  | [], _ => Some (st, [])
  | _ :: _, 0 => None
  | a :: queue, S fuel =>
      prod_map id (app (react a st).2)
        <$> pump fuel (queue ++ emitted (react a st).2) (react a st).1
  end.
End loop.

End Store.

Section loop_lemmas.
Context {St A O : Type}.
Context (react : A → Handler St O) (emitted : list O → list A).
Implicit Types (queue : list A) (st : St) (fuel : nat).

(** More fuel does not change the result. *)
Lemma pump_mono fuel fuel' queue st r :
  Store.pump react emitted fuel queue st = Some r → fuel ≤ fuel' →
  Store.pump react emitted fuel' queue st = Some r.
Proof.
  revert fuel' queue st r.
  induction fuel as [|fuel IH]; intros fuel' [|a queue] st r; simpl; try done.
  - by destruct fuel'.
  - by destruct fuel'.
  - intros Hr Hle. destruct fuel' as [|fuel']; [lia|]. simpl.
    destruct (Store.pump _ _ fuel _ _) as [r'|] eqn:Hp; [|done].
    by rewrite (IH fuel' _ _ r' Hp) by lia.
Qed.

(** When no reaction emits an action, the loop handles the queue and
    stops: fuel of the length of the queue is enough. *)
Lemma pump_quiet fuel queue st :
  (∀ a st', emitted (react a st').2 = []) → length queue ≤ fuel →
  Store.pump react emitted fuel queue st = Some (for_each react queue st).
Proof.
  intros Hquiet. revert fuel st.
  induction queue as [|a queue IH]; intros fuel st Hle; [by destruct fuel|].
  destruct fuel as [|fuel]; simpl in *; [lia|].
  rewrite Hquiet, app_nil_r, IH by lia.
  by rewrite for_each_cons, seq_eq.
Qed.

(** A reaction that emits the action it reacts to keeps the loop going for
    ever: no fuel is enough. *)
Lemma pump_echo fuel a st :
  (∀ st', emitted (react a st').2 = [a]) →
  Store.pump react emitted fuel [a] st = None.
Proof.
  intros Hecho. revert st. induction fuel as [|fuel IH]; intros st; [done|].
  simpl. by rewrite Hecho, IH.
Qed.
End loop_lemmas.

Section store.
Import TodoEffects.
Implicit Types (a : TodoActions.Action) (st : State).

(** [tap] passes the action on: an effect made of [ofType] and [tap] and
    declared without [dispatch: false] emits the action it filters, when
    the callback emits nothing and does not throw. *)
Lemma tap_echoes f a st :
  emits (f st).2 = [] → throws (f st).2 = false →
  emits (createEffect true (tap f a) st).2 = [a].
Proof.
  intros Hf Ht. rewrite createEffect_true. unfold tap.
  destruct (f st) as [st' outs]. simpl in *. by rewrite Ht, emits_app, Hf.
Qed.

(** So a dialog effect declared without [dispatch: false] would keep the
    store dispatching its action for ever. *)
Lemma undispatched_tap_loops f a fuel st :
  (∀ st', emits (f st').2 = [] ∧ throws (f st').2 = false) →
  Store.pump (λ a', createEffect true (tap f a')) emits fuel [a] st = None.
Proof.
  intros Hf. apply pump_echo. intros st'. by apply tap_echoes; apply Hf.
Qed.

(** C11. The loop of actions through the store ends.  Whatever actions wait
    to be dispatched and whatever state the class is in, the loop handles
    each of them once and stops, with fuel of the length of the queue: no
    effect of the class answers a dispatched action with an action.  The
    result is the reaction of the class to the actions, one after the
    other. *)
Theorem store_loop_terminates fuel (queue : list TodoActions.Action) st :
  length queue ≤ fuel →
  Store.pump dispatch emits fuel queue st
  = Some (run (Dispatch <$> queue) st).
Proof.
  intros Hle. rewrite (pump_quiet dispatch emits) by auto using dispatch_no_emit.
  unfold run, for_each. by rewrite <-list_fmap_compose.
Qed.

Lemma store_loop_terminates_witness :
  length [TodoActions.showCreateDialog; TodoActions.create milk_draft] ≤ 2 ∧
  Store.pump dispatch emits 2
    [TodoActions.showCreateDialog; TodoActions.create milk_draft] init
  = Some (run (Dispatch <$> [TodoActions.showCreateDialog;
                             TodoActions.create milk_draft]) init).
Proof.
  split; [simpl; lia|].
  apply (store_loop_terminates 2
           [TodoActions.showCreateDialog; TodoActions.create milk_draft] init).
  simpl. lia.
Defined.
End store.
