(* ===== verification/Typing.v ===== *)
(** * The types the class declares, and that its runs respect them

    The source declares each dialog field with the type of a reference to
    the dialog of one component, each show effect opens the component of its
    field with data of one shape, and each request effect subscribes to a
    call of its own service method and emits the outcome actions.  This file
    writes those types as decidable predicates on references, states and
    outputs, and proves that every run preserves them.

    A field that was never assigned is [undefined], which the declared type
    admits (the fields have no initialiser): the types say what a field
    holds when it holds something.  That is why a hide effect can still
    throw; see [Outcomes]. *)

From S2P Require Import Prelude Rxjs Actions Dialog Effects Samples Slots.
From S2P Require Import Reactions Machine Order.

Import (hints) Rx TodoActions TodoService TodoEffects.
Import TodoEffects.

(** The declared type of a field: [MatDialogRef<C>] for the component [C]
    of the field. *)
Definition ref_typed (f : Field) (ref : MatDialogRef) : bool :=
  bool_decide (componentInstance ref = component_of f).

(** The shape of the data the show effect of a field passes to the dialog
    it opens: none for the create dialog, the todo for the edit dialog, the
    identifier for the remove dialog. *)
Definition data_typed (f : Field) (ref : MatDialogRef) : bool :=
  match f, data (config ref) with
  | CreateDialogRef, NoData
  | EditDialogRef, TodoData _
  | RemoveDialogRef, IdData _ => true
  | _, _ => false
  end.

(** A dialog of the field [f]. *)
Definition dialog_of (f : Field) (ref : MatDialogRef) : bool :=
  ref_typed f ref && data_typed f ref.

Definition fields : list Field := [CreateDialogRef; EditDialogRef; RemoveDialogRef].

(** A dialog of one of the fields. *)
Definition dialog_typed (ref : MatDialogRef) : bool :=
  existsb (λ f, dialog_of f ref) fields.

(** A state is well typed when every field that holds a reference holds one
    of its declared type, and every open dialog is one the class can refer
    to. *)
Definition state_typed (st : State) : bool :=
  forallb (λ f, from_option (dialog_of f) true (field f st)) fields
  && forallb dialog_typed (MatDialog.openDialogs (dialog st)).

(** An output is well typed when a subscription is to a call of the service
    method of its effect, a cancellation is one of [switchMap], an emitted
    action is an outcome, and a dialog opened or closed is of the type of a
    field.  The error of a stream has no type: no effect may end. *)
Definition output_typed (o : Output) : bool :=
  match o with
  | Subscribe s _ c => bool_decide (slot_of_call c = s)
  | Unsubscribe s _ => bool_decide (s = LoadAll)
  | Emit a => is_outcome a
  | StreamError _ _ => false
  | Opened ref | Closed ref => dialog_typed ref
  | Thrown _ => true
  end.

Section typing.
Implicit Types (st : State) (f : Field) (ref : MatDialogRef) (s : Slot).

Lemma state_typed_spec st :
  state_typed st ↔
  (∀ f ref, field f st = Some ref → dialog_of f ref) ∧
  Forall dialog_typed (MatDialog.openDialogs (dialog st)).
Proof.
  unfold state_typed, fields. rewrite andb_True, !forallb_True.
  rewrite !Forall_cons, Forall_nil. split.
  - intros [(Hc & He & Hr & _) ?]. split; [|done].
    intros [] ref Hf; simpl in *; by rewrite Hf in *.
  - intros [Hf ?]. split; [|done].
    split_and!; try done;
      match goal with
      | |- Is_true (from_option _ _ (field ?f' st)) =>
          by destruct (field f' st) eqn:Hfield; [apply Hf in Hfield|]
      end.
Qed.

Lemma dialog_of_typed f ref : dialog_of f ref → dialog_typed ref.
Proof.
  intros H. apply existb_True, Exists_exists. exists f. split; [|done].
  unfold fields. destruct f; repeat constructor.
Qed.

(** A show effect opens the component of its field, with the data of its
    field. *)
Lemma shows_typed a f cfg n :
  shows a = Some (f, cfg) → dialog_of f (mkRef n (component_of f) cfg).
Proof. destruct a; intros; by simplify_eq/=. Qed.

Lemma typed_show a f cfg :
  shows a = Some (f, cfg) →
  spec state_typed (λ _ outs _, Forall output_typed outs) (dispatch a).
Proof.
  intros Ha st [Hf Hd]%state_typed_spec. rewrite (show_opens a f cfg) by done.
  pose proof (shows_typed a f cfg (MatDialog.nextId (dialog st)) Ha) as Hty.
  simpl. split; [|by repeat constructor; apply (dialog_of_typed f)].
  apply state_typed_spec. autorewrite with handler_rw. split.
  - intros f' ref. autorewrite with handler_rw.
    case_decide; [by intros [= <-]; subst|apply Hf].
  - apply Forall_app. split; [done|].
    repeat constructor. by apply (dialog_of_typed f).
Qed.

Lemma typed_hide a f :
  closes a = Some f →
  spec state_typed (λ _ outs _, Forall output_typed outs) (dispatch a).
Proof.
  intros Ha st Hst. destruct (field f st) as [ref|] eqn:Hfield;
    [|by rewrite (hide_throws a f); [split; [|repeat constructor]|..]].
  rewrite (hide_closes a f ref) by done. simpl.
  apply state_typed_spec in Hst as [Hf Hd]. split.
  - apply state_typed_spec. split.
    + intros f' ref'. rewrite field_set_dialog. apply Hf.
    + by apply Forall_filter.
  - repeat constructor. eapply dialog_of_typed, Hf, Hfield.
Qed.

(** What the operator of a slot subscribes to and cancels is well typed. *)
Lemma subscription_typed s (outs : list (Rx.Out _ _ _)) :
  Forall (is_subscription s) (out_of s (sv_call (view s)) <$> outs) →
  Forall output_typed (out_of s (sv_call (view s)) <$> outs).
Proof.
  rewrite !Forall_fmap. intros H. eapply Forall_impl; [done|].
  intros [i a|i|b|e]; simpl; try done.
  - intros _. apply bool_decide_pack, view_call_slot.
  - intros [_ ->]. by apply bool_decide_pack.
Qed.

(** A reaction of the operator of a slot leaves the fields and the dialogs
    alone. *)
Lemma typed_slot_lift {O} s (tr : O → Output) h st :
  state_typed st → state_typed (lift (sv_lens (view s)) tr h st).1.
Proof.
  rewrite !state_typed_spec, slot_lift_dialog. intros [Hf Hd]. split; [|done].
  intros f ref. rewrite slot_lift_field. apply Hf.
Qed.

Lemma typed_outer s x :
  spec state_typed (λ _ outs _, Forall output_typed outs) (slot_outer s x).
Proof.
  intros st Hst. split; [by apply typed_slot_lift|].
  pose proof (slot_outer_subscription s x st) as H. unfold slot_outer in *.
  rewrite lift_outputs in *. by apply subscription_typed.
Qed.

Lemma typed_complete s i :
  spec state_typed (λ _ outs _, Forall output_typed outs)
    (slot_inner s i Rx.Complete).
Proof.
  intros st Hst. split; [by apply typed_slot_lift|].
  pose proof (slot_complete_subscription s i st) as H. unfold slot_inner in *.
  rewrite lift_outputs in *. by apply subscription_typed.
Qed.

Lemma typed_step ev :
  spec state_typed (λ _ outs _, Forall output_typed outs) (step ev).
Proof.
  apply step_spec;
    [apply _|apply typed_show|apply typed_hide|apply typed_outer|
    |apply typed_complete].
  intros b Hb st Hst. split; [done|]. repeat constructor. simpl. by rewrite Hb.
Qed.

(** C10. Runs preserve types.  From a well-typed state, every run of the
    class ends in a well-typed state: each dialog field holds, if anything,
    a reference to a dialog of the component its declaration names, opened
    with the data its show effect passes, and every open dialog is such a
    dialog.  Every output of the run is well typed: each subscription is to
    a call of the service method of its effect, only [loadAll$] cancels,
    only outcome actions are emitted, no stream of an effect errors. *)
Theorem type_preservation evs st :
  state_typed st →
  state_typed (run evs st).1 ∧ Forall output_typed (run evs st).2.
Proof.
  apply (spec_run state_typed (λ _ outs _, Forall output_typed outs) step evs
           typed_step).
Qed.

Lemma type_preservation_witness :
  state_typed init ∧
  state_typed
    (run [Dispatch (TodoActions.showEditDialog milk);
          Dispatch (TodoActions.update milk_done);
          Reply Update 0 (Rx.Next milk_done)] init).1 ∧
  Forall output_typed
    (run [Dispatch (TodoActions.showEditDialog milk);
          Dispatch (TodoActions.update milk_done);
          Reply Update 0 (Rx.Next milk_done)] init).2.
Proof.
  split; [done|].
  apply (type_preservation
           [Dispatch (TodoActions.showEditDialog milk);
            Dispatch (TodoActions.update milk_done);
            Reply Update 0 (Rx.Next milk_done)] init).
  done.
Defined.
End typing.
