(* ===== verification/Latest.v ===== *)
(** * Latest: independence of the slots, latest wins

    The operator state of a request effect changes only with the events
    that concern its slot; the request of [loadAll$] in flight is the last
    [loadAll] dispatched, so a reply makes [loadAll$] react only when it
    answers that one; and a second [loadAll] cancels the first and calls
    the service at once. *)

From S2P Require Import Prelude Rxjs Actions Dialog Effects Samples Slots.
From S2P Require Import Reactions Machine Order.

Import (hints) Rx TodoActions TodoService TodoEffects.
Import TodoEffects.

(** ** The slots are independent *)

(** An event concerns a slot when it dispatches a request of the slot or
    is a reply to it. *)
Definition concerns (s : Slot) (ev : Event) : Prop :=
  match ev with
  | Dispatch a =>
      match call_of_action a with
      | Some c => slot_of_call c = s
      | None => False
      end
  | Reply s' _ _ => s' = s
  end.

#[export] Instance concerns_dec s ev : Decision (concerns s ev).
Proof. destruct ev; simpl; [destruct (call_of_action a)|]; apply _. Defined.

Section independence.
Implicit Types (s : Slot) (st : State) (ev : Event).

(** The slot is left as it is and no call of it is made. *)
Definition untouched (s : Slot) : State → list Output → State → Prop :=
  λ st outs st', slot_state s st' = slot_state s st ∧ calls s outs = [].

#[local] Instance untouched_compositional s : Compositional (untouched s).
Proof.
  split; [done|]. intros st o1 st1 o2 st2 [H1 H1'] [H2 H2']. split.
  - by rewrite H2.
  - by rewrite calls_app, H1', H2'.
Qed.

Lemma untouched_quiet s a :
  call_of_action a = None → spec (λ _, True) (untouched s) (dispatch a).
Proof.
  intros Ha st _. destruct (dispatch_dialog a st Ha) as [Hst Houts].
  split; [done|]. split; [apply Hst|by apply dialog_no_calls].
Qed.

Lemma untouched_other s s' {A} (h : Handler _ (Rx.Out A TodoActions.Action Failure))
    call st :
  s' ≠ s →
  untouched s st (lift (sv_lens (view s')) (out_of s' call) h st).2
    (lift (sv_lens (view s')) (out_of s' call) h st).1.
Proof.
  intros Hs. split; [by apply slot_lift_other|].
  by rewrite lift_outputs, calls_out_of_ne.
Qed.

(** An event leaves alone every slot it does not concern. *)
Lemma step_untouched s ev st :
  ¬ concerns s ev → untouched s st (step ev st).2 (step ev st).1.
Proof.
  intros Hs.
  destruct ev as [a|s' i n]; simpl in Hs;
    [destruct (call_of_action a) as [c|] eqn:Ha|].
  - simpl. destruct (view_dispatch a c st Ha) as (x & _ & ->).
    by apply untouched_other.
  - by apply untouched_quiet.
  - cut (spec (λ _, True) (untouched s) (notify s' i n));
      [intros H; by apply H|].
    apply notify_spec; [apply _| | |].
    + by intros b Hb st' _.
    + intros b Hb. by apply untouched_quiet, outcome_no_call.
    + intros st' _. split; [done|]. apply untouched_other. congruence.
Qed.

Lemma slot_state_independent s ev st :
  ¬ concerns s ev → slot_state s (step ev st).1 = slot_state s st.
Proof. intros Hs. by apply step_untouched. Qed.

Lemma in_flight_independent s ev st :
  ¬ concerns s ev → in_flight s (step ev st).1 = in_flight s st.
Proof. intros. by rewrite !view_in_flight, slot_state_independent. Qed.

(** C27. An event leaves alone every slot it does not concern: the request
    in flight, the requests that wait and the number of subscriptions of a
    request effect change only when one of its own requests is dispatched
    or when its own inner observable delivers, and only then is the service
    called for it.  Dialog actions, requests and replies of the other
    effects, and the outcome actions fed back through the store do not
    touch it. *)
Theorem slots_independent s ev st :
  ¬ concerns s ev →
  in_flight s (step ev st).1 = in_flight s st ∧
  waiting s (step ev st).1 = waiting s st ∧
  subscriptions s (step ev st).1 = subscriptions s st ∧
  calls s (step ev st).2 = [].
Proof.
  intros [Hst Hcalls]%(step_untouched s ev st).
  by rewrite view_in_flight, view_waiting, view_subscriptions, Hst,
    <-view_in_flight, <-view_waiting, <-view_subscriptions.
Qed.

Lemma slots_independent_witness :
  in_flight Create (step (Reply LoadAll 0 (Rx.Next [milk])) loading).1
    = in_flight Create loading ∧
  waiting Create (step (Reply LoadAll 0 (Rx.Next [milk])) loading).1
    = waiting Create loading ∧
  subscriptions Create (step (Reply LoadAll 0 (Rx.Next [milk])) loading).1
    = subscriptions Create loading ∧
  calls Create (step (Reply LoadAll 0 (Rx.Next [milk])) loading).2 = [].
Proof.
  apply (slots_independent Create (Reply LoadAll 0 (Rx.Next [milk])) loading).
  simpl. discriminate.
Defined.
End independence.

(** ** The latest [loadAll] wins *)

Section latest.
Implicit Types (st : State) (evs : list Event) (i : nat).

(** A reply never brings a request of [loadAll$] in flight. *)
Lemma loadAll_reply_in_flight s i n st x :
  in_flight LoadAll (step (Reply s i n) st).1 = Some x →
  in_flight LoadAll st = Some x.
Proof.
  destruct (decide (s = LoadAll)) as [->|Hs];
    [|by rewrite in_flight_independent].
  revert x.
  cut (spec (λ _, True)
         (λ st _ st', ∀ x, in_flight LoadAll st' = Some x →
                           in_flight LoadAll st = Some x)
         (notify LoadAll i n)); [intros H; by apply H|].
  assert (∀ a, call_of_action a = None →
    spec (λ _, True)
      (λ st _ st', ∀ x, in_flight LoadAll st' = Some x →
                        in_flight LoadAll st = Some x) (dispatch a)) as Hq.
  { intros a Ha. eapply spec_weaken; [|by apply (untouched_quiet LoadAll)].
    intros st1 outs st2 _ [Hst _] y. by rewrite !view_in_flight, Hst. }
  apply notify_spec.
  - split; [done|]. intros st0 o1 st1 o2 st2 H1 H2 y. auto.
  - by intros b Hb st' _.
  - intros b Hb. by apply Hq, outcome_no_call.
  - intros st' _. split; [done|]. intros y.
    destruct (in_flight LoadAll st') as [[j c]|] eqn:Hj.
    + destruct (decide (i = j)) as [->|Hij].
      * by destruct (slot_complete LoadAll j c st' Hj) as (_ & -> & _).
      * rewrite slot_inner_stale; [cbn [fst]; by rewrite Hj|].
        apply in_flight_None. congruence.
    + rewrite slot_inner_stale; [cbn [fst]; by rewrite Hj|].
      apply in_flight_None. congruence.
Qed.

(** The request of [loadAll$] in flight is the last one dispatched. *)
Lemma loadAll_in_flight_latest evs i c :
  in_flight LoadAll (run evs init).1 = Some (i, c) →
  last (requests LoadAll (dispatched evs)) = Some c.
Proof.
  revert i c. induction evs as [|ev evs IH] using rev_ind; [done|].
  intros i c. rewrite run_snoc, dispatched_app, requests_app. cbn [fst].
  destruct ev as [a|s j n]; simpl dispatched.
  - destruct (call_of_action a) as [c'|] eqn:Ha.
    + destruct (decide (slot_of_call c' = LoadAll)) as [Hc|Hc].
      * rewrite (call_of_action_slot a c'), last_snoc by done.
        destruct a; simpl in Ha; simplify_eq; simpl in Hc; simplify_eq.
        simpl step.
        destruct (loadAll_switch offset limit (run evs init).1) as [_ ->].
        by intros [= _ <-].
      * rewrite (requests_other a c'), app_nil_r by done.
        rewrite in_flight_independent; [apply IH|]. simpl. by rewrite Ha.
    + rewrite requests_no_call, app_nil_r by done.
      rewrite in_flight_independent; [apply IH|]. simpl. rewrite Ha. tauto.
  - rewrite requests_nil, app_nil_r. intros Hx%loadAll_reply_in_flight. eauto.
Qed.

(** C2. Latest wins: in every run, a notification of the service makes
    [loadAll$] react (emit an action, or anything at all) only when it is
    addressed to the subscription made for the last [loadAll] dispatched.
    What the service delivers for an earlier [loadAll] is dropped. *)
Theorem latest_loadAll_wins evs i n :
  (step (Reply LoadAll i n) (run evs init).1).2 ≠ [] →
  ∃ c, in_flight LoadAll (run evs init).1 = Some (i, c) ∧
       last (requests LoadAll (dispatched evs)) = Some c.
Proof.
  intros Hout.
  destruct (in_flight LoadAll (run evs init).1) as [[j c]|] eqn:Hj.
  - destruct (decide (i = j)) as [->|Hij].
    + exists c. eauto using loadAll_in_flight_latest.
    + rewrite reply_stale in Hout; [done|]. congruence.
  - rewrite reply_stale in Hout; [done|]. congruence.
Qed.

Lemma latest_loadAll_wins_witness :
  ∃ c, in_flight LoadAll
         (run [Dispatch (TodoActions.loadAll 0 10);
               Dispatch (TodoActions.loadAll 10 10)] init).1 = Some (1, c) ∧
       last (requests LoadAll
               (dispatched [Dispatch (TodoActions.loadAll 0 10);
                            Dispatch (TodoActions.loadAll 10 10)])) = Some c.
Proof.
  apply (latest_loadAll_wins
           [Dispatch (TodoActions.loadAll 0 10);
            Dispatch (TodoActions.loadAll 10 10)] 1 (Rx.Next [milk])).
  vm_compute. discriminate.
Defined.

(** The subscription in flight was made before the index of the slot. *)
Lemma in_flight_fresh s i c st :
  wf st → in_flight s st = Some (i, c) → i < subscriptions s st.
Proof.
  intros (_ & _ & Hwf)%wf_view (a & _ & Ha)%in_flight_inv.
  rewrite view_subscriptions. by eapply Rx.flat_fresh.
Qed.

(** C22. A second [loadAll] supersedes the first: the request in flight is
    cancelled, the new one is passed to the service at once, and whatever
    the service still delivers for the first (a value, an error, a
    completion) is dropped: no action is emitted and nothing changes. *)
Theorem loadAll_supersedes offset limit i c n st :
  wf st → in_flight LoadAll st = Some (i, c) →
  (dispatch (TodoActions.loadAll offset limit) st).2
  = [Unsubscribe LoadAll i;
     Subscribe LoadAll (subscriptions LoadAll st)
       (TodoService.findAll offset limit)] ∧
  step (Reply LoadAll i n) (dispatch (TodoActions.loadAll offset limit) st).1
  = ((dispatch (TodoActions.loadAll offset limit) st).1, []).
Proof.
  intros Hwf Hi. pose proof (in_flight_fresh _ _ _ _ Hwf Hi) as Hlt.
  destruct (loadAll_switch offset limit st) as [-> Hnew].
  rewrite Hi. split; [done|].
  apply reply_stale. intros c'. rewrite Hnew. intros [= Heq _]. simpl in *. lia.
Qed.

Lemma loadAll_supersedes_witness :
  (dispatch (TodoActions.loadAll 10 10) loading).2
  = [Unsubscribe LoadAll 0;
     Subscribe LoadAll (subscriptions LoadAll loading)
       (TodoService.findAll 10 10)] ∧
  step (Reply LoadAll 0 (Rx.Next [milk]))
    (dispatch (TodoActions.loadAll 10 10) loading).1
  = ((dispatch (TodoActions.loadAll 10 10) loading).1, []).
Proof.
  apply (loadAll_supersedes 10 10 0 (TodoService.findAll 0 10)
           (Rx.Next [milk]) loading); [|reflexivity].
  apply run_wf, wf_init.
Defined.
End latest.

