(* ===== verification/Outcomes.v ===== *)
(** * Outcomes: what the effects emit, and the dialogs they open and close

    One outcome action per answered request; no loop of effects through the
    store; the [TypeError] of a hide effect, which happens exactly while no
    show action for its field has been dispatched; and the dialog a second
    show action leaves open for ever. *)

From S2P Require Import Prelude Rxjs Actions Dialog Effects Samples Slots.
From S2P Require Import Reactions Machine Order Latest.

Import (hints) Rx TodoActions TodoService TodoEffects.
Import TodoEffects.

(** ** The hide effects throw only before the first show *)

Section throws.
Implicit Types (st : State) (f : Field) (evs : list Event).

(** Once a field holds a reference it holds one for ever, and the hide
    effect of the field does not throw. *)
Lemma shown_stable f ev :
  spec (λ st, is_Some (field f st)) (λ _ outs _, Forall (λ o, o ≠ Thrown f) outs)
    (step ev).
Proof.
  apply step_spec; try apply _.
  - intros a f' cfg Ha st Hf. rewrite (show_opens a f' cfg) by done.
    simpl. autorewrite with handler_rw. split; [by case_decide|].
    by repeat constructor.
  - intros a f' Ha st Hf. destruct (field f' st) as [ref|] eqn:Hf'.
    + rewrite (hide_closes a f' ref) by done. simpl.
      rewrite field_set_dialog. split; [done|]. by repeat constructor.
    + rewrite (hide_throws a f') by done. split; [done|].
      repeat constructor. intros [= ->]. rewrite Hf' in Hf. by destruct Hf.
  - intros s x st Hf. unfold slot_outer. rewrite slot_lift_field. split; [done|].
    eapply Forall_impl; [apply slot_outer_subscription|]. by intros [].
  - intros b Hb st Hf. split; [done|]. by repeat constructor.
  - intros s i st Hf. unfold slot_inner. rewrite slot_lift_field. split; [done|].
    eapply Forall_impl; [apply slot_complete_subscription|]. by intros [].
Qed.

(** C24. After a show action for a field, the hide effect of that field
    never throws, whatever happens next: the [TypeError] of a hide effect
    is confined to the time before the first show. *)
Theorem no_throw_once_shown a f cfg evs st :
  shows a = Some (f, cfg) → Thrown f ∉ (run evs (dispatch a st).1).2.
Proof.
  intros Ha.
  assert (is_Some (field f (dispatch a st).1)) as Hf.
  { rewrite (show_opens a f cfg) by done. simpl.
    autorewrite with handler_rw. by rewrite decide_True. }
  destruct (spec_run _ _ step evs (shown_stable f) _ Hf) as [_ Hout].
  rewrite Forall_forall in Hout. intros Hin%Hout. done.
Qed.

Lemma no_throw_once_shown_witness :
  Thrown CreateDialogRef
  ∉ (run [Dispatch (TodoActions.create milk_draft);
          Reply Create 0 (Rx.Next milk); Reply Create 0 Rx.Complete;
          Dispatch (TodoActions.createSuccess milk)]
       (dispatch TodoActions.showCreateDialog init).1).2.
Proof.
  apply (no_throw_once_shown TodoActions.showCreateDialog CreateDialogRef
           (mkConfig (Some "400px") NoData)).
  reflexivity.
Defined.

(** A field is undefined as long as no show action for it was dispatched. *)
Definition unshown (f : Field) (a : TodoActions.Action) : Prop :=
  ∀ cfg, shows a ≠ Some (f, cfg).

Lemma dispatch_unshown f a st :
  unshown f a → field f st = None → field f (dispatch a st).1 = None.
Proof.
  intros Ha Hf. destruct (action_kind_total a) as [c Hc|f' cfg Hs|f' Hc _|].
  - destruct (view_dispatch a c st Hc) as (x & _ & ->).
    unfold slot_outer. by rewrite slot_lift_field.
  - rewrite (show_opens a f' cfg) by done. simpl.
    autorewrite with handler_rw. case_decide; [|done].
    subst. by destruct (Ha cfg).
  - destruct (field f' st) as [ref|] eqn:Hf'.
    + rewrite (hide_closes a f' ref) by done. simpl. by rewrite field_set_dialog.
    + by rewrite (hide_throws a f').
  - by rewrite dispatch_silent.
Qed.

Lemma reply_unshown f s i n :
  spec (λ st, field f st = None) (λ _ _ _, True) (notify s i n).
Proof.
  apply notify_spec; [apply _| | |].
  - by intros b Hb st Hf.
  - intros b Hb st Hf. split; [|done]. apply dispatch_unshown; [|done].
    intros cfg. by destruct b.
  - intros st Hf. unfold slot_inner. by rewrite slot_lift_field.
Qed.

Lemma run_unshown f evs st :
  Forall (unshown f) (dispatched evs) → field f st = None →
  field f (run evs st).1 = None.
Proof.
  revert st. induction evs as [|[a|s i n] evs IH]; intros st Hevs Hf; [done|..];
    rewrite run_cons; cbn [fst]; apply IH.
  - by inversion Hevs.
  - inversion Hevs. by apply dispatch_unshown.
  - done.
  - by apply reply_unshown.
Qed.

(** C23. A hide effect throws when its dialog was never shown: in a run
    from the initial state in which no show action for the field was
    dispatched, a value the service delivers to the request in flight makes
    the success action come out and then the hide effect of that action
    throw ([this.createDialogRef.close()] on [undefined]).  A [create],
    [update] or [remove] dispatched by anything but the dialog ends so. *)
Theorem hide_throws_before_show evs c i v f :
  Forall (unshown f) (dispatched evs) →
  in_flight (slot_of_call c) (run evs init).1 = Some (i, c) →
  closes (success c v) = Some f →
  step (Reply (slot_of_call c) i (Rx.Next v)) (run evs init).1
  = ((run evs init).1, [Emit (success c v); Thrown f]).
Proof.
  intros Hevs Hi Hc. apply success_without_dialog; [done..|].
  apply run_unshown; [done|by destruct f].
Qed.

Lemma hide_throws_before_show_witness :
  step (Reply Create 0 (Rx.Next milk))
    (run [Dispatch (TodoActions.create milk_draft)] init).1
  = ((run [Dispatch (TodoActions.create milk_draft)] init).1,
     [Emit (TodoActions.createSuccess milk); Thrown CreateDialogRef]).
Proof.
  apply (hide_throws_before_show [Dispatch (TodoActions.create milk_draft)]
           (TodoService.create milk_draft) 0 milk CreateDialogRef);
    [|reflexivity..].
  repeat constructor. intros cfg. discriminate.
Defined.
End throws.

(** ** One outcome per request *)

Section outcome.
Implicit Types (st : State) (c : TodoService.Call) (i : nat).

Lemma dispatch_outcome_frame s b st :
  is_outcome b = true →
  slot_state s (dispatch b st).1 = slot_state s st.
Proof. intros Hb. by apply untouched_quiet; [apply outcome_no_call|]. Qed.

(** C9. The service answers the request in flight the way an HTTP call
    does, with one value and then completion: exactly one action is
    emitted, the success action of the call, and the slot goes on with the
    first call that waits, or is idle when none does. *)
Theorem http_success_one_outcome c i v st :
  in_flight (slot_of_call c) st = Some (i, c) →
  emits (run [Reply (slot_of_call c) i (Rx.Next v);
              Reply (slot_of_call c) i Rx.Complete] st).2
  = [success c v] ∧
  in_flight (slot_of_call c)
    (run [Reply (slot_of_call c) i (Rx.Next v);
          Reply (slot_of_call c) i Rx.Complete] st).1
  = match waiting (slot_of_call c) st with
    | [] => None
    | c' :: _ => Some (subscriptions (slot_of_call c) st, c')
    end.
Proof.
  intros Hi. rewrite !run_cons, run_nil. cbn [fst snd]. rewrite app_nil_r.
  rewrite reply_value, seq_eq by done. cbn [fst snd emit].
  set (s := slot_of_call c) in *.
  set (st1 := (dispatch (success c v) st).1).
  assert (slot_state s st1 = slot_state s st) as Hst
    by apply dispatch_outcome_frame, success_is_outcome.
  assert (in_flight s st1 = Some (i, c)) as Hi1
    by by rewrite view_in_flight, Hst, <-view_in_flight.
  rewrite (reply_complete s i c) by done.
  destruct (slot_complete s i c st1 Hi1) as (Hout & -> & _).
  rewrite !emits_app, dispatch_no_emit, Hout.
  rewrite view_waiting, view_subscriptions, Hst, <-view_waiting,
    <-view_subscriptions.
  split; [|done]. by destruct (waiting s st).
Qed.

Lemma http_success_one_outcome_witness :
  emits (run [Reply Create 0 (Rx.Next milk); Reply Create 0 Rx.Complete]
           creating_twice).2
  = [TodoActions.createSuccess milk] ∧
  in_flight Create
    (run [Reply Create 0 (Rx.Next milk); Reply Create 0 Rx.Complete]
       creating_twice).1
  = match waiting Create creating_twice with
    | [] => None
    | c' :: _ => Some (subscriptions Create creating_twice, c')
    end.
Proof.
  apply (http_success_one_outcome (TodoService.create milk_draft) 0 milk
           creating_twice).
  reflexivity.
Defined.

(** The effects do not loop through the store: every action an effect
    emits is an outcome action, an outcome action is no request, and
    dispatching it makes no effect emit.  So the feedback of an emitted
    action ends with the hide effect it may reach. *)
Theorem no_effect_loop evs st :
  Forall (λ o, ∀ b, o = Emit b →
            is_outcome b = true ∧ call_of_action b = None ∧
            ∀ st', emits (dispatch b st').2 = [])
    (run evs st).2.
Proof.
  eapply Forall_impl; [apply emits_outcomes|].
  intros o Ho b Hb%Ho. eauto using outcome_no_call, dispatch_no_emit.
Qed.
End outcome.

(** ** The dialogs a show action opens *)

(** A dialog that is open and that no field refers to: no hide effect can
    close it. *)
Definition leaked (r : MatDialogRef) (st : State) : Prop :=
  MatDialog.is_open r (dialog st) ∧ MatDialog.known r (dialog st) ∧
  ∀ f r', field f st = Some r' → dialogId r' ≠ dialogId r.

Section dialogs.
Implicit Types (st : State) (f : Field) (r : MatDialogRef) (evs : list Event).

Lemma leaked_frame r st st' :
  dialog st' = dialog st → (∀ f, field f st' = field f st) →
  leaked r st → leaked r st'.
Proof.
  intros Hd Hf (Ho & Hk & Hr). unfold leaked. rewrite Hd.
  split_and!; [done..|]. intros f r'. rewrite Hf. apply Hr.
Qed.

Lemma leaked_lift {A} r s
    (h : Handler (sv_F (view s) (sv_A (view s))) (Rx.Out A TodoActions.Action Failure))
    call :
  preserves (leaked r) (lift (sv_lens (view s)) (out_of s call) h).
Proof.
  intros st. apply leaked_frame; [apply slot_lift_dialog|].
  intros f. apply slot_lift_field.
Qed.

Lemma leaked_show r a f cfg :
  shows a = Some (f, cfg) → preserves (leaked r) (dispatch a).
Proof.
  intros Ha st (Ho & Hk & Hr). rewrite (show_opens a f cfg) by done.
  unfold leaked. simpl. autorewrite with handler_rw.
  split_and!; [by apply dialog_open_keeps|by apply dialog_open_known_mono|].
  intros f' r'. autorewrite with handler_rw. case_decide; [|by apply Hr].
  intros [= <-]. unfold MatDialog.known in Hk. simpl. lia.
Qed.

Lemma leaked_hide r a f :
  closes a = Some f → preserves (leaked r) (dispatch a).
Proof.
  intros Ha st (Ho & Hk & Hr). destruct (field f st) as [ref|] eqn:Hf.
  - rewrite (hide_closes a f ref) by done. unfold leaked. simpl.
    split_and!; [|done|].
    + apply dialog_close_other; [|done]. intros Heq. by eapply Hr.
    + intros f' r'. rewrite field_set_dialog. apply Hr.
  - by rewrite (hide_throws a f).
Qed.

Lemma step_leaked r ev : preserves (leaked r) (step ev).
Proof.
  intros st Hst.
  apply (step_spec (leaked r) (λ _ _ _, True)); [| | | | |done];
    intros; apply spec_of_preserves;
    eauto using leaked_show, leaked_hide, leaked_lift, preserves_emit.
Qed.

(** C28. A show action opens one new dialog of the component of its field,
    with the configuration the effect gives ([width: '400px'] for the
    create and edit dialogs, the todo or the id as [data]), stores its
    reference in the field, leaves the other fields and the open dialogs
    as they are, and dispatches nothing. *)
Theorem show_opens_dialog a f cfg st :
  shows a = Some (f, cfg) → wf st →
  ∃ r, (dispatch a st).2 = [Opened r] ∧
    componentInstance r = component_of f ∧ config r = cfg ∧
    ¬ MatDialog.is_open r (dialog st) ∧
    MatDialog.is_open r (dialog (dispatch a st).1) ∧
    field f (dispatch a st).1 = Some r ∧
    (∀ f', f' ≠ f → field f' (dispatch a st).1 = field f' st) ∧
    (∀ r', MatDialog.is_open r' (dialog st) →
           MatDialog.is_open r' (dialog (dispatch a st).1)).
Proof.
  intros Ha ([_ Hlt] & _)%wf_view. rewrite (show_opens a f cfg) by done.
  eexists. split; [done|]. simpl. autorewrite with handler_rw.
  split_and!; [done..| |apply dialog_open_is_open|by rewrite decide_True| |].
  - intros Hr. rewrite Forall_forall in Hlt. apply Hlt in Hr. simpl in Hr. lia.
  - intros f' Hf'. autorewrite with handler_rw. by rewrite decide_False.
  - intros r'. apply dialog_open_keeps.
Qed.

Lemma show_opens_dialog_witness :
  ∃ r, (dispatch (TodoActions.showEditDialog milk) creating).2 = [Opened r] ∧
    componentInstance r = component_of EditDialogRef ∧
    config r = mkConfig (Some "400px") (TodoData milk) ∧
    ¬ MatDialog.is_open r (dialog creating) ∧
    MatDialog.is_open r
      (dialog (dispatch (TodoActions.showEditDialog milk) creating).1) ∧
    field EditDialogRef (dispatch (TodoActions.showEditDialog milk) creating).1
      = Some r ∧
    (∀ f', f' ≠ EditDialogRef →
       field f' (dispatch (TodoActions.showEditDialog milk) creating).1
       = field f' creating) ∧
    (∀ r', MatDialog.is_open r' (dialog creating) →
       MatDialog.is_open r'
         (dialog (dispatch (TodoActions.showEditDialog milk) creating).1)).
Proof.
  apply (show_opens_dialog (TodoActions.showEditDialog milk) EditDialogRef
           (mkConfig (Some "400px") (TodoData milk)) creating);
    [reflexivity|apply run_wf, wf_init].
Defined.

(** C29. A show action dispatched twice leaves a dialog open for ever: the
    second dialog is opened over the first, its reference overwrites the
    one in the field, and nothing the class does afterwards closes the
    first dialog, since no field refers to it any more. *)
Theorem double_show_leaks a f cfg evs st :
  shows a = Some (f, cfg) → wf st →
  (dispatch a st).2 = [Opened (MatDialog.open (component_of f) cfg (dialog st)).2] ∧
  leaked (MatDialog.open (component_of f) cfg (dialog st)).2
    (run (Dispatch a :: evs) (dispatch a st).1).1.
Proof.
  intros Ha Hwf. rewrite (show_opens a f cfg st) by done. split; [done|].
  rewrite run_cons. cbn [fst snd step].
  apply (preserves_run (leaked _) step); [apply step_leaked|].
  rewrite (show_opens a f cfg) by done. unfold leaked. simpl.
  autorewrite with handler_rw. unfold MatDialog.is_open, MatDialog.known. simpl.
  split_and!; [|lia|].
  - rewrite !elem_of_app, !list_elem_of_singleton. tauto.
  - intros f' r'. autorewrite with handler_rw.
    case_decide; [intros [= <-]; simpl; lia|]. intros Hr' Heq.
    apply wf_view in Hwf as (_ & Hf & _). apply Hf in Hr' as [Hk _].
    unfold MatDialog.known in Hk. simpl in Heq. lia.
Qed.

Lemma double_show_leaks_witness :
  (dispatch TodoActions.showCreateDialog init).2
  = [Opened (MatDialog.open (component_of CreateDialogRef)
               (mkConfig (Some "400px") NoData) (dialog init)).2] ∧
  leaked (MatDialog.open (component_of CreateDialogRef)
            (mkConfig (Some "400px") NoData) (dialog init)).2
    (run [Dispatch TodoActions.showCreateDialog;
          Dispatch (TodoActions.create milk_draft);
          Reply Create 0 (Rx.Next milk); Reply Create 0 Rx.Complete]
       (dispatch TodoActions.showCreateDialog init).1).1.
Proof.
  apply (double_show_leaks TodoActions.showCreateDialog CreateDialogRef
           (mkConfig (Some "400px") NoData)); [reflexivity|apply wf_init].
Defined.
End dialogs.

(** ** The dialog a success closes *)

(** The references of the dialogs of field [f] opened in a list of
    outputs, in order. *)
Definition opened (f : Field) (outs : list Output) : list MatDialogRef :=
  omap (λ o, match o with
             | Opened r =>
                 if decide (componentInstance r = component_of f)
                 then Some r else None
             | _ => None
             end) outs.

(** The field holds the last dialog opened for it, if one was opened. *)
Definition holds_last (f : Field) : State → list Output → State → Prop :=
  λ st outs st', field f st' = from_option Some (field f st) (last (opened f outs)).

Section last_shown.
Implicit Types (st : State) (f : Field) (evs : list Event).

Lemma opened_app f outs1 outs2 :
  opened f (outs1 ++ outs2) = opened f outs1 ++ opened f outs2.
Proof. apply omap_app. Qed.

#[local] Instance holds_last_compositional f : Compositional (holds_last f).
Proof.
  split; [done|]. unfold holds_last. intros st o1 st1 o2 st2 H1 H2.
  rewrite opened_app, last_app, H2, H1. by destruct (last (opened f o2)).
Qed.

(** A reaction that opens nothing and leaves the field alone. *)
Lemma holds_last_frame f st outs st' :
  field f st' = field f st → Forall (λ o, ∀ r, o ≠ Opened r) outs →
  holds_last f st outs st'.
Proof.
  intros Hf Houts. unfold holds_last.
  assert (opened f outs = []) as ->; [|done].
  induction Houts as [|[] outs Ho _ IH]; try done. by destruct (Ho ref).
Qed.

Lemma holds_last_lift {A} f s
    (h : Handler (sv_F (view s) (sv_A (view s))) (Rx.Out A TodoActions.Action Failure))
    call st :
  holds_last f st (lift (sv_lens (view s)) (out_of s call) h st).2
    (lift (sv_lens (view s)) (out_of s call) h st).1.
Proof.
  apply holds_last_frame; [apply slot_lift_field|].
  rewrite lift_outputs. apply Forall_fmap, Forall_true. by intros [].
Qed.

Lemma step_holds_last f ev : spec (λ _, True) (holds_last f) (step ev).
Proof.
  apply step_spec; try apply _.
  - intros a f' cfg Ha st _. rewrite (show_opens a f' cfg) by done.
    split; [done|]. unfold holds_last. simpl. autorewrite with handler_rw.
    destruct f, f'; simpl; try done.
  - intros a f' Ha st _. split; [done|].
    destruct (field f' st) as [ref|] eqn:Hf.
    + rewrite (hide_closes a f' ref) by done.
      apply holds_last_frame; [apply field_set_dialog|by repeat constructor].
    + rewrite (hide_throws a f') by done.
      apply holds_last_frame; [done|by repeat constructor].
  - intros s x st _. split; [done|apply holds_last_lift].
  - intros b Hb st _. split; [done|].
    apply holds_last_frame; [done|by repeat constructor].
  - intros s i st _. split; [done|apply holds_last_lift].
Qed.

(** In a run, a field holds the dialog that was opened last for it, or
    what it held before when none was opened. *)
Lemma run_holds_last f evs st :
  field f (run evs st).1
  = from_option Some (field f st) (last (opened f (run evs st).2)).
Proof.
  by destruct (spec_run _ _ step evs (step_holds_last f) st I) as [_ Hf].
Qed.

(** A success closes the dialog that was opened last for its field:
    in a run from the initial state, when the service delivers a value to
    the request in flight and the success action has a hide effect, the
    dialog that effect closes is the one the last show action of that
    field opened. *)
Theorem success_closes_last_shown evs c i v f ref :
  in_flight (slot_of_call c) (run evs init).1 = Some (i, c) →
  closes (success c v) = Some f →
  last (opened f (run evs init).2) = Some ref →
  (step (Reply (slot_of_call c) i (Rx.Next v)) (run evs init).1).2
  = [Emit (success c v); Closed ref].
Proof.
  intros Hi Hc Hlast. pose proof (run_holds_last f evs init) as Hf.
  rewrite Hlast in Hf. rewrite reply_value, seq_eq by done. simpl.
  by rewrite (hide_closes _ f ref).
Qed.

Lemma success_closes_last_shown_witness :
  (step (Reply Create 0 (Rx.Next milk))
     (run [Dispatch TodoActions.showCreateDialog;
           Dispatch TodoActions.showCreateDialog;
           Dispatch (TodoActions.create milk_draft)] init).1).2
  = [Emit (TodoActions.createSuccess milk);
     Closed (mkRef 1 TodoCreateDialogComponent (mkConfig (Some "400px") NoData))].
Proof.
  apply (success_closes_last_shown
           [Dispatch TodoActions.showCreateDialog;
            Dispatch TodoActions.showCreateDialog;
            Dispatch (TodoActions.create milk_draft)]
           (TodoService.create milk_draft) 0 milk CreateDialogRef); reflexivity.
Defined.
End last_shown.
