(* ===== verification/Coordinator.v ===== *)
(** * The request coordinator of the specification

    The specification describes the class as a coordinator with one slot
    per kind of request.  A slot is idle or has one request pending; a
    request submitted to a busy slot waits behind the pending one when the
    slot dispatches sequentially ([load], [create], [update], [remove]) and
    replaces it when the slot follows the latest request ([loadAll]).  The
    coordinator starts and cancels service calls and reports outcomes; it
    knows nothing of subscriptions, indices or dialogs.

    This file holds that machine, on its own.  [Refinement] shows that the
    class implements it. *)

From stdpp Require Import functions.
From S2P Require Import Prelude Actions.

Module Coordinator.

Import (hints) TodoActions TodoService.
Import TodoService (Call).

(** How a slot treats a request that arrives while another is pending. *)
Inductive Discipline : Type := Sequential | LatestWins.

Definition discipline (s : Slot) : Discipline :=
  match s with LoadAll => LatestWins | _ => Sequential end.

Inductive Status : Type :=
| Idle
| Pending (c : Call) (queue : list Call).

(** What the coordinator does to the outside. *)
Inductive Signal : Type :=
| Start (c : Call)
| Cancel (s : Slot)
| Outcome (a : TodoActions.Action).

(** What happens to the coordinator: a request is submitted, the service
    delivers a value or an error to the pending request of a slot, the
    pending request of a slot ends, or something that is none of its
    business. *)
Inductive Label : Type :=
| Submit (c : Call)
| Deliver (s : Slot) (v : Result s)
| Fail (s : Slot) (e : Failure)
| Finish (s : Slot)
| Tau.

#[export] Instance Discipline_eq_dec : EqDecision Discipline.
Proof. solve_decision. Defined.

#[export] Instance Status_eq_dec : EqDecision Status.
Proof. solve_decision. Defined.

#[export] Instance Signal_eq_dec : EqDecision Signal.
Proof. solve_decision. Defined.

(** The success action of a call of slot [s] that delivered [v]. *)
Definition success_at (s : Slot) : Call → Result s → option TodoActions.Action :=
  match s with
  | LoadAll => λ c v,
      match c with
      | TodoService.findAll _ _ => Some (TodoActions.loadAllSuccess v)
      | _ => None
      end
  | Load => λ c v,
      match c with
      | TodoService.find _ => Some (TodoActions.loadSuccess v)
      | _ => None
      end
  | Create => λ c v,
      match c with
      | TodoService.create _ => Some (TodoActions.createSuccess v)
      | _ => None
      end
  | Update => λ c v,
      match c with
      | TodoService.update _ => Some (TodoActions.updateSuccess v)
      | _ => None
      end
  | Remove => λ c _,
      match c with
      | TodoService.remove id => Some (TodoActions.removeSuccess id)
      | _ => None
      end
  end.

(** A request arrives at a slot. *)
Definition submit (c : Call) (x : Status) : Status * list Signal :=
  match x with
  | Idle => (Pending c [], [Start c])
  | Pending c0 queue =>
      match discipline (slot_of_call c) with
      | Sequential => (Pending c0 (queue ++ [c]), [])
      | LatestWins => (Pending c [], [Cancel (slot_of_call c); Start c])
      end
  end.

(** The pending request of a slot ends: the first request that waits, if
    any, is started. *)
Definition finish (x : Status) : Status * list Signal :=
  match x with
  | Idle | Pending _ [] => (Idle, [])
  | Pending _ (c :: queue) => (Pending c queue, [Start c])
  end.

(** The pending request of a slot delivers a value: its success is
    reported, and it stays pending until it ends. *)
Definition deliver (s : Slot) (v : Result s) (x : Status) : list Signal :=
  match x with
  | Idle => []
  | Pending c _ =>
      match success_at s c v with Some a => [Outcome a] | None => [] end
  end.

(** The pending request of a slot fails: its failure is reported and it
    ends. *)
Definition fail (s : Slot) (e : Failure) (x : Status) : Status * list Signal :=
  match x with
  | Idle => (Idle, [])
  | Pending _ _ => ((finish x).1, Outcome (failure s e) :: (finish x).2)
  end.

Definition state : Type := Slot → Status.

Definition init : state := λ _, Idle.

(** A reaction of one slot, as a reaction of the coordinator. *)
Definition on_slot (s : Slot) (f : Status → Status * list Signal)
  : Handler state Signal := λ st,
  (<[s := (f (st s)).1]> st, (f (st s)).2).

Definition step (l : Label) : Handler state Signal :=
  match l with
  | Submit c => on_slot (slot_of_call c) (submit c)
  | Deliver s v => λ st, (st, deliver s v (st s))
  | Fail s e => on_slot s (fail s e)
  | Finish s => on_slot s finish
  | Tau => skip
  end.

Definition run (ls : list Label) : Handler state Signal := for_each step ls.

End Coordinator.

(** Two states of the coordinator are the same when every slot has the
    same status. *)
#[export] Instance coordinator_equiv : Equiv Coordinator.state :=
  pointwise_relation Slot (=).

#[export] Instance coordinator_equivalence :
  Equivalence (≡@{Coordinator.state}).
Proof. apply _. Qed.

Section coordinator_lemmas.
Import Coordinator.
Implicit Types (st : state) (s : Slot) (c : TodoService.Call) (l : Label).

Lemma success_at_call c (v : Result (slot_of_call c)) :
  success_at (slot_of_call c) c v = Some (success c v).
Proof. by destruct c. Qed.

Lemma on_slot_same s f st : (on_slot s f st).1 s = (f (st s)).1.
Proof. apply fn_lookup_insert. Qed.

Lemma on_slot_other s s' f st : s ≠ s' → (on_slot s f st).1 s' = st s'.
Proof. apply fn_lookup_insert_ne. Qed.

Lemma on_slot_outputs s f st : (on_slot s f st).2 = (f (st s)).2.
Proof. done. Qed.

#[export] Instance on_slot_proper s f :
  Proper ((≡) ==> prod_relation (≡) (=)) (on_slot s f).
Proof.
  intros st1 st2 Hst. split; simpl; [|by rewrite (Hst s)].
  intros s'. unfold insert, fn_insert. rewrite (Hst s), (Hst s'). done.
Qed.

#[export] Instance coordinator_step_proper l :
  Proper ((≡) ==> prod_relation (≡) (=)) (step l).
Proof.
  destruct l; simpl; try apply _.
  - intros st1 st2 Hst. split; simpl; [done|]. by rewrite (Hst s).
  - by intros st1 st2 Hst.
Qed.

#[export] Instance coordinator_run_proper ls :
  Proper ((≡) ==> prod_relation (≡) (=)) (run ls).
Proof.
  induction ls as [|l ls IH]; intros st1 st2 Hst; [done|].
  unfold run. rewrite !for_each_cons, !seq_eq.
  destruct (coordinator_step_proper l st1 st2 Hst) as [H1 H2].
  destruct (IH _ _ H1) as [H3 H4]. split; simpl; [done|].
  unfold run in H4. by rewrite H2, H4.
Qed.
End coordinator_lemmas.
