(* ===== verification/Refinement.v ===== *)
(** * Refinement: the class implements the request coordinator

    A state of the class is read as a state of the coordinator: a slot is
    pending when its effect has an inner subscription, with the calls its
    operator buffers as the queue.  An event of the class is read as a
    label of the coordinator: a dispatched request is a submission, a
    notification addressed to the subscription in flight is a delivery, a
    failure or the end of the pending request, and everything else (dialog
    actions, fed-back outcomes, stale notifications) is silent.  What the
    class outputs is read as signals: subscriptions start a call,
    cancellations cancel, emitted actions are outcomes, and what happens to
    the dialogs is no business of the coordinator.

    Under this reading every step of the class is the step of the
    coordinator, and so is every run. *)

From S2P Require Import Prelude Rxjs Actions Dialog Effects Samples Slots.
From S2P Require Import Reactions Machine Order Latest Coordinator.

Import (hints) Rx TodoActions TodoService TodoEffects.
Import TodoEffects.

(** The coordinator state of a state of the class. *)
Definition abs (st : State) : Coordinator.state := λ s,
  match in_flight s st with
  | Some (_, c) => Coordinator.Pending c (waiting s st)
  | None => Coordinator.Idle
  end.

(** The coordinator label of an event, in the state it happens in. *)
Definition label (st : State) (ev : Event) : Coordinator.Label :=
  match ev with
  | Dispatch a =>
      match call_of_action a with
      | Some c => Coordinator.Submit c
      | None => Coordinator.Tau
      end
  | Reply s i n =>
      match in_flight s st with
      | Some (j, _) =>
          if decide (i = j) then
            match n with
            | Rx.Next v => Coordinator.Deliver s v
            | Rx.Error e => Coordinator.Fail s e
            | Rx.Complete => Coordinator.Finish s
            end
          else Coordinator.Tau
      | None => Coordinator.Tau
      end
  end.

Fixpoint labels (st : State) (evs : list Event) : list Coordinator.Label :=
  match evs with
  | [] => []
  | ev :: evs => label st ev :: labels (step ev st).1 evs
  end.

(** The signal of an output; the dialog outputs have none. *)
Definition signal (o : Output) : option Coordinator.Signal :=
  match o with
  | Subscribe _ _ c => Some (Coordinator.Start c)
  | Unsubscribe s _ => Some (Coordinator.Cancel s)
  | Emit a => Some (Coordinator.Outcome a)
  | StreamError _ _ | Opened _ | Closed _ | Thrown _ => None
  end.

Definition signals (outs : list Output) : list Coordinator.Signal :=
  omap signal outs.

(** Nothing the coordinator can see happens. *)
Definition quiet : State → list Output → State → Prop :=
  λ st outs st', (∀ s, slot_state s st' = slot_state s st) ∧ signals outs = [].

Section refinement.
Implicit Types (st : State) (s : Slot) (ev : Event) (c : TodoService.Call).

Lemma signals_app outs1 outs2 :
  signals (outs1 ++ outs2) = signals outs1 ++ signals outs2.
Proof. apply omap_app. Qed.

#[local] Instance quiet_compositional : Compositional quiet.
Proof.
  split; [done|]. intros st o1 st1 o2 st2 [H1 H1'] [H2 H2']. split.
  - intros s. by rewrite H2.
  - by rewrite signals_app, H1', H2'.
Qed.

(** The reading of a state depends on the operators only. *)
Lemma abs_frame s st st' :
  slot_state s st' = slot_state s st → abs st' s = abs st s.
Proof. intros H. unfold abs. by rewrite !view_in_flight, !view_waiting, H. Qed.

Lemma abs_quiet st outs st' : quiet st outs st' → abs st' ≡ abs st.
Proof. intros [H _] s. by apply abs_frame. Qed.

Lemma abs_pending s i c st :
  in_flight s st = Some (i, c) →
  abs st s = Coordinator.Pending c (waiting s st).
Proof. intros Hi. unfold abs. by rewrite Hi. Qed.

Lemma quiet_dispatch a :
  call_of_action a = None → spec (λ _, True) quiet (dispatch a).
Proof.
  intros Ha st _. destruct (dispatch_dialog a st Ha) as [Hst Houts].
  split; [done|]. split; [done|]. apply omap_Forall_None.
  eapply Forall_impl; [done|]. by intros [].
Qed.

(** A dispatched request is a submission. *)
Lemma refines_submit a c st :
  call_of_action a = Some c → wf st →
  abs (dispatch a st).1 ≡ (Coordinator.step (Coordinator.Submit c) (abs st)).1 ∧
  signals (dispatch a st).2 = (Coordinator.step (Coordinator.Submit c) (abs st)).2.
Proof.
  intros Ha Hwf. destruct (dispatch_request a c st Ha) as (Hout & Hin & Hw).
  pose proof (idle_no_waiting (slot_of_call c) st Hwf) as Hidle.
  simpl Coordinator.step. split.
  - intros s. destruct (decide (slot_of_call c = s)) as [<-|Hs].
    + rewrite on_slot_same. unfold abs. rewrite Hin, Hw.
      destruct (in_flight (slot_of_call c) st) as [[i c0]|]; simpl;
        [|by rewrite Hidle].
      destruct c; simpl in *; by rewrite ?app_nil_r.
    + rewrite on_slot_other by done. apply abs_frame.
      apply (slot_state_independent s (Dispatch a)). simpl. by rewrite Ha.
  - rewrite on_slot_outputs, Hout. unfold abs.
    destruct (in_flight (slot_of_call c) st) as [[i c0]|]; [|done].
    by destruct c.
Qed.

(** The pending request of a slot ends. *)
Lemma refines_finish s i c st :
  in_flight s st = Some (i, c) →
  abs (slot_inner s i Rx.Complete st).1 ≡ (Coordinator.on_slot s Coordinator.finish (abs st)).1 ∧
  signals (slot_inner s i Rx.Complete st).2 = (Coordinator.finish (abs st s)).2.
Proof.
  intros Hi. destruct (slot_complete s i c st Hi) as (Hout & Hin & Hw).
  split.
  - intros s'. destruct (decide (s = s')) as [<-|Hs].
    + rewrite on_slot_same. unfold abs. rewrite Hin, Hw, Hi.
      by destruct (waiting s st).
    + rewrite on_slot_other by done. apply abs_frame.
      unfold slot_inner. by apply slot_lift_other.
  - rewrite Hout. unfold abs. rewrite Hi. by destruct (waiting s st).
Qed.

(** A notification addressed to the subscription in flight. *)
Lemma refines_reply s i c n st :
  in_flight s st = Some (i, c) →
  abs (step (Reply s i n) st).1 ≡ (Coordinator.step (label st (Reply s i n)) (abs st)).1 ∧
  signals (step (Reply s i n) st).2 = (Coordinator.step (label st (Reply s i n)) (abs st)).2.
Proof.
  intros Hi. simpl label. rewrite Hi, decide_True by done.
  destruct (refines_finish s i c st Hi) as [Hst Hout].
  destruct n as [v|e|]; simpl step.
  - pose proof (in_flight_slot s st i c Hi) as <-.
    change (notify (slot_of_call c) i (Rx.Next v) st)
      with (step (Reply (slot_of_call c) i (Rx.Next v)) st).
    rewrite reply_value, seq_eq by done. simpl.
    destruct (quiet_dispatch (success c v)
      (outcome_no_call _ (success_is_outcome c v)) st I) as [_ Hq].
    split; [by eapply abs_quiet|]. destruct Hq as [_ ->].
    unfold Coordinator.deliver.
    by rewrite (abs_pending _ i c), success_at_call.
  - change (notify s i (Rx.Error e) st) with (step (Reply s i (Rx.Error e)) st).
    rewrite (reply_error s i c), seq_eq by done. simpl.
    rewrite Hst, Hout. simpl. unfold Coordinator.fail.
    by rewrite (abs_pending s i c).
  - change (notify s i Rx.Complete st) with (step (Reply s i Rx.Complete) st).
    by rewrite (reply_complete s i c).
Qed.

(** Every step of the class is the step of the coordinator its event is
    read as. *)
Lemma step_refines ev st :
  wf st →
  abs (step ev st).1 ≡ (Coordinator.step (label st ev) (abs st)).1 ∧
  signals (step ev st).2 = (Coordinator.step (label st ev) (abs st)).2.
Proof.
  intros Hwf. destruct ev as [a|s i n].
  - simpl label. destruct (call_of_action a) as [c|] eqn:Ha;
      [by apply refines_submit|].
    destruct (quiet_dispatch a Ha st I) as [_ Hq].
    split; [by eapply abs_quiet|by destruct Hq].
  - destruct (in_flight s st) as [[j c]|] eqn:Hj;
      [destruct (decide (i = j)) as [->|Hij]; [by eapply refines_reply|]|];
      simpl label; rewrite Hj, ?decide_False by done;
      by rewrite reply_stale by congruence.
Qed.

Lemma abs_init : abs init ≡ Coordinator.init.
Proof. by intros []. Qed.

Lemma run_refines evs st :
  wf st →
  abs (run evs st).1 ≡ (Coordinator.run (labels st evs) (abs st)).1 ∧
  signals (run evs st).2 = (Coordinator.run (labels st evs) (abs st)).2.
Proof.
  revert st. induction evs as [|ev evs IH]; intros st Hwf; [done|].
  rewrite run_cons. simpl labels. unfold Coordinator.run.
  rewrite for_each_cons, seq_eq. fold (Coordinator.run (labels (step ev st).1 evs)).
  destruct (step_refines ev st Hwf) as [H1 H2].
  destruct (IH _ (step_preserves_wf ev st Hwf)) as [H3 H4].
  destruct (coordinator_run_proper (labels (step ev st).1 evs) _ _ H1)
    as [H5 H6]. simpl in H5, H6 |- *.
  split; [by rewrite H3|]. by rewrite signals_app, H2, H4, H6.
Qed.

Lemma run_refines_init evs :
  abs (run evs init).1 ≡ (Coordinator.run (labels init evs) Coordinator.init).1 ∧
  signals (run evs init).2
  = (Coordinator.run (labels init evs) Coordinator.init).2.
Proof.
  destruct (run_refines evs init wf_init) as [H1 H2].
  destruct (coordinator_run_proper (labels init evs) _ _ abs_init) as [H3 H4].
  simpl in H3, H4. split; [by rewrite H1|by rewrite H2].
Qed.

(** C3. The class implements the request coordinator of the
    specification: in every run from the initial state, the slots of the
    class (what is in flight and what waits in each request effect) are
    the slots of the coordinator after the submissions, deliveries,
    failures and completions the events of the run are read as, and the
    service calls started and cancelled and the outcome actions emitted
    are exactly those of the coordinator, in the same order. *)
Theorem class_refines_coordinator evs :
  abs (run evs init).1 ≡ (Coordinator.run (labels init evs) Coordinator.init).1 ∧
  signals (run evs init).2
  = (Coordinator.run (labels init evs) Coordinator.init).2.
Proof. apply run_refines_init. Qed.
End refinement.
