(* ===== verification/Progress.v ===== *)
(** * Progress: a request in flight blocks its slot until it is answered,
    and an answered slot drains its queue

    A [concatMap] effect has one inner subscription at a time: while the
    observable of a call has neither completed nor failed, the calls that
    wait behind it are not made, whatever else happens.  Conversely every
    completion starts the next call that waits, so a slot whose calls are
    all answered makes every call it was asked for. *)

From S2P Require Import Prelude Rxjs Actions Dialog Effects Samples Slots.
From S2P Require Import Reactions Machine Order Latest.

Import (hints) Rx TodoActions TodoService TodoEffects.
Import TodoEffects.

(** The event ends the subscription [i] of slot [s]: its observable
    completes or fails, or, for [loadAll$], another [loadAll] is
    dispatched. *)
Definition ends (s : Slot) (i : nat) (ev : Event) : Prop :=
  match ev with
  | Reply s' j (Rx.Error _) | Reply s' j Rx.Complete => s' = s ∧ j = i
  | Reply _ _ (Rx.Next _) => False
  | Dispatch a =>
      match call_of_action a with
      | Some c => slot_of_call c = s ∧ s = LoadAll
      | None => False
      end
  end.

(** The service completes the call in flight of slot [s], subscription
    [i], and then the [n - 1] calls started after it, which are the
    subscriptions [next], [next + 1], ... *)
Fixpoint completes (s : Slot) (i next n : nat) : list Event :=
  match n with
  | 0 => []
  | S n => Reply s i Rx.Complete :: completes s next (S next) n
  end.

(** The notifications by which the observable of call [c], subscribed to
    as [i], delivers the one result [r] of the call, as the observable of
    an HTTP request does: a value and completion, or an error. *)
Definition replies (c : TodoService.Call) (i : nat)
    (r : Failure + Result (slot_of_call c)) : list Event :=
  match r with
  | inl e => [Reply (slot_of_call c) i (Rx.Error e)]
  | inr v =>
      [Reply (slot_of_call c) i (Rx.Next v);
       Reply (slot_of_call c) i Rx.Complete]
  end.

Section progress.
Implicit Types (s : Slot) (st : State) (evs : list Event) (i : nat).

Lemma step_pending s i c ev st :
  in_flight s st = Some (i, c) → ¬ ends s i ev →
  in_flight s (step ev st).1 = Some (i, c) ∧ calls s (step ev st).2 = [].
Proof.
  intros Hi Hev. destruct (decide (concerns s ev)) as [Hs|Hs].
  - destruct ev as [a|s' j n]; simpl in Hs, Hev.
    + destruct (call_of_action a) as [c'|] eqn:Ha; [subst s|done].
      destruct (dispatch_request a c' st Ha) as (Hout & Hin & _).
      simpl step. rewrite Hin, Hout, Hi.
      by rewrite !decide_False by tauto.
    + subst s'. destruct (decide (j = i)) as [->|Hj].
      * destruct n as [v| |]; [|tauto..].
        pose proof (in_flight_slot s st i c Hi) as <-.
        rewrite reply_value, seq_eq by done. cbn [fst snd emit].
        destruct (untouched_quiet (slot_of_call c) (success c v)
          (outcome_no_call _ (success_is_outcome _ v)) st I) as [_ [Hst Hc]].
        by rewrite view_in_flight, Hst, <-view_in_flight, calls_app, Hc.
      * rewrite reply_stale; [done|]. rewrite Hi. congruence.
  - destruct (step_untouched s ev st Hs) as [Hst Hc].
    by rewrite view_in_flight, Hst, <-view_in_flight.
Qed.

(** C12. A request in flight stays in flight until it is answered: as long
    as its observable neither completes nor fails (and, for [loadAll$], no
    other [loadAll] is dispatched), it remains the request in flight of its
    slot and the slot makes no other service call, whatever is dispatched
    and whatever else the service delivers.  A [concatMap] effect has no
    timeout: a call that is never answered blocks its slot for ever. *)
Theorem pending_until_answered s i c evs st :
  in_flight s st = Some (i, c) → Forall (λ ev, ¬ ends s i ev) evs →
  in_flight s (run evs st).1 = Some (i, c) ∧ calls s (run evs st).2 = [].
Proof.
  intros Hi Hevs. revert st Hi.
  induction Hevs as [|ev evs Hev _ IH]; intros st Hi; [done|].
  rewrite run_cons. cbn [fst snd].
  destruct (step_pending s i c ev st Hi Hev) as [Hi' Hc].
  destruct (IH _ Hi') as [-> Hc']. by rewrite calls_app, Hc, Hc'.
Qed.

Lemma pending_until_answered_witness :
  in_flight Create
    (run [Dispatch (TodoActions.create eggs_draft);
          Reply Create 0 (Rx.Next milk); Reply LoadAll 0 Rx.Complete;
          Dispatch TodoActions.showCreateDialog] creating).1
  = Some (0, TodoService.create milk_draft) ∧
  calls Create
    (run [Dispatch (TodoActions.create eggs_draft);
          Reply Create 0 (Rx.Next milk); Reply LoadAll 0 Rx.Complete;
          Dispatch TodoActions.showCreateDialog] creating).2 = [].
Proof.
  apply (pending_until_answered Create 0 (TodoService.create milk_draft));
    [reflexivity|].
  repeat constructor; simpl; intros H; by destruct H.
Defined.

Lemma step_complete s i c st :
  in_flight s st = Some (i, c) →
  calls s (step (Reply s i Rx.Complete) st).2 = take 1 (waiting s st) ∧
  waiting s (step (Reply s i Rx.Complete) st).1 = tail (waiting s st) ∧
  in_flight s (step (Reply s i Rx.Complete) st).1
  = (λ c', (subscriptions s st, c')) <$> head (waiting s st) ∧
  subscriptions s (step (Reply s i Rx.Complete) st).1
  = subscriptions s st + length (take 1 (waiting s st)) ∧
  emits (step (Reply s i Rx.Complete) st).2 = [].
Proof.
  intros Hi. destruct (step_numbered s (Reply s i Rx.Complete) st) as [_ Hn].
  rewrite Hn. rewrite (reply_complete s i c) by done.
  destruct (slot_complete s i c st Hi) as (-> & -> & ->).
  destruct (waiting s st); simpl; by rewrite ?decide_True.
Qed.

(** ** The service answers the call in flight *)

(** A value delivered to the call in flight leaves every slot as it is. *)
Lemma step_value c i v st :
  in_flight (slot_of_call c) st = Some (i, c) →
  emits (step (Reply (slot_of_call c) i (Rx.Next v)) st).2 = [success c v] ∧
  ∀ s, slot_state s (step (Reply (slot_of_call c) i (Rx.Next v)) st).1
       = slot_state s st.
Proof.
  intros Hi. rewrite reply_value, seq_eq by done. cbn [fst snd emit].
  rewrite emits_app, dispatch_no_emit. split; [done|]. intros s.
  by apply untouched_quiet; [apply outcome_no_call, success_is_outcome|].
Qed.

(** An error delivered to the call in flight ends it: the failure is
    emitted and the slot takes the first call that waits. *)
Lemma step_error s i c e st :
  in_flight s st = Some (i, c) →
  emits (step (Reply s i (Rx.Error e)) st).2 = [failure s e] ∧
  waiting s (step (Reply s i (Rx.Error e)) st).1 = tail (waiting s st) ∧
  in_flight s (step (Reply s i (Rx.Error e)) st).1
  = (λ c', (subscriptions s st, c')) <$> head (waiting s st).
Proof.
  intros Hi. rewrite (reply_error s i c), seq_eq by done. cbn [fst snd emit].
  destruct (slot_complete s i c st Hi) as (-> & -> & ->).
  by destruct (waiting s st).
Qed.

(** The service answers the call in flight as an HTTP call does: one
    action is emitted, the call ends, the other slots are left alone. *)
Lemma answer c i r st :
  in_flight (slot_of_call c) st = Some (i, c) →
  emits (run (replies c i r) st).2
  = [match r with inl e => failure (slot_of_call c) e | inr v => success c v end] ∧
  waiting (slot_of_call c) (run (replies c i r) st).1
  = tail (waiting (slot_of_call c) st) ∧
  in_flight (slot_of_call c) (run (replies c i r) st).1
  = (λ c', (subscriptions (slot_of_call c) st, c'))
      <$> head (waiting (slot_of_call c) st) ∧
  ∀ s, s ≠ slot_of_call c →
       slot_state s (run (replies c i r) st).1 = slot_state s st.
Proof.
  intros Hi. destruct r as [e|v]; simpl replies;
    rewrite !run_cons, run_nil; cbn [fst snd]; rewrite !app_nil_r.
  - destruct (step_error _ i c e st Hi) as (-> & -> & ->).
    split_and!; [done..|]. intros s Hs.
    apply (slot_state_independent s (Reply _ i (Rx.Error e))). by simpl.
  - destruct (step_value c i v st Hi) as [He Hst]. revert He Hst.
    generalize (step (Reply (slot_of_call c) i (Rx.Next v)) st).
    intros [st1 outs1] He Hst. cbn [fst snd] in *.
    assert (in_flight (slot_of_call c) st1 = Some (i, c)) as Hi1
      by by rewrite view_in_flight, Hst, <-view_in_flight.
    destruct (step_complete _ i c st1 Hi1) as (_ & -> & -> & _ & He').
    rewrite emits_app, He, He'.
    rewrite view_waiting, view_subscriptions, Hst, <-view_waiting,
      <-view_subscriptions.
    split_and!; [done..|]. intros s Hs.
    rewrite (slot_state_independent s (Reply _ i Rx.Complete)) by by simpl.
    apply Hst.
Qed.

Lemma drain s n st i c :
  length (waiting s st) = n → in_flight s st = Some (i, c) →
  calls s (run (completes s i (subscriptions s st) (S n)) st).2 = waiting s st ∧
  in_flight s (run (completes s i (subscriptions s st) (S n)) st).1 = None ∧
  waiting s (run (completes s i (subscriptions s st) (S n)) st).1 = [].
Proof.
  revert st i c. induction n as [|n IH]; intros st i c Hn Hi;
    pose proof (step_complete s i c st Hi) as Hstep;
    change (completes s i ?k (S ?m))
      with (Reply s i Rx.Complete :: completes s k (S k) m);
    rewrite run_cons; cbn [fst snd];
    revert Hstep; generalize (step (Reply s i Rx.Complete) st);
    intros r (Hc & Hw & Hi' & Hs & _);
    destruct (waiting s st) as [|c' w]; try done;
    simpl in Hn, Hc, Hw, Hi', Hs.
  - by rewrite run_nil, app_nil_r.
  - injection Hn as Hn. rewrite <-Hw in Hn.
    destruct (IH _ _ c' Hn Hi') as (H1 & H2 & H3).
    rewrite Hs, Nat.add_1_r in H1, H2, H3.
    by rewrite calls_app, Hc, H1, H2, H3, Hw.
Qed.

(** An answered slot drains its queue: when the service completes
    the call in flight and then each call the slot starts, every call that
    waited is made, in the order it waited, and the slot ends idle with
    nothing waiting.  No request of a [concatMap] effect starves. *)
Theorem queue_drains s i c st :
  in_flight s st = Some (i, c) →
  calls s (run (completes s i (subscriptions s st) (S (length (waiting s st)))) st).2
  = waiting s st ∧
  in_flight s
    (run (completes s i (subscriptions s st) (S (length (waiting s st)))) st).1
  = None ∧
  waiting s
    (run (completes s i (subscriptions s st) (S (length (waiting s st)))) st).1
  = [].
Proof. by apply drain. Qed.

Lemma queue_drains_witness :
  calls Create
    (run (completes Create 0 (subscriptions Create creating_twice)
            (S (length (waiting Create creating_twice)))) creating_twice).2
  = waiting Create creating_twice ∧
  in_flight Create
    (run (completes Create 0 (subscriptions Create creating_twice)
            (S (length (waiting Create creating_twice)))) creating_twice).1
  = None ∧
  waiting Create
    (run (completes Create 0 (subscriptions Create creating_twice)
            (S (length (waiting Create creating_twice)))) creating_twice).1
  = [].
Proof.
  apply (queue_drains Create 0 (TodoService.create milk_draft) creating_twice).
  reflexivity.
Defined.
End progress.
