(* ===== verification/Backend.v ===== *)
(** * The service the class is given

    The constructor of the class takes the service it calls; the class
    depends on what a service is, not on which one it gets.  A [Backend] is
    that: a state, a reaction to each of the five calls that ends in one
    result, a failure or what the method of the call delivers, and an
    invariant the reactions keep.  [System] runs the class against any
    backend; [Service] and [Transport] are backends. *)

From S2P Require Import Prelude Actions.

Class Backend (B : Type) : Type := {
  backend_init : B;
  backend_exec (c : TodoService.Call)
    : B → B * (Failure + Result (slot_of_call c));
  backend_wf : B → Prop;
  backend_wf_init : backend_wf backend_init;
  backend_wf_exec c b : backend_wf b → backend_wf (backend_exec c b).1 }.

(** The calls of a list, made one after the other. *)
Definition exec_all `{Backend B} (cs : list TodoService.Call) (b : B) : B :=
  foldl (λ b c, (backend_exec c b).1) b cs.

Section backend_lemmas.
Context {B : Type} `{!Backend B}.
Implicit Types (b : B) (c : TodoService.Call) (cs : list TodoService.Call).

Lemma exec_all_snoc cs c b :
  exec_all (cs ++ [c]) b = (backend_exec c (exec_all cs b)).1.
Proof. unfold exec_all. by rewrite foldl_snoc. Qed.

Lemma exec_all_app cs1 cs2 b :
  exec_all (cs1 ++ cs2) b = exec_all cs2 (exec_all cs1 b).
Proof. apply foldl_app. Qed.

Lemma exec_all_wf cs b : backend_wf b → backend_wf (exec_all cs b).
Proof.
  intros Hb. induction cs as [|c cs IH] using rev_ind; [done|].
  rewrite exec_all_snoc. by apply backend_wf_exec.
Qed.
End backend_lemmas.
