(* ===== verification/Service.v ===== *)
(** * The Todo service and its repository

    The class calls a [TodoService] it does not define.  The specification
    says what that service is: a repository of todos with create, find,
    findAll, update and remove, and a service in front of it that
    normalises titles and passes the repository's typed failures on.  This
    file holds both, written from the specification: the repository as a
    list of todos in creation order with a counter for identifiers, the
    service as one function from a call to a reaction on the repository.

    The service is a [Backend]; [System] runs the class against it. *)

From stdpp Require Import sorting pretty.
From S2P Require Import Prelude Actions Backend.

Module TodoRepository.

Record store : Type := Store {
  todos : list Todo;
  nextId : nat }.

Definition init : store := Store [] 1.

(** The identifier the repository assigns to its [n]-th todo. *)
Definition fresh_id (n : nat) : TodoId := "t" +:+ pretty n.

Definition not_found : Failure := mkFailure NotFound "no such todo".
Definition invalid : Failure := mkFailure ValidationError "invalid input".

(** The fields an update may change. *)
Record Fields : Type := mkFields {
  newTitle : option string;
  newCompleted : option bool }.

Definition ids (st : store) : list TodoId := todoId <$> todos st.

Definition lookup (id : TodoId) (st : store) : option Todo :=
  head (filter (λ t, todoId t = id) (todos st)).

Definition create (title : string) (st : store) : store * (Failure + Todo) :=
  if decide (title = "") then (st, inl invalid)
  else
    let todo := mkTodo (fresh_id (nextId st)) title false (nextId st) in
    (Store (todos st ++ [todo]) (S (nextId st)), inr todo).

Definition find (id : TodoId) (st : store) : store * (Failure + Todo) :=
  (st, match lookup id st with Some t => inr t | None => inl not_found end).

Definition findAll (offset limit : nat) (st : store)
  : store * (Failure + list Todo) :=
  if decide (limit = 0) then (st, inl invalid)
  else (st, inr (take limit (drop offset (todos st)))).

(** Field-level merge: a field the update does not name keeps its value. *)
Definition merge (f : Fields) (t : Todo) : Todo :=
  mkTodo (todoId t) (default (title t) (newTitle f))
    (default (completed t) (newCompleted f)) (createdAt t).

Definition update (id : TodoId) (f : Fields) (st : store)
  : store * (Failure + Todo) :=
  match lookup id st with
  | None => (st, inl not_found)
  | Some t =>
      if decide (title (merge f t) = "") then (st, inl invalid)
      else
        (Store ((λ x, if decide (todoId x = id) then merge f x else x)
                  <$> todos st) (nextId st),
         inr (merge f t))
  end.

Definition remove (id : TodoId) (st : store) : store * (Failure + unit) :=
  match lookup id st with
  | None => (st, inl not_found)
  | Some _ =>
      (Store (filter (λ t, todoId t ≠ id) (todos st)) (nextId st), inr tt)
  end.

(** The todos were made by the repository: each has the identifier and the
    creation time of its number, a title, and they are in creation order. *)
Definition made (n : nat) (t : Todo) : Prop :=
  ∃ k, k < n ∧ todoId t = fresh_id k ∧ createdAt t = k ∧ title t ≠ "".

Definition wf (st : store) : Prop :=
  Forall (made (nextId st)) (todos st) ∧
  StronglySorted (λ t1 t2, createdAt t1 < createdAt t2) (todos st).

(** The identifier was given out and its todo is gone: nothing will ever
    have it again. *)
Definition gone (id : TodoId) (st : store) : Prop :=
  (id ∉ ids st) ∧ ∃ k, k < nextId st ∧ id = fresh_id k.

End TodoRepository.

(** The service in front of the repository. *)
Module Service.

Import TodoService (Call).

Fixpoint trim_left (s : string) : string :=
  match s with
  | String a s' => if Ascii.is_space a then trim_left s' else s
  | EmptyString => EmptyString
  end.

(** The title without the white space around it. *)
Definition trim (s : string) : string :=
  String.rev (trim_left (String.rev (trim_left s))).

(** The reaction of the service to a call: the repository afterwards and
    the one terminal result of the call. *)
Definition exec (c : Call)
  : TodoRepository.store →
    TodoRepository.store * (Failure + Result (slot_of_call c)) :=
  match c with
  | TodoService.findAll offset limit => TodoRepository.findAll offset limit
  | TodoService.find id => TodoRepository.find id
  | TodoService.create todo => TodoRepository.create (trim (title todo))
  | TodoService.update todo =>
      TodoRepository.update (todoId todo)
        (TodoRepository.mkFields (Some (trim (title todo)))
           (Some (completed todo)))
  | TodoService.remove id => TodoRepository.remove id
  end.

End Service.

(** The identifier was given out by the repository: a todo has it, or had
    it. *)
Definition given (id : TodoId) (st : TodoRepository.store) : Prop :=
  ∃ k, k < TodoRepository.nextId st ∧ id = TodoRepository.fresh_id k.

(** The todo [t] after the update [x]: the title and the completion of
    [x], the identifier and the creation time of [t]. *)
Definition updated (x t : Todo) : Todo :=
  mkTodo (todoId t) (Service.trim (title x)) (completed x) (createdAt t).

(** What a call writes to the todo [id], [o] being the todo before or
    [None] when there is none: an update of the todo that names a title
    replaces its title and its completion, a remove of the todo deletes it,
    every other call leaves it as it is. *)
Definition written (id : TodoId) (o : option Todo) (c : TodoService.Call)
  : option Todo :=
  match c with
  | TodoService.update x =>
      if decide (todoId x = id ∧ Service.trim (title x) ≠ "") then
        updated x <$> o
      else o
  | TodoService.remove id' => if decide (id' = id) then None else o
  | _ => o
  end.

Section repository_lemmas.
Import TodoRepository.
Implicit Types (st : store) (id : TodoId) (t : Todo).

Lemma fresh_id_inj : Inj (=) (=) fresh_id.
Proof. intros n m H. unfold fresh_id in H. by simplify_eq. Qed.

Lemma lookup_Some id st t :
  lookup id st = Some t → t ∈ todos st ∧ todoId t = id.
Proof.
  unfold lookup. intros Ht%head_Some_elem_of. by apply list_elem_of_filter in Ht as [??].
Qed.

Lemma lookup_None id st : lookup id st = None ↔ id ∉ ids st.
Proof.
  unfold lookup, ids. rewrite head_None, list_elem_of_fmap. split.
  - intros Hf (t & -> & Ht).
    assert (t ∈ filter (λ t', todoId t' = todoId t) (todos st)) as Hin
      by by apply list_elem_of_filter.
    rewrite Hf in Hin. by apply not_elem_of_nil in Hin.
  - intros Hid. destruct (filter _ _) as [|t l] eqn:Hf; [done|].
    assert (t ∈ filter (λ t', todoId t' = id) (todos st)) as [? ?]%list_elem_of_filter
      by (rewrite Hf; left).
    destruct Hid. by exists t.
Qed.

Lemma made_mono n m t : n ≤ m → made n t → made m t.
Proof. intros Hnm (k & ? & ?). exists k. split; [lia|done]. Qed.

Lemma repository_wf_init : wf init.
Proof. split; constructor. Qed.

Lemma create_wf title st : wf st → wf (create title st).1.
Proof.
  intros [Hmade Hsorted]. unfold create. case_decide; [done|]. split; simpl.
  - apply Forall_app. split.
    + eapply Forall_impl; [done|]. intros t. apply made_mono. lia.
    + repeat constructor. exists (nextId st). simpl. split_and!; [lia|done..].
  - apply StronglySorted_app_2; [|done|by repeat constructor].
    intros t1 t2 Ht1 ->%list_elem_of_singleton. simpl.
    rewrite Forall_forall in Hmade.
    destruct (Hmade t1 Ht1) as (k & ? & _ & -> & _). lia.
Qed.

Lemma StronglySorted_fmap_key {A} (key : A → nat) (f : A → A) l :
  (∀ x, key (f x) = key x) →
  StronglySorted (λ x y, key x < key y) l →
  StronglySorted (λ x y, key x < key y) (f <$> l).
Proof.
  intros Hf. induction 1 as [|x l _ IH Hx]; csimpl; constructor; [done|].
  apply Forall_fmap. eapply Forall_impl; [done|]. intros y. simpl.
  by rewrite !Hf.
Qed.

Lemma StronglySorted_filter {A} (R : relation A) (P : A → Prop)
    `{!∀ x, Decision (P x)} l :
  StronglySorted R l → StronglySorted R (filter P l).
Proof.
  induction 1 as [|x l _ IH Hx]; [constructor|].
  rewrite filter_cons. case_decide; [|done].
  constructor; [done|]. by apply Forall_filter.
Qed.

Lemma merge_title f t :
  title (merge f t) = default (title t) (newTitle f).
Proof. done. Qed.

Lemma update_wf id f st : wf st → wf (update id f st).1.
Proof.
  intros [Hmade Hsorted]. unfold update.
  destruct (lookup id st) as [t|] eqn:Ht; [|done].
  case_decide as Htitle; [done|]. split; simpl.
  - apply Forall_fmap. eapply Forall_impl; [done|].
    intros x (k & ? & ? & ? & Hx). simpl. case_decide; [|by exists k].
    exists k. split_and!; [done..|].
    rewrite merge_title in Htitle |- *. by destruct (newTitle f).
  - apply (StronglySorted_fmap_key createdAt); [|done].
    intros x. by case_decide.
Qed.

Lemma remove_wf id st : wf st → wf (remove id st).1.
Proof.
  intros [Hmade Hsorted]. unfold remove.
  destruct (lookup id st); [|done]. split; simpl.
  - by apply Forall_filter.
  - by apply StronglySorted_filter.
Qed.

(** The identifiers of a well-formed repository are distinct. *)
Lemma wf_NoDup st : wf st → NoDup (ids st).
Proof.
  intros [Hmade Hsorted]. unfold ids.
  induction Hsorted as [|t l _ IH Ht]; csimpl; constructor.
  - intros (t' & Hid & Ht')%list_elem_of_fmap.
    rewrite Forall_forall in Ht. pose proof (Ht _ Ht') as Hlt.
    apply Forall_cons in Hmade as [(k & _ & Hk & Hc & _) Hmade].
    rewrite Forall_forall in Hmade.
    destruct (Hmade t' Ht') as (k' & _ & Hk' & Hc' & _).
    assert (k = k') by (apply fresh_id_inj; congruence). lia.
  - apply IH. by apply Forall_cons in Hmade as [_ ?].
Qed.

(** ** What each operation promises *)

(** [create] gives the todo a new identifier and leaves it open. *)
Lemma create_fresh s st t st' :
  wf st → create s st = (st', inr t) →
  (todoId t ∉ ids st) ∧ todoId t = fresh_id (nextId st) ∧
  completed t = false ∧ title t = s ∧ s ≠ "" ∧
  todos st' = todos st ++ [t].
Proof.
  intros [Hmade _]. unfold create. case_decide; intros; simplify_eq/=.
  split_and!; try done. unfold ids. intros (t & Hid & Ht)%list_elem_of_fmap.
  rewrite Forall_forall in Hmade. destruct (Hmade t Ht) as (k & ? & Hk & _).
  simpl in Hid. rewrite Hk in Hid. apply fresh_id_inj in Hid. lia.
Qed.

(** An identifier the repository does not hold is not found. *)
Lemma find_not_found id st :
  id ∉ ids st → find id st = (st, inl not_found).
Proof. intros Hid%lookup_None. unfold find. by rewrite Hid. Qed.

Lemma update_not_found id f st :
  id ∉ ids st → update id f st = (st, inl not_found).
Proof. intros Hid%lookup_None. unfold update. by rewrite Hid. Qed.

Lemma remove_not_found id st :
  id ∉ ids st → remove id st = (st, inl not_found).
Proof. intros Hid%lookup_None. unfold remove. by rewrite Hid. Qed.

(** [findAll] reads: the repository is as before, the page has at most
    [limit] todos, in the order of creation. *)
Lemma findAll_reads offset limit st : (findAll offset limit st).1 = st.
Proof. unfold findAll. by case_decide. Qed.

Lemma findAll_page offset limit st l :
  wf st → (findAll offset limit st).2 = inr l →
  length l ≤ limit ∧ StronglySorted (λ t1 t2, createdAt t1 < createdAt t2) l ∧
  l = take limit (drop offset (todos st)).
Proof.
  intros [_ Hsorted]. unfold findAll. case_decide; intros; simplify_eq/=.
  split_and!; [rewrite length_take; lia| |done].
  rewrite <-(take_drop offset (todos st)) in Hsorted.
  apply StronglySorted_app_1_r in Hsorted.
  rewrite <-(take_drop limit (drop offset (todos st))) in Hsorted.
  by apply StronglySorted_app_1_l in Hsorted.
Qed.

Lemma remove_found id st : id ∈ ids st → ∃ st', remove id st = (st', inr tt).
Proof.
  intros Hid. unfold remove. destruct (lookup id st) eqn:Hl; [eauto|].
  by apply lookup_None in Hl.
Qed.

(** After [remove], the todo is gone. *)
Lemma remove_gone id st st' :
  wf st → remove id st = (st', inr tt) → gone id st'.
Proof.
  intros [Hmade _]. unfold remove.
  destruct (lookup id st) as [t|] eqn:Ht; intros; simplify_eq/=.
  apply lookup_Some in Ht as [Ht <-]. split.
  - unfold ids. simpl. intros (t' & Hid & [Hne _]%list_elem_of_filter)%list_elem_of_fmap.
    by destruct Hne.
  - rewrite Forall_forall in Hmade. destruct (Hmade t Ht) as (k & ? & ? & _).
    by exists k.
Qed.

Lemma ids_create title st id :
  id ∈ ids (create title st).1 → id ∈ ids st ∨ id = fresh_id (nextId st).
Proof.
  unfold create, ids. case_decide; simpl; [auto|].
  rewrite fmap_app, elem_of_app. simpl. rewrite list_elem_of_singleton. tauto.
Qed.

Lemma ids_update id' f st : ids (update id' f st).1 = ids st.
Proof.
  unfold update, ids. destruct (lookup id' st); [|done]. case_decide; [done|].
  simpl. rewrite <-list_fmap_compose. apply list_fmap_ext. intros i x _. simpl.
  by case_decide.
Qed.

Lemma ids_remove id' st id : id ∈ ids (remove id' st).1 → id ∈ ids st.
Proof.
  unfold remove, ids. destruct (lookup id' st); [|done]. simpl.
  rewrite !list_elem_of_fmap. intros (x & -> & [_ ?]%list_elem_of_filter). eauto.
Qed.

(** ** Reading back what was written *)

(** Looking up in a repository extended at its end: the todos that were
    there are found first. *)
Lemma lookup_app id st l n :
  lookup id (Store (todos st ++ l) n)
  = match lookup id st with
    | Some t => Some t
    | None => head (filter (λ t, todoId t = id) l)
    end.
Proof.
  unfold lookup. simpl. rewrite filter_app.
  by destruct (filter _ (todos st)).
Qed.

(** A created todo is found under its identifier. *)
Lemma lookup_create s st st' t :
  wf st → create s st = (st', inr t) → lookup (todoId t) st' = Some t.
Proof.
  intros Hwf Hc. destruct (create_fresh s st t st' Hwf Hc) as (Hid & _).
  unfold create in Hc. case_decide; simplify_eq/=.
  apply lookup_None in Hid. rewrite lookup_app. simpl in Hid. rewrite Hid.
  by rewrite filter_cons, decide_True.
Qed.

(** A todo that is found is still found after another is created. *)
Lemma lookup_create_keeps s st id t :
  lookup id st = Some t → lookup id (create s st).1 = Some t.
Proof.
  intros Ht. unfold create. case_decide; [done|]. simpl.
  by rewrite lookup_app, Ht.
Qed.

(** An updated todo is found as updated. *)
Lemma head_filter_fmap (g : Todo → Todo) id (l : list Todo) :
  (∀ x, todoId (g x) = todoId x) →
  head (filter (λ t, todoId t = id) (g <$> l))
  = g <$> head (filter (λ t, todoId t = id) l).
Proof.
  intros Hg. induction l as [|x l IH]; [done|].
  rewrite fmap_cons, !filter_cons, Hg. by case_decide.
Qed.

Lemma lookup_update id f st t :
  lookup id st = Some t → title (merge f t) ≠ "" →
  lookup id (update id f st).1 = Some (merge f t).
Proof.
  intros Ht Htitle. unfold update. rewrite Ht, decide_False by done.
  apply lookup_Some in Ht as Hid. unfold lookup in *. simpl.
  rewrite head_filter_fmap, Ht by (intros x; by case_decide).
  simpl. by rewrite decide_True by apply Hid.
Qed.

(** A write to another todo leaves this one as it is. *)
Lemma lookup_update_ne id' id f st :
  id' ≠ id → lookup id (update id' f st).1 = lookup id st.
Proof.
  intros Hne. unfold update. destruct (lookup id' st); [|done].
  case_decide; [done|]. unfold lookup. simpl. f_equal.
  induction (todos st) as [|x l IH]; [done|].
  rewrite fmap_cons, !filter_cons, IH.
  destruct (decide (todoId x = id')) as [Hx|Hx]; [|done].
  simpl. by rewrite !decide_False by congruence.
Qed.

Lemma lookup_remove_ne id' id st :
  id' ≠ id → lookup id (remove id' st).1 = lookup id st.
Proof.
  intros Hne. unfold remove. destruct (lookup id' st); [|done].
  unfold lookup. simpl. f_equal.
  induction (todos st) as [|x l IH]; [done|].
  rewrite !filter_cons. destruct (decide (todoId x ≠ id')) as [Hx|Hx%dec_stable].
  - by rewrite filter_cons, IH.
  - by rewrite IH, decide_False by congruence.
Qed.

Lemma lookup_remove id st : wf st → lookup id (remove id st).1 = None.
Proof.
  intros Hwf. destruct (lookup id st) as [t|] eqn:Ht.
  - assert (id ∈ ids st) as [st' Hr]%remove_found.
    { apply lookup_Some in Ht as [Ht <-]. by apply list_elem_of_fmap_2. }
    rewrite Hr. apply lookup_None. by destruct (remove_gone id st st' Hwf Hr).
  - apply lookup_None in Ht as Hid. by rewrite remove_not_found.
Qed.

Lemma nextId_update id f st : nextId (update id f st).1 = nextId st.
Proof. unfold update. destruct (lookup id st); [|done]. by case_decide. Qed.

Lemma nextId_remove id st : nextId (remove id st).1 = nextId st.
Proof. unfold remove. by destruct (lookup id st). Qed.

Lemma nextId_create title st : nextId st ≤ nextId (create title st).1.
Proof. unfold create. case_decide; simpl; lia. Qed.
End repository_lemmas.

Section service_lemmas.
Import TodoRepository Service.
Implicit Types (st : store) (id : TodoId) (c : TodoService.Call).

Lemma exec_wf c st : wf st → wf (exec c st).1.
Proof.
  destruct c; simpl; auto using create_wf, update_wf, remove_wf.
  by rewrite findAll_reads.
Qed.

Lemma nextId_exec c st : nextId st ≤ nextId (exec c st).1.
Proof.
  destruct c; simpl; rewrite ?nextId_update, ?nextId_remove, ?findAll_reads;
    auto using nextId_create.
Qed.

(** The calls of [loadAll$], [load$] and [create$] leave alone the todos
    that are there. *)
Lemma exec_keeps c id t st :
  slot_of_call c ≠ Update → slot_of_call c ≠ Remove →
  lookup id st = Some t → lookup id (exec c st).1 = Some t.
Proof.
  destruct c; simpl; intros; try done.
  - by rewrite findAll_reads.
  - by apply lookup_create_keeps.
Qed.

(** Once a todo is gone it stays gone, whatever is called: identifiers are
    not used twice. *)
Lemma exec_gone c id st : gone id st → gone id (exec c st).1.
Proof.
  intros (Hid & k & Hk & ->). split.
  - destruct c; simpl; rewrite ?findAll_reads, ?ids_update; try done.
    + intros [?|Heq%fresh_id_inj]%ids_create; [done|lia].
    + by intros ?%ids_remove.
  - exists k. split; [|done]. pose proof (nextId_exec c st). lia.
Qed.

(** A call on a todo that is gone fails with [NotFound]. *)
Lemma exec_gone_not_found c id st :
  gone id st →
  c = TodoService.find id ∨ c = TodoService.remove id ∨
    (∃ todo, c = TodoService.update todo ∧ todoId todo = id) →
  ∃ r, exec c st = (st, r) ∧ ∀ e, r = inl e ↔ e = not_found.
Proof.
  intros [Hid _] [->|[->|(todo & -> & <-)]]; simpl;
    rewrite ?find_not_found, ?remove_not_found, ?update_not_found by done;
    eexists; (split; [done|]); intros e; split; congruence.
Qed.

Lemma exec_given c id st : given id st → given id (exec c st).1.
Proof.
  intros (k & Hk & ->). exists k. split; [|done].
  pose proof (nextId_exec c st). lia.
Qed.

(** The repository is a register for each todo: after a call, the todo is
    what the call has written to it. *)
Lemma exec_written c id st :
  wf st → given id st → lookup id (exec c st).1 = written id (lookup id st) c.
Proof.
  intros Hwf Hid. destruct c as [offset limit|id'|todo|todo|id']; simpl.
  - by rewrite findAll_reads.
  - unfold find. by destruct (lookup id' st).
  - destruct (lookup id st) as [t|] eqn:Ht; [by apply lookup_create_keeps|].
    apply lookup_None in Ht. apply lookup_None.
    destruct Hid as (k & Hk & ->).
    intros [?|?%fresh_id_inj]%ids_create; [done|lia].
  - case_decide as Hw;
      [destruct Hw as [<- Hw]|apply not_and_l in Hw as [Hw|Hw%dec_stable]].
    + destruct (lookup (todoId todo) st) as [t|] eqn:Ht;
        [by rewrite (lookup_update _ _ _ t) by done|].
      apply lookup_None in Ht as Hn. rewrite update_not_found by done. exact Ht.
    + by apply lookup_update_ne.
    + unfold update. destruct (lookup (todoId todo) st); [|done].
      simpl. by rewrite Hw.
  - case_decide; [subst; by apply lookup_remove|by apply lookup_remove_ne].
Qed.
End service_lemmas.

(** The service on its repository is a backend of the class. *)
#[export] Instance memory_backend : Backend TodoRepository.store := {
  backend_init := TodoRepository.init;
  backend_exec := Service.exec;
  backend_wf := TodoRepository.wf;
  backend_wf_init := repository_wf_init;
  backend_wf_exec := exec_wf }.

Section register.
Import TodoRepository.
Implicit Types (st : store) (id : TodoId) (cs : list TodoService.Call).

Lemma exec_all_cons c cs st : exec_all (c :: cs) st = exec_all cs (Service.exec c st).1.
Proof. done. Qed.

(** After any calls, a todo is what the calls have written to it, one
    after the other. *)
Lemma exec_all_written cs id st :
  wf st → given id st →
  lookup id (exec_all cs st) = foldl (written id) (lookup id st) cs.
Proof.
  revert st. induction cs as [|c cs IH]; [done|]. intros st Hwf Hid.
  rewrite exec_all_cons, IH by auto using exec_wf, exec_given.
  by rewrite exec_written.
Qed.

(** A todo the repository holds has an identifier it gave out. *)
Lemma lookup_given id st t : wf st → lookup id st = Some t → given id st.
Proof.
  intros [Hmade _] [Ht <-]%lookup_Some. rewrite Forall_forall in Hmade.
  destruct (Hmade t Ht) as (k & ? & ? & _). by exists k.
Qed.
End register.
