(* ===== verification/System.v ===== *)
(** * The class and the service together

    [TodoEffects] against the service of [Service]: the user dispatches
    actions, and the service answers the call in flight of a slot the way
    an HTTP call does, with one value and completion or with one error.
    The service handles a call when it answers it; which slot is answered
    next is arbitrary, so a theorem about [System.run] holds for every
    timing of the answers.

    The theorems are those the specification lists as testable: calls are
    applied in the order of their dispatch and none is lost, a created todo
    is new and open, an unknown or removed todo is not found, a page of
    [loadAll] is bounded and in creation order. *)

From stdpp Require Import sorting.
From S2P Require Import Prelude Rxjs Actions Dialog Effects Samples Slots.
From S2P Require Import Reactions Machine Order Latest Progress Backend Service.

Import (hints) Rx TodoActions TodoService TodoEffects.

Module System.

Import TodoEffects.

Record state (B : Type) : Type := mkSys {
  effects : State;
  store : B;
  executed : list TodoService.Call }.

Arguments mkSys {B} effects store executed.
Arguments effects {B} _.
Arguments store {B} _.
Arguments executed {B} _.

(** What happens to the system: the user dispatches an action, or the
    service answers the call in flight of a slot. *)
Inductive Event : Type :=
| User (a : TodoActions.Action)
| Respond (s : Slot).

Section defs.
Context {B : Type} `{!Backend B}.

Definition init : state B := mkSys TodoEffects.init backend_init [].

Definition step (ev : Event) : Handler (state B) Output := λ sys,
  match ev with
  | User a =>
      let '(st, outs) := TodoEffects.step (Dispatch a) (effects sys) in
      (mkSys st (store sys) (executed sys), outs)
  | Respond s =>
      match in_flight s (effects sys) with
      | Some (i, c) =>
          let '(store', r) := backend_exec c (store sys) in
          let '(st, outs) := TodoEffects.run (replies c i r) (effects sys) in
          (mkSys st store' (executed sys ++ [c]), outs)
      | None => (sys, [])
      end
  end.

Definition run (evs : list Event) : Handler (state B) Output :=
  for_each step evs.

(** The system is well formed: so are the class and the service, and the
    state of the service is what the calls executed so far have made it. *)
Definition wf (sys : state B) : Prop :=
  TodoEffects.wf (effects sys) ∧ backend_wf (store sys) ∧
  store sys = exec_all (executed sys) backend_init.
End defs.

(** The actions the user dispatches in a list of events, in order. *)
Definition users (evs : list Event) : list TodoActions.Action :=
  omap (λ ev, match ev with User a => Some a | Respond _ => None end) evs.

(** The calls of slot [s] among [cs]. *)
Definition of_slot (s : Slot) (cs : list TodoService.Call)
  : list TodoService.Call :=
  filter (λ c, slot_of_call c = s) cs.

(** The calls of slot [s] that are not answered yet: the one in flight,
    then those that wait. *)
Definition outstanding (s : Slot) (st : State) : list TodoService.Call :=
  option_list (snd <$> in_flight s st) ++ waiting s st.

(** The todo a call is about, for the calls that name one. *)
Definition target (c : TodoService.Call) : option TodoId :=
  match c with
  | TodoService.find id | TodoService.remove id => Some id
  | TodoService.update todo => Some (todoId todo)
  | TodoService.findAll _ _ | TodoService.create _ => None
  end.

(** The slot an outcome action reports on. *)
Definition slot_of_outcome (a : TodoActions.Action) : option Slot :=
  match a with
  | TodoActions.loadAllSuccess _ | TodoActions.loadAllFailure _ => Some LoadAll
  | TodoActions.loadSuccess _ | TodoActions.loadFailure _ => Some Load
  | TodoActions.createSuccess _ | TodoActions.createFailure _ => Some Create
  | TodoActions.updateSuccess _ | TodoActions.updateFailure _ => Some Update
  | TodoActions.removeSuccess _ | TodoActions.removeFailure _ => Some Remove
  | _ => None
  end.

End System.

Section system.
Import TodoEffects System.
Context {B : Type} `{!Backend B}.
Implicit Types (sys : state B) (s : Slot) (evs : list Event) (st : State).

Lemma sys_run_snoc evs ev sys :
  run (evs ++ [ev]) sys
  = ((step ev (run evs sys).1).1, (run evs sys).2 ++ (step ev (run evs sys).1).2).
Proof. unfold run. by rewrite for_each_snoc, seq_eq. Qed.

Lemma sys_run_cons ev evs sys :
  run (ev :: evs) sys
  = ((run evs (step ev sys).1).1, (step ev sys).2 ++ (run evs (step ev sys).1).2).
Proof. unfold run. by rewrite for_each_cons, seq_eq. Qed.

Lemma sys_run_app evs1 evs2 sys :
  (run (evs1 ++ evs2) sys).1 = (run evs2 (run evs1 sys).1).1.
Proof. unfold run. by rewrite for_each_app, seq_eq. Qed.

Lemma users_app evs1 evs2 : users (evs1 ++ evs2) = users evs1 ++ users evs2.
Proof. apply omap_app. Qed.

Lemma of_slot_snoc s cs c :
  of_slot s (cs ++ [c])
  = of_slot s cs ++ (if decide (slot_of_call c = s) then [c] else []).
Proof.
  unfold of_slot. rewrite filter_app, filter_cons, filter_nil.
  by case_decide.
Qed.

Lemma outstanding_frame s st st' :
  slot_state s st' = slot_state s st → outstanding s st' = outstanding s st.
Proof.
  intros H. unfold outstanding. by rewrite !view_in_flight, !view_waiting, H.
Qed.

(** ** One step of the system *)

Lemma step_user a sys :
  step (User a) sys
  = (mkSys (dispatch a (effects sys)).1 (store sys) (executed sys),
     (dispatch a (effects sys)).2).
Proof. simpl. by destruct (dispatch a (effects sys)). Qed.

Lemma step_respond s i c sys :
  in_flight s (effects sys) = Some (i, c) →
  step (Respond s) sys
  = (mkSys (TodoEffects.run (replies c i (backend_exec c (store sys)).2)
              (effects sys)).1
       (backend_exec c (store sys)).1 (executed sys ++ [c]),
     (TodoEffects.run (replies c i (backend_exec c (store sys)).2)
        (effects sys)).2).
Proof.
  intros Hi. simpl. rewrite Hi. destruct (backend_exec c (store sys)).
  simpl. by destruct (TodoEffects.run _ _).
Qed.

Lemma step_respond_idle s sys :
  in_flight s (effects sys) = None → step (Respond s) sys = (sys, []).
Proof. intros Hi. simpl. by rewrite Hi. Qed.

Lemma step_wf ev sys : wf sys → wf (step ev sys).1.
Proof.
  intros (Hst & Hstore & Hexec). destruct ev as [a|s].
  - rewrite step_user. split_and!; [|done..].
    apply (step_preserves_wf (Dispatch a)), Hst.
  - destruct (in_flight s (effects sys)) as [[i c]|] eqn:Hi;
      [|by rewrite step_respond_idle].
    rewrite (step_respond s i c) by done. split_and!; simpl.
    + by apply Machine.run_wf.
    + by apply backend_wf_exec.
    + by rewrite exec_all_snoc, <-Hexec.
Qed.

Lemma sys_wf_init : wf init.
Proof. split_and!; [apply Machine.wf_init|apply backend_wf_init|done]. Qed.

Lemma sys_run_wf evs sys : wf sys → wf (run evs sys).1.
Proof. apply preserves_run. intros ev sys'. apply step_wf. Qed.

(** What a step adds to the account of a sequential slot: the request it
    dispatches, if any. *)
Lemma step_outstanding s ev sys :
  wf sys → s ≠ LoadAll →
  of_slot s (executed (step ev sys).1) ++ outstanding s (effects (step ev sys).1)
  = (of_slot s (executed sys) ++ outstanding s (effects sys))
    ++ requests s (users [ev]).
Proof.
  intros (Hwf & _) Hs. destruct ev as [a|s'].
  - rewrite step_user. simpl users. cbn [effects executed fst].
    rewrite <-app_assoc. f_equal.
    destruct (call_of_action a) as [c|] eqn:Ha;
      [destruct (decide (slot_of_call c = s)) as [<-|Hc]|].
    + rewrite (call_of_action_slot a c) by done.
      destruct (dispatch_request a c (effects sys) Ha) as (_ & Hin & Hw).
      pose proof (idle_no_waiting (slot_of_call c) (effects sys) Hwf) as Hidle.
      unfold outstanding. rewrite Hin, Hw.
      destruct (in_flight _ (effects sys)) as [x|]; simpl.
      * rewrite !decide_False by done. by rewrite app_assoc.
      * by rewrite Hidle.
    + rewrite (requests_other a c), app_nil_r by done.
      apply outstanding_frame, (slot_state_independent s (Dispatch a)).
      simpl. by rewrite Ha.
    + rewrite requests_no_call, app_nil_r by done.
      apply outstanding_frame, (slot_state_independent s (Dispatch a)).
      simpl. rewrite Ha. tauto.
  - simpl users. rewrite requests_nil, app_nil_r.
    destruct (in_flight s' (effects sys)) as [[i c]|] eqn:Hi;
      [|by rewrite step_respond_idle].
    rewrite (step_respond s' i c) by done. cbn [effects executed fst].
    pose proof (in_flight_slot s' _ i c Hi) as <-.
    destruct (answer c i (backend_exec c (store sys)).2 (effects sys) Hi)
      as (_ & Hw & Hin & Hother).
    rewrite of_slot_snoc, <-app_assoc. f_equal. case_decide as Hc.
    + subst s. unfold outstanding. rewrite Hin, Hw, Hi.
      by destruct (waiting _ (effects sys)).
    + simpl. apply outstanding_frame, Hother. congruence.
Qed.

Lemma run_outstanding s evs :
  s ≠ LoadAll →
  of_slot s (executed (run evs init).1) ++ outstanding s (effects (run evs init).1)
  = requests s (users evs).
Proof.
  intros Hs. induction evs as [|ev evs IH] using rev_ind; [by destruct s|].
  rewrite sys_run_snoc, users_app, requests_app. cbn [fst].
  rewrite step_outstanding by (done || apply sys_run_wf, sys_wf_init).
  by rewrite IH.
Qed.

(** The service answers the call in flight of a slot: the call is made on
    the repository and its one result comes out as one action. *)
Lemma respond_emits s i c sys :
  in_flight s (effects sys) = Some (i, c) →
  emits (step (Respond s) sys).2
  = [match (backend_exec c (store sys)).2 with
     | inl e => failure (slot_of_call c) e
     | inr v => success c v
     end] ∧
  store (step (Respond s) sys).1 = (backend_exec c (store sys)).1.
Proof.
  intros Hi. rewrite (step_respond s i c) by done. split; [|done].
  pose proof (in_flight_slot s _ i c Hi) as <-. by apply answer.
Qed.

(** The first outstanding call of a slot is the one in flight. *)
Lemma outstanding_head s c q sys :
  wf sys → outstanding s (effects sys) = c :: q →
  ∃ i, in_flight s (effects sys) = Some (i, c).
Proof.
  intros (Hwf & _). unfold outstanding.
  pose proof (idle_no_waiting s (effects sys) Hwf) as Hidle.
  destruct (in_flight s (effects sys)) as [[i c']|]; simpl.
  - intros [= -> _]. by exists i.
  - by rewrite Hidle.
Qed.

(** The answer to the only outstanding call of a slot frees the slot. *)
Lemma respond_frees s i c sys :
  in_flight s (effects sys) = Some (i, c) → waiting s (effects sys) = [] →
  in_flight s (effects (step (Respond s) sys).1) = None.
Proof.
  intros Hi Hw. rewrite (step_respond s i c) by done.
  pose proof (in_flight_slot s _ i c Hi) as <-.
  destruct (answer c i (backend_exec c (store sys)).2 (effects sys) Hi)
    as (_ & _ & Hin & _).
  cbn [effects fst]. by rewrite Hin, Hw.
Qed.

(** A request dispatched to an idle slot is in flight at once; the service
    has not seen it yet. *)
Lemma user_request a c sys :
  call_of_action a = Some c →
  in_flight (slot_of_call c) (effects sys) = None →
  in_flight (slot_of_call c) (effects (step (User a) sys).1)
  = Some (subscriptions (slot_of_call c) (effects sys), c) ∧
  store (step (User a) sys).1 = store sys ∧
  emits (step (User a) sys).2 = [].
Proof.
  intros Ha Hi. rewrite step_user. cbn [effects store fst snd].
  destruct (dispatch_request a c (effects sys) Ha) as (_ & -> & _).
  by rewrite Hi, dispatch_no_emit.
Qed.

Lemma slot_of_success c v : slot_of_outcome (success c v) = Some (slot_of_call c).
Proof. by destruct c. Qed.

Lemma slot_of_failure s e : slot_of_outcome (failure s e) = Some s.
Proof. by destruct s. Qed.

(** What a step executes and what it emits: one action per call. *)
Lemma step_outcome ev sys :
  ∃ cs, executed (step ev sys).1 = executed sys ++ cs ∧
        slot_of_outcome <$> emits (step ev sys).2 = Some ∘ slot_of_call <$> cs.
Proof.
  destruct ev as [a|s].
  - exists []. rewrite step_user. cbn [fst snd executed].
    by rewrite dispatch_no_emit, app_nil_r.
  - destruct (in_flight s (effects sys)) as [[i c]|] eqn:Hi.
    + exists [c]. destruct (respond_emits s i c sys Hi) as [-> _].
      rewrite (step_respond s i c) by done. split; [done|]. simpl.
      destruct (backend_exec c (store sys)).2;
        by rewrite ?slot_of_success, ?slot_of_failure.
    + exists []. rewrite step_respond_idle by done. simpl.
      by rewrite app_nil_r.
Qed.

(** ** The testable properties of the specification *)

(** Exactly one outcome per answered request: in every run of the
    system, the actions the class emits are, one for one and in the same
    order, the outcomes of the calls the service has executed: each
    executed call is reported by one success or failure action of its
    slot, and nothing else is ever emitted. *)
Theorem one_outcome_per_answer evs :
  slot_of_outcome <$> emits (run evs init).2
  = Some ∘ slot_of_call <$> executed (run evs init).1.
Proof.
  induction evs as [|ev evs IH] using rev_ind; [done|].
  rewrite sys_run_snoc. cbn [fst snd].
  destruct (step_outcome ev (run evs init).1) as (cs & -> & Hout).
  by rewrite emits_app, !fmap_app, Hout, IH.
Qed.

(** The service handles the requests of a sequential slot in the
    order of their dispatch, whatever the timing of the answers: in every
    run of the system, the calls of the slot the service has executed,
    followed by the call in flight and the calls that wait, are the
    requests the user dispatched for the slot, in order; and the repository
    is what the executed calls, in the order of their execution, have made
    of the empty one.  Two updates of a todo are applied in the order they
    were submitted. *)
Theorem service_executes_in_order s evs :
  s ≠ LoadAll →
  of_slot s (executed (run evs init).1)
    ++ outstanding s (effects (run evs init).1)
  = requests s (users evs) ∧
  store (run evs init).1 = exec_all (executed (run evs init).1) backend_init.
Proof.
  intros Hs. split; [by apply run_outstanding|].
  by destruct (sys_run_wf evs init sys_wf_init) as (_ & _ & ?).
Qed.

End system.

(** ** The service on its repository *)

Section repository.
Import TodoEffects System.
Implicit Types (sys : state TodoRepository.store) (s : Slot) (evs : list Event).

Lemma run_gone id evs sys :
  TodoRepository.gone id (store sys) →
  TodoRepository.gone id (store (run evs sys).1).
Proof.
  apply (preserves_run (λ sys, TodoRepository.gone id (store sys)) step).
  intros [a|s] sys' Hg; [by rewrite step_user|].
  destruct (in_flight s (effects sys')) as [[i c]|] eqn:Hi;
    [|by rewrite step_respond_idle].
  rewrite (step_respond s i c) by done. by apply exec_gone.
Qed.

(** C32. A created todo is new and open: when the service answers a
    [create] whose title is not blank, [createSuccess] is emitted with a
    todo that has the trimmed title, is not completed, has an identifier
    no todo of the repository has, and is in the repository afterwards. *)
Theorem create_yields_new_todo i todo sys :
  wf sys →
  in_flight Create (effects sys) = Some (i, TodoService.create todo) →
  Service.trim (title todo) ≠ "" →
  ∃ t, emits (step (Respond Create) sys).2 = [TodoActions.createSuccess t] ∧
    title t = Service.trim (title todo) ∧ completed t = false ∧
    (todoId t ∉ TodoRepository.ids (store sys)) ∧
    t ∈ TodoRepository.todos (store (step (Respond Create) sys).1).
Proof.
  intros (_ & Hwf & _) Hi Htitle.
  destruct (respond_emits Create i _ sys Hi) as [-> ->]. simpl.
  destruct (TodoRepository.create _ _) as [st' [e|t]] eqn:Hc;
    [unfold TodoRepository.create in Hc; by case_decide|].
  destruct (create_fresh _ _ _ _ Hwf Hc) as (? & _ & ? & ? & _ & Ht).
  exists t. simpl. split_and!; try done.
  rewrite Ht. apply elem_of_app. right. by left.
Qed.

(** C34. A blank title is refused: when the service answers a [create]
    whose title is empty or white space only, [createFailure] is emitted
    with a validation error and the repository is as before. *)
Theorem create_rejects_blank_title i todo sys :
  in_flight Create (effects sys) = Some (i, TodoService.create todo) →
  Service.trim (title todo) = "" →
  emits (step (Respond Create) sys).2
  = [TodoActions.createFailure TodoRepository.invalid] ∧
  store (step (Respond Create) sys).1 = store sys.
Proof.
  intros Hi Htitle. destruct (respond_emits Create i _ sys Hi) as [-> ->].
  simpl. by rewrite Htitle.
Qed.

(** C35. An unknown todo is not found: when the service answers a [load],
    [update] or [remove] of an identifier the repository does not hold,
    the failure action of the slot is emitted with [NotFound] and the
    repository is as before. *)
Theorem unknown_todo_not_found s i c id sys :
  in_flight s (effects sys) = Some (i, c) → target c = Some id →
  id ∉ TodoRepository.ids (store sys) →
  emits (step (Respond s) sys).2 = [failure s TodoRepository.not_found] ∧
  store (step (Respond s) sys).1 = store sys.
Proof.
  intros Hi Hc Hid. destruct (respond_emits s i c sys Hi) as [-> ->].
  pose proof (in_flight_slot s _ i c Hi) as <-.
  destruct c; cbn [target] in Hc; simplify_eq; cbn [backend_exec memory_backend Service.exec];
    by rewrite ?find_not_found, ?update_not_found, ?remove_not_found.
Qed.

(** C37. A removed todo stays removed: when the service answers a
    [remove] of a todo the repository holds, [removeSuccess] is emitted,
    and from then on, whatever is dispatched and answered, the repository
    never holds a todo of that identifier again: identifiers are not
    reused, so every later [load], [update] or [remove] of it fails with
    [NotFound]. *)
Theorem removed_todo_stays_gone i id evs sys :
  wf sys →
  in_flight Remove (effects sys) = Some (i, TodoService.remove id) →
  id ∈ TodoRepository.ids (store sys) →
  emits (step (Respond Remove) sys).2 = [TodoActions.removeSuccess id] ∧
  id ∉ TodoRepository.ids (store (run evs (step (Respond Remove) sys).1).1).
Proof.
  intros (_ & Hwf & _) Hi Hid.
  destruct (respond_emits Remove i _ sys Hi) as [Hout Hstore].
  cbn [backend_exec memory_backend Service.exec] in Hout, Hstore.
  destruct (remove_found id (store sys) Hid) as [st' Hr].
  rewrite Hr in Hout, Hstore. split; [done|].
  apply (run_gone id). rewrite Hstore. by eapply remove_gone.
Qed.

(** The steps that are no answer to an update or a remove keep the todos
    that are in the repository. *)
Lemma step_keeps id t ev sys :
  ev ≠ Respond Update ∧ ev ≠ Respond Remove →
  TodoRepository.lookup id (store sys) = Some t →
  TodoRepository.lookup id (store (step ev sys).1) = Some t.
Proof.
  intros [Hu Hr] Ht. destruct ev as [a|s]; [by rewrite step_user|].
  destruct (in_flight s (effects sys)) as [[i c]|] eqn:Hi;
    [|by rewrite step_respond_idle].
  rewrite (step_respond s i c) by done.
  pose proof (in_flight_slot s _ i c Hi) as Hs.
  apply exec_keeps; congruence.
Qed.

Lemma run_keeps id t evs sys :
  Forall (λ ev, ev ≠ Respond Update ∧ ev ≠ Respond Remove) evs →
  TodoRepository.lookup id (store sys) = Some t →
  TodoRepository.lookup id (store (run evs sys).1) = Some t.
Proof.
  intros Hevs. revert sys. induction Hevs as [|ev evs Hev _ IH]; [done|].
  intros sys Ht. rewrite sys_run_cons. by apply IH, step_keeps.
Qed.

(** C33. What [create] reports is what [load] returns.  When the answer to
    a [create] is reported as [createSuccess] of a todo, then after any
    further events among which no update and no remove is answered, the
    answer to a [load] of the identifier of that todo is reported as
    [loadSuccess] of the same todo. *)
Theorem created_todo_loads i j todo t evs sys :
  wf sys →
  in_flight Create (effects sys) = Some (i, TodoService.create todo) →
  emits (step (Respond Create) sys).2 = [TodoActions.createSuccess t] →
  Forall (λ ev, ev ≠ Respond Update ∧ ev ≠ Respond Remove) evs →
  in_flight Load (effects (run evs (step (Respond Create) sys).1).1)
  = Some (j, TodoService.find (todoId t)) →
  emits (step (Respond Load) (run evs (step (Respond Create) sys).1).1).2
  = [TodoActions.loadSuccess t].
Proof.
  intros (_ & Hwf & _) Hi Hout Hevs Hj.
  destruct (respond_emits Create i _ sys Hi) as [Hemit Hstore].
  rewrite Hemit in Hout.
  cbn [backend_exec memory_backend Service.exec] in Hout, Hstore.
  destruct (TodoRepository.create _ (store sys)) as [st' [e|t']] eqn:Hc;
    cbn [fst snd] in Hout, Hstore; [done|]. injection Hout as ->.
  pose proof (lookup_create _ _ _ _ Hwf Hc) as Ht. rewrite <-Hstore in Ht.
  apply (run_keeps _ _ evs) in Ht; [|done].
  destruct (respond_emits Load j _ _ Hj) as [-> _].
  cbn [backend_exec memory_backend Service.exec]. unfold TodoRepository.find.
  by rewrite Ht.
Qed.

(** C38. A page of [loadAll] is bounded and in creation order: when the
    service answers a [loadAll] with a limit that is not zero,
    [loadAllSuccess] is emitted with at most [limit] todos, the todos of
    the repository from [offset] on in the order of their creation, and
    the repository is as before, so the same request gives the same page
    as long as nothing is written. *)
Theorem loadAll_page i offset limit sys :
  wf sys →
  in_flight LoadAll (effects sys) = Some (i, TodoService.findAll offset limit) →
  limit ≠ 0 →
  emits (step (Respond LoadAll) sys).2
  = [TodoActions.loadAllSuccess
       (take limit (drop offset (TodoRepository.todos (store sys))))] ∧
  length (take limit (drop offset (TodoRepository.todos (store sys)))) ≤ limit ∧
  StronglySorted (λ t1 t2, createdAt t1 < createdAt t2)
    (take limit (drop offset (TodoRepository.todos (store sys)))) ∧
  store (step (Respond LoadAll) sys).1 = store sys.
Proof.
  intros (_ & Hwf & _) Hi Hlimit.
  destruct (respond_emits LoadAll i _ sys Hi) as [-> ->].
  cbn [backend_exec memory_backend Service.exec].
  destruct (findAll_page offset limit (store sys)
              (take limit (drop offset (TodoRepository.todos (store sys)))) Hwf)
    as (? & ? & _); unfold TodoRepository.findAll;
    by rewrite ?decide_False by done.
Qed.
End repository.

Section drain.
Import TodoEffects System.
Context {B : Type} `{!Backend B}.
Implicit Types (sys : state B) (s : Slot).

(** The outstanding calls of a slot, from what is in flight and waits. *)
Lemma outstanding_idle s sys :
  wf sys → in_flight s (effects sys) = None → outstanding s (effects sys) = [].
Proof.
  intros (Hwf & _) Hi. unfold outstanding.
  by rewrite Hi, (idle_no_waiting s _ Hwf Hi).
Qed.

Lemma respond_outstanding s i c sys :
  in_flight s (effects sys) = Some (i, c) →
  outstanding s (effects sys)
    = c :: outstanding s (effects (step (Respond s) sys).1) ∧
  executed (step (Respond s) sys).1 = executed sys ++ [c].
Proof.
  intros Hi. rewrite (step_respond s i c) by done. split; [|done].
  pose proof (in_flight_slot s _ i c Hi) as <-.
  destruct (answer c i (backend_exec c (store sys)).2 (effects sys) Hi)
    as (_ & Hw & Hin & _).
  unfold outstanding. cbn [effects fst]. rewrite Hi, Hin, Hw.
  by destruct (waiting _ (effects sys)).
Qed.

Lemma drain_outstanding s n sys :
  wf sys → length (outstanding s (effects sys)) = n →
  outstanding s (effects (run (replicate n (Respond s)) sys).1) = [] ∧
  executed (run (replicate n (Respond s)) sys).1
  = executed sys ++ outstanding s (effects sys).
Proof.
  revert sys. induction n as [|n IH]; intros sys Hwf Hn.
  - apply nil_length_inv in Hn. by rewrite Hn, app_nil_r.
  - destruct (in_flight s (effects sys)) as [[i c]|] eqn:Hi;
      [|by rewrite outstanding_idle in Hn].
    destruct (respond_outstanding s i c sys Hi) as [Hout Hexec].
    rewrite Hout in Hn |- *. injection Hn as Hn.
    change (replicate (S n) ?x) with (x :: replicate n x).
    rewrite sys_run_cons. cbn [fst].
    destruct (IH _ (step_wf (Respond s) sys Hwf) Hn) as [-> ->].
    by rewrite Hexec, <-app_assoc.
Qed.

(** No request is lost: if the service answers a slot as many times
    as the slot has calls outstanding (the one in flight and those that
    wait), every one of them is executed, in the order of its dispatch, and
    the slot ends with nothing outstanding. *)
Theorem answered_slot_executes_all s sys :
  wf sys →
  outstanding s
    (effects (run (replicate (length (outstanding s (effects sys))) (Respond s))
                sys).1) = [] ∧
  executed (run (replicate (length (outstanding s (effects sys))) (Respond s))
              sys).1
  = executed sys ++ outstanding s (effects sys).
Proof. intros Hwf. by apply drain_outstanding. Qed.
End drain.

(** ** The theorems at work, and the scenarios of the specification *)

Section scenarios.
Import TodoEffects System.

(** The class and the service on an empty repository. *)
Definition empty : state TodoRepository.store := init.

(** "Buy milk" was created and is in the repository as [t1]. *)
Definition shopping : state TodoRepository.store :=
  (run [User (TodoActions.create milk_draft); Respond Create] empty).1.

Lemma shopping_wf evs : wf (run evs shopping).1.
Proof. apply sys_run_wf, sys_run_wf, sys_wf_init. Qed.

Lemma service_executes_in_order_witness :
  of_slot Update
    (executed (run [User (TodoActions.create milk_draft); Respond Create;
                    User (TodoActions.update (titled "A"));
                    User (TodoActions.update (titled "B"));
                    Respond Update] empty).1)
    ++ outstanding Update
         (effects (run [User (TodoActions.create milk_draft); Respond Create;
                        User (TodoActions.update (titled "A"));
                        User (TodoActions.update (titled "B"));
                        Respond Update] empty).1)
  = requests Update
      (users [User (TodoActions.create milk_draft); Respond Create;
              User (TodoActions.update (titled "A"));
              User (TodoActions.update (titled "B")); Respond Update]) ∧
  store (run [User (TodoActions.create milk_draft); Respond Create;
              User (TodoActions.update (titled "A"));
              User (TodoActions.update (titled "B")); Respond Update] empty).1
  = exec_all
      (executed (run [User (TodoActions.create milk_draft); Respond Create;
                      User (TodoActions.update (titled "A"));
                      User (TodoActions.update (titled "B"));
                      Respond Update] empty).1) backend_init.
Proof.
  unfold empty.
  apply (service_executes_in_order (B:=TodoRepository.store) Update).
  discriminate.
Defined.

Lemma answered_slot_executes_all_witness :
  outstanding Update
    (effects
       (run (replicate
               (length (outstanding Update
                          (effects (run [User (TodoActions.update (titled "A"));
                                         User (TodoActions.update (titled "B"))]
                                      shopping).1)))
               (Respond Update))
          (run [User (TodoActions.update (titled "A"));
                User (TodoActions.update (titled "B"))] shopping).1).1) = [] ∧
  executed
    (run (replicate
            (length (outstanding Update
                       (effects (run [User (TodoActions.update (titled "A"));
                                      User (TodoActions.update (titled "B"))]
                                   shopping).1)))
            (Respond Update))
       (run [User (TodoActions.update (titled "A"));
             User (TodoActions.update (titled "B"))] shopping).1).1
  = executed (run [User (TodoActions.update (titled "A"));
                   User (TodoActions.update (titled "B"))] shopping).1
    ++ outstanding Update
         (effects (run [User (TodoActions.update (titled "A"));
                        User (TodoActions.update (titled "B"))] shopping).1).
Proof.
  apply (answered_slot_executes_all Update
           (run [User (TodoActions.update (titled "A"));
                 User (TodoActions.update (titled "B"))] shopping).1).
  apply shopping_wf.
Defined.

Lemma create_yields_new_todo_witness :
  ∃ t,
    emits (step (Respond Create)
             (run [User (TodoActions.create eggs_draft)] shopping).1).2
    = [TodoActions.createSuccess t] ∧
    title t = Service.trim (title eggs_draft) ∧ completed t = false ∧
    (todoId t ∉ TodoRepository.ids
                  (store (run [User (TodoActions.create eggs_draft)] shopping).1)) ∧
    t ∈ TodoRepository.todos
          (store (step (Respond Create)
                    (run [User (TodoActions.create eggs_draft)] shopping).1).1).
Proof.
  apply (create_yields_new_todo 1 eggs_draft
           (run [User (TodoActions.create eggs_draft)] shopping).1);
    [apply shopping_wf|by vm_compute..].
Defined.

Lemma create_rejects_blank_title_witness :
  emits (step (Respond Create)
           (run [User (TodoActions.create (mkTodo "" "  " false 0))] empty).1).2
  = [TodoActions.createFailure TodoRepository.invalid] ∧
  store (step (Respond Create)
           (run [User (TodoActions.create (mkTodo "" "  " false 0))] empty).1).1
  = store (run [User (TodoActions.create (mkTodo "" "  " false 0))] empty).1.
Proof.
  apply (create_rejects_blank_title 0 (mkTodo "" "  " false 0)); by vm_compute.
Defined.

Lemma unknown_todo_not_found_witness :
  emits (step (Respond Update)
           (run [User (TodoActions.update (mkTodo "t7" "Buy tea" false 7))]
              shopping).1).2
  = [failure Update TodoRepository.not_found] ∧
  store (step (Respond Update)
           (run [User (TodoActions.update (mkTodo "t7" "Buy tea" false 7))]
              shopping).1).1
  = store (run [User (TodoActions.update (mkTodo "t7" "Buy tea" false 7))]
             shopping).1.
Proof.
  apply (unknown_todo_not_found Update 0
           (TodoService.update (mkTodo "t7" "Buy tea" false 7)) "t7");
    [by vm_compute..|].
  vm_compute. intros [=]%list_elem_of_singleton.
Defined.

Lemma removed_todo_stays_gone_witness :
  emits (step (Respond Remove)
           (run [User (TodoActions.remove "t1")] shopping).1).2
  = [TodoActions.removeSuccess "t1"] ∧
  "t1" ∉ TodoRepository.ids
           (store (run [User (TodoActions.create eggs_draft); Respond Create;
                        User (TodoActions.load "t1"); Respond Load]
                     (step (Respond Remove)
                        (run [User (TodoActions.remove "t1")] shopping).1).1).1).
Proof.
  apply (removed_todo_stays_gone 0 "t1");
    [apply shopping_wf|by vm_compute|vm_compute; by left].
Defined.

Lemma created_todo_loads_witness :
  emits (step (Respond Load)
           (run [User (TodoActions.load "t2"); User (TodoActions.loadAll 0 10);
                 Respond LoadAll]
              (step (Respond Create)
                 (run [User (TodoActions.create eggs_draft)] shopping).1).1).1).2
  = [TodoActions.loadSuccess (mkTodo "t2" "Buy eggs" false 2)].
Proof.
  apply (created_todo_loads 1 0 eggs_draft (mkTodo "t2" "Buy eggs" false 2)
           [User (TodoActions.load "t2"); User (TodoActions.loadAll 0 10);
            Respond LoadAll]
           (run [User (TodoActions.create eggs_draft)] shopping).1);
    [apply shopping_wf|by vm_compute..| |by vm_compute].
  repeat constructor; discriminate.
Defined.

Lemma loadAll_page_witness :
  emits (step (Respond LoadAll)
           (run [User (TodoActions.loadAll 0 10)] shopping).1).2
  = [TodoActions.loadAllSuccess
       (take 10 (drop 0 (TodoRepository.todos
                           (store (run [User (TodoActions.loadAll 0 10)]
                                     shopping).1))))] ∧
  length (take 10 (drop 0 (TodoRepository.todos
                             (store (run [User (TodoActions.loadAll 0 10)]
                                       shopping).1)))) ≤ 10 ∧
  StronglySorted (λ t1 t2, createdAt t1 < createdAt t2)
    (take 10 (drop 0 (TodoRepository.todos
                        (store (run [User (TodoActions.loadAll 0 10)]
                                  shopping).1)))) ∧
  store (step (Respond LoadAll)
           (run [User (TodoActions.loadAll 0 10)] shopping).1).1
  = store (run [User (TodoActions.loadAll 0 10)] shopping).1.
Proof.
  apply (loadAll_page 0 0 10 (run [User (TodoActions.loadAll 0 10)] shopping).1);
    [apply shopping_wf|by vm_compute|done].
Defined.

(** The scenario of the specification: "Buy milk" is created and
    comes back as todo [t1], not completed; it is updated to completed; it
    is removed; a load of [t1] then fails with [NotFound].  Each request
    gives exactly one outcome action. *)
Example scenario_create_update_remove_find :
  emits (run [User (TodoActions.create milk_draft); Respond Create;
              User (TodoActions.update milk_done); Respond Update;
              User (TodoActions.remove "t1"); Respond Remove;
              User (TodoActions.load "t1"); Respond Load] empty).2
  = [TodoActions.createSuccess milk;
     TodoActions.updateSuccess milk_done;
     TodoActions.removeSuccess "t1";
     TodoActions.loadFailure TodoRepository.not_found].
Proof. by vm_compute. Qed.

(** Two updates of the same todo dispatched before either is answered
    are applied in the order of their dispatch: the title stored at the end
    is the one of the second update. *)
Example scenario_updates_apply_in_order :
  TodoRepository.lookup "t1"
    (store (run [User (TodoActions.update (titled "A"));
                 User (TodoActions.update (titled "B"));
                 Respond Update; Respond Update] shopping).1)
  = Some (titled "B") ∧
  emits (run [User (TodoActions.update (titled "A"));
              User (TodoActions.update (titled "B"));
              Respond Update; Respond Update] shopping).2
  = [TodoActions.updateSuccess (titled "A");
     TodoActions.updateSuccess (titled "B")].
Proof. by vm_compute. Qed.

(** A [loadAll] dispatched while another is pending supersedes it:
    only the page of the second request is emitted. *)
Example scenario_latest_loadAll :
  emits (run [User (TodoActions.loadAll 0 10); User (TodoActions.loadAll 10 10);
              Respond LoadAll; Respond LoadAll] shopping).2
  = [TodoActions.loadAllSuccess []].
Proof. by vm_compute. Qed.

(** The dialog flow: the user opens the create dialog and submits
    it; when the service answers, the todo is reported as created and the
    dialog is closed.  No dialog is left open. *)
Example scenario_create_dialog_flow :
  (run [User TodoActions.showCreateDialog;
        User (TodoActions.create milk_draft); Respond Create] empty).2
  = [Opened first_create_ref;
     Subscribe Create 0 (TodoService.create milk_draft);
     Emit (TodoActions.createSuccess milk);
     Closed first_create_ref] ∧
  MatDialog.openDialogs
    (dialog (effects (run [User TodoActions.showCreateDialog;
                           User (TodoActions.create milk_draft);
                           Respond Create] empty).1))
  = [].
Proof. by vm_compute. Qed.
End scenarios.
