(* ===== verification/Queues.v ===== *)
(** * The system as the specification sees it: one queue per slot

    Seen from outside, the class in front of a service is five queues of
    calls.  A request joins the queue of its slot at the end, or, for
    [loadAll], takes the place of what is there; an answer of the service
    takes the call at the head of the queue of a slot, executes it and
    reports its one outcome.  Subscriptions, indices, buffers, stale
    notifications and dialogs are not visible at this level.

    This file holds that machine, for any backend, and the proof that the
    system implements it: under the reading of a state of the system as
    its outstanding calls and the state of the backend, every run of the
    system is the run of the queues on the same events, and the actions the
    class emits are the outcomes the queues report. *)

From stdpp Require Import functions.
From S2P Require Import Prelude Rxjs Actions Dialog Effects Samples Slots.
From S2P Require Import Reactions Machine Order Latest Coordinator Progress.
From S2P Require Import Backend System.

Import (hints) Rx TodoActions TodoService TodoEffects.

Module Queues.

Record state (B : Type) : Type := mkQ {
  pending : Slot → list TodoService.Call;
  service : B }.

Arguments mkQ {B} pending service.
Arguments pending {B} _ _.
Arguments service {B} _.

(** A request joins the calls of its slot. *)
Definition submit (c : TodoService.Call) (q : list TodoService.Call)
  : list TodoService.Call :=
  match Coordinator.discipline (slot_of_call c) with
  | Coordinator.Sequential => q ++ [c]
  | Coordinator.LatestWins => [c]
  end.

(** The action that reports the result of a call. *)
Definition outcome (c : TodoService.Call)
    (r : Failure + Result (slot_of_call c)) : TodoActions.Action :=
  match r with
  | inl e => failure (slot_of_call c) e
  | inr v => success c v
  end.

Section defs.
Context {B : Type} `{!Backend B}.

Definition init : state B := mkQ (λ _, []) backend_init.

Definition step (ev : System.Event) : Handler (state B) TodoActions.Action :=
  λ st,
  match ev with
  | System.User a =>
      match call_of_action a with
      | Some c =>
          (mkQ (<[slot_of_call c := submit c (pending st (slot_of_call c))]>
                  (pending st)) (service st), [])
      | None => (st, [])
      end
  | System.Respond s =>
      match pending st s with
      | c :: q =>
          (mkQ (<[s := q]> (pending st)) (backend_exec c (service st)).1,
           [outcome c (backend_exec c (service st)).2])
      | [] => (st, [])
      end
  end.

Definition run (evs : list System.Event)
  : Handler (state B) TodoActions.Action :=
  for_each step evs.
End defs.

End Queues.

(** Two states of the queues are the same when every slot has the same
    calls and the backend is in the same state. *)
#[export] Instance queues_equiv {B : Type} : Equiv (Queues.state B) := λ q1 q2,
  (∀ s, Queues.pending q1 s = Queues.pending q2 s) ∧
  Queues.service q1 = Queues.service q2.

#[export] Instance queues_equivalence {B : Type} :
  Equivalence (≡@{Queues.state B}).
Proof.
  split.
  - by intros q.
  - by intros q1 q2 [H1 H2].
  - intros q1 q2 q3 [H1 H2] [H3 H4]. split; [|congruence].
    intros s. by rewrite H1.
Qed.

(** The reading of a state of the system: the calls outstanding in each
    slot, and the backend. *)
Definition queues_of {B : Type} (sys : System.state B) : Queues.state B :=
  Queues.mkQ (λ s, System.outstanding s (System.effects sys)) (System.store sys).

Section queues.
Import TodoEffects System.
Context {B : Type} `{!Backend B}.
Implicit Types (sys : System.state B) (q : Queues.state B) (s : Slot).
Implicit Types (ev : Event) (evs : list Event).

#[export] Instance queues_step_proper ev :
  Proper ((≡) ==> prod_relation (≡) (=)) (Queues.step (B:=B) ev).
Proof.
  intros q1 q2 [Hp Hs]. destruct ev as [a|s]; simpl.
  - destruct (call_of_action a) as [c|]; [|by split].
    split; [|done]. split; [|done]. intros s. simpl.
    unfold insert, fn_insert. by rewrite Hp, (Hp s).
  - rewrite <-(Hp s), <-Hs. destruct (Queues.pending q1 s) as [|c l]; [by split|].
    split; [|done]. split; [|done]. intros s'. simpl.
    unfold insert, fn_insert. by rewrite (Hp s').
Qed.

#[export] Instance queues_run_proper evs :
  Proper ((≡) ==> prod_relation (≡) (=)) (Queues.run (B:=B) evs).
Proof.
  induction evs as [|ev evs IH]; intros q1 q2 Hq; [done|].
  unfold Queues.run. rewrite !for_each_cons, !seq_eq.
  destruct (queues_step_proper ev q1 q2 Hq) as [H1 H2].
  destruct (IH _ _ H1) as [H3 H4]. split; simpl; [done|].
  unfold Queues.run in H4. by rewrite H2, H4.
Qed.

(** The steps of the queues, for running them on a state that is not
    closed. *)
Lemma queues_run_cons ev evs q :
  (Queues.run (ev :: evs) q).2
  = (Queues.step ev q).2 ++ (Queues.run evs (Queues.step ev q).1).2.
Proof. unfold Queues.run. by rewrite for_each_cons, seq_eq. Qed.

Lemma queues_user a c q :
  call_of_action a = Some c →
  Queues.step (User a) q
  = (Queues.mkQ
       (<[slot_of_call c := Queues.submit c (Queues.pending q (slot_of_call c))]>
          (Queues.pending q)) (Queues.service q), []).
Proof. intros Ha. simpl. by rewrite Ha. Qed.

Lemma queues_respond s c l q :
  Queues.pending q s = c :: l →
  Queues.step (Respond s) q
  = (Queues.mkQ (<[s := l]> (Queues.pending q))
       (backend_exec c (Queues.service q)).1,
     [Queues.outcome c (backend_exec c (Queues.service q)).2]).
Proof. intros Hq. simpl. by rewrite Hq. Qed.

(** What a dispatched request does to the calls outstanding in its slot. *)
Lemma outstanding_submit a c sys :
  wf sys → call_of_action a = Some c →
  outstanding (slot_of_call c) (dispatch a (effects sys)).1
  = Queues.submit c (outstanding (slot_of_call c) (effects sys)).
Proof.
  intros (Hwf & _) Ha.
  destruct (dispatch_request a c (effects sys) Ha) as (_ & Hin & Hw).
  pose proof (idle_no_waiting (slot_of_call c) (effects sys) Hwf) as Hidle.
  unfold outstanding, Queues.submit. rewrite Hin, Hw.
  destruct (in_flight _ (effects sys)) as [[i c0]|]; [|by destruct c; rewrite Hidle].
  by destruct c; simpl; rewrite ?app_nil_r.
Qed.

(** A dispatched action is the same step of the queues. *)
Lemma user_refines a sys :
  wf sys →
  queues_of (step (User a) sys).1 ≡ (Queues.step (User a) (queues_of sys)).1 ∧
  emits (step (User a) sys).2 = (Queues.step (User a) (queues_of sys)).2.
Proof.
  intros Hwf. rewrite step_user. cbn [fst snd]. rewrite dispatch_no_emit.
  simpl Queues.step. destruct (call_of_action a) as [c|] eqn:Ha; simpl.
  - split; [|done]. split; [|done]. intros s. simpl.
    destruct (decide (slot_of_call c = s)) as [<-|Hs].
    + by rewrite fn_lookup_insert, outstanding_submit.
    + rewrite fn_lookup_insert_ne by done.
      apply outstanding_frame, (slot_state_independent s (Dispatch a)).
      simpl. by rewrite Ha.
  - split; [|done]. split; [|done]. intros s. simpl.
    apply outstanding_frame, (dispatch_dialog a _ Ha).
Qed.

(** An answer of the backend is the same step of the queues. *)
Lemma respond_refines s sys :
  wf sys →
  queues_of (step (Respond s) sys).1
    ≡ (Queues.step (Respond s) (queues_of sys)).1 ∧
  emits (step (Respond s) sys).2 = (Queues.step (Respond s) (queues_of sys)).2.
Proof.
  intros Hwf. simpl Queues.step.
  destruct (in_flight s (effects sys)) as [[i c]|] eqn:Hi.
  - destruct (respond_outstanding s i c sys Hi) as [Hout _].
    destruct (respond_emits s i c sys Hi) as [He Hs].
    rewrite Hout, He. split; [|done]. split; [|done]. intros s'.
    cbn [Queues.pending queues_of fst].
    destruct (decide (s = s')) as [<-|Hss'].
    + by rewrite fn_lookup_insert.
    + rewrite fn_lookup_insert_ne by done.
      rewrite (step_respond s i c) by done.
      pose proof (in_flight_slot s _ i c Hi) as <-.
      apply outstanding_frame, answer; [done|congruence].
  - rewrite step_respond_idle, outstanding_idle by done. by split.
Qed.

Lemma step_refines_queues ev sys :
  wf sys →
  queues_of (step ev sys).1 ≡ (Queues.step ev (queues_of sys)).1 ∧
  emits (step ev sys).2 = (Queues.step ev (queues_of sys)).2.
Proof. destruct ev; [apply user_refines|apply respond_refines]. Qed.

Lemma run_refines_queues evs sys :
  wf sys →
  queues_of (run evs sys).1 ≡ (Queues.run evs (queues_of sys)).1 ∧
  emits (run evs sys).2 = (Queues.run evs (queues_of sys)).2.
Proof.
  revert sys. induction evs as [|ev evs IH]; intros sys Hwf; [done|].
  rewrite sys_run_cons. unfold Queues.run. rewrite for_each_cons, seq_eq.
  fold (Queues.run (B:=B) evs).
  destruct (step_refines_queues ev sys Hwf) as [H1 H2].
  destruct (IH _ (step_wf ev sys Hwf)) as [H3 H4].
  destruct (queues_run_proper evs _ _ H1) as [H5 H6]. simpl in H5, H6 |- *.
  split; [by rewrite H3|]. by rewrite emits_app, H2, H4, H6.
Qed.

(** C5. The system implements the queues of the specification, whatever
    the backend.  In every run, the calls outstanding in each slot of the
    class (the one in flight, then those that wait) and the state of the
    backend are those of the queues after the same events, and the actions
    the class emits are, in the same order, the outcomes the queues
    report: each request waits its turn behind the earlier requests of its
    slot, a [loadAll] replaces the one before it, and each answer executes
    the oldest outstanding call of its slot and reports it once. *)
Theorem system_refines_queues evs :
  queues_of (run evs init).1 ≡ (Queues.run evs Queues.init).1 ∧
  emits (run evs init).2 = (Queues.run evs Queues.init).2.
Proof.
  destruct (run_refines_queues evs init sys_wf_init) as [H1 H2].
  assert (queues_of (B:=B) init ≡ Queues.init) as Hinit by (split; [by intros []|done]).
  destruct (queues_run_proper evs _ _ Hinit) as [H3 H4]. simpl in H3, H4.
  split; [by rewrite H1|by rewrite H2].
Qed.
End queues.
