(* ===== verification/Updates.v ===== *)
(** * The order in which writes to a todo are applied

    The specification asks that two updates of a todo dispatched before
    either is answered leave the todo as the second update says, whatever
    the timing of the answers.  This file proves it for the system whose
    answers are one step ([System]): for every state, every pair of updates
    and every interleaving with what happens in the other slots.  It also shows where the order is not kept: an
    update and a remove of the same todo are in different slots, and the
    remove can be applied first.

    The arguments follow the queues of the slots through the run, read
    off the system by the refinement of [Queues]. *)

From stdpp Require Import functions.
From S2P Require Import Prelude Rxjs Actions Dialog Effects Samples Slots.
From S2P Require Import Reactions Machine Order Latest Coordinator Progress.
From S2P Require Import Backend Service System Queues.

Import (hints) Rx TodoActions TodoService TodoEffects.

(** An event that is no update and no answer to an update or a remove: a
    dialog action, a request of another slot, an answer to another slot. *)
Definition aside (ev : System.Event) : Prop :=
  match ev with
  | System.User a =>
      match call_of_action a with
      | Some c => slot_of_call c ≠ Update
      | None => True
      end
  | System.Respond s => s ≠ Update ∧ s ≠ Remove
  end.

#[export] Instance aside_dec ev : Decision (aside ev).
Proof. destruct ev; simpl; [destruct (call_of_action a)|]; apply _. Defined.

(** The system is well formed, [q] are the calls outstanding in the update
    slot, and the repository holds [t] under [id]. *)
Definition holds (q : list TodoService.Call) (id : TodoId) (t : Todo)
    (sys : System.state TodoRepository.store) : Prop :=
  System.wf sys ∧
  System.outstanding Update (System.effects sys) = q ∧
  TodoRepository.lookup id (System.store sys) = Some t.

Section updates.
Import TodoEffects System.
Implicit Types (sys : state TodoRepository.store) (ev : Event).
Implicit Types (q : list TodoService.Call) (id : TodoId) (t x : Todo).

(** On the queues, an event aside leaves the update slot alone. *)
Lemma queues_aside ev (qs : Queues.state TodoRepository.store) :
  aside ev →
  Queues.pending (Queues.step ev qs).1 Update = Queues.pending qs Update.
Proof.
  destruct ev as [a|s]; simpl.
  - destruct (call_of_action a) as [c|]; [|done]. intros Hc. simpl.
    by rewrite fn_lookup_insert_ne.
  - intros [Hu _]. destruct (Queues.pending qs s); [done|]. simpl.
    by rewrite fn_lookup_insert_ne.
Qed.

Lemma aside_reads ev : aside ev → ev ≠ Respond Update ∧ ev ≠ Respond Remove.
Proof. destruct ev; simpl; [done|]. intros [??]. split; congruence. Qed.

Lemma holds_aside q id t evs sys :
  holds q id t sys → Forall aside evs → holds q id t (run evs sys).1.
Proof.
  intros Hsys Hevs. revert sys Hsys.
  induction Hevs as [|ev evs Hev _ IH]; [done|]. intros sys (Hwf & Hq & Ht).
  rewrite sys_run_cons. apply IH. split_and!.
  - by apply step_wf.
  - destruct (step_refines_queues ev sys Hwf) as [[Hp _] _].
    specialize (Hp Update). rewrite queues_aside in Hp by done.
    by rewrite <-Hq.
  - by apply step_keeps, Ht; apply aside_reads.
Qed.

Lemma holds_submit x q id t sys :
  holds q id t sys →
  holds (q ++ [TodoService.update x]) id t
    (step (User (TodoActions.update x)) sys).1.
Proof.
  intros (Hwf & Hq & Ht). split_and!; [by apply step_wf| |by rewrite step_user].
  rewrite step_user. cbn [effects fst].
  pose proof (outstanding_submit (TodoActions.update x) _ sys Hwf eq_refl) as Hs.
  cbn [slot_of_call] in Hs. by rewrite Hs, Hq.
Qed.

Lemma holds_answer x q t sys :
  holds (TodoService.update x :: q) (todoId x) t sys →
  Service.trim (title x) ≠ "" →
  holds q (todoId x) (updated x t) (step (Respond Update) sys).1.
Proof.
  intros (Hwf & Hq & Ht) Htitle.
  destruct (outstanding_head Update _ _ sys Hwf Hq) as [i Hi].
  destruct (respond_outstanding Update i _ sys Hi) as [Hout _].
  destruct (respond_emits Update i _ sys Hi) as [_ Hstore].
  split_and!; [by apply step_wf|by rewrite Hq in Hout; simplify_eq|].
  rewrite Hstore. cbn [backend_exec memory_backend Service.exec].
  by rewrite (lookup_update _ _ _ t).
Qed.

(** Updates are applied in the order they were submitted, when each
    answer is one step.  A todo is in the repository and no update is
    outstanding.  Two updates of the todo are dispatched and then each is
    answered, while anything may happen aside: dialog actions, requests of
    the other slots, answers to loads and creates.  Then the repository
    holds the todo with the title and the completion of the second update.
    [Timing] proves it for answers that take their time. *)
Theorem updates_apply_in_order xa xb t e1 e2 e3 e4 sys :
  wf sys → outstanding Update (effects sys) = [] →
  TodoRepository.lookup (todoId xa) (store sys) = Some t →
  todoId xb = todoId xa →
  Service.trim (title xa) ≠ "" → Service.trim (title xb) ≠ "" →
  Forall aside e1 → Forall aside e2 → Forall aside e3 → Forall aside e4 →
  TodoRepository.lookup (todoId xa)
    (store (run (User (TodoActions.update xa) :: e1
                   ++ User (TodoActions.update xb) :: e2
                   ++ Respond Update :: e3
                   ++ Respond Update :: e4) sys).1)
  = Some (mkTodo (todoId t) (Service.trim (title xb)) (completed xb)
            (createdAt t)).
Proof.
  intros Hwf Hq Ht Hid Ha Hb H1 H2 H3 H4.
  assert (holds [] (todoId xa) t sys) as H by done.
  apply (holds_submit xa), (holds_aside _ _ _ e1) in H; [|done].
  apply (holds_submit xb), (holds_aside _ _ _ e2) in H; [|done].
  apply holds_answer, (holds_aside _ _ _ e3) in H; [|done..].
  rewrite <-Hid in H. apply holds_answer, (holds_aside _ _ _ e4) in H; [|done..].
  destruct H as (_ & _ & H). rewrite !Hid in H.
  rewrite sys_run_cons, sys_run_app, sys_run_cons, sys_run_app, sys_run_cons,
    sys_run_app, sys_run_cons. exact H.
Qed.

(** The specification asks that an update and a remove of the same todo
    apply in the order they were submitted.  The class keeps the order
    within a slot only: *)

(** C31. A remove can overtake an update.  A todo is in the repository and
    nothing is outstanding in the update and remove slots.  An update of
    the todo is dispatched, then a remove of it; the service answers the
    remove first.  Then the remove succeeds and the update, submitted
    before it, fails with [NotFound]: the two requests are in different
    slots, and the class does not order them. *)
Theorem remove_overtakes_update x t sys :
  wf sys →
  outstanding Update (effects sys) = [] →
  outstanding Remove (effects sys) = [] →
  TodoRepository.lookup (todoId x) (store sys) = Some t →
  emits (run [User (TodoActions.update x); User (TodoActions.remove (todoId x));
              Respond Remove; Respond Update] sys).2
  = [TodoActions.removeSuccess (todoId x);
     TodoActions.updateFailure TodoRepository.not_found].
Proof.
  intros Hwf Hu Hr Ht. destruct (run_refines_queues
    [User (TodoActions.update x); User (TodoActions.remove (todoId x));
     Respond Remove; Respond Update] sys Hwf) as [_ ->].
  destruct Hwf as (_ & Hwf & _). apply lookup_Some in Ht as [Ht Hid].
  assert (todoId x ∈ TodoRepository.ids (store sys)) as [st' Hrm]%remove_found
    by (rewrite <-Hid; by apply list_elem_of_fmap_2).
  pose proof (remove_gone _ _ _ Hwf Hrm) as [Hgone _].
  rewrite queues_run_cons, (queues_user _ (TodoService.update x)) by done.
  cbn [fst snd]. rewrite queues_run_cons.
  rewrite (queues_user _ (TodoService.remove (todoId x))) by done.
  cbn [fst snd]. rewrite queues_run_cons.
  rewrite (queues_respond Remove (TodoService.remove (todoId x)) [])
    by (cbn; by rewrite fn_lookup_insert, fn_lookup_insert_ne, Hr).
  cbn [fst snd]. rewrite queues_run_cons.
  rewrite (queues_respond Update (TodoService.update x) [])
    by (cbn; by rewrite fn_lookup_insert_ne, fn_lookup_insert_ne,
          fn_lookup_insert, Hu).
  cbn [fst snd Queues.service backend_exec memory_backend Service.exec
       queues_of app Queues.outcome].
  by rewrite Hrm, update_not_found.
Qed.

Lemma remove_overtakes_update_witness :
  emits (run [User (TodoActions.update milk_done);
              User (TodoActions.remove (todoId milk_done));
              Respond Remove; Respond Update] shopping).2
  = [TodoActions.removeSuccess (todoId milk_done);
     TodoActions.updateFailure TodoRepository.not_found].
Proof.
  apply (remove_overtakes_update milk_done milk shopping);
    [exact (shopping_wf [])|by vm_compute..].
Defined.

Lemma updates_apply_in_order_witness :
  TodoRepository.lookup (todoId (titled "A"))
    (store (run (User (TodoActions.update (titled "A"))
                   :: [User (TodoActions.loadAll 0 10)]
                   ++ User (TodoActions.update (titled "B"))
                   :: [Respond LoadAll]
                   ++ Respond Update :: [User (TodoActions.create eggs_draft)]
                   ++ Respond Update :: [Respond Create]) shopping).1)
  = Some (mkTodo (todoId milk) (Service.trim (title (titled "B")))
            (completed (titled "B")) (createdAt milk)).
Proof.
  apply (updates_apply_in_order (titled "A") (titled "B") milk
           [User (TodoActions.loadAll 0 10)] [Respond LoadAll]
           [User (TodoActions.create eggs_draft)] [Respond Create] shopping);
    [exact (shopping_wf [])|by vm_compute..| | | |];
    repeat constructor; discriminate.
Defined.
End updates.
