(* ===== verification/Transport.v ===== *)
(** * The transport between the class and the service

    The calls of the class reach the service over a network.  The
    specification says what a failure of the transport looks like to the
    class: a structured failure whose kind is read off an HTTP-like
    status, 404 as [NotFound], 400 as [ValidationError], 5xx as
    [ServiceUnavailable], transient and safe to retry, and anything else
    as [UnknownError], the catch-all of the taxonomy.  [Transport] puts a
    transport in front of any backend: a schedule says which of the coming
    calls the transport rejects, and with which status; a rejected call
    fails with the kind of its status and does not reach the service,
    every other call is the call of the backend behind.

    A transport in front of a backend is a backend, so every theorem of
    [System] and [Async] that holds for all backends holds with rejected
    calls: one outcome per answered request, the order of the calls, no
    request lost.  What is proper to the transport is proved here. *)

From stdpp Require Import pretty.
From S2P Require Import Prelude Rxjs Actions Dialog Effects Samples Slots.
From S2P Require Import Reactions Machine Order Latest Progress Backend Service.
From S2P Require Import System.

Import (hints) Rx TodoActions TodoService TodoEffects.

Module Transport.

(** The schedule of the transport: for each of the coming calls, [None]
    when the call goes through, the status when the transport rejects
    it. *)
Record state (B : Type) : Type := State {
  service : B;
  outages : list (option nat) }.

Arguments State {B} service outages.
Arguments service {B} _.
Arguments outages {B} _.

(** The kind of failure a status is mapped to. *)
Definition kind_of_status (n : nat) : ErrorKind :=
  if decide (n = 404) then NotFound
  else if decide (n = 400) then ValidationError
  else if decide (500 ≤ n ≤ 599) then ServiceUnavailable
  else UnknownError.

(** The failure a call rejected with status [n] delivers. *)
Definition rejected (n : nat) : Failure :=
  mkFailure (kind_of_status n) ("HTTP " +:+ pretty n).

Section defs.
Context {B : Type} `{!Backend B}.

Definition init (schedule : list (option nat)) : state B :=
  State backend_init schedule.

(** A call goes over the transport: the head of the schedule says whether
    the transport rejects it; after the schedule the transport is up. *)
Definition exec (c : TodoService.Call) (t : state B)
  : state B * (Failure + Result (slot_of_call c)) :=
  match outages t with
  | Some n :: rest => (State (service t) rest, inl (rejected n))
  | _ =>
      (State (backend_exec c (service t)).1 (tail (outages t)),
       (backend_exec c (service t)).2)
  end.

Definition wf (t : state B) : Prop := backend_wf (service t).
End defs.

End Transport.

Section transport_lemmas.
Context {B : Type} `{!Backend B}.
Implicit Types (t : Transport.state B) (c : TodoService.Call).

Lemma transport_wf_init schedule : Transport.wf (Transport.init schedule).
Proof. apply backend_wf_init. Qed.

Lemma transport_wf_exec c t : Transport.wf t → Transport.wf (Transport.exec c t).1.
Proof.
  unfold Transport.wf, Transport.exec. intros Ht.
  destruct (Transport.outages t) as [|[] rest]; simpl;
    auto using backend_wf_exec.
Qed.

(** The classes of statuses: 404, 400, the range from 500 to 599, and the
    rest. *)
Lemma status_classes n :
  (Transport.kind_of_status n = NotFound ↔ n = 404) ∧
  (Transport.kind_of_status n = ValidationError ↔ n = 400) ∧
  (Transport.kind_of_status n = ServiceUnavailable ↔ 500 ≤ n ≤ 599) ∧
  (Transport.kind_of_status n = UnknownError
   ↔ n ≠ 404 ∧ n ≠ 400 ∧ ¬ (500 ≤ n ≤ 599)).
Proof.
  unfold Transport.kind_of_status.
  repeat case_decide; split_and!; split; try done; try lia; naive_solver lia.
Qed.

Lemma exec_outage c t n rest :
  Transport.outages t = Some n :: rest →
  Transport.exec c t
  = (Transport.State (Transport.service t) rest, inl (Transport.rejected n)).
Proof. unfold Transport.exec. by intros ->. Qed.

Lemma exec_up c t rest :
  Transport.outages t = None :: rest →
  Transport.exec c t
  = (Transport.State (backend_exec c (Transport.service t)).1 rest,
     (backend_exec c (Transport.service t)).2).
Proof. unfold Transport.exec. by intros ->. Qed.
End transport_lemmas.

(** A transport with a schedule of outages, in front of a backend. *)
Definition transport_backend {B : Type} `{!Backend B}
    (schedule : list (option nat))
  : Backend (Transport.state B) := {|
  backend_init := Transport.init schedule;
  backend_exec := Transport.exec;
  backend_wf := Transport.wf;
  backend_wf_init := transport_wf_init schedule;
  backend_wf_exec := transport_wf_exec |}.

Section outage.
Import TodoEffects System.
Context {B : Type} `{!Backend B} (schedule : list (option nat)).
#[local] Instance flaky : Backend (Transport.state B) := transport_backend schedule.
Implicit Types (sys : state (Transport.state B)) (c : TodoService.Call).

(** The answer to a call the transport rejects: the failure is reported,
    the service is not reached. *)
Lemma respond_outage c i n rest sys :
  in_flight (slot_of_call c) (effects sys) = Some (i, c) →
  Transport.outages (store sys) = Some n :: rest →
  emits (step (Respond (slot_of_call c)) sys).2
  = [failure (slot_of_call c) (Transport.rejected n)] ∧
  store (step (Respond (slot_of_call c)) sys).1
  = Transport.State (Transport.service (store sys)) rest.
Proof.
  intros Hi Ho. destruct (respond_emits _ i c sys Hi) as [-> ->].
  cbn [backend_exec flaky transport_backend].
  by rewrite (exec_outage c _ n rest).
Qed.

(** The answer to a call when the transport is up is the answer of the
    service. *)
Lemma respond_up c i rest sys :
  in_flight (slot_of_call c) (effects sys) = Some (i, c) →
  Transport.outages (store sys) = None :: rest →
  emits (step (Respond (slot_of_call c)) sys).2
  = [match (backend_exec c (Transport.service (store sys))).2 with
     | inl e => failure (slot_of_call c) e
     | inr v => success c v
     end] ∧
  store (step (Respond (slot_of_call c)) sys).1
  = Transport.State (backend_exec c (Transport.service (store sys))).1 rest.
Proof.
  intros Hi Ho. destruct (respond_emits _ i c sys Hi) as [-> ->].
  cbn [backend_exec flaky transport_backend]. by rewrite (exec_up c _ rest).
Qed.

(** C36. A rejected call is reported with the kind of its status and is
    safe to retry.  A call the transport rejects with status [n] is
    reported by the failure action of its slot, with the kind the status
    is mapped to, [ServiceUnavailable] exactly for the statuses from 500
    to 599, and it does not reach the service.  When the user dispatches
    the request again and the transport is up, the call is made anew and
    reported with the outcome the service gives it, and the service is as
    if the call had not been rejected. *)
Theorem outage_then_retry c i a n rest sys :
  in_flight (slot_of_call c) (effects sys) = Some (i, c) →
  waiting (slot_of_call c) (effects sys) = [] →
  call_of_action a = Some c →
  Transport.outages (store sys) = Some n :: None :: rest →
  emits (run [Respond (slot_of_call c); User a; Respond (slot_of_call c)] sys).2
  = [failure (slot_of_call c) (Transport.rejected n);
     match (backend_exec c (Transport.service (store sys))).2 with
     | inl e => failure (slot_of_call c) e
     | inr v => success c v
     end] ∧
  (kind (Transport.rejected n) = ServiceUnavailable ↔ 500 ≤ n ≤ 599) ∧
  store (run [Respond (slot_of_call c); User a; Respond (slot_of_call c)] sys).1
  = Transport.State (backend_exec c (Transport.service (store sys))).1 rest.
Proof.
  intros Hi Hw Ha Ho.
  destruct (respond_outage c i n _ sys Hi Ho) as [He1 Hs1].
  pose proof (respond_frees _ i c sys Hi Hw) as Hin1.
  destruct (user_request a c _ Ha Hin1) as (Hin2 & Hs2 & He2).
  destruct (respond_up c _ rest _ Hin2) as [He3 Hs3]; [by rewrite Hs2, Hs1|].
  rewrite Hs2, Hs1 in He3, Hs3. cbn [Transport.service] in He3, Hs3.
  rewrite !sys_run_cons. cbn [fst snd].
  rewrite !emits_app, He1, He2, He3. split_and!; [done| |done].
  apply status_classes.
Qed.

End outage.

Section outage_example.
Import TodoEffects System.

(** The transport is up for the first call, answers the second with 503
    and is up again for the third. *)
#[local] Instance one_outage : Backend (Transport.state TodoRepository.store) :=
  transport_backend [None; Some 503; None].

Lemma outage_then_retry_witness :
  emits (run [Respond Load; User (TodoActions.load "t1"); Respond Load]
           (run [User (TodoActions.create milk_draft); Respond Create;
                 User (TodoActions.load "t1")] init).1).2
  = [TodoActions.loadFailure (Transport.rejected 503);
     TodoActions.loadSuccess milk] ∧
  (kind (Transport.rejected 503) = ServiceUnavailable ↔ 500 ≤ 503 ≤ 599) ∧
  store (run [Respond Load; User (TodoActions.load "t1"); Respond Load]
           (run [User (TodoActions.create milk_draft); Respond Create;
                 User (TodoActions.load "t1")] init).1).1
  = Transport.State (TodoRepository.Store [milk] 2) [].
Proof.
  exact (outage_then_retry [None; Some 503; None] (TodoService.find "t1") 0
           (TodoActions.load "t1") 503 []
           (run [User (TodoActions.create milk_draft); Respond Create;
                 User (TodoActions.load "t1")] init).1
           eq_refl eq_refl eq_refl eq_refl).
Defined.

(** A server that answers an error it cannot name with 500 is seen as
    unavailable: of the usual statuses none is read as [UnknownError]. *)
Example internal_error_is_unavailable :
  Transport.rejected 500 = mkFailure ServiceUnavailable "HTTP 500" ∧
  Transport.rejected 404 = mkFailure NotFound "HTTP 404" ∧
  Transport.rejected 400 = mkFailure ValidationError "HTTP 400" ∧
  Transport.rejected 401 = mkFailure UnknownError "HTTP 401".
Proof. by vm_compute. Qed.
End outage_example.
