(* ===== verification/Async.v ===== *)
(** * The class against a service that answers in its own time

    In [System] the service executes a call at the moment it answers it.
    Here the two are apart, as they are for a service behind a network: a
    call the class makes is a request on the wire; the service executes the
    requests on the wire in any order; the result of an executed request
    waits in an inbox and is delivered to the class at any later time, in
    any order.  A request [loadAll$] has cancelled stays where it is: it
    may still be executed and its result may still arrive, addressed to a
    subscription that has ended.

    The file holds the machine ([Async]), the invariant that ties the
    network to the class ([coherent]) and the proof that every step keeps
    it.  The invariant says that the network holds, of a [concatMap]
    effect, the call in flight and nothing else, and, of [loadAll$], the
    call in flight among requests and results of earlier subscriptions. *)

From S2P Require Import Prelude Rxjs Actions Dialog Effects Samples Slots.
From S2P Require Import Reactions Machine Order Latest Progress Backend.

Import (hints) Rx TodoActions TodoService TodoEffects.

Module Async.

Import TodoEffects.

(** A request on the wire: the call, with the index of the subscription
    that waits for its result. *)
Abbreviation Request := (nat * TodoService.Call)%type.

(** The result of an executed request, on its way back. *)
Record Response : Type := mkResponse {
  resp_index : nat;
  resp_call : TodoService.Call;
  resp_result : Failure + Result (slot_of_call resp_call) }.

Record state (B : Type) : Type := mkAsync {
  effects : State;
  service : B;
  wire : list Request;
  inbox : list Response;
  executed : list TodoService.Call }.

Arguments mkAsync {B} effects service wire inbox executed.
Arguments effects {B} _.
Arguments service {B} _.
Arguments wire {B} _.
Arguments inbox {B} _.
Arguments executed {B} _.

(** What happens to the system: the user dispatches an action, the service
    executes the request at some place of the wire, or the result at some
    place of the inbox reaches the class. *)
Inductive Event : Type :=
| User (a : TodoActions.Action)
| Execute (k : nat)
| Deliver (k : nat).

(** The requests the class sends in a list of outputs: one for each
    subscription to the observable of a service call. *)
Definition sent (outs : list Output) : list Request :=
  omap (λ o, match o with Subscribe _ i c => Some (i, c) | _ => None end) outs.

(** The request a response answers. *)
Definition answers (r : Response) : Request := (resp_index r, resp_call r).

Section defs.
Context {B : Type} `{!Backend B}.

Definition init : state B := mkAsync TodoEffects.init backend_init [] [] [].

(** Events reach the class; the calls it makes in reaction go on the
    wire. *)
Definition react (evs : list TodoEffects.Event) : Handler (state B) Output :=
  λ sys,
  let '(st, outs) := TodoEffects.run evs (effects sys) in
  (mkAsync st (service sys) (wire sys ++ sent outs) (inbox sys) (executed sys),
   outs).

Definition step (ev : Event) : Handler (state B) Output := λ sys,
  match ev with
  | User a => react [Dispatch a] sys
  | Execute k =>
      match wire sys !! k with
      | Some (i, c) =>
          let '(b, r) := backend_exec c (service sys) in
          (mkAsync (effects sys) b (delete k (wire sys))
             (inbox sys ++ [mkResponse i c r]) (executed sys ++ [c]), [])
      | None => (sys, [])
      end
  | Deliver k =>
      match inbox sys !! k with
      | Some r =>
          react (replies (resp_call r) (resp_index r) (resp_result r))
            (mkAsync (effects sys) (service sys) (wire sys)
               (delete k (inbox sys)) (executed sys))
      | None => (sys, [])
      end
  end.

Definition run (evs : list Event) : Handler (state B) Output :=
  for_each step evs.
End defs.

(** The actions the user dispatches in a list of events, in order. *)
Definition users (evs : list Event) : list TodoActions.Action :=
  omap (λ ev, match ev with User a => Some a | _ => None end) evs.

(** The requests of slot [s] among [l]. *)
Definition for_slot (s : Slot) (l : list Request) : list Request :=
  filter (λ x, slot_of_call x.2 = s) l.

(** What is in the network: the requests on the wire, then the requests
    whose results are on their way back. *)
Definition in_transit {B : Type} (sys : state B) : list Request :=
  wire sys ++ (answers <$> inbox sys).

(** The network [l] is tied to the effect of slot [s]: of a [concatMap]
    effect it holds the call in flight and nothing else; of [loadAll$] it
    holds the call in flight, and every request of [loadAll$] in it was
    subscribed to before the index of the effect and, if it has the index
    of the call in flight, is that call. *)
Definition tied_at (s : Slot) (st : State) (l : list Request) : Prop :=
  if decide (s = LoadAll) then
    (∀ x, in_flight s st = Some x → x ∈ for_slot s l) ∧
    (∀ i c, (i, c) ∈ for_slot s l →
       i < subscriptions s st ∧ ∀ c', in_flight s st = Some (i, c') → c' = c)
  else for_slot s l ≡ₚ option_list (in_flight s st).

Definition tied (st : State) (l : list Request) : Prop := ∀ s, tied_at s st l.

(** The invariant: the class and the service are well formed, the service
    is what the executed calls have made it, and the network is tied to the
    class. *)
Definition coherent {B : Type} `{!Backend B} (sys : state B) : Prop :=
  TodoEffects.wf (effects sys) ∧ backend_wf (service sys) ∧
  service sys = exec_all (executed sys) backend_init ∧
  tied (effects sys) (in_transit sys).

End Async.

(** ** What the class sends *)

(** A subscription is addressed to the effect of its call. *)
Definition well_addressed (o : TodoEffects.Output) : Prop :=
  match o with
  | TodoEffects.Subscribe s _ c => slot_of_call c = s
  | _ => True
  end.

Section sent.
Import Async TodoEffects.
Implicit Types (s : Slot) (st : State) (outs : list Output).
Implicit Types (evs : list TodoEffects.Event) (l : list Request).

Lemma sent_app outs1 outs2 : sent (outs1 ++ outs2) = sent outs1 ++ sent outs2.
Proof. apply omap_app. Qed.

Lemma sent_dialog outs : Forall is_dialog_output outs → sent outs = [].
Proof.
  intros H. apply omap_Forall_None. eapply Forall_impl; [done|]. by intros [].
Qed.

Lemma for_slot_app s l1 l2 : for_slot s (l1 ++ l2) = for_slot s l1 ++ for_slot s l2.
Proof. apply filter_app. Qed.

Lemma for_slot_cons s x l :
  for_slot s (x :: l) = if decide (slot_of_call x.2 = s) then x :: for_slot s l
                       else for_slot s l.
Proof. unfold for_slot. by rewrite filter_cons. Qed.

Lemma for_slot_nil s : for_slot s [] = [].
Proof. done. Qed.

Lemma for_slot_here s x l :
  slot_of_call x.2 = s → for_slot s (x :: l) = x :: for_slot s l.
Proof. intros. by rewrite for_slot_cons, decide_True. Qed.

Lemma for_slot_skip s x l :
  slot_of_call x.2 ≠ s → for_slot s (x :: l) = for_slot s l.
Proof. intros. by rewrite for_slot_cons, decide_False. Qed.

Lemma elem_of_for_slot s x l : x ∈ for_slot s l ↔ slot_of_call x.2 = s ∧ x ∈ l.
Proof. unfold for_slot. by rewrite list_elem_of_filter. Qed.

#[export] Instance for_slot_perm s : Proper ((≡ₚ) ==> (≡ₚ)) (for_slot s).
Proof. intros l1 l2 Hl. unfold for_slot. by rewrite Hl. Qed.

(** The requests of a slot among those of another are none. *)
Lemma for_slot_other s l :
  Forall (λ x, slot_of_call x.2 ≠ s) l → for_slot s l = [].
Proof.
  induction 1 as [|x l Hx _ IH]; [done|].
  by rewrite for_slot_skip.
Qed.

Lemma for_slot_same s l :
  Forall (λ x, slot_of_call x.2 = s) l → for_slot s l = l.
Proof.
  induction 1 as [|x l Hx _ IH]; [done|].
  by rewrite for_slot_here, IH.
Qed.

Lemma step_well_addressed ev st : Forall well_addressed (step ev st).2.
Proof.
  assert (∀ s' (outs' : list (Rx.Out _ TodoActions.Action Failure)),
    Forall well_addressed (out_of s' (sv_call (view s')) <$> outs')) as Hsub.
  { intros s' outs'. apply Forall_fmap, Forall_forall. intros [] _; try done.
    apply view_call_slot. }
  apply (slots_step_spec (λ _, True) (λ _ outs _, Forall well_addressed outs));
    [| | | |done].
  - intros st1 outs st2 _ _ Houts. split; [done|].
    eapply Forall_impl; [done|]. by intros [].
  - intros s x st' _. split; [done|]. unfold slot_outer.
    rewrite lift_outputs. apply Hsub.
  - intros b _ st' _. split; [done|]. by repeat constructor.
  - intros s i st' _. split; [done|]. unfold slot_inner.
    rewrite lift_outputs. apply Hsub.
Qed.

Lemma run_well_addressed evs st : Forall well_addressed (run evs st).2.
Proof. apply produces_for_each. intros ev st'. apply step_well_addressed. Qed.

(** The calls of a slot are the requests sent for it. *)
Lemma calls_sent s outs :
  Forall well_addressed outs → calls s outs = snd <$> for_slot s (sent outs).
Proof.
  induction 1 as [|o outs Ho _ IH]; [done|].
  destruct o; csimpl; rewrite ?for_slot_cons; simpl in *; subst; try done.
  case_decide; by rewrite ?decide_True, ?decide_False, ?IH.
Qed.

(** Events that do not concern a slot leave it alone and send nothing for
    it. *)
Lemma run_untouched s evs st :
  Forall (λ ev, ¬ concerns s ev) evs →
  slot_state s (run evs st).1 = slot_state s st ∧
  for_slot s (sent (run evs st).2) = [].
Proof.
  intros Hevs. revert st. induction Hevs as [|ev evs Hev _ IH]; intros st; [done|].
  rewrite run_cons. cbn [fst snd]. destruct (IH (step ev st).1) as [-> Hs].
  destruct (step_untouched s ev st Hev) as [-> Hc].
  rewrite (calls_sent s) in Hc by apply step_well_addressed.
  apply fmap_nil_inv in Hc. by rewrite sent_app, for_slot_app, Hc, Hs.
Qed.

Lemma replies_other s c i r :
  slot_of_call c ≠ s → Forall (λ ev, ¬ concerns s ev) (replies c i r).
Proof. intros Hs. destruct r; by repeat constructor. Qed.

(** The index of a slot moves by the number of requests sent for it. *)
Lemma run_subscriptions s evs st :
  subscriptions s (run evs st).1
  = subscriptions s st + length (for_slot s (sent (run evs st).2)).
Proof.
  revert st. induction evs as [|ev evs IH]; intros st; [simpl; lia|].
  rewrite run_cons. cbn [fst snd].
  destruct (step_numbered s ev st) as [_ Hn].
  rewrite (calls_sent s), length_fmap in Hn by apply step_well_addressed.
  by rewrite sent_app, for_slot_app, length_app, IH, Hn, Nat.add_assoc.
Qed.

(** A dispatched request is sent at once by an idle effect and by
    [loadAll$], and is then the call in flight; a busy [concatMap] effect
    sends nothing and keeps its call in flight. *)
Lemma sent_request a c st :
  call_of_action a = Some c →
  (slot_of_call c ≠ LoadAll ∧ is_Some (in_flight (slot_of_call c) st) ∧
   sent (dispatch a st).2 = [] ∧
   in_flight (slot_of_call c) (dispatch a st).1 = in_flight (slot_of_call c) st)
  ∨ ((slot_of_call c = LoadAll ∨ in_flight (slot_of_call c) st = None) ∧
     sent (dispatch a st).2 = [(subscriptions (slot_of_call c) st, c)] ∧
     in_flight (slot_of_call c) (dispatch a st).1
     = Some (subscriptions (slot_of_call c) st, c)).
Proof.
  intros Ha. destruct (dispatch_request a c st Ha) as (-> & -> & _).
  destruct (in_flight _ st) as [[j d]|] eqn:Hj; [|right; auto].
  case_decide as Hs; [right; rewrite Hs; auto|left; eauto].
Qed.

(** The result of the call in flight reaches the class: what the class
    sends in reaction is the call in flight afterwards, if any. *)
Lemma sent_answer c i r st :
  in_flight (slot_of_call c) st = Some (i, c) →
  sent (run (replies c i r) st).2
  = option_list (in_flight (slot_of_call c) (run (replies c i r) st).1).
Proof.
  intros Hi. destruct r as [e|v]; simpl replies;
    rewrite !run_cons, run_nil; cbn [fst snd]; rewrite !app_nil_r.
  - rewrite (reply_error _ i c), seq_eq by done. cbn [fst snd emit].
    destruct (slot_complete _ i c st Hi) as (-> & -> & _).
    by destruct (waiting _ st).
  - destruct (step_value c i v st Hi) as [_ Hst].
    assert (Forall is_dialog_output
              (dispatch (success c v) st).2) as Hd
      by by apply dispatch_dialog, outcome_no_call, success_is_outcome.
    rewrite sent_app. rewrite (reply_value c i v st Hi), seq_eq in Hst |- *.
    unfold emit in Hst |- *. cbn [fst snd] in Hst |- *.
    rewrite sent_app, (sent_dialog _ Hd).
    set (st1 := (dispatch (success c v) st).1) in *.
    assert (in_flight (slot_of_call c) st1 = Some (i, c)) as Hi1
      by by rewrite view_in_flight, Hst, <-view_in_flight.
    rewrite (reply_complete _ i c) by done.
    destruct (slot_complete _ i c st1 Hi1) as (-> & -> & _).
    by destruct (waiting _ st1).
Qed.

(** The result of a call whose subscription has ended changes nothing and
    makes the class send nothing. *)
Lemma replies_stale c i r st :
  (∀ c', in_flight (slot_of_call c) st ≠ Some (i, c')) →
  run (replies c i r) st = (st, []).
Proof.
  intros Hi. destruct r as [e|v]; simpl replies;
    repeat (rewrite run_cons, reply_stale by done; cbn [fst snd]); done.
Qed.
End sent.

(** ** The network is tied to the class *)

Section tied.
Import Async TodoEffects.
Implicit Types (s : Slot) (st : State) (l : list Request) (x : Request).
Implicit Types (c : TodoService.Call) (i : nat).

Lemma run_dispatch a st : run [Dispatch a] st = dispatch a st.
Proof. unfold run. by rewrite for_each_singleton. Qed.

(** What is tied to a slot depends on the requests of the slot and on the
    state of its effect only. *)
Lemma tied_at_frame s st st' l l' :
  for_slot s l' ≡ₚ for_slot s l → slot_state s st' = slot_state s st →
  tied_at s st l → tied_at s st' l'.
Proof.
  intros Hl Hst. unfold tied_at.
  rewrite !view_in_flight, !view_subscriptions, Hst.
  case_decide; [by setoid_rewrite Hl|by rewrite Hl].
Qed.

#[export] Instance tied_perm st : Proper ((≡ₚ) ==> iff) (tied st).
Proof.
  intros l1 l2 Hl.
  split; intros Ht s; apply (tied_at_frame s st st _ _) with (3 := Ht s);
    by rewrite ?Hl.
Qed.

Lemma tied_init : tied init [].
Proof.
  intros s. unfold tied_at. case_decide; [subst|by destruct s].
  split; [done|]. by intros i c Hin%elem_of_nil.
Qed.

(** A request in the network is the call in flight of its slot, or its
    subscription has ended. *)
Lemma live_or_stale i c st l :
  tied_at (slot_of_call c) st ((i, c) :: l) →
  in_flight (slot_of_call c) st = Some (i, c) ∨
  ∀ c', in_flight (slot_of_call c) st ≠ Some (i, c').
Proof.
  unfold tied_at. rewrite for_slot_here by done.
  case_decide as Hs.
  - intros [_ HK]. destruct (HK i c) as [_ Hsame]; [left|].
    destruct (in_flight _ st) as [[j c']|] eqn:Hj; [|by right].
    destruct (decide (j = i)) as [->|]; [left|right; congruence].
    by rewrite (Hsame c').
  - intros HJ. left. destruct (in_flight _ st) as [y|]; simpl in HJ.
    + apply Permutation_singleton_r in HJ. congruence.
    + by apply Permutation_nil_r in HJ.
Qed.

(** A dispatched request and the effect of its slot. *)
Lemma tied_at_request a c st l :
  call_of_action a = Some c → tied_at (slot_of_call c) st l →
  tied_at (slot_of_call c) (run [Dispatch a] st).1
    (l ++ sent (run [Dispatch a] st).2).
Proof.
  intros Ha. unfold tied_at. rewrite (run_subscriptions _ [Dispatch a]).
  rewrite run_dispatch, for_slot_app.
  destruct (sent_request a c st Ha) as [(Hs & _ & -> & ->)|(Hs & -> & ->)].
  { by rewrite for_slot_nil, app_nil_r, Nat.add_0_r. }
  rewrite for_slot_here, for_slot_nil by done.
  case_decide as Hl; [|destruct Hs as [?|Hn]; [done|]].
  - intros [_ HK]. split; [intros x [= <-]; apply elem_of_app; right; left|].
    intros i d [Hd|[= -> ->]%list_elem_of_singleton]%elem_of_app;
      [|simpl; split; [lia|congruence]].
    destruct (HK i d Hd) as [Hlt _]. split; [simpl; lia|].
    intros c' [= Hi _]. lia.
  - rewrite Hn. by intros ->.
Qed.

(** The result of the call in flight and the effect of its slot. *)
Lemma tied_at_answer i c r st l :
  in_flight (slot_of_call c) st = Some (i, c) →
  tied_at (slot_of_call c) st ((i, c) :: l) →
  tied_at (slot_of_call c) (run (replies c i r) st).1
    (l ++ sent (run (replies c i r) st).2).
Proof.
  intros Hi. unfold tied_at. rewrite (run_subscriptions _ (replies c i r)).
  rewrite for_slot_app, (sent_answer c i r st Hi), for_slot_here by done.
  destruct (answer c i r st Hi) as (_ & _ & Hin & _).
  case_decide as Hs.
  - rewrite Hin, Hs. cbn [waiting head fmap option_fmap option_map option_list].
    rewrite app_nil_r. intros [_ HK]. split; [done|]. intros j d Hd.
    destruct (HK j d) as [Hlt _]; [by right|].
    split; [by apply Nat.lt_lt_add_r|done].
  - intros HJ. rewrite Hi in HJ. apply Permutation_singleton_r in HJ.
    injection HJ as ->. simpl. apply Permutation_refl', for_slot_same.
    destruct (in_flight _ (run _ st).1) as [[j d]|] eqn:Hj; repeat constructor.
    by eapply in_flight_slot.
Qed.

(** A result whose subscription has ended leaves the network tied when it
    is taken out. *)
Lemma tied_at_stale i c st l :
  (∀ c', in_flight (slot_of_call c) st ≠ Some (i, c')) →
  tied_at (slot_of_call c) st ((i, c) :: l) → tied_at (slot_of_call c) st l.
Proof.
  intros Hst. unfold tied_at. rewrite for_slot_here by done.
  case_decide as Hs.
  - intros [HA HK]. split; [|intros j d Hd; apply HK; by right].
    intros [j d] Hj. apply HA in Hj as Hin.
    apply elem_of_cons in Hin as [[= -> ->]|]; [by destruct (Hst _ Hj)|done].
  - intros HJ. destruct (in_flight _ st) as [[j d]|] eqn:Hj; simpl in HJ.
    + apply Permutation_singleton_r in HJ. injection HJ as <- <- _.
      by destruct (Hst c).
    + by apply Permutation_nil_r in HJ.
Qed.

(** A slot the events do not concern stays tied. *)
Lemma tied_at_other s evs st l :
  Forall (λ ev, ¬ concerns s ev) evs → tied_at s st l →
  tied_at s (run evs st).1 (l ++ sent (run evs st).2).
Proof.
  intros Hevs. destruct (run_untouched s evs st Hevs) as [Hst Hs].
  apply tied_at_frame; [|done]. by rewrite for_slot_app, Hs, app_nil_r.
Qed.

Lemma tied_dispatch a st l :
  tied st l → tied (run [Dispatch a] st).1 (l ++ sent (run [Dispatch a] st).2).
Proof.
  intros Ht s. destruct (decide (concerns s (Dispatch a))) as [Hs|Hs].
  - simpl in Hs. destruct (call_of_action a) as [c|] eqn:Ha; [subst s|done].
    by apply tied_at_request.
  - apply tied_at_other; [by repeat constructor|done].
Qed.

Lemma tied_deliver i c r st l :
  tied st ((i, c) :: l) →
  tied (run (replies c i r) st).1 (l ++ sent (run (replies c i r) st).2).
Proof.
  intros Ht s. destruct (decide (slot_of_call c = s)) as [<-|Hs].
  - destruct (live_or_stale i c st l (Ht _)) as [Hlive|Hstale].
    + by apply tied_at_answer.
    + rewrite replies_stale by done. simpl. rewrite app_nil_r.
      by apply (tied_at_stale i).
  - apply tied_at_other; [by apply replies_other|].
    apply (tied_at_frame s st st ((i, c) :: l)); [|done..].
    by rewrite for_slot_skip.
Qed.
End tied.

(** ** The steps of the system *)

Section async.
Import TodoEffects Async.
Context {B : Type} `{!Backend B}.
Implicit Types (sys : state B) (ev : Event) (evs : list Event) (s : Slot).
Implicit Types (mevs : list TodoEffects.Event) (r : Response) (k i : nat).

Lemma react_eq mevs sys :
  react mevs sys
  = (mkAsync (TodoEffects.run mevs (effects sys)).1 (service sys)
       (wire sys ++ sent (TodoEffects.run mevs (effects sys)).2)
       (inbox sys) (executed sys),
     (TodoEffects.run mevs (effects sys)).2).
Proof. unfold react. by destruct (TodoEffects.run _ _). Qed.

Lemma async_step_user a sys : step (User a) sys = react [Dispatch a] sys.
Proof. done. Qed.

Lemma step_execute k i c sys :
  wire sys !! k = Some (i, c) →
  step (Execute k) sys
  = (mkAsync (effects sys) (backend_exec c (service sys)).1
       (delete k (wire sys))
       (inbox sys ++ [mkResponse i c (backend_exec c (service sys)).2])
       (executed sys ++ [c]), []).
Proof. intros Hk. unfold step. rewrite Hk. by destruct (backend_exec _ _). Qed.

Lemma step_execute_none k sys :
  wire sys !! k = None → step (Execute k) sys = (sys, []).
Proof. intros Hk. unfold step. by rewrite Hk. Qed.

Lemma step_deliver k r sys :
  inbox sys !! k = Some r →
  step (Deliver k) sys
  = react (replies (resp_call r) (resp_index r) (resp_result r))
      (mkAsync (effects sys) (service sys) (wire sys) (delete k (inbox sys))
         (executed sys)).
Proof. intros Hk. unfold step. by rewrite Hk. Qed.

Lemma step_deliver_none k sys :
  inbox sys !! k = None → step (Deliver k) sys = (sys, []).
Proof. intros Hk. unfold step. by rewrite Hk. Qed.

Lemma async_run_snoc evs ev sys :
  run (evs ++ [ev]) sys
  = ((step ev (run evs sys).1).1, (run evs sys).2 ++ (step ev (run evs sys).1).2).
Proof. unfold run. by rewrite for_each_snoc, seq_eq. Qed.

Lemma async_run_cons ev evs sys :
  run (ev :: evs) sys
  = ((run evs (step ev sys).1).1, (step ev sys).2 ++ (run evs (step ev sys).1).2).
Proof. unfold run. by rewrite for_each_cons, seq_eq. Qed.

Lemma async_run_app evs1 evs2 sys :
  run (evs1 ++ evs2) sys
  = ((run evs2 (run evs1 sys).1).1,
     (run evs1 sys).2 ++ (run evs2 (run evs1 sys).1).2).
Proof. unfold run. by rewrite for_each_app, seq_eq. Qed.

(** What is in the network after a reaction of the class, after an
    execution, and before a delivery. *)
Lemma in_transit_react mevs sys :
  in_transit (react mevs sys).1
  ≡ₚ in_transit sys ++ sent (TodoEffects.run mevs (effects sys)).2.
Proof.
  rewrite react_eq. unfold in_transit. cbn [fst wire inbox].
  rewrite <-!app_assoc. f_equiv. apply Permutation_app_comm.
Qed.

Lemma in_transit_execute k i c sys :
  wire sys !! k = Some (i, c) →
  in_transit (step (Execute k) sys).1 ≡ₚ in_transit sys.
Proof.
  intros Hk. rewrite (step_execute k i c) by done. unfold in_transit.
  cbn [fst wire inbox]. rewrite fmap_app, app_assoc. symmetry.
  etrans; [apply Permutation_app; [by apply delete_Permutation|done]|].
  apply (Permutation_cons_append _ (i, c)).
Qed.

Lemma in_transit_deliver k r sys :
  inbox sys !! k = Some r →
  in_transit sys
  ≡ₚ answers r :: in_transit (mkAsync (effects sys) (service sys) (wire sys)
                               (delete k (inbox sys)) (executed sys)).
Proof.
  intros Hk. unfold in_transit. cbn [wire inbox].
  rewrite (delete_Permutation (inbox sys) k r) at 1 by done.
  by rewrite fmap_cons, Permutation_middle.
Qed.

(** ** Every step keeps the invariant *)

Lemma coherent_init : coherent (init (B:=B)).
Proof. split_and!; [apply wf_init|apply backend_wf_init|done|apply tied_init]. Qed.

Lemma react_coherent mevs sys :
  TodoEffects.wf (effects sys) → backend_wf (service sys) →
  service sys = exec_all (executed sys) backend_init →
  tied (TodoEffects.run mevs (effects sys)).1
    (in_transit sys ++ sent (TodoEffects.run mevs (effects sys)).2) →
  coherent (react mevs sys).1.
Proof.
  intros Hwf Hb He Ht. unfold coherent. rewrite in_transit_react.
  rewrite react_eq. cbn [fst effects service executed].
  split_and!; [by apply Machine.run_wf|done..].
Qed.

Lemma step_coherent ev sys : coherent sys → coherent (step ev sys).1.
Proof.
  intros (Hwf & Hb & He & Ht). destruct ev as [a|k|k].
  - apply react_coherent; [done..|]. by apply tied_dispatch.
  - destruct (wire sys !! k) as [[i c]|] eqn:Hk;
      [|by rewrite step_execute_none].
    unfold coherent. rewrite (in_transit_execute k i c) by done.
    rewrite (step_execute k i c) by done. cbn [fst effects service executed].
    split_and!; [done|by apply backend_wf_exec| |done].
    by rewrite exec_all_snoc, <-He.
  - destruct (inbox sys !! k) as [r|] eqn:Hk; [|by rewrite step_deliver_none].
    rewrite (step_deliver k r) by done. apply react_coherent; [done..|].
    apply tied_deliver. by rewrite <-(in_transit_deliver k r sys).
Qed.

Lemma run_coherent evs sys : coherent sys → coherent (run evs sys).1.
Proof. apply preserves_run. intros ev sys'. apply step_coherent. Qed.

(** The call in flight of a slot is in the network; of a [concatMap]
    effect the network holds nothing else. *)
Lemma coherent_sequential s sys :
  coherent sys → s ≠ LoadAll →
  for_slot s (in_transit sys) = option_list (in_flight s (effects sys)).
Proof.
  intros (_ & _ & _ & Ht) Hs. specialize (Ht s). unfold tied_at in Ht.
  rewrite decide_False in Ht by done.
  destruct (in_flight s _); simpl in Ht |- *;
    [by apply Permutation_singleton_r|by apply Permutation_nil_r].
Qed.

Lemma coherent_in_flight s x sys :
  coherent sys → in_flight s (effects sys) = Some x → x ∈ in_transit sys.
Proof.
  intros Hsys Hx. cut (x ∈ for_slot s (in_transit sys));
    [by intros [_ ?]%elem_of_for_slot|].
  destruct (decide (s = LoadAll)) as [->|Hs].
  - destruct Hsys as (_ & _ & _ & Ht). destruct (Ht LoadAll) as [HA _]. auto.
  - rewrite coherent_sequential, Hx by done. left.
Qed.

(** C20. The network holds the call in flight.  In every run of the class
    against a service that executes the requests and delivers the results
    in any order and at any time, the call in flight of every request
    effect is in the network, on the wire or answered and on its way back;
    and of a [concatMap] effect the network holds nothing else: at most one
    request of the effect is under way at any time, the next one leaves
    only when the result of the one before has reached the class. *)
Theorem network_holds_call_in_flight evs s :
  (∀ x, in_flight s (effects (run evs (init (B:=B))).1) = Some x →
        x ∈ in_transit (run evs (init (B:=B))).1) ∧
  (s ≠ LoadAll →
   for_slot s (in_transit (run evs (init (B:=B))).1)
   = option_list (in_flight s (effects (run evs (init (B:=B))).1))).
Proof.
  pose proof (run_coherent evs init coherent_init) as Hsys.
  split; [intros x; by apply coherent_in_flight|by apply coherent_sequential].
Qed.
End async.
