(* ===== verification/Schedules.v ===== *)
(** * Runs of the asynchronous system

    What holds of the class against a service that executes and answers in
    its own time ([Async]), whatever the order of the executions and of
    the deliveries:

    - every run is a run of the class, on the actions the user dispatched
      and the notifications the deliveries brought, so the theorems on the
      runs of the class hold of it, and the system implements the request
      coordinator of the specification;
    - the service executes the requests of a [concatMap] effect in the
      order of their dispatch;
    - only the result of the last [loadAll] dispatched is reported: the
      result of a superseded one is dropped when it arrives;
    - every result the service gives is reported once, in the order of
      the executions.

    The last section relates the two harnesses of the development: the
    system of [System], in which a call is executed and answered in one
    step, is the asynchronous system under one of its schedules
    ([atomic_run]).  It is a lemma about the harnesses, not a property of
    the class. *)

From S2P Require Import Prelude Rxjs Actions Dialog Effects Samples Slots.
From S2P Require Import Reactions Machine Order Latest Coordinator Refinement.
From S2P Require Import Progress Backend Service System Queues Async.

Import (hints) Rx TodoActions TodoService TodoEffects.

(** ** Every run is a run of the class *)

Section trace.
Import TodoEffects Async.
Context {B : Type} `{!Backend B}.
Implicit Types (sys : state B) (ev : Event) (evs : list Event) (s : Slot).

(** What reaches the class in a step: the action the user dispatches, or
    the notifications by which a result is delivered. *)
Definition reaches (ev : Event) (sys : state B) : list TodoEffects.Event :=
  match ev with
  | User a => [Dispatch a]
  | Execute _ => []
  | Deliver k =>
      match inbox sys !! k with
      | Some r => replies (resp_call r) (resp_index r) (resp_result r)
      | None => []
      end
  end.

(** What reaches the class in a run. *)
Fixpoint trace (evs : list Event) (sys : state B) : list TodoEffects.Event :=
  match evs with
  | [] => []
  | ev :: evs => reaches ev sys ++ trace evs (step ev sys).1
  end.

Lemma class_run_app (evs1 evs2 : list TodoEffects.Event) st :
  TodoEffects.run (evs1 ++ evs2) st
  = ((TodoEffects.run evs2 (TodoEffects.run evs1 st).1).1,
     (TodoEffects.run evs1 st).2
       ++ (TodoEffects.run evs2 (TodoEffects.run evs1 st).1).2).
Proof. unfold TodoEffects.run. by rewrite for_each_app, seq_eq. Qed.

Lemma step_reaches ev sys :
  effects (step ev sys).1 = (TodoEffects.run (reaches ev sys) (effects sys)).1 ∧
  (step ev sys).2 = (TodoEffects.run (reaches ev sys) (effects sys)).2.
Proof.
  destruct ev as [a|k|k]; simpl reaches.
  - by rewrite async_step_user, react_eq.
  - destruct (wire sys !! k) as [[i c]|] eqn:Hk;
      [by rewrite (step_execute k i c)|by rewrite step_execute_none].
  - destruct (inbox sys !! k) as [r|] eqn:Hk;
      [by rewrite (step_deliver k r), react_eq|by rewrite step_deliver_none].
Qed.

(** The class in a run of the system is the class run on what reached
    it. *)
Lemma run_trace evs sys :
  effects (run evs sys).1 = (TodoEffects.run (trace evs sys) (effects sys)).1 ∧
  (run evs sys).2 = (TodoEffects.run (trace evs sys) (effects sys)).2.
Proof.
  revert sys. induction evs as [|ev evs IH]; intros sys; [done|].
  rewrite async_run_cons. cbn [fst snd trace]. rewrite class_run_app.
  cbn [fst snd]. destruct (step_reaches ev sys) as [<- <-].
  by destruct (IH (step ev sys).1) as [-> ->].
Qed.

(** So the system implements the request coordinator of the
    specification, whatever the timing: the slots of the class in a run of
    the system are the slots of the coordinator after the submissions,
    deliveries, failures and completions that reached the class, and the
    calls started and cancelled and the outcomes emitted are those of the
    coordinator, in the same order. *)
Corollary async_refines_coordinator evs :
  abs (effects (run evs (init (B:=B))).1)
  ≡ (Coordinator.run (labels TodoEffects.init (trace evs (init (B:=B))))
       Coordinator.init).1 ∧
  signals (run evs (init (B:=B))).2
  = (Coordinator.run (labels TodoEffects.init (trace evs (init (B:=B))))
       Coordinator.init).2.
Proof.
  destruct (run_trace evs (init (B:=B))) as [-> ->]. apply run_refines_init.
Qed.

Lemma dispatched_reaches ev sys : dispatched (reaches ev sys) = users [ev].
Proof.
  destruct ev as [a|k|k]; simpl; [done..|].
  destruct (inbox sys !! k) as [[i c [e|v]]|]; done.
Qed.

(** The actions that reach the class are those the user dispatched. *)
Lemma dispatched_trace evs sys : dispatched (trace evs sys) = users evs.
Proof.
  revert sys. induction evs as [|ev evs IH]; intros sys; [done|].
  cbn [trace]. rewrite dispatched_app, dispatched_reaches, IH.
  by destruct ev.
Qed.
End trace.

(** ** The service executes the requests in the order of their dispatch *)

(** The requests of a slot the system knows of: the calls the service has
    executed, the request on the wire, the calls that wait in the class. *)
Definition account {B : Type} (s : Slot) (sys : Async.state B)
  : list TodoService.Call :=
  System.of_slot s (Async.executed sys)
    ++ (snd <$> Async.for_slot s (Async.wire sys))
    ++ TodoEffects.waiting s (Async.effects sys).

Section order.
Import TodoEffects Async.
Context {B : Type} `{!Backend B}.
Implicit Types (sys : state B) (ev : Event) (evs : list Event) (s : Slot).
Implicit Types (mevs : list TodoEffects.Event).

(** Two lists of at most one element that hold the same elements are the
    same list. *)
Lemma Permutation_short {A} (l1 l2 : list A) :
  l1 ≡ₚ l2 → length l1 ≤ 1 → l1 = l2.
Proof.
  destruct l1 as [|x [|y l1]]; simpl; [| |lia]; intros Hl _; symmetry.
  - by apply Permutation_nil_r.
  - by apply Permutation_singleton_r.
Qed.

(** Of a [concatMap] effect at most one request is on the wire. *)
Lemma wire_short s sys :
  coherent sys → s ≠ LoadAll → length (for_slot s (wire sys)) ≤ 1.
Proof.
  intros (_ & _ & _ & Ht) Hs. specialize (Ht s). unfold tied_at in Ht.
  rewrite decide_False in Ht by done. apply Permutation_length in Ht.
  unfold in_transit in Ht. rewrite for_slot_app, length_app in Ht.
  destruct (in_flight s (effects sys)); simpl in Ht; lia.
Qed.

(** A reaction of the class adds to the account the requests that reached
    the class. *)
Lemma react_account s mevs sys :
  TodoEffects.wf (effects sys) →
  account s (react mevs sys).1 = account s sys ++ requests s (dispatched mevs).
Proof.
  intros Hwf. rewrite react_eq. unfold account. cbn [fst effects wire executed].
  rewrite for_slot_app, fmap_app, <-(calls_sent s) by apply run_well_addressed.
  by rewrite <-!app_assoc, run_account.
Qed.

(** An execution moves a request from the wire to the executed calls. *)
Lemma execute_account s k sys :
  coherent sys → s ≠ LoadAll → account s (step (Execute k) sys).1 = account s sys.
Proof.
  intros Hsys Hs. pose proof (wire_short s sys Hsys Hs) as Hshort.
  destruct (wire sys !! k) as [[i c]|] eqn:Hk; [|by rewrite step_execute_none].
  rewrite (step_execute k i c) by done. unfold account.
  cbn [fst effects wire executed]. rewrite System.of_slot_snoc.
  pose proof (delete_Permutation _ _ _ Hk) as Hp.
  apply (for_slot_perm s) in Hp. rewrite for_slot_cons in Hp. simpl in Hp.
  rewrite <-!app_assoc. f_equal. case_decide.
  - rewrite (Permutation_short _ _ Hp Hshort) in Hshort |- *.
    by destruct (for_slot s (delete k (wire sys))); [|simpl in Hshort; lia].
  - by rewrite (Permutation_short _ _ Hp Hshort).
Qed.

Lemma async_step_account s ev sys :
  coherent sys → s ≠ LoadAll →
  account s (step ev sys).1 = account s sys ++ requests s (users [ev]).
Proof.
  intros Hsys Hs. destruct ev as [a|k|k].
  - by apply react_account, Hsys.
  - rewrite requests_nil, app_nil_r. by apply execute_account.
  - rewrite requests_nil, app_nil_r.
    destruct (inbox sys !! k) as [r|] eqn:Hk; [|by rewrite step_deliver_none].
    rewrite (step_deliver k r), react_account by (done || apply Hsys).
    by destruct r as [i c [e|v]]; rewrite app_nil_r.
Qed.

Lemma async_users_app evs1 evs2 : users (evs1 ++ evs2) = users evs1 ++ users evs2.
Proof. apply omap_app. Qed.

(** C13. The service executes the requests of a [concatMap] effect in the
    order of their dispatch, whatever the timing.  In every run of the
    class against a service that executes the requests on the wire in any
    order and whose results arrive in any order and at any time, the calls
    of the slot the service has executed, followed by the request of the
    slot on the wire and by the calls that wait in the class, are the
    requests the user dispatched for the slot, in order; and the service is
    what the executed calls, in the order of their execution, have made of
    it.  Two updates of a todo reach the service in the order they were
    submitted, regardless of when either completes. *)
Theorem async_executes_in_order s evs :
  s ≠ LoadAll →
  account s (run evs (init (B:=B))).1 = requests s (users evs) ∧
  service (run evs (init (B:=B))).1
  = exec_all (executed (run evs (init (B:=B))).1) backend_init.
Proof.
  intros Hs. split; [|by destruct (run_coherent evs init coherent_init) as (_ & _ & ? & _)].
  induction evs as [|ev evs IH] using rev_ind; [by destruct s|].
  rewrite async_run_snoc, async_users_app, requests_app. cbn [fst].
  rewrite async_step_account by (done || apply run_coherent, coherent_init).
  by rewrite IH.
Qed.
End order.

(** ** Results that arrive: reported once, or dropped *)

Section arrival.
Import TodoEffects Async.
Context {B : Type} `{!Backend B}.
Implicit Types (sys : state B) (ev : Event) (evs : list Event) (s : Slot).
Implicit Types (r : Response) (k : nat).

(** The subscription of a result in the inbox is the one in flight of its
    slot, or has ended. *)
Lemma arrival_live_or_stale k r sys :
  coherent sys → inbox sys !! k = Some r →
  in_flight (slot_of_call (resp_call r)) (effects sys) = Some (answers r) ∨
  ∀ c', in_flight (slot_of_call (resp_call r)) (effects sys)
        ≠ Some (resp_index r, c').
Proof.
  intros (_ & _ & _ & Ht) Hk. rewrite (in_transit_deliver k r sys Hk) in Ht.
  apply (live_or_stale _ _ _ _ (Ht _)).
Qed.

(** The result of the call in flight is reported by one action, the
    outcome of the call. *)
Lemma deliver_live k r sys :
  inbox sys !! k = Some r →
  in_flight (slot_of_call (resp_call r)) (effects sys) = Some (answers r) →
  emits (step (Deliver k) sys).2
  = [Queues.outcome (resp_call r) (resp_result r)].
Proof.
  intros Hk Hi. rewrite (step_deliver k r), react_eq by done. cbn [snd effects].
  by destruct (answer _ _ (resp_result r) _ Hi) as (-> & _).
Qed.

(** A result whose subscription has ended is dropped: the class does not
    react and nothing changes but the inbox. *)
Lemma deliver_stale k r sys :
  inbox sys !! k = Some r →
  (∀ c', in_flight (slot_of_call (resp_call r)) (effects sys)
         ≠ Some (resp_index r, c')) →
  step (Deliver k) sys
  = (mkAsync (effects sys) (service sys) (wire sys) (delete k (inbox sys))
       (executed sys), []).
Proof.
  intros Hk Hi. rewrite (step_deliver k r), react_eq by done. cbn [effects wire].
  rewrite replies_stale by done. simpl. by rewrite app_nil_r.
Qed.

(** C19. Latest wins, whatever the timing.  In every run of the class
    against a service that executes the requests in any order and whose
    results arrive in any order, when a result of [loadAll] arrives and the
    class reacts to it at all, the result is that of the last [loadAll]
    the user dispatched, and it is reported by one action, the outcome of
    that call.  The result of a superseded [loadAll] is dropped on arrival,
    also when it arrives after the result of the request that superseded
    it. *)
Theorem async_latest_loadAll_wins evs k r :
  inbox (run evs (init (B:=B))).1 !! k = Some r →
  slot_of_call (resp_call r) = LoadAll →
  (step (Deliver k) (run evs (init (B:=B))).1).2 ≠ [] →
  last (requests LoadAll (users evs)) = Some (resp_call r) ∧
  emits (step (Deliver k) (run evs (init (B:=B))).1).2
  = [Queues.outcome (resp_call r) (resp_result r)].
Proof.
  intros Hk Hs Hout.
  pose proof (run_coherent evs init coherent_init) as Hsys.
  destruct (arrival_live_or_stale k r _ Hsys Hk) as [Hi|Hi];
    [|by rewrite (deliver_stale k r) in Hout].
  split; [|by apply deliver_live].
  rewrite Hs in Hi. destruct (run_trace evs (init (B:=B))) as [Htr _].
  rewrite Htr in Hi. apply loadAll_in_flight_latest in Hi.
  by rewrite dispatched_trace in Hi.
Qed.
End arrival.

(** ** Every result is reported once *)

(** The outcomes of the calls [cs], executed one after the other from the
    service [b]. *)
Fixpoint outcomes {B : Type} `{!Backend B} (cs : list TodoService.Call) (b : B)
  : list TodoActions.Action :=
  match cs with
  | [] => []
  | c :: cs =>
      Queues.outcome c (backend_exec c b).2 :: outcomes cs (backend_exec c b).1
  end.

(** The outcomes of slot [s] among [l]. *)
Definition outcomes_of (s : Slot) (l : list TodoActions.Action)
  : list TodoActions.Action :=
  filter (λ a, System.slot_of_outcome a = Some s) l.

(** The results of slot [s] that wait in the inbox. *)
Definition arriving {B : Type} (s : Slot) (sys : Async.state B)
  : list Async.Response :=
  filter (λ r, slot_of_call (Async.resp_call r) = s) (Async.inbox sys).

(** The action that reports a result. *)
Definition report (r : Async.Response) : TodoActions.Action :=
  Queues.outcome (Async.resp_call r) (Async.resp_result r).

Section reports.
Import TodoEffects Async.
Context {B : Type} `{!Backend B}.
Implicit Types (sys : state B) (ev : Event) (evs : list Event) (s : Slot).
Implicit Types (r : Response) (k : nat) (c : TodoService.Call).

Lemma outcomes_snoc cs c (b : B) :
  outcomes (cs ++ [c]) b
  = outcomes cs b ++ [Queues.outcome c (backend_exec c (exec_all cs b)).2].
Proof. revert b. induction cs as [|c' cs IH]; intros b; simpl; by rewrite ?IH. Qed.

Lemma slot_of_report c (res : Failure + Result (slot_of_call c)) :
  System.slot_of_outcome (Queues.outcome c res) = Some (slot_of_call c).
Proof. destruct res; [apply slot_of_failure|apply slot_of_success]. Qed.

Lemma outcomes_of_app s l1 l2 :
  outcomes_of s (l1 ++ l2) = outcomes_of s l1 ++ outcomes_of s l2.
Proof. apply filter_app. Qed.

Lemma outcomes_of_report s r :
  outcomes_of s [report r]
  = if decide (slot_of_call (resp_call r) = s) then [report r] else [].
Proof.
  unfold outcomes_of, report. rewrite filter_cons, filter_nil, slot_of_report.
  repeat case_decide; congruence.
Qed.

Lemma answers_arriving s sys :
  answers <$> arriving s sys = for_slot s (answers <$> inbox sys).
Proof.
  unfold arriving. induction (inbox sys) as [|r l IH]; [done|].
  rewrite fmap_cons, for_slot_cons, filter_cons. simpl.
  case_decide; by rewrite ?fmap_cons, IH.
Qed.

(** Of a [concatMap] effect at most one result is on its way back. *)
Lemma arriving_short s sys :
  coherent sys → s ≠ LoadAll → length (arriving s sys) ≤ 1.
Proof.
  intros Hsys Hs. pose proof (coherent_sequential s sys Hsys Hs) as Heq.
  apply (f_equal length) in Heq. unfold in_transit in Heq.
  rewrite for_slot_app, length_app, <-answers_arriving, length_fmap in Heq.
  destruct (in_flight s (effects sys)); simpl in Heq; lia.
Qed.

(** The result of a call of a [concatMap] effect always finds its
    subscription in flight. *)
Lemma arrival_live k r sys :
  coherent sys → inbox sys !! k = Some r →
  slot_of_call (resp_call r) ≠ LoadAll →
  in_flight (slot_of_call (resp_call r)) (effects sys) = Some (answers r).
Proof.
  intros Hsys Hk Hs.
  destruct (arrival_live_or_stale k r sys Hsys Hk) as [|Hst]; [done|].
  assert (answers r ∈ for_slot (slot_of_call (resp_call r)) (in_transit sys))
    as Hin.
  { apply elem_of_for_slot. split; [done|].
    rewrite (in_transit_deliver k r sys Hk). left. }
  rewrite coherent_sequential in Hin by done.
  destruct (in_flight _ (effects sys)) as [[j d]|] eqn:Hj; simpl in Hin;
    [|by apply elem_of_nil in Hin].
  apply list_elem_of_singleton in Hin. by rewrite Hin.
Qed.

(** What the class reports when a result arrives: the outcome of the
    call, or nothing. *)
Lemma deliver_reports k r sys :
  coherent sys → inbox sys !! k = Some r →
  emits (step (Deliver k) sys).2 = [report r] ∨
  emits (step (Deliver k) sys).2 = [].
Proof.
  intros Hsys Hk.
  destruct (arrival_live_or_stale k r sys Hsys Hk) as [Hi|Hi].
  - left. by apply deliver_live.
  - right. by rewrite (deliver_stale k r).
Qed.

(** Taking a result out of the inbox. *)
Lemma arriving_delete s k r sys :
  coherent sys → s ≠ LoadAll → inbox sys !! k = Some r →
  arriving s sys
  = (if decide (slot_of_call (resp_call r) = s) then [r] else [])
    ++ arriving s (step (Deliver k) sys).1.
Proof.
  intros Hsys Hs Hk. pose proof (arriving_short s sys Hsys Hs) as Hshort.
  rewrite (step_deliver k r), react_eq by done. unfold arriving in *.
  cbn [fst inbox]. apply Permutation_short; [|done].
  rewrite (delete_Permutation (inbox sys) k r) at 1 by done.
  rewrite filter_cons. by case_decide.
Qed.

Lemma executed_deliver k sys : executed (step (Deliver k) sys).1 = executed sys.
Proof.
  destruct (inbox sys !! k) as [r|] eqn:Hk;
    [by rewrite (step_deliver k r), react_eq|by rewrite step_deliver_none].
Qed.

(** One step keeps the account of the results of a slot: what was
    reported, followed by what is on its way back, is the outcomes of the
    executed calls of the slot. *)
Lemma step_reports s ev sys (seen : list TodoActions.Action) :
  coherent sys → s ≠ LoadAll →
  seen ++ (report <$> arriving s sys)
  = outcomes_of s (outcomes (executed sys) backend_init) →
  (seen ++ outcomes_of s (emits (step ev sys).2))
    ++ (report <$> arriving s (step ev sys).1)
  = outcomes_of s (outcomes (executed (step ev sys).1) backend_init).
Proof.
  intros Hsys Hs Hacc. destruct ev as [a|k|k].
  - rewrite async_step_user, react_eq. cbn [fst snd executed].
    by rewrite run_dispatch, dispatch_no_emit, app_nil_r.
  - destruct (wire sys !! k) as [[i c]|] eqn:Hk;
      [|by rewrite step_execute_none, app_nil_r].
    rewrite (step_execute k i c) by done. unfold arriving in *.
    cbn [fst snd executed inbox emits omap]. destruct Hsys as (_ & _ & He & _).
    rewrite outcomes_snoc, <-He, outcomes_of_app, <-Hacc, filter_app, fmap_app.
    rewrite app_nil_r, app_assoc. f_equal.
    change (Queues.outcome c ?res) with (report (mkResponse i c res)).
    rewrite outcomes_of_report, filter_cons. simpl. by case_decide.
  - destruct (inbox sys !! k) as [r|] eqn:Hk;
      [|by rewrite step_deliver_none, app_nil_r].
    rewrite (arriving_delete s k r), fmap_app, app_assoc in Hacc by done.
    rewrite executed_deliver, <-Hacc. f_equal. f_equal. case_decide as Hr.
    + rewrite (deliver_live k r); [|done|apply (arrival_live k); congruence].
      fold (report r). by rewrite outcomes_of_report, decide_True.
    + destruct (deliver_reports k r sys Hsys Hk) as [->| ->]; [|done].
      by rewrite outcomes_of_report, decide_False.
Qed.

(** The account of the results holds along every run. *)
Lemma run_reports s evs :
  s ≠ LoadAll →
  outcomes_of s (emits (run evs (init (B:=B))).2)
    ++ (report <$> arriving s (run evs (init (B:=B))).1)
  = outcomes_of s (outcomes (executed (run evs (init (B:=B))).1) backend_init).
Proof.
  intros Hs. induction evs as [|ev evs IH] using rev_ind; [done|].
  rewrite async_run_snoc. cbn [fst snd]. rewrite emits_app, outcomes_of_app.
  apply step_reports; [apply run_coherent, coherent_init|done..].
Qed.

(** C15. Every result is reported once, whatever the timing.  In every run
    of the class against a service that executes the requests in any order
    and whose results arrive in any order and at any time, for every
    [concatMap] effect: the actions of the slot the class has emitted,
    followed by the outcomes of the results of the slot that are on their
    way back, are the outcomes of the calls the service has executed for
    the slot, in the order of their execution.  No result is dropped, none
    is reported twice, and the class emits nothing else for the slot. *)
Theorem every_result_reported_once s evs :
  s ≠ LoadAll →
  outcomes_of s (emits (run evs (init (B:=B))).2)
    ++ (report <$> arriving s (run evs (init (B:=B))).1)
  = outcomes_of s (outcomes (executed (run evs (init (B:=B))).1) backend_init).
Proof. apply run_reports. Qed.
End reports.

(** ** Atomic answers are one schedule *)

(** The place of a request on the wire. *)
Definition place (x : Async.Request) (l : list Async.Request) : option nat :=
  fst <$> list_find (λ y, y = x) l.

Section schedule.
Import TodoEffects.
Context {B : Type} `{!Backend B}.
Implicit Types (sys : System.state B) (asys : Async.state B).
Implicit Types (ev : System.Event) (evs : list System.Event) (s : Slot).

(** An event of [System] as events of the asynchronous system: an answer
    to a slot is the execution of the request of the slot on the wire,
    followed at once by the delivery of its result. *)
Definition translate (ev : System.Event) (asys : Async.state B)
  : list Async.Event :=
  match ev with
  | System.User a => [Async.User a]
  | System.Respond s =>
      match in_flight s (Async.effects asys)
            ≫= λ x, place x (Async.wire asys) with
      | Some k => [Async.Execute k; Async.Deliver (length (Async.inbox asys))]
      | None => []
      end
  end.

Fixpoint schedule (evs : list System.Event) (asys : Async.state B)
  : list Async.Event :=
  match evs with
  | [] => []
  | ev :: evs =>
      translate ev asys
        ++ schedule evs (Async.run (translate ev asys) asys).1
  end.

(** The two systems agree: same class, same service, same executed calls;
    nothing waits in the inbox. *)
Definition atomic (sys : System.state B) (asys : Async.state B) : Prop :=
  Async.effects asys = System.effects sys ∧
  Async.service asys = System.store sys ∧
  Async.executed asys = System.executed sys ∧
  Async.inbox asys = [] ∧ Async.coherent asys.

Lemma place_in_flight s x asys :
  Async.coherent asys → Async.inbox asys = [] →
  in_flight s (Async.effects asys) = Some x →
  ∃ k, place x (Async.wire asys) = Some k ∧ Async.wire asys !! k = Some x.
Proof.
  intros Hsys Hin Hx. pose proof (coherent_in_flight s x asys Hsys Hx) as Hel.
  unfold Async.in_transit in Hel. rewrite Hin, app_nil_r in Hel.
  destruct (list_find_elem_of (λ y, y = x) _ x Hel eq_refl) as [[k y] Hk].
  unfold place. rewrite Hk. exists k. split; [done|].
  by apply list_find_Some in Hk as (? & -> & _).
Qed.

Lemma translate_respond i c k asys :
  Async.inbox asys = [] → Async.wire asys !! k = Some (i, c) →
  Async.run [Async.Execute k; Async.Deliver 0] asys
  = Async.react (replies c i (backend_exec c (Async.service asys)).2)
      (Async.mkAsync (Async.effects asys) (backend_exec c (Async.service asys)).1
         (delete k (Async.wire asys)) [] (Async.executed asys ++ [c])).
Proof.
  intros Hin Hk. rewrite !async_run_cons, (step_execute k i c) by done.
  cbn [fst snd]. rewrite Hin.
  rewrite (step_deliver 0 (Async.mkResponse i c _)) by done.
  unfold Async.run. rewrite for_each_nil. cbn [fst snd app].
  rewrite app_nil_r. by destruct (Async.react _ _).
Qed.

Lemma translate_in_flight s i c asys :
  Async.coherent asys → Async.inbox asys = [] →
  in_flight s (Async.effects asys) = Some (i, c) →
  ∃ k, translate (System.Respond s) asys
       = [Async.Execute k; Async.Deliver 0] ∧
       Async.wire asys !! k = Some (i, c).
Proof.
  intros Hsys Hin Hi.
  destruct (place_in_flight s (i, c) asys Hsys Hin Hi) as (k & Hp & Hk).
  exists k. split; [|done]. unfold translate. rewrite Hi. simpl.
  by rewrite Hp, Hin.
Qed.

Lemma translate_idle s asys :
  in_flight s (Async.effects asys) = None →
  translate (System.Respond s) asys = [].
Proof. intros Hi. unfold translate. by rewrite Hi. Qed.

Lemma atomic_step ev sys asys :
  atomic sys asys →
  atomic (System.step ev sys).1 (Async.run (translate ev asys) asys).1 ∧
  (Async.run (translate ev asys) asys).2 = (System.step ev sys).2.
Proof.
  intros (He & Hs & Hx & Hin & Hsys).
  assert (Async.coherent (Async.run (translate ev asys) asys).1) as Hsys'
    by by apply run_coherent.
  unfold atomic. destruct ev as [a|s].
  - rewrite System.step_user. simpl translate in *. unfold Async.run in *.
    rewrite for_each_singleton in *. rewrite async_step_user, react_eq in *.
    cbn [fst snd Async.effects Async.service Async.executed Async.inbox
         System.effects System.store System.executed] in *.
    by rewrite run_dispatch, He in *.
  - destruct (in_flight s (Async.effects asys)) as [[i c]|] eqn:Hi.
    + destruct (translate_in_flight s i c asys Hsys Hin Hi) as (k & Htr & Hk).
      rewrite Htr in *. rewrite He in Hi.
      rewrite (System.step_respond s i c) by done.
      rewrite (translate_respond i c k), react_eq in * by done.
      cbn [fst snd Async.effects Async.service Async.executed Async.inbox
           System.effects System.store System.executed] in *.
      by rewrite He, Hs, Hx in *.
    + rewrite translate_idle in * by done. rewrite He in Hi.
      by rewrite System.step_respond_idle.
Qed.

Lemma atomic_run evs sys asys :
  atomic sys asys →
  atomic (System.run evs sys).1 (Async.run (schedule evs asys) asys).1 ∧
  (Async.run (schedule evs asys) asys).2 = (System.run evs sys).2.
Proof.
  revert sys asys. induction evs as [|ev evs IH]; intros sys asys Hat; [done|].
  destruct (atomic_step ev sys asys Hat) as [Hat' Hout].
  destruct (IH _ _ Hat') as [Hat'' Hout'].
  rewrite System.sys_run_cons. cbn [schedule]. unfold Async.run in *.
  rewrite for_each_app, seq_eq. cbn [fst snd]. split; [done|].
  by rewrite Hout, Hout'.
Qed.
End schedule.

(** ** The theorems at work *)

Section examples.
Import TodoEffects Async.

(** The class against the service on an empty repository, with nothing in
    the network. *)
Definition quiet : state TodoRepository.store := init.

(** "Buy milk" is created; two updates and a remove of it are dispatched;
    the service executes the remove, which is alone on its wire, before
    the first update, and the result of the update arrives before that of
    the remove. *)
Definition racing : list Event :=
  [User (TodoActions.create milk_draft); Execute 0; Deliver 0;
   User (TodoActions.update (titled "A")); User (TodoActions.update (titled "B"));
   User (TodoActions.remove "t1"); Execute 1; Execute 0; Deliver 1].

(** "Buy milk" is created; two pages are requested one after the other;
    the service executes the second request before the first. *)
Definition paging : list Event :=
  [User (TodoActions.create milk_draft); Execute 0; Deliver 0;
   User (TodoActions.loadAll 0 10); User (TodoActions.loadAll 1 10);
   Execute 1; Execute 0].

Lemma async_executes_in_order_witness :
  account Update (run racing quiet).1 = requests Update (users racing) ∧
  service (run racing quiet).1
  = exec_all (executed (run racing quiet).1) backend_init.
Proof.
  unfold quiet.
  apply (async_executes_in_order (B:=TodoRepository.store) Update racing).
  discriminate.
Defined.

Lemma async_latest_loadAll_wins_witness :
  last (requests LoadAll (users paging)) = Some (TodoService.findAll 1 10) ∧
  emits (step (Deliver 0) (run paging quiet).1).2
  = [Queues.outcome (TodoService.findAll 1 10) (inr [])].
Proof.
  unfold quiet.
  apply (async_latest_loadAll_wins (B:=TodoRepository.store) paging 0
           (mkResponse 1 (TodoService.findAll 1 10) (inr [])));
    [by vm_compute|done|by vm_compute].
Defined.

Lemma every_result_reported_once_witness :
  outcomes_of Update (emits (run racing quiet).2)
    ++ (report <$> arriving Update (run racing quiet).1)
  = outcomes_of Update (outcomes (executed (run racing quiet).1) backend_init).
Proof.
  unfold quiet.
  apply (every_result_reported_once (B:=TodoRepository.store) Update racing).
  discriminate.
Defined.

(** In the run [racing] the remove was executed before the update the user
    dispatched before it: the update fails, and its failure is the first
    outcome to arrive. *)
Example racing_outcomes :
  executed (run racing quiet).1
  = [TodoService.create milk_draft; TodoService.remove "t1";
     TodoService.update (titled "A")] ∧
  emits (run racing quiet).2
  = [TodoActions.createSuccess milk;
     TodoActions.updateFailure TodoRepository.not_found] ∧
  in_transit (run racing quiet).1
  = [(1, TodoService.update (titled "B")); (0, TodoService.remove "t1")].
Proof. by vm_compute. Qed.

(** In the run [paging] the result of the first request arrives after that
    of the second and is dropped: the class reports the second page
    only. *)
Example superseded_page_dropped :
  emits (run (paging ++ [Deliver 0; Deliver 0]) quiet).2
  = [TodoActions.createSuccess milk; TodoActions.loadAllSuccess []] ∧
  inbox (run (paging ++ [Deliver 0; Deliver 0]) quiet).1 = [].
Proof. by vm_compute. Qed.

(** The schedule of a run of [System]: each answer is an execution and a
    delivery. *)
Example schedule_of_scenario :
  schedule [System.User (TodoActions.create milk_draft); System.Respond Create;
            System.User (TodoActions.update milk_done); System.Respond Load;
            System.Respond Update] quiet
  = [User (TodoActions.create milk_draft); Execute 0; Deliver 0;
     User (TodoActions.update milk_done); Execute 0; Deliver 0].
Proof. by vm_compute. Qed.
End examples.
