(* ===== verification/Timing.v ===== *)
(** * Writes to a todo under any timing

    The specification asks that updates of a todo take effect in the order
    they were submitted, regardless of completion timing.  This file proves
    it for the class against the service behind a network ([Async]), where
    the requests on the wire are executed in any order and the results
    arrive in any order: once the service has executed the updates that
    were dispatched, the todo is as the last of them says.

    The argument has two halves.  The class sends the updates one at a
    time, so the service executes them in the order of their dispatch
    ([Schedules]); and the repository is a register for each todo, so what
    it holds is what the executed calls wrote, one after the other
    ([Service]). *)

From S2P Require Import Prelude Rxjs Actions Dialog Effects Samples Slots.
From S2P Require Import Reactions Machine Order Latest Progress.
From S2P Require Import Backend Service System Queues Async Schedules.

Import (hints) Rx TodoActions TodoService TodoEffects.

(** The requests of a slot the service has not executed yet: the request
    on the wire and the calls that wait in the class. *)
Definition unexecuted {B : Type} (s : Slot) (sys : Async.state B)
  : list TodoService.Call :=
  (snd <$> Async.for_slot s (Async.wire sys))
    ++ TodoEffects.waiting s (Async.effects sys).

Section executed.
Import TodoEffects Async.
Context {B : Type} `{!Backend B}.
Implicit Types (sys : state B) (ev : Event) (evs : list Event) (s : Slot).

Lemma account_unexecuted s sys :
  account s sys = System.of_slot s (executed sys) ++ unexecuted s sys.
Proof. done. Qed.

Lemma account_init s : account s (init (B:=B)) = [].
Proof. by destruct s. Qed.

Lemma of_slot_app s (cs1 cs2 : list TodoService.Call) :
  System.of_slot s (cs1 ++ cs2) = System.of_slot s cs1 ++ System.of_slot s cs2.
Proof. apply filter_app. Qed.

Lemma elem_of_of_slot s c (cs : list TodoService.Call) :
  c ∈ System.of_slot s cs ↔ slot_of_call c = s ∧ c ∈ cs.
Proof. unfold System.of_slot. rewrite list_elem_of_filter. tauto. Qed.

(** A step adds to the executed calls, and the service is what the calls
    it executed have made of it. *)
Lemma step_executed ev sys :
  ∃ cs, executed (step ev sys).1 = executed sys ++ cs ∧
        service (step ev sys).1 = exec_all cs (service sys).
Proof.
  destruct ev as [a|k|k].
  - exists []. by rewrite async_step_user, react_eq, app_nil_r.
  - destruct (wire sys !! k) as [[i c]|] eqn:Hk.
    + exists [c]. by rewrite (step_execute k i c).
    + exists []. by rewrite step_execute_none, app_nil_r.
  - exists []. rewrite app_nil_r.
    destruct (inbox sys !! k) as [r|] eqn:Hk; [|by rewrite step_deliver_none].
    by rewrite (step_deliver k r), react_eq.
Qed.

Lemma run_executed evs sys :
  ∃ cs, executed (run evs sys).1 = executed sys ++ cs ∧
        service (run evs sys).1 = exec_all cs (service sys).
Proof.
  induction evs as [|ev evs (cs & He & Hs)] using rev_ind;
    [exists []; by rewrite app_nil_r|].
  rewrite async_run_snoc. cbn [fst].
  destruct (step_executed ev (run evs sys).1) as (cs' & -> & ->).
  exists (cs ++ cs'). by rewrite He, Hs, exec_all_app, app_assoc.
Qed.

(** The account of a slot grows by the requests the user dispatches. *)
Lemma async_run_account s evs sys :
  coherent sys → s ≠ LoadAll →
  account s (run evs sys).1 = account s sys ++ requests s (users evs).
Proof.
  intros Hsys Hs. induction evs as [|ev evs IH] using rev_ind;
    [by rewrite requests_nil, app_nil_r|].
  rewrite async_run_snoc, async_users_app, requests_app. cbn [fst].
  rewrite async_step_account by (done || by apply run_coherent).
  by rewrite IH, app_assoc.
Qed.

(** The calls of a slot the service executes in a run are requests that
    were unexecuted before or that the user dispatches in the run, in that
    order; when none is left unexecuted they are all of them. *)
Lemma run_executes s evs sys cs :
  coherent sys → s ≠ LoadAll →
  executed (run evs sys).1 = executed sys ++ cs →
  System.of_slot s cs ++ unexecuted s (run evs sys).1
  = unexecuted s sys ++ requests s (users evs).
Proof.
  intros Hsys Hs He. pose proof (async_run_account s evs sys Hsys Hs) as Ha.
  rewrite !account_unexecuted, He, of_slot_app, <-!app_assoc in Ha.
  by apply app_inv_head in Ha.
Qed.
End executed.

(** ** What the executed calls leave of a todo *)

Section writes.
Import TodoRepository.
Implicit Types (id : TodoId) (t x : Todo) (o : option Todo).
Implicit Types (c : TodoService.Call) (cs : list TodoService.Call).

(** Only updates and a remove of the todo write to it. *)
Lemma written_updates id cs o :
  TodoService.remove id ∉ cs →
  foldl (written id) o cs = foldl (written id) o (System.of_slot Update cs).
Proof.
  revert o. induction cs as [|c cs IH]; [done|].
  intros o [Hc Hcs]%not_elem_of_cons. unfold System.of_slot in *.
  rewrite filter_cons. destruct c as [| | | |id']; simpl; try by apply IH.
  rewrite decide_False by congruence. by apply IH.
Qed.

(** Updates keep a todo, its identifier and its creation time. *)
Lemma written_keeps id cs t :
  TodoService.remove id ∉ cs →
  ∃ t', foldl (written id) (Some t) cs = Some t' ∧
        todoId t' = todoId t ∧ createdAt t' = createdAt t.
Proof.
  revert t. induction cs as [|c cs IH]; [by eauto|].
  intros t [Hc Hcs]%not_elem_of_cons. cbn [foldl].
  assert (written id (Some t) c = Some t ∨
          ∃ x, written id (Some t) c = Some (updated x t)) as [->|[x ->]].
  { destruct c as [| | |x|id']; simpl; auto.
    - case_decide; eauto.
    - rewrite decide_False by congruence. auto. }
  - by apply IH.
  - destruct (IH (updated x t) Hcs) as (t' & -> & ? & ?). eauto.
Qed.

(** After the calls, the todo is as the last update of it says. *)
Lemma written_last x cs t :
  Service.trim (title x) ≠ "" → TodoService.remove (todoId x) ∉ cs →
  last (System.of_slot Update cs) = Some (TodoService.update x) →
  foldl (written (todoId x)) (Some t) cs = Some (updated x t).
Proof.
  intros Hx Hcs [l Hl]%last_Some. rewrite written_updates, Hl, foldl_snoc by done.
  destruct (written_keeps (todoId x) l t) as (t' & -> & Hid & Hat).
  { intros Hin. apply Hcs. eapply elem_of_of_slot. rewrite Hl, elem_of_app. eauto. }
  simpl. rewrite decide_True by done. unfold updated. simpl. by rewrite Hid, Hat.
Qed.
End writes.

(** ** The last update wins *)

Section timing.
Import TodoEffects Async.
Implicit Types (sys : state TodoRepository.store) (evs : list Event).
Implicit Types (t x : Todo).

(** C14. The last update wins, whatever the timing.  The class runs against
    the service behind a network, from any state the system can be in in
    which the repository holds a todo.  The user dispatches any actions;
    the service executes the requests on the wire in any order and the
    results arrive in any order and at any time.  When the service has
    executed every update that was dispatched, the last of them being an
    update of the todo with a title, and no remove of the todo was
    dispatched, then the repository holds the todo with the title and the
    completion of that last update: updates take effect in the order of
    their submission, regardless of when any of them completes. *)
Theorem last_update_wins x t evs sys :
  coherent sys →
  TodoRepository.lookup (todoId x) (service sys) = Some t →
  Service.trim (title x) ≠ "" →
  last (unexecuted Update sys ++ requests Update (users evs))
  = Some (TodoService.update x) →
  TodoService.remove (todoId x)
    ∉ unexecuted Remove sys ++ requests Remove (users evs) →
  unexecuted Update (run evs sys).1 = [] →
  TodoRepository.lookup (todoId x) (service (run evs sys).1)
  = Some (updated x t).
Proof.
  intros Hsys Ht Hx Hlast Hrm Hdone.
  destruct (run_executed evs sys) as (cs & He & ->).
  pose proof (run_executes Update evs sys cs Hsys ltac:(done) He) as Hu.
  pose proof (run_executes Remove evs sys cs Hsys ltac:(done) He) as Hr.
  rewrite Hdone, app_nil_r in Hu. destruct Hsys as (_ & Hwf & _).
  rewrite exec_all_written, Ht by eauto using lookup_given.
  apply written_last; [done| |by rewrite Hu].
  intros Hin. apply Hrm. rewrite <-Hr, elem_of_app. left.
  by apply elem_of_of_slot.
Qed.
End timing.

(** ** The theorem at work *)

Section examples.
Import TodoEffects Async.

(** The repository holds "Buy milk", and nothing is in the network. *)
Definition stocked : state TodoRepository.store :=
  (run [User (TodoActions.create milk_draft); Execute 0; Deliver 0] quiet).1.

(** Two updates of "Buy milk" are dispatched with a request of a page and
    a remove of another todo between and after them.  The service executes
    the remove first, then the page, then the first update; the result of
    the update arrives before the others, the class sends the second
    update, and the service executes it. *)
Definition overlapping : list Event :=
  [User (TodoActions.update (titled "A")); User (TodoActions.loadAll 0 10);
   User (TodoActions.update (titled "B")); User (TodoActions.remove "t2");
   Execute 2; Execute 1; Execute 0; Deliver 2; Execute 0].

Lemma stocked_coherent : coherent stocked.
Proof. apply run_coherent, coherent_init. Qed.

Lemma last_update_wins_witness :
  TodoRepository.lookup "t1" (service (run overlapping stocked).1)
  = Some (updated (titled "B") milk).
Proof.
  apply (last_update_wins (titled "B") milk overlapping stocked);
    [apply stocked_coherent|by vm_compute..| |by vm_compute].
  apply (bool_decide_unpack _). by vm_compute.
Defined.

(** In that run the second update had not been sent when the first was
    executed, and the results of the remove and of the page are still on
    their way when the second update is executed. *)
Example overlapping_run :
  executed (run overlapping stocked).1
  = [TodoService.create milk_draft; TodoService.remove "t2";
     TodoService.findAll 0 10; TodoService.update (titled "A");
     TodoService.update (titled "B")] ∧
  emits (run overlapping stocked).2 = [TodoActions.updateSuccess (titled "A")] ∧
  resp_call <$> inbox (run overlapping stocked).1
  = [TodoService.remove "t2"; TodoService.findAll 0 10;
     TodoService.update (titled "B")].
Proof. by vm_compute. Qed.
End examples.
