(* ===== verification/Settling.v ===== *)
(** * The network settles

    The specification asks that no operation is silently dropped.  Against
    the service behind a network ([Async]) that is a statement about the
    schedules that go on: when the service keeps executing the request at
    the head of the wire and the result at the head of the inbox keeps
    arriving, the system comes to rest, with nothing on the wire, nothing
    on its way back, no call in flight and no call waiting; every request
    the user dispatched to a [concatMap] effect has then been executed, in
    order, and every one of them has been reported, once.  And whatever
    the order of the executions and arrivals, they end: a schedule of the
    network has as many events as it does [work].

    The measure that decreases is [work]: a request that waits in the
    class counts twice, as does a request on the wire, and a result on its
    way back once.  An execution turns a request on the wire into a
    result; a delivery takes a result away and lets at most one waiting
    request onto the wire. *)

From S2P Require Import Prelude Rxjs Actions Dialog Effects Samples Slots.
From S2P Require Import Reactions Machine Order Latest Progress.
From S2P Require Import Backend Service System Queues Transport Async.
From S2P Require Import Schedules Timing.

Import (hints) Rx TodoActions TodoService TodoEffects.

(** The calls that wait in the class, slot by slot. *)
Definition queued (st : TodoEffects.State) : list TodoService.Call :=
  TodoEffects.waiting LoadAll st ++ TodoEffects.waiting Load st
    ++ TodoEffects.waiting Create st ++ TodoEffects.waiting Update st
    ++ TodoEffects.waiting Remove st.

(** What is left to do. *)
Definition work {B : Type} (sys : Async.state B) : nat :=
  2 * length (Async.wire sys) + length (Async.inbox sys)
  + 2 * length (queued (Async.effects sys)).

(** The service executes the first request on the wire, and the first
    result in the inbox arrives: [n] times. *)
Fixpoint settle (n : nat) : list Async.Event :=
  match n with
  | 0 => []
  | S n => Async.Execute 0 :: Async.Deliver 0 :: settle n
  end.

(** Nothing is under way and nothing waits. *)
Definition at_rest {B : Type} (sys : Async.state B) : Prop :=
  Async.wire sys = [] ∧ Async.inbox sys = [] ∧
  ∀ s, TodoEffects.in_flight s (Async.effects sys) = None ∧
       TodoEffects.waiting s (Async.effects sys) = [].

(** An event of the network that takes place: the execution of a request
    that is on the wire, the arrival of a result that is in the inbox. *)
Definition effective {B : Type} (ev : Async.Event) (sys : Async.state B)
  : Prop :=
  match ev with
  | Async.User _ => False
  | Async.Execute k => is_Some (Async.wire sys !! k)
  | Async.Deliver k => is_Some (Async.inbox sys !! k)
  end.

(** A schedule of the network: executions and arrivals, in any order, each
    of which takes place when its turn comes. *)
Fixpoint scheduled {B : Type} `{!Backend B} (evs : list Async.Event)
    (sys : Async.state B) : Prop :=
  match evs with
  | [] => True
  | ev :: evs => effective ev sys ∧ scheduled evs (Async.step ev sys).1
  end.

#[export] Instance effective_dec {B : Type} ev (sys : Async.state B) :
  Decision (effective ev sys).
Proof. destruct ev; apply _. Defined.

#[export] Instance scheduled_dec {B : Type} `{!Backend B} evs
  (sys : Async.state B) : Decision (scheduled evs sys).
Proof. revert sys. induction evs; intros sys; apply _. Defined.

Section work.
Import TodoEffects Async.
Context {B : Type} `{!Backend B}.
Implicit Types (sys : state B) (ev : Event) (evs : list Event) (s : Slot).
Implicit Types (st : State) (r : Response) (k n : nat).

(** A reaction that leaves the other slots alone changes the number of
    waiting calls by what it changes in its slot. *)
Lemma queued_frame s st st' :
  (∀ s', s' ≠ s → waiting s' st' = waiting s' st) →
  length (queued st') + length (waiting s st)
  = length (queued st) + length (waiting s st').
Proof.
  intros Hs. unfold queued. rewrite !length_app.
  destruct s;
    rewrite ?(Hs LoadAll), ?(Hs Load), ?(Hs Create), ?(Hs Update), ?(Hs Remove)
      by done; lia.
Qed.

(** When the result of the call in flight arrives, each request the class
    sends was waiting. *)
Lemma queued_answer c i res st :
  in_flight (slot_of_call c) st = Some (i, c) →
  length (queued (TodoEffects.run (replies c i res) st).1)
    + length (sent (TodoEffects.run (replies c i res) st).2)
  = length (queued st).
Proof.
  intros Hi. rewrite (sent_answer c i res st Hi).
  destruct (answer c i res st Hi) as (_ & Hw & -> & Hst).
  pose proof (queued_frame (slot_of_call c) st (TodoEffects.run (replies c i res) st).1) as Hq.
  rewrite Hw in Hq.
  assert (∀ s', s' ≠ slot_of_call c →
            waiting s' (TodoEffects.run (replies c i res) st).1 = waiting s' st)
    as Hq'%Hq by (intros s' Hs'; by rewrite !view_waiting, Hst).
  destruct (waiting (slot_of_call c) st); simpl in *; lia.
Qed.

(** An execution does one unit of work. *)
Lemma execute_work k x sys :
  wire sys !! k = Some x → work (step (Execute k) sys).1 + 1 = work sys.
Proof.
  intros Hk. destruct x as [i c]. rewrite (step_execute k i c) by done.
  unfold work. cbn [fst wire inbox effects].
  rewrite length_delete, length_app by eauto. simpl.
  apply lookup_lt_Some in Hk. lia.
Qed.

(** So does a delivery. *)
Lemma deliver_work k r sys :
  coherent sys → inbox sys !! k = Some r →
  work (step (Deliver k) sys).1 + 1 = work sys.
Proof.
  intros Hsys Hk. pose proof (lookup_lt_Some _ _ _ Hk) as Hlt.
  destruct (arrival_live_or_stale k r sys Hsys Hk) as [Hi|Hi].
  - rewrite (step_deliver k r), react_eq by done. unfold work.
    cbn [fst wire inbox effects]. rewrite length_app, length_delete by eauto.
    pose proof (queued_answer _ _ (resp_result r) _ Hi). lia.
  - rewrite (deliver_stale k r) by done. unfold work.
    cbn [fst wire inbox effects]. rewrite length_delete by eauto. lia.
Qed.

(** With nothing in the network, nothing waits in the class. *)
Lemma empty_network_idle s sys :
  coherent sys → wire sys = [] → inbox sys = [] →
  in_flight s (effects sys) = None ∧ waiting s (effects sys) = [].
Proof.
  intros Hsys Hw Hb.
  assert (in_flight s (effects sys) = None) as Hi.
  { destruct (in_flight s (effects sys)) as [x|] eqn:Hx; [|done].
    apply (coherent_in_flight s x sys Hsys) in Hx. unfold in_transit in Hx.
    rewrite Hw, Hb in Hx. by apply elem_of_nil in Hx. }
  split; [done|]. apply idle_no_waiting; [apply Hsys|done].
Qed.

(** Every event of the network that takes place does one unit of work. *)
Lemma effective_work ev sys :
  coherent sys → effective ev sys → work (step ev sys).1 + 1 = work sys.
Proof.
  intros Hsys. destruct ev as [a|k|k]; simpl; [done|intros [x Hk]..].
  - by apply (execute_work k x).
  - by apply (deliver_work k x).
Qed.

Lemma at_rest_work sys : at_rest sys → work sys = 0.
Proof.
  intros (Hw & Hb & Hs). unfold work, queued. rewrite Hw, Hb.
  by rewrite !(proj2 (Hs _)).
Qed.

Lemma work_done sys : coherent sys → work sys = 0 → at_rest sys.
Proof.
  intros Hsys Hw. unfold work in Hw.
  assert (wire sys = []) as Hwire by (apply length_zero_iff_nil; lia).
  assert (inbox sys = []) as Hbox by (apply length_zero_iff_nil; lia).
  split_and!; [done..|]. intros s. by apply empty_network_idle.
Qed.
End work.

(** ** Every schedule ends *)

Section schedules.
Import TodoEffects Async.
Context {B : Type} `{!Backend B}.
Implicit Types (sys : state B) (ev : Event) (evs : list Event).

(** A schedule does as many units of work as it has events. *)
Lemma scheduled_work evs sys :
  coherent sys → scheduled evs sys →
  length evs + work (run evs sys).1 = work sys.
Proof.
  revert sys. induction evs as [|ev evs IH]; intros sys Hsys; [done|].
  intros [Hev Hevs]. rewrite async_run_cons. cbn [fst length].
  pose proof (effective_work ev sys Hsys Hev).
  pose proof (IH _ (step_coherent ev sys Hsys) Hevs). lia.
Qed.

(** While there is work, the network can move: the first request on the
    wire can be executed, or the first result in the inbox can arrive. *)
Lemma network_progress sys :
  coherent sys →
  at_rest sys ∨ effective (Execute 0) sys ∨ effective (Deliver 0) sys.
Proof.
  intros Hsys. simpl.
  destruct (wire sys) as [|x w] eqn:Hw; [|right; left; by exists x].
  destruct (inbox sys) as [|r b] eqn:Hb; [|right; right; by exists r].
  left. split_and!; [done..|]. intros s. by apply empty_network_idle.
Qed.

(** C17. The network comes to rest under every schedule.  From any state the
    system can be in, when the user dispatches nothing more, every
    sequence of executions and arrivals that take place, in whatever
    order, has as many events as the [work] it does: no schedule is longer
    than the work there is at its start.  The system is at rest exactly
    when the schedule has done all of it, and until then the network can
    move: the first request on the wire can be executed or the first
    result in the inbox can arrive.  The class never answers a result with
    more work than the result took away. *)
Theorem network_terminates evs sys :
  coherent sys → scheduled evs sys →
  length evs + work (run evs sys).1 = work sys ∧
  (at_rest (run evs sys).1 ↔ length evs = work sys) ∧
  (at_rest (run evs sys).1 ∨ effective (Execute 0) (run evs sys).1
   ∨ effective (Deliver 0) (run evs sys).1).
Proof.
  intros Hsys Hevs. pose proof (scheduled_work evs sys Hsys Hevs) as Hw.
  pose proof (run_coherent evs sys Hsys) as Hfin.
  split_and!; [done| |by apply network_progress].
  split; [intros ?%at_rest_work; lia|].
  intros Hl. apply work_done; [done|lia].
Qed.
End schedules.

(** ** Coming to rest *)

Section settle.
Import TodoEffects Async.
Context {B : Type} `{!Backend B}.
Implicit Types (sys : state B) (ev : Event) (evs : list Event) (s : Slot).
Implicit Types (n : nat).

(** One round does a unit of work, if there is any. *)
Lemma round_work sys :
  coherent sys → work (run [Execute 0; Deliver 0] sys).1 ≤ pred (work sys).
Proof.
  intros Hsys. rewrite async_run_cons. unfold run at 1.
  rewrite for_each_singleton. cbn [fst].
  pose proof (step_coherent (Execute 0) sys Hsys) as Hsys1.
  assert (work (step (Deliver 0) (step (Execute 0) sys).1).1
          ≤ work (step (Execute 0) sys).1) as Hd.
  { destruct (inbox (step (Execute 0) sys).1 !! 0) as [r|] eqn:Hr;
      [|by rewrite step_deliver_none].
    pose proof (deliver_work 0 r _ Hsys1 Hr). lia. }
  destruct (wire sys !! 0) as [x|] eqn:Hw;
    [pose proof (execute_work 0 x sys Hw); lia|].
  rewrite step_execute_none in * by done. cbn [fst] in *.
  destruct (inbox sys !! 0) as [r|] eqn:Hr;
    [pose proof (deliver_work 0 r sys Hsys Hr); lia|].
  rewrite step_deliver_none by done. unfold work, queued. cbn [fst].
  destruct (wire sys) eqn:Hwire, (inbox sys) eqn:Hbox; try done.
  by rewrite !(proj2 (empty_network_idle _ sys Hsys Hwire Hbox)).
Qed.

(** As many rounds as there is work bring the system to rest. *)
Lemma settle_work n sys :
  coherent sys → work sys ≤ n → work (run (settle n) sys).1 = 0.
Proof.
  revert sys. induction n as [|n IH]; intros sys Hsys Hn; [simpl; lia|].
  change (settle (S n)) with ([Execute 0; Deliver 0] ++ settle n).
  rewrite async_run_app. cbn [fst]. apply IH; [by apply run_coherent|].
  pose proof (round_work sys Hsys). lia.
Qed.

Lemma users_settle n : users (settle n) = [].
Proof. induction n; by simpl. Qed.

Lemma settle_at_rest n sys :
  coherent sys → work sys ≤ n → at_rest (run (settle n) sys).1.
Proof.
  intros Hsys Hn. apply work_done; [by apply run_coherent|by apply settle_work].
Qed.

(** At rest, every request was executed and every result has arrived. *)
Lemma at_rest_unexecuted s sys : at_rest sys → unexecuted s sys = [].
Proof.
  intros (Hw & _ & Hs). unfold unexecuted. rewrite Hw.
  by destruct (Hs s) as [_ ->].
Qed.

Lemma at_rest_arriving s sys : at_rest sys → arriving s sys = [].
Proof. intros (_ & Hb & _). unfold arriving. by rewrite Hb. Qed.

(** C16. Every request is served.  In a run of the class against a service
    behind a network, after any events (actions of the user, executions
    and arrivals in any order), let the service execute the first request
    on the wire and the first result in the inbox arrive, as many times as
    there is [work] left.  Then the system is at rest: nothing is on the
    wire, no result is on its way back, no call is in flight and none
    waits.  Every request the user dispatched to a [concatMap] effect has
    been executed, in the order of the dispatch, and the actions the class
    has emitted for the effect are the outcomes of those calls, in order:
    no operation was dropped. *)
Theorem every_request_served s evs :
  s ≠ LoadAll →
  at_rest (run (evs ++ settle (work (run evs (init (B:=B))).1)) init).1 ∧
  System.of_slot s
    (executed (run (evs ++ settle (work (run evs (init (B:=B))).1)) init).1)
  = requests s (users evs) ∧
  outcomes_of s
    (emits (run (evs ++ settle (work (run evs (init (B:=B))).1)) init).2)
  = outcomes_of s
      (outcomes
         (executed (run (evs ++ settle (work (run evs (init (B:=B))).1)) init).1)
         backend_init).
Proof.
  intros Hs. set (n := work (run evs init).1).
  assert (at_rest (run (evs ++ settle n) init).1) as Hrest.
  { rewrite async_run_app. cbn [fst].
    apply settle_at_rest; [apply run_coherent, coherent_init|done]. }
  split_and!; [done| |].
  - pose proof (async_run_account s (evs ++ settle n) init coherent_init Hs) as Ha.
    rewrite account_unexecuted, at_rest_unexecuted, app_nil_r in Ha by done.
    by rewrite Ha, account_init, async_users_app, users_settle, app_nil_r.
  - rewrite <-(run_reports s) by done.
    by rewrite at_rest_arriving, app_nil_r.
Qed.
End settle.

(** ** The theorem at work *)

Section examples.
Import TodoEffects Async.

Lemma every_request_served_witness :
  at_rest (run (racing ++ settle (work (run racing quiet).1)) quiet).1 ∧
  System.of_slot Update
    (executed (run (racing ++ settle (work (run racing quiet).1)) quiet).1)
  = requests Update (users racing) ∧
  outcomes_of Update
    (emits (run (racing ++ settle (work (run racing quiet).1)) quiet).2)
  = outcomes_of Update
      (outcomes
         (executed (run (racing ++ settle (work (run racing quiet).1)) quiet).1)
         backend_init).
Proof.
  unfold quiet.
  apply (every_request_served (B:=TodoRepository.store) Update racing).
  discriminate.
Defined.

Lemma network_terminates_witness :
  length [Execute 0; Deliver 1; Deliver 0]
    + work (run [Execute 0; Deliver 1; Deliver 0] (run racing quiet).1).1
  = work (run racing quiet).1 ∧
  (at_rest (run [Execute 0; Deliver 1; Deliver 0] (run racing quiet).1).1
   ↔ length [Execute 0; Deliver 1; Deliver 0] = work (run racing quiet).1) ∧
  (at_rest (run [Execute 0; Deliver 1; Deliver 0] (run racing quiet).1).1
   ∨ effective (Execute 0)
       (run [Execute 0; Deliver 1; Deliver 0] (run racing quiet).1).1
   ∨ effective (Deliver 0)
       (run [Execute 0; Deliver 1; Deliver 0] (run racing quiet).1).1).
Proof.
  apply (network_terminates [Execute 0; Deliver 1; Deliver 0]
           (run racing quiet).1).
  - apply run_coherent, coherent_init.
  - apply (bool_decide_unpack _). by vm_compute.
Defined.

(** After the run [racing] an update is on the wire and the result of the
    remove is on its way back: three units of work.  When the network has
    settled both updates have been executed and have failed, the todo
    being removed before the first of them was executed, and both failures
    were reported. *)
Example racing_settles :
  work (run racing quiet).1 = 3 ∧
  executed (run (racing ++ settle 3) quiet).1
  = [TodoService.create milk_draft; TodoService.remove "t1";
     TodoService.update (titled "A"); TodoService.update (titled "B")] ∧
  emits (run (racing ++ settle 3) quiet).2
  = [TodoActions.createSuccess milk;
     TodoActions.updateFailure TodoRepository.not_found;
     TodoActions.removeSuccess "t1";
     TodoActions.updateFailure TodoRepository.not_found] ∧
  wire (run (racing ++ settle 3) quiet).1 = [] ∧
  inbox (run (racing ++ settle 3) quiet).1 = [].
Proof. by vm_compute. Qed.
End examples.

(** ** With a transport that rejects a call *)

Section rejected.
Import TodoEffects Async.

(** The transport is up for the first call and answers the second with
    503. *)
#[local] Instance rejecting : Backend (Transport.state TodoRepository.store) :=
  transport_backend [None; Some 503].

(** "Buy milk" is created and two updates of it are dispatched. *)
Definition two_updates : list Event :=
  [User (TodoActions.create milk_draft); Execute 0; Deliver 0;
   User (TodoActions.update (titled "A")); User (TodoActions.update (titled "B"))].

(** The theorems on the network hold with the transport, being proved for
    every backend.  The first update is rejected and reported as a
    failure; it does not block the second, which the service executes:
    the todo ends with the title of the second update and has never had
    that of the first. *)
Example rejected_update_does_not_block :
  at_rest (run (two_updates ++ settle (work (run two_updates init).1)) init).1 ∧
  emits (run (two_updates ++ settle (work (run two_updates init).1)) init).2
  = [TodoActions.createSuccess milk;
     TodoActions.updateFailure (Transport.rejected 503);
     TodoActions.updateSuccess (titled "B")] ∧
  TodoRepository.lookup "t1"
    (Transport.service
       (service (run (two_updates ++ settle (work (run two_updates init).1))
                   init).1))
  = Some (titled "B").
Proof.
  split; [|by vm_compute]. rewrite async_run_app. cbn [fst].
  apply settle_at_rest; [apply run_coherent, coherent_init|done].
Qed.
End rejected.
