(* ===== verification/Closing.v ===== *)
(** * Which dialog the arrival of a success closes

    A hide effect closes the dialog its field refers to when the success
    action of its request goes by.  The field is written by the show
    effect and read when the result arrives, and between the dispatch of
    a request and the arrival of its result anything can happen: the
    dialog a success closes is the one the field holds at the arrival, not
    the one the request was made from.

    This file states what an arrival does to the dialogs in the runs of
    the class against the service behind a network ([Async]), whatever the
    timing, and shows the consequence: a dialog opened after a request was
    dispatched is closed by the success of that request. *)

From S2P Require Import Prelude Rxjs Actions Dialog Effects Samples Slots.
From S2P Require Import Reactions Machine Order Latest Outcomes Progress.
From S2P Require Import Backend Service System Queues Async Schedules Timing.
From S2P Require Import Settling.

Import (hints) Rx TodoActions TodoService TodoEffects.

(** What the hide effect of a field does when its success action goes by:
    it closes the dialog the field refers to, or throws when the field is
    undefined. *)
Definition hides (f : TodoEffects.Field) (st : TodoEffects.State) : TodoEffects.Output :=
  match TodoEffects.field f st with
  | Some ref => TodoEffects.Closed ref
  | None => TodoEffects.Thrown f
  end.

(** The call a [concatMap] effect makes when the call in flight completes:
    the first of those that wait. *)
Definition next_call (s : Slot) (st : TodoEffects.State)
  : list TodoEffects.Output :=
  match TodoEffects.waiting s st with
  | [] => []
  | c :: _ => [TodoEffects.Subscribe s (TodoEffects.subscriptions s st) c]
  end.

Section arrival.
Import TodoEffects.
Implicit Types (st : State) (c : TodoService.Call) (i : nat) (f : Field).

(** A success action with a hide effect leaves the request effects as they
    are, and does what [hides] says. *)
Lemma dispatch_hides a f st :
  closes a = Some f →
  (dispatch a st).2 = [hides f st] ∧
  ∀ s, slot_state s (dispatch a st).1 = slot_state s st.
Proof.
  intros Ha. unfold hides. destruct (field f st) as [ref|] eqn:Hf.
  - rewrite (hide_closes a f ref) by done. split; [done|].
    intros s. apply view_frame_set_dialog.
  - by rewrite (hide_throws a f).
Qed.

(** The value of the call in flight arrives and its observable completes:
    the success action is emitted, the hide effect acts on the field as it
    is now, and the next waiting call is made. *)
Lemma success_arrives c i v f st :
  in_flight (slot_of_call c) st = Some (i, c) →
  closes (success c v) = Some f →
  (run (replies c i (inr v)) st).2
  = Emit (success c v) :: hides f st :: next_call (slot_of_call c) st.
Proof.
  intros Hi Hc. simpl replies. rewrite !run_cons, run_nil. cbn [fst snd].
  rewrite app_nil_r, (reply_value c i v st Hi), seq_eq. unfold emit.
  cbn [fst snd]. destruct (dispatch_hides _ f st Hc) as [-> Hst].
  set (st1 := (dispatch (success c v) st).1) in *.
  assert (in_flight (slot_of_call c) st1 = Some (i, c)) as Hi1
    by by rewrite view_in_flight, Hst, <-view_in_flight.
  rewrite (reply_complete _ i c) by done.
  destruct (slot_complete _ i c st1 Hi1) as (-> & _). unfold next_call.
  by rewrite !(view_waiting _ st1), (view_subscriptions _ st1), Hst,
    <-view_waiting, <-view_subscriptions.
Qed.
End arrival.

(** ** Arrivals in a run of the system *)

Section closing.
Import TodoEffects Async.
Context {B : Type} `{!Backend B}.
Implicit Types (sys : state B) (evs : list Event) (k : nat) (r : Response).
Implicit Types (f : Field).

(** A success with a hide effect is that of a [concatMap] effect. *)
Lemma closes_sequential c (v : Result (slot_of_call c)) f :
  closes (success c v) = Some f → slot_of_call c ≠ LoadAll.
Proof. by destruct c. Qed.

(** In a run from the start, a field holds the dialog that was opened last
    for it. *)
Lemma field_last_shown evs f :
  field f (effects (run evs (init (B:=B))).1)
  = last (opened f (run evs (init (B:=B))).2).
Proof.
  destruct (run_trace evs (init (B:=B))) as [-> ->].
  rewrite run_holds_last. destruct (last _); [done|by destruct f].
Qed.

(** What the class does when a value arrives for a request whose success
    has a hide effect. *)
Lemma deliver_success k r v f sys :
  coherent sys → inbox sys !! k = Some r → resp_result r = inr v →
  closes (success (resp_call r) v) = Some f →
  (step (Deliver k) sys).2
  = Emit (success (resp_call r) v) :: hides f (effects sys)
      :: next_call (slot_of_call (resp_call r)) (effects sys).
Proof.
  intros Hsys Hk Hv Hc.
  pose proof (arrival_live k r sys Hsys Hk (closes_sequential _ _ _ Hc)) as Hi.
  rewrite (step_deliver k r), react_eq by done. cbn [snd effects].
  rewrite Hv. by apply success_arrives.
Qed.

(** C18. The success that arrives closes the dialog shown last.  In every
    run of the class against a service behind a network, whatever the
    timing: when the value of a create, an update or a remove arrives, the
    class emits the success action, closes the dialog that the last show
    action of the field opened, and sends the next request that waits, in
    that order; when no dialog of the field was ever shown, it throws
    instead of closing.  The dialog closed is the one shown last at the
    arrival, also when it was shown after the request was dispatched. *)
Theorem arrival_closes_last_shown evs k r v f :
  inbox (run evs (init (B:=B))).1 !! k = Some r →
  resp_result r = inr v →
  closes (success (resp_call r) v) = Some f →
  (step (Deliver k) (run evs (init (B:=B))).1).2
  = Emit (success (resp_call r) v)
      :: match last (opened f (run evs (init (B:=B))).2) with
         | Some ref => Closed ref
         | None => Thrown f
         end
      :: next_call (slot_of_call (resp_call r)) (effects (run evs (init (B:=B))).1).
Proof.
  intros Hk Hv Hc.
  rewrite (deliver_success k r v f)
    by (done || apply run_coherent, coherent_init).
  unfold hides. by rewrite field_last_shown.
Qed.
End closing.

(** ** A dialog opened while a request is under way *)

Section under_way.
Import TodoEffects Async.
Context {B : Type} `{!Backend B}.
Implicit Types (sys : state B) (st : State) (c : TodoService.Call).

(** The request of an idle [concatMap] effect goes on the wire at once, at
    its end. *)
Lemma user_idle_request a c sys :
  call_of_action a = Some c → slot_of_call c ≠ LoadAll →
  in_flight (slot_of_call c) (effects sys) = None →
  step (User a) sys
  = (mkAsync (dispatch a (effects sys)).1 (service sys)
       (wire sys ++ [(subscriptions (slot_of_call c) (effects sys), c)])
       (inbox sys) (executed sys),
     [Subscribe (slot_of_call c) (subscriptions (slot_of_call c) (effects sys)) c]).
Proof.
  intros Ha Hs Hi. rewrite async_step_user, react_eq, run_dispatch.
  by destruct (idle_request_starts a c (effects sys) Ha Hs Hi) as (-> & _).
Qed.

(** A show action opens its dialog and leaves the network alone. *)
Lemma user_show a f cfg sys :
  shows a = Some (f, cfg) →
  step (User a) sys
  = (mkAsync (dispatch a (effects sys)).1 (service sys) (wire sys)
       (inbox sys) (executed sys),
     [Opened (MatDialog.open (component_of f) cfg (dialog (effects sys))).2]).
Proof.
  intros Ha. rewrite async_step_user, react_eq, run_dispatch.
  rewrite (show_opens a f cfg) by done. cbn [fst snd sent omap].
  by rewrite app_nil_r.
Qed.

(** The request at the end of the wire is executed; the result at the end
    of the inbox arrives. *)
Lemma execute_last w i c sys :
  wire sys = w ++ [(i, c)] →
  step (Execute (length w)) sys
  = (mkAsync (effects sys) (backend_exec c (service sys)).1 w
       (inbox sys ++ [mkResponse i c (backend_exec c (service sys)).2])
       (executed sys ++ [c]), []).
Proof.
  intros Hw. rewrite (step_execute (length w) i c), Hw
    by (rewrite Hw; apply list_lookup_middle; done).
  by rewrite delete_middle, app_nil_r.
Qed.

Lemma deliver_last b r sys :
  inbox sys = b ++ [r] →
  step (Deliver (length b)) sys
  = react (replies (resp_call r) (resp_index r) (resp_result r))
      (mkAsync (effects sys) (service sys) (wire sys) b (executed sys)).
Proof.
  intros Hb. rewrite (step_deliver (length b) r), Hb
    by (rewrite Hb; apply list_lookup_middle; done).
  by rewrite delete_middle, app_nil_r.
Qed.

(** A request leaves the dialogs as they are. *)
Lemma request_keeps_dialog a c st :
  call_of_action a = Some c → dialog (dispatch a st).1 = dialog st.
Proof.
  intros Ha. destruct (view_dispatch a c st Ha) as (x & _ & ->).
  apply slot_lift_dialog.
Qed.

(** The class after a request of an idle effect and a show action: the
    request is in flight, nothing waits behind it, and the field holds
    the dialog just opened. *)
Lemma shown_under_way a c b f cfg st :
  call_of_action a = Some c → slot_of_call c ≠ LoadAll →
  shows b = Some (f, cfg) →
  TodoEffects.wf st → in_flight (slot_of_call c) st = None →
  in_flight (slot_of_call c) (dispatch b (dispatch a st).1).1
  = Some (subscriptions (slot_of_call c) st, c) ∧
  waiting (slot_of_call c) (dispatch b (dispatch a st).1).1 = [] ∧
  field f (dispatch b (dispatch a st).1).1
  = Some (MatDialog.open (component_of f) cfg (dialog st)).2.
Proof.
  intros Ha Hs Hb Hwf Hi.
  destruct (idle_request_starts a c st Ha Hs Hi) as (_ & Hi1 & Hw1).
  rewrite (idle_no_waiting _ st Hwf Hi) in Hw1.
  assert (call_of_action b = None) as Hq by by destruct b.
  destruct (dispatch_dialog b (dispatch a st).1 Hq) as [Hst _].
  rewrite view_in_flight, view_waiting, Hst, <-view_in_flight, <-view_waiting.
  split_and!; [done..|]. rewrite (show_opens b f cfg) by done. cbn [fst].
  by rewrite field_set_field, decide_True, (request_keeps_dialog a c).
Qed.

(** C30. A dialog opened while a request is under way is closed by the
    success of that request.  The effect of the request is idle; the user
    dispatches the request and then the show action of the field the
    success of the request closes; the service executes the request with
    success and the result arrives.  Then the dialog the show action
    opened is closed, whatever it shows: the edit dialog of one todo by
    the success of an update of another. *)
Theorem success_closes_dialog_opened_later a c b f cfg v sys :
  call_of_action a = Some c → shows b = Some (f, cfg) →
  closes (success c v) = Some f →
  TodoEffects.wf (effects sys) →
  in_flight (slot_of_call c) (effects sys) = None →
  (backend_exec c (service sys)).2 = inr v →
  (run [User a; User b; Execute (length (wire sys));
        Deliver (length (inbox sys))] sys).2
  = [Subscribe (slot_of_call c) (subscriptions (slot_of_call c) (effects sys)) c;
     Opened (MatDialog.open (component_of f) cfg (dialog (effects sys))).2;
     Emit (success c v);
     Closed (MatDialog.open (component_of f) cfg (dialog (effects sys))).2].
Proof.
  intros Ha Hb Hc Hwf Hi Hv.
  pose proof (closes_sequential c v f Hc) as Hs.
  destruct (shown_under_way a c b f cfg _ Ha Hs Hb Hwf Hi) as (Hi2 & Hw2 & Hf2).
  rewrite async_run_cons, (user_idle_request a c) by done. cbn [fst snd].
  rewrite async_run_cons, (user_show b f cfg) by done. cbn [fst snd effects].
  rewrite async_run_cons, (execute_last (wire sys) _ c) by done.
  cbn [fst snd wire inbox service]. rewrite Hv.
  unfold run. rewrite for_each_singleton.
  rewrite (deliver_last (inbox sys) (mkResponse _ c (inr v))), react_eq by done.
  cbn [fst snd effects resp_call resp_index resp_result].
  rewrite (success_arrives c _ v f) by done.
  unfold hides, next_call. rewrite Hf2, Hw2.
  by rewrite (request_keeps_dialog a c).
Qed.
End under_way.

(** ** The theorem at work *)

Section examples.
Import TodoEffects Async.

(** The second todo of the repository. *)
Definition eggs : Todo := mkTodo "t2" "Buy eggs" false 2.

(** "Buy milk" and "Buy eggs" are created.  The user changes the title of
    "Buy milk", from the list and not from a dialog, and then opens the
    edit dialog of "Buy eggs"; the service executes the update. *)
Definition outrun : list Event :=
  [User (TodoActions.create milk_draft); Execute 0; Deliver 0;
   User (TodoActions.create eggs_draft); Execute 0; Deliver 0;
   User (TodoActions.update (titled "A"));
   User (TodoActions.showEditDialog eggs); Execute 0].

Lemma arrival_closes_last_shown_witness :
  (step (Deliver 0) (run outrun quiet).1).2
  = Emit (TodoActions.updateSuccess (titled "A"))
      :: match last (opened EditDialogRef (run outrun quiet).2) with
         | Some ref => Closed ref
         | None => Thrown EditDialogRef
         end
      :: next_call Update (effects (run outrun quiet).1).
Proof.
  unfold quiet.
  apply (arrival_closes_last_shown (B:=TodoRepository.store) outrun 0
           (mkResponse 0 (TodoService.update (titled "A")) (inr (titled "A")))
           (titled "A") EditDialogRef); by vm_compute.
Defined.

(** The repository holds "Buy milk" and "Buy eggs"; nothing is under
    way. *)
Definition pantry : state TodoRepository.store :=
  (run [User (TodoActions.create milk_draft); Execute 0; Deliver 0;
        User (TodoActions.create eggs_draft); Execute 0; Deliver 0] quiet).1.

Lemma success_closes_dialog_opened_later_witness :
  (run [User (TodoActions.update (titled "A"));
        User (TodoActions.showEditDialog eggs);
        Execute (length (wire pantry)); Deliver (length (inbox pantry))]
     pantry).2
  = [Subscribe Update (subscriptions Update (effects pantry))
       (TodoService.update (titled "A"));
     Opened (MatDialog.open TodoEditDialogComponent
               (mkConfig (Some "400px") (TodoData eggs))
               (dialog (effects pantry))).2;
     Emit (TodoActions.updateSuccess (titled "A"));
     Closed (MatDialog.open TodoEditDialogComponent
               (mkConfig (Some "400px") (TodoData eggs))
               (dialog (effects pantry))).2].
Proof.
  apply (success_closes_dialog_opened_later
           (TodoActions.update (titled "A")) (TodoService.update (titled "A"))
           (TodoActions.showEditDialog eggs) EditDialogRef
           (mkConfig (Some "400px") (TodoData eggs)) (titled "A") pantry);
    [done..| |by vm_compute|by vm_compute].
  apply (run_coherent _ quiet), coherent_init.
Defined.

(** When the result of the update arrives, the edit dialog of "Buy eggs"
    closes: the success of the update of "Buy milk" closes the dialog the
    user has just opened for another todo. *)
Example late_dialog_closed :
  (step (Deliver 0) (run outrun quiet).1).2
  = [Emit (TodoActions.updateSuccess (titled "A"));
     Closed (mkRef 0 TodoEditDialogComponent
               (mkConfig (Some "400px") (TodoData eggs)))] ∧
  MatDialog.openDialogs (dialog (effects (run outrun quiet).1))
  = [mkRef 0 TodoEditDialogComponent (mkConfig (Some "400px") (TodoData eggs))] ∧
  MatDialog.openDialogs
    (dialog (effects (step (Deliver 0) (run outrun quiet).1).1)) = [].
Proof. by vm_compute. Qed.
End examples.
